(** * SimpleParser: a shallow embedding of [simpleParser.js]

    The development follows the source file top to bottom.

    - [JS] models the host operations the program calls (string methods,
      the two regular expressions on characters, [Number], [parseInt],
      [parseFloat], [Number.prototype.toString], property assignment on
      plain objects and on arrays).
    - [Simple] holds the translation of every method of [class SimpleParser].
    - The theorems come last.

    Conventions of the model.

    - A JavaScript string is a Rocq [string]; a character is a code unit in
      the range 0..255.  On that range the class [\s] (and [trim]) is
      TAB, LF, VT, FF, CR, SPACE and NBSP.
    - A number is a decimal [m * 10^e] kept exactly, or [NaN], or an infinity.
      This agrees with binary64 on every numeral of at most 15 significant
      digits and on every integer below 2^53; [-0] is identified with [0]
      (they are [===] and print alike).  Beyond that range the program
      rounds, and overflows to an infinity, where the model does not: what
      is proved about the value or the digits of a number is stated for
      numerals within the range.
    - An object is its prototype and the list of its own entries in
      [Object.entries] order.  The prototype is [Object.prototype], [null],
      or a value that an assignment to [__proto__] installed; the built-in
      prototypes are as the language defines them.  Reading a property
      follows the prototype chain; what it finds there that is no value of
      the model ([undefined], a built-in function) is a single outcome,
      since the program only compares it with values.
    - An array is a list of slots, [None] being a hole.  A write at an index
      above 2^32-2 creates a named property, which no later step of the
      program reads, so the model leaves the array unchanged.
    - [Array.prototype.push] throws [RangeError] when the array already has
      2^32-1 elements.  This is the only way the index loop of
      [_astToObject] can stop on an unbounded range.
    - The instance fields [indentType], [indentSize] and [outerParsed] are a
      record threaded through [parse] and [stringify]. *)

From Stdlib Require Import String Ascii List ZArith NArith Lia Bool Arith.
From Stdlib Require Import DecimalString DecimalN DecimalPos.
Import ListNotations.
Local Open Scope list_scope.
Local Open Scope string_scope.

(* ================================================================== *)
(** ** Host operations *)
(* ================================================================== *)

Module JS.

(** Named characters. *)
Definition TAB : ascii := Eval cbv in ascii_of_nat 9.
Definition LF : ascii := Eval cbv in ascii_of_nat 10.
Definition VT : ascii := Eval cbv in ascii_of_nat 11.
Definition FF : ascii := Eval cbv in ascii_of_nat 12.
Definition CR : ascii := Eval cbv in ascii_of_nat 13.
Definition SPACE : ascii := Eval cbv in ascii_of_nat 32.
Definition NBSP : ascii := Eval cbv in ascii_of_nat 160.
Definition DQUOTE : ascii := Eval cbv in ascii_of_nat 34.
Definition SQUOTE : ascii := Eval cbv in ascii_of_nat 39.
Definition BACKSLASH : ascii := Eval cbv in ascii_of_nat 92.

(** A one-character string. *)
Definition str1 (c : ascii) : string := String c EmptyString.

(** [\s] *)
Definition isSpace (c : ascii) : bool :=
  Ascii.eqb c TAB || Ascii.eqb c LF || Ascii.eqb c VT || Ascii.eqb c FF
  || Ascii.eqb c CR || Ascii.eqb c SPACE || Ascii.eqb c NBSP.

(** [\d] *)
Definition isDigit (c : ascii) : bool :=
  Ascii.leb "0" c && Ascii.leb c "9".

Definition isEmpty (s : string) : bool :=
  match s with EmptyString => true | _ => false end.

(** [s[0]], [undefined] being [None]. *)
Definition head (s : string) : option ascii :=
  match s with EmptyString => None | String c _ => Some c end.

(** The last character of [s]. *)
Fixpoint last (s : string) : option ascii :=
  match s with
  | EmptyString => None
  | String c EmptyString => Some c
  | String _ r => last r
  end.

Fixpoint trimStart (s : string) : string :=
  match s with
  | EmptyString => EmptyString
  | String c r => if isSpace c then trimStart r else s
  end.

Fixpoint trimEnd (s : string) : string :=
  match s with
  | EmptyString => EmptyString
  | String c r =>
      let r' := trimEnd r in
      if isSpace c && isEmpty r' then EmptyString else String c r'
  end.

(** [s.trim()] *)
Definition trim (s : string) : string := trimEnd (trimStart s).

(** [s.startsWith(p)] *)
Definition startsWith (p s : string) : bool := String.prefix p s.

(** [s.endsWith(p)] *)
Fixpoint endsWith (p s : string) : bool :=
  String.eqb s p ||
  match s with
  | EmptyString => false
  | String _ r => endsWith p r
  end.

(** [s.includes(p)] *)
Fixpoint includes (p s : string) : bool :=
  String.prefix p s ||
  match s with
  | EmptyString => false
  | String _ r => includes p r
  end.

(** [s.indexOf(c)] for a one-character [c]; [None] stands for [-1]. *)
Fixpoint indexOf (c : ascii) (s : string) : option nat :=
  match s with
  | EmptyString => None
  | String d r =>
      if Ascii.eqb d c then Some 0
      else match indexOf c r with Some i => Some (S i) | None => None end
  end.

(** [s.substring(a, b)]: both ends are clamped to the length and swapped
    when [a > b]. *)
Definition substring (a b : nat) (s : string) : string :=
  let a' := Nat.min a (String.length s) in
  let b' := Nat.min b (String.length s) in
  String.substring (Nat.min a' b') (Nat.max a' b' - Nat.min a' b') s.

(** [s.substring(a)] *)
Definition substringFrom (a : nat) (s : string) : string :=
  substring a (String.length s) s.

(** [s.split(c)] for a one-character separator. *)
Fixpoint split (c : ascii) (s : string) : list string :=
  match s with
  | EmptyString => [EmptyString]
  | String d r =>
      if Ascii.eqb d c then EmptyString :: split c r
      else match split c r with
           | h :: t => String d h :: t
           | [] => [str1 d]
           end
  end.

(** [l.join(sep)] *)
Fixpoint join (sep : string) (l : list string) : string :=
  match l with
  | [] => EmptyString
  | [x] => x
  | x :: r => x ++ sep ++ join sep r
  end.

(** [s.repeat(n)] *)
Fixpoint repeatStr (s : string) (n : nat) : string :=
  match n with
  | O => EmptyString
  | S k => s ++ repeatStr s k
  end.

(** The leading run of characters satisfying [p], and what follows it. *)
Fixpoint span (p : ascii -> bool) (s : string) : string * string :=
  match s with
  | EmptyString => (EmptyString, EmptyString)
  | String c r =>
      if p c then let '(a, b) := span p r in (String c a, b)
      else (EmptyString, s)
  end.

Fixpoint forallb (p : ascii -> bool) (s : string) : bool :=
  match s with
  | EmptyString => true
  | String c r => p c && forallb p r
  end.

(** *** Numbers *)

Inductive number : Type :=
| NaN
| Infinity (negative : bool)
| Finite (m e : Z).           (* m * 10^e *)

(** A fraction loses the trailing zeros of its mantissa; an integer is
    kept as [Finite m 0]. *)
Fixpoint stripZeros (fuel : nat) (m e : Z) : Z * Z :=
  match fuel with
  | O => (m, e)
  | S f =>
      if Z.ltb e 0 && Z.eqb (Z.rem m 10) 0
      then stripZeros f (Z.quot m 10) (e + 1)
      else (m, e)
  end.

Definition mkFinite (m e : Z) : number :=
  match e with
  | Z0 => Finite m 0
  | Zpos _ => Finite (m * 10 ^ e) 0
  | Zneg p => let '(m', e') := stripZeros (Pos.to_nat p) m e in Finite m' e'
  end.

Definition ofZ (z : Z) : number := Finite z 0.
Definition ofNat (n : nat) : number := ofZ (Z.of_nat n).

(** Both mantissas at the smaller of the two exponents. *)
Definition align (m1 e1 m2 e2 : Z) : Z * Z :=
  let e0 := Z.min e1 e2 in
  (m1 * 10 ^ (e1 - e0), m2 * 10 ^ (e2 - e0))%Z.

(** [a === b] on numbers. *)
Definition numEq (a b : number) : bool :=
  match a, b with
  | Finite m1 e1, Finite m2 e2 =>
      let '(x, y) := align m1 e1 m2 e2 in Z.eqb x y
  | Infinity s1, Infinity s2 => Bool.eqb s1 s2
  | _, _ => false
  end.

(** [a <= b] on numbers. *)
Definition numLe (a b : number) : bool :=
  match a, b with
  | NaN, _ | _, NaN => false
  | Infinity true, _ => true
  | _, Infinity false => true
  | Infinity false, _ => false
  | _, Infinity true => false
  | Finite m1 e1, Finite m2 e2 =>
      let '(x, y) := align m1 e1 m2 e2 in Z.leb x y
  end.

(** [isNaN(a)] *)
Definition isNaN (a : number) : bool :=
  match a with NaN => true | _ => false end.

(** The value of a number that is a non-negative integer. *)
Definition toIndex (a : number) : option N :=
  match a with
  | Finite m e =>
      if Z.ltb m 0 then None
      else
        match e with
        | Z0 => Some (Z.to_N m)
        | Zpos _ => Some (Z.to_N (m * 10 ^ e))
        | Zneg _ =>
            if Z.eqb (Z.rem m (10 ^ (- e))) 0
            then Some (Z.to_N (Z.quot m (10 ^ (- e)))) else None
        end
  | _ => None
  end.

(** [a + k] for an integer [k]. *)
Definition addZ (a : number) (k : Z) : number :=
  match a with
  | Finite m e =>
      match e with
      | Z0 => Finite (m + k) 0
      | Zpos _ => Finite (m * 10 ^ e + k) 0
      | Zneg _ => mkFinite (m + k * 10 ^ (- e)) e
      end
  | _ => a
  end.

(** The decimal digits of a natural number. *)
Definition digitsOfN (n : N) : string :=
  NilZero.string_of_uint (N.to_uint n).

Definition natToString (n : nat) : string := digitsOfN (N.of_nat n).

Definition digitVal (c : ascii) : N := (N_of_ascii c - 48)%N.

(** The value of a string of decimal digits. *)
Definition digitsToN (s : string) : N :=
  match NilEmpty.uint_of_string s with
  | Some u => N.of_uint u
  | None => 0%N
  end.

(** The mantissa without any trailing zero, for printing. *)
Fixpoint trimMantissa (fuel : nat) (m e : Z) : Z * Z :=
  match fuel with
  | O => (m, e)
  | S f =>
      if Z.eqb m 0 then (0, 0)%Z
      else if Z.eqb (Z.rem m 10) 0 then trimMantissa f (Z.quot m 10) (e + 1)
      else (m, e)
  end.

Definition zeros (n : nat) : string := repeatStr "0" n.

Definition signedExponent (x : Z) : string :=
  (if Z.leb 0 x then "+" else "-") ++ digitsOfN (Z.abs_N x).

(** [Number.prototype.toString]: with [s] the digits of the mantissa, [k]
    their count and [n = k + e], the layouts of the standard. *)
Definition numberToString (a : number) : string :=
  match a with
  | NaN => "NaN"
  | Infinity false => "Infinity"
  | Infinity true => "-Infinity"
  | Finite m0 e0 =>
      let '(m, e) := trimMantissa (S (Z.to_nat (Z.log2 (Z.abs m0)))) m0 e0 in
      if Z.eqb m 0 then "0"
      else
        let sign := if Z.ltb m 0 then "-" else EmptyString in
        let s := digitsOfN (Z.abs_N m) in
        let k := Z.of_nat (String.length s) in
        let n := (k + e)%Z in
        sign ++
        (if (Z.leb k n && Z.leb n 21)%bool then
           s ++ zeros (Z.to_nat (n - k))
         else if (Z.ltb 0 n && Z.leb n 21)%bool then
           String.substring 0 (Z.to_nat n) s ++ "." ++
           String.substring (Z.to_nat n) (Z.to_nat (k - n)) s
         else if (Z.ltb (-6) n && Z.leb n 0)%bool then
           "0." ++ zeros (Z.to_nat (- n)) ++ s
         else if Z.eqb k 1 then
           s ++ "e" ++ signedExponent (n - 1)
         else
           String.substring 0 1 s ++ "." ++
           String.substring 1 (Z.to_nat (k - 1)) s ++
           "e" ++ signedExponent (n - 1))
  end.

(** An optional sign: whether it is [-], and what follows it. *)
Definition takeSign (s : string) : bool * string :=
  match s with
  | String "-" r => (true, r)
  | String "+" r => (false, r)
  | _ => (false, s)
  end.

Definition applySign (neg : bool) (a : number) : number :=
  match a with
  | NaN => NaN
  | Infinity s => Infinity (xorb neg s)
  | Finite m e => if neg then Finite (- m) e else a
  end.

(** The longest prefix of [s] that is an unsigned decimal literal
    ([Infinity], [12], [12.], [12.5], [.5], each of the last four with an
    optional exponent), its value, and the rest of [s]. *)
Definition scanDecimal (s : string) : option (number * string) :=
  if startsWith "Infinity" s then
    Some (Infinity false, substringFrom 8 s)
  else
    let '(ip, r1) := span isDigit s in
    let '(fp, r2) :=
      match r1 with
      | String "." r =>
          let '(fp, r2) := span isDigit r in
          if (isEmpty ip && isEmpty fp)%bool then (EmptyString, r1) else (fp, r2)
      | _ => (EmptyString, r1)
      end in
    if (isEmpty ip && isEmpty fp)%bool then None
    else
      let '(ex, r3) :=
        match r2 with
        | String c r =>
            if (Ascii.eqb c "e" || Ascii.eqb c "E")%bool then
              let '(neg, r') := takeSign r in
              let '(ed, r'') := span isDigit r' in
              if isEmpty ed then (0%Z, r2)
              else ((if neg then - Z.of_N (digitsToN ed)
                     else Z.of_N (digitsToN ed))%Z, r'')
            else (0%Z, r2)
        | EmptyString => (0%Z, r2)
        end in
      Some (mkFinite (Z.of_N (digitsToN (ip ++ fp)))
                     (ex - Z.of_nat (String.length fp)), r3).

(** [parseFloat(s)] *)
Definition parseFloat (s : string) : number :=
  let '(neg, r) := takeSign (trimStart s) in
  match scanDecimal r with
  | Some (a, _) => applySign neg a
  | None => NaN
  end.

(** [parseInt(s, 10)] *)
Definition parseInt (s : string) : number :=
  let '(neg, r) := takeSign (trimStart s) in
  let '(ds, _) := span isDigit r in
  if isEmpty ds then NaN
  else applySign neg (mkFinite (Z.of_N (digitsToN ds)) 0).

Definition isHexDigit (c : ascii) : bool :=
  isDigit c || (Ascii.leb "a" c && Ascii.leb c "f")
  || (Ascii.leb "A" c && Ascii.leb c "F").

Definition hexVal (c : ascii) : N :=
  if isDigit c then digitVal c
  else if Ascii.leb "a" c then (N_of_ascii c - 87)%N
  else (N_of_ascii c - 55)%N.

Fixpoint radixToNAcc (radix acc : N) (s : string) : N :=
  match s with
  | EmptyString => acc
  | String c r => radixToNAcc radix (acc * radix + hexVal c)%N r
  end.

(** [0x..], [0o..] and [0b..] literals. *)
Definition scanRadix (s : string) : option number :=
  match s with
  | String "0" (String p ds) =>
      let lit (ok : ascii -> bool) (radix : N) :=
        if (negb (isEmpty ds) && forallb ok ds)%bool
        then Some (mkFinite (Z.of_N (radixToNAcc radix 0 ds)) 0) else None in
      if (Ascii.eqb p "x" || Ascii.eqb p "X")%bool then lit isHexDigit 16%N
      else if (Ascii.eqb p "o" || Ascii.eqb p "O")%bool then
        lit (fun c => Ascii.leb "0" c && Ascii.leb c "7")%bool 8%N
      else if (Ascii.eqb p "b" || Ascii.eqb p "B")%bool then
        lit (fun c => Ascii.eqb c "0" || Ascii.eqb c "1")%bool 2%N
      else None
  | _ => None
  end.

(** [Number(s)]: the whole trimmed text must be one numeric literal; the
    empty text is [0]. *)
Definition Number (s : string) : number :=
  let t := trim s in
  if isEmpty t then Finite 0 0
  else
    match scanRadix t with
    | Some a => a
    | None =>
        let '(neg, r) := takeSign t in
        match scanDecimal r with
        | Some (a, EmptyString) => applySign neg a
        | _ => NaN
        end
    end.

End JS.

(* ================================================================== *)
(** ** The value model and the instance state *)
(* ================================================================== *)

Import JS.

(** The prototype of an object: [Object.prototype], as an object literal
    has it, [null], or a value installed by an assignment to
    [__proto__]. *)
Inductive prototype (A : Type) : Type :=
| ObjectPrototype
| NullPrototype
| ValuePrototype (v : A).
Arguments ObjectPrototype {A}.
Arguments NullPrototype {A}.
Arguments ValuePrototype {A} v.

(** What [parse] returns and [stringify] takes. *)
#[warnings="-register-all"]
Inductive value : Type :=
| VNull
| VNumber (n : number)
| VBoolean (b : bool)
| VString (s : string)
| VArray (items : list value)
| VObject (proto : prototype value) (entries : list (string * value)).

(** The object literal [{}]. *)
Definition emptyObject : value := VObject ObjectPrototype [].

(** [options.arrayFormat]: every text other than ['values'] behaves as
    ['indexed']. *)
Inductive arrayFormat : Type := Indexed | Values.

Record parseOptions : Type := { p_arrayFormat : arrayFormat }.

Record stringifyOptions : Type := {
  indent : nat;
  indentChar : string;
  compact : bool;
  s_arrayFormat : arrayFormat
}.

Definition defaultParseOptions : parseOptions :=
  {| p_arrayFormat := Indexed |}.

Definition defaultStringifyOptions : stringifyOptions :=
  {| indent := 2; indentChar := " "; compact := false;
     s_arrayFormat := Indexed |}.

Inductive indentKind : Type := space | tab.

(** The fields set by the constructor; [None] is [null]. *)
Record SimpleParser : Type := {
  indentType : option indentKind;
  indentSize : option nat;
  outerParsed : bool
}.

(** [new SimpleParser()] *)
Definition constructor : SimpleParser :=
  {| indentType := None; indentSize := None; outerParsed := false |}.

Inductive error : Type :=
| InvalidLine (line : string)      (* [new Error(`Invalid line: ${line}`)] *)
| RangeError.                      (* thrown by [push] on a full array *)

Inductive result (A : Type) : Type :=
| Ok (a : A)
| Throw (e : error).
Arguments Ok {A} a.
Arguments Throw {A} e.

(** [typeof v === 'object' && v !== null] *)
Definition isObjectLike (v : value) : bool :=
  match v with
  | VArray _ | VObject _ _ => true
  | _ => false
  end.

(** [Array.isArray(v) && v.length > 0] *)
Definition isNonEmptyArray (v : value) : bool :=
  match v with
  | VArray (_ :: _) => true
  | _ => false
  end.

(** [typeof v] *)
Inductive jsType : Type := TyObject | TyNumber | TyBoolean | TyString.

Definition typeof (v : value) : jsType :=
  match v with
  | VNull | VArray _ | VObject _ _ => TyObject
  | VNumber _ => TyNumber
  | VBoolean _ => TyBoolean
  | VString _ => TyString
  end.

Definition jsType_eqb (a b : jsType) : bool :=
  match a, b with
  | TyObject, TyObject | TyNumber, TyNumber
  | TyBoolean, TyBoolean | TyString, TyString => true
  | _, _ => false
  end.

(** The own property [key] among the entries of an object. *)
Fixpoint lookup (key : string) (entries : list (string * value)) : option value :=
  match entries with
  | [] => None
  | (k, v) :: r => if String.eqb k key then Some v else lookup key r
  end.

(* ================================================================== *)
(** ** The methods of the class *)
(* ================================================================== *)

Module Simple.

(* ------------------------------------------------------------------ *)
(** *** Parsing *)
(* ------------------------------------------------------------------ *)

Definition isQuote (c : ascii) : bool := Ascii.eqb c DQUOTE || Ascii.eqb c SQUOTE.

Definition optEqb (a : option ascii) (c : ascii) : bool :=
  match a with Some d => Ascii.eqb d c | None => false end.

(** [_removeComments(str)].  [rest] is [str] from index [i] on and [prev] is
    [str[i - 1]]; the text returned is what the loop appends to [result]
    from there.  A backslash that ends the text inside a string is followed
    by [undefined], which [+=] spells out. *)
Fixpoint removeCommentsFrom (prev : option ascii) (rest : string)
    (inMultiLineComment inString : bool) (stringChar : option ascii)
    {struct rest} : string :=
  match rest with
  | EmptyString => EmptyString
  | String char rest' =>
      let nextChar := head rest' in
      if negb inMultiLineComment && isQuote char then
        if negb inString then
          String char (removeCommentsFrom (Some char) rest'
                         inMultiLineComment true (Some char))
        else if optEqb stringChar char && negb (optEqb prev BACKSLASH) then
          String char (removeCommentsFrom (Some char) rest'
                         inMultiLineComment false None)
        else
          String char (removeCommentsFrom (Some char) rest'
                         inMultiLineComment inString stringChar)
      else if inString && Ascii.eqb char BACKSLASH then
        match rest' with
        | String n rest'' =>
            String char (String n (removeCommentsFrom (Some n) rest''
                                     inMultiLineComment inString stringChar))
        | EmptyString => String char "undefined"
        end
      else if negb inString && Ascii.eqb char "/" && optEqb nextChar "*" then
        match rest' with
        | String n rest'' =>
            removeCommentsFrom (Some n) rest'' true inString stringChar
        | EmptyString => EmptyString
        end
      else if inMultiLineComment && Ascii.eqb char "*" && optEqb nextChar "/" then
        match rest' with
        | String n rest'' =>
            removeCommentsFrom (Some n) rest'' false inString stringChar
        | EmptyString => EmptyString
        end
      else if inMultiLineComment then
        removeCommentsFrom (Some char) rest' inMultiLineComment inString stringChar
      else if negb inString
              && ((Ascii.eqb char "/" && optEqb nextChar "/") || Ascii.eqb char "#")
      then
        (fix skip (p : option ascii) (l : string) {struct l} : string :=
           match l with
           | EmptyString => EmptyString
           | String d r =>
               if Ascii.eqb d LF then
                 removeCommentsFrom p l inMultiLineComment inString stringChar
               else skip (Some d) r
           end) (Some char) rest'
      else
        String char (removeCommentsFrom (Some char) rest'
                       inMultiLineComment inString stringChar)
  end.

Definition _removeComments (str : string) : string :=
  removeCommentsFrom None str false false None.

(** The loop of [_processMultilineStrings(str)]: the lines pushed from index
    [i] on, [currentLine] being the line under construction. *)
Fixpoint splitLinesFrom (prev : option ascii) (rest : string)
    (currentLine : string) (inString : bool) (stringChar : option ascii)
    {struct rest} : list string :=
  match rest with
  | EmptyString => if negb (isEmpty currentLine) then [currentLine] else []
  | String char rest' =>
      let '(inString1, stringChar1) :=
        if isQuote char then
          if negb inString then (true, Some char)
          else if optEqb stringChar char && negb (optEqb prev BACKSLASH)
          then (false, None)
          else (inString, stringChar)
        else (inString, stringChar) in
      let otherwise :=
        if Ascii.eqb char LF then
          currentLine :: splitLinesFrom (Some char) rest' EmptyString
                           inString1 stringChar1
        else
          splitLinesFrom (Some char) rest' (currentLine ++ str1 char)
            inString1 stringChar1 in
      if Ascii.eqb char BACKSLASH && inString1 then
        match rest' with
        | String n rest'' =>
            if Ascii.eqb n "n" then
              splitLinesFrom (Some n) rest'' (currentLine ++ str1 LF)
                inString1 stringChar1
            else if Ascii.eqb n "t" then
              splitLinesFrom (Some n) rest'' (currentLine ++ str1 TAB)
                inString1 stringChar1
            else otherwise
        | EmptyString => otherwise
        end
      else otherwise
  end.

(** [_processMultilineStrings(str)] *)
Definition _processMultilineStrings (str : string) : list string :=
  filter (fun line => Nat.ltb 0 (String.length (trim line)))
         (splitLinesFrom None str EmptyString false None).

(** The test that skips a line in [_detectIndentType] and in [_linesToAst]. *)
Definition isCommentLine (trimmed : string) : bool :=
  startsWith "//" trimmed || startsWith "#" trimmed.

(** [_detectIndentType(lines)] *)
Fixpoint detectLoop (lines : list string) (this : SimpleParser) : SimpleParser :=
  match lines with
  | [] => this
  | line :: rest =>
      let trimmed := trim line in
      if isEmpty trimmed || isCommentLine trimmed then detectLoop rest this
      else
        let '(spaces, _) := span isSpace line in
        if negb (isEmpty spaces) then
          if includes (str1 TAB) spaces then
            {| indentType := Some tab; indentSize := Some 1;
               outerParsed := outerParsed this |}
          else
            {| indentType := Some space;
               indentSize := Some (String.length spaces);
               outerParsed := outerParsed this |}
        else detectLoop rest this
  end.

Definition _detectIndentType (lines : list string) (this : SimpleParser)
    : SimpleParser :=
  let this1 := detectLoop lines this in
  match indentType this1 with
  | None =>
      {| indentType := Some space; indentSize := Some 2;
         outerParsed := outerParsed this1 |}
  | Some _ => this1
  end.

(** [_getIndentLevel(line)].  [indentSize] is a positive number whenever
    [indentType] is set, so the division by [null] never takes place. *)
Definition _getIndentLevel (this : SimpleParser) (line : string) : nat :=
  match indentType this with
  | Some tab =>
      let '(tabs, _) := span (fun c => Ascii.eqb c TAB) line in
      String.length tabs
  | _ =>
      let '(spaces, _) := span isSpace line in
      match indentSize this with
      | Some n => String.length spaces / n
      | None => 0
      end
  end.

(** [_isNumber(str)]: an optional minus, digits, and optionally a dot and
    digits, spanning the whole text. *)
Definition _isNumber (str : string) : bool :=
  let s := match str with String "-" r => r | _ => str end in
  let '(ip, r1) := span isDigit s in
  negb (isEmpty ip) &&
  match r1 with
  | EmptyString => true
  | String "." r =>
      let '(fp, r2) := span isDigit r in
      negb (isEmpty fp) && isEmpty r2
  | _ => false
  end.

(** [_parseNumber(str)] *)
Definition _parseNumber (str : string) : number :=
  let num := parseFloat str in
  if isNaN num then Finite 0 0 else num.

(** [_parseString(str)]: a backslash followed by n, r, t, a backslash or a
    double quote is replaced; every other character is kept. *)
Fixpoint _parseString (str : string) : string :=
  match str with
  | EmptyString => EmptyString
  | String c r =>
      if Ascii.eqb c BACKSLASH then
        match r with
        | String escaped r' =>
            if Ascii.eqb escaped "n" then String LF (_parseString r')
            else if Ascii.eqb escaped "r" then String CR (_parseString r')
            else if Ascii.eqb escaped "t" then String TAB (_parseString r')
            else if Ascii.eqb escaped BACKSLASH then
              String BACKSLASH (_parseString r')
            else if Ascii.eqb escaped DQUOTE then String DQUOTE (_parseString r')
            else String c (_parseString r)
        | EmptyString => String c EmptyString
        end
      else String c (_parseString r)
  end.

(** The loop of [_splitByComma(str)]: the segments pushed from index [i] on. *)
Fixpoint splitByCommaFrom (prev : option ascii) (rest : string)
    (current : string) (depth : Z) (inString : bool)
    (stringChar : option ascii) {struct rest} : list string :=
  match rest with
  | EmptyString =>
      if negb (isEmpty (trim current)) then [trim current] else []
  | String char rest' =>
      let '(inString1, stringChar1) :=
        if isQuote char && negb (optEqb prev BACKSLASH) then
          if negb inString then (true, Some char)
          else if optEqb stringChar char then (false, None)
          else (inString, stringChar)
        else (inString, stringChar) in
      if negb inString1 then
        let depth1 :=
          if Ascii.eqb char "[" || Ascii.eqb char "{" then (depth + 1)%Z
          else depth in
        let depth2 :=
          if Ascii.eqb char "]" || Ascii.eqb char "}" then (depth1 - 1)%Z
          else depth1 in
        if Ascii.eqb char "," && Z.eqb depth2 0 then
          trim current ::
            splitByCommaFrom (Some char) rest' EmptyString depth2
              inString1 stringChar1
        else
          splitByCommaFrom (Some char) rest' (current ++ str1 char) depth2
            inString1 stringChar1
      else
        splitByCommaFrom (Some char) rest' (current ++ str1 char) depth
          inString1 stringChar1
  end.

(** [_splitByComma(str)] *)
Definition _splitByComma (str : string) : list string :=
  splitByCommaFrom None str EmptyString 0 false None.

(** A canonical array index: the decimal text of a number below 2^32-1. *)
Definition arrayIndexOfKey (key : string) : option N :=
  if negb (isEmpty key) && forallb isDigit key
     && String.eqb (digitsOfN (digitsToN key)) key
     && N.ltb (digitsToN key) 4294967295
  then Some (digitsToN key) else None.

Fixpoint hasKey (key : string) (entries : list (string * value)) : bool :=
  match entries with
  | [] => false
  | (k, _) :: r => String.eqb k key || hasKey key r
  end.

Fixpoint replaceKey (key : string) (v : value) (entries : list (string * value))
    : list (string * value) :=
  match entries with
  | [] => []
  | (k, w) :: r =>
      if String.eqb k key then (k, v) :: r else (k, w) :: replaceKey key v r
  end.

(** A new index key goes before the first entry that is not an index or is
    a larger one. *)
Fixpoint insertIndexKey (n : N) (key : string) (v : value)
    (entries : list (string * value)) : list (string * value) :=
  match entries with
  | [] => [(key, v)]
  | (k, w) :: r =>
      match arrayIndexOfKey k with
      | Some m =>
          if N.ltb n m then (key, v) :: entries
          else (k, w) :: insertIndexKey n key v r
      | None => (key, v) :: entries
      end
  end.

(** Writing the own property [key]: an existing key keeps its place, a
    new index key is sorted among the index keys, any other new key goes
    last. *)
Definition setOwn (key : string) (v : value) (entries : list (string * value))
    : list (string * value) :=
  if hasKey key entries then replaceKey key v entries
  else
    match arrayIndexOfKey key with
    | Some n => insertIndexKey n key v entries
    | None => (entries ++ [(key, v)])%list
    end.

(** Whether an assignment to [__proto__] that has reached [holder] on the
    prototype chain ends at the accessor of [Object.prototype]: no object
    from [holder] on has an own property of that name and the chain does
    not end in [null].  An array has [Array.prototype] and then
    [Object.prototype] above it. *)
Fixpoint reachesAccessor (holder : value) {struct holder} : bool :=
  match holder with
  | VObject p entries =>
      if hasKey "__proto__" entries then false
      else
        match p with
        | ObjectPrototype => true
        | NullPrototype => false
        | ValuePrototype h => reachesAccessor h
        end
  | VArray _ => true
  | _ => false
  end.

(** [obj[key] = v] on an object that is not an array.  The key
    [__proto__] goes to the accessor of [Object.prototype] when the
    assignment reaches it: the setter installs an object or [null] as the
    prototype and ignores every other value.  In all other cases the
    assignment writes an own property. *)
Definition objSet (key : string) (v : value) (obj : value) : value :=
  match obj with
  | VObject p entries =>
      if String.eqb key "__proto__" && reachesAccessor obj then
        match v with
        | VNull => VObject NullPrototype entries
        | VArray _ | VObject _ _ => VObject (ValuePrototype v) entries
        | _ => obj
        end
      else VObject p (setOwn key v entries)
  | _ => obj
  end.

(** What reading a property gives the program: a value of the model, the
    object [Object.prototype] itself, or something that is no value of the
    model, [undefined] or a built-in function. *)
Inductive property : Type :=
| Data (v : value)
| TheObjectPrototype
| NoData.

(** The getter of [__proto__], called on an object with the prototype
    [p]. *)
Definition protoGetter (p : prototype value) : property :=
  match p with
  | ObjectPrototype => TheObjectPrototype
  | NullPrototype => Data VNull
  | ValuePrototype v => Data v
  end.

(** Reading [key] once the lookup has reached [holder] on the prototype
    chain of an object whose prototype is [p].  Apart from the accessor
    [__proto__], the properties of [Object.prototype] and of
    [Array.prototype] are functions; an array has its elements and
    [length] as own properties. *)
Fixpoint getFrom (p : prototype value) (key : string) (holder : value)
    {struct holder} : property :=
  match holder with
  | VObject q entries =>
      match lookup key entries with
      | Some v => Data v
      | None =>
          match q with
          | ObjectPrototype =>
              if String.eqb key "__proto__" then protoGetter p else NoData
          | NullPrototype => NoData
          | ValuePrototype h => getFrom p key h
          end
      end
  | VArray items =>
      match arrayIndexOfKey key with
      | Some i =>
          match nth_error items (N.to_nat i) with
          | Some v => Data v
          | None => NoData
          end
      | None =>
          if String.eqb key "length" then
            Data (VNumber (ofNat (List.length items)))
          else if String.eqb key "__proto__" then protoGetter p
          else NoData
      end
  | _ => NoData
  end.

(** [obj[key]] on an object that is not an array. *)
Definition get (key : string) (obj : value) : property :=
  match obj with
  | VObject p _ => getFrom p key obj
  | _ => NoData
  end.

Definition isQuoted (valueStr : string) : bool :=
  (startsWith (str1 DQUOTE) valueStr && endsWith (str1 DQUOTE) valueStr)
  || (startsWith (str1 SQUOTE) valueStr && endsWith (str1 SQUOTE) valueStr).

Definition isBracketed (valueStr : string) : bool :=
  startsWith "[" valueStr && endsWith "]" valueStr.

Definition isBraced (valueStr : string) : bool :=
  startsWith "{" valueStr && endsWith "}" valueStr.

(** The body of [_parseInlineArray(str)], [parseValue] being the recursive
    call to [_parseValue]. *)
Definition parseInlineArrayWith (parseValue : string -> value) (str : string)
    : list value :=
  let content := trim (substring 1 (String.length str - 1) str) in
  if isEmpty content then []
  else
    let items := _splitByComma content in
    map (fun item => let trimmed := trim item in parseValue trimmed) items.

(** The body of [_parseInlineObject(str)]. *)
Definition parseInlineObjectWith (parseValue : string -> value) (str : string)
    : value :=
  let content := trim (substring 1 (String.length str - 1) str) in
  if isEmpty content then emptyObject
  else
    let pairs := _splitByComma content in
    fold_left
      (fun obj pair =>
         match indexOf ":" pair with
         | None => obj
         | Some colonIndex =>
             let key := trim (substring 0 colonIndex pair) in
             let valueStr := trim (substringFrom (colonIndex + 1) pair) in
             objSet key (parseValue valueStr) obj
         end)
      pairs emptyObject.

(** [_parseValue(valueStr)].  The recursion goes through the two inline
    parsers on strictly shorter texts; [fuel] bounds its depth and
    [String.length valueStr] is always enough (see [parseValueFuel_enough]). *)
Fixpoint parseValueFuel (fuel : nat) (valueStr : string) {struct fuel} : value :=
  if String.eqb valueStr "None" then VNull
  else if String.eqb valueStr "{}" then emptyObject
  else if String.eqb valueStr "[]" then VArray []
  else if _isNumber valueStr then VNumber (_parseNumber valueStr)
  else if isQuoted valueStr then
    VString (_parseString (substring 1 (String.length valueStr - 1) valueStr))
  else if isBracketed valueStr then
    match fuel with
    | S f => VArray (parseInlineArrayWith (parseValueFuel f) valueStr)
    | O => VArray []
    end
  else if isBraced valueStr then
    match fuel with
    | S f => parseInlineObjectWith (parseValueFuel f) valueStr
    | O => emptyObject
    end
  else VString (_parseString valueStr).

Definition _parseValue (valueStr : string) : value :=
  parseValueFuel (String.length valueStr) valueStr.

Definition _parseInlineArray (str : string) : list value :=
  parseInlineArrayWith _parseValue str.

Definition _parseInlineObject (str : string) : value :=
  parseInlineObjectWith _parseValue str.

(** The [type] field of a parse node. *)
Inductive nodeType : Type := tString | tNumber | tNull | tObject | tArray.

(** [_getValueType(valueStr)] *)
Definition _getValueType (valueStr : string) : nodeType :=
  if String.eqb valueStr "None" then tNull
  else if String.eqb valueStr "{}" then tObject
  else if String.eqb valueStr "[]" then tArray
  else if _isNumber valueStr then tNumber
  else if isQuoted valueStr then tString
  else if isBracketed valueStr then tArray
  else if isBraced valueStr then tObject
  else tString.

(** [_parseKeyValue(line, parentType)]: the key, and the [type] and [value]
    of the value object. *)
Definition _parseKeyValue (line : string) (parentType : nodeType)
    : result (string * (nodeType * value)) :=
  match indexOf ":" line with
  | None => Throw (InvalidLine line)
  | Some colonIndex =>
      let key := trim (substring 0 colonIndex line) in
      let valueStr := trim (substringFrom (colonIndex + 1) line) in
      let value :=
        if String.eqb valueStr "None" then (tNull, VNull)
        else if String.eqb valueStr "{}" then (tObject, emptyObject)
        else if String.eqb valueStr "[]" then (tArray, VArray [])
        else if _isNumber valueStr then (tNumber, VNumber (_parseNumber valueStr))
        else if isQuoted valueStr then
          (tString,
           VString (_parseString
                      (substring 1 (String.length valueStr - 1) valueStr)))
        else if isBracketed valueStr then
          (tArray, VArray (_parseInlineArray valueStr))
        else if isBraced valueStr then
          (tObject, _parseInlineObject valueStr)
        else (tString, VString (_parseString valueStr)) in
      Ok (key, value)
  end.

(** A parse node.  [Root] is the literal [{ type: 'object', children: [] }];
    every other node has [key], [value], [type] and [indent], and has
    [children] when [_linesToAst] gave it the field. *)
#[warnings="-register-all"]
Inductive astNode : Type :=
| Root (children : list astNode)
| Node (key : string) (val : value) (type : nodeType) (indent : Z)
       (children : option (list astNode)).

Definition nodeTypeOf (n : astNode) : nodeType :=
  match n with
  | Root _ => tObject
  | Node _ _ t _ _ => t
  end.

Definition nodeChildren (n : astNode) : option (list astNode) :=
  match n with
  | Root cs => Some cs
  | Node _ _ _ _ cs => cs
  end.

(** [node.children.push(child)] *)
Definition pushChild (child : astNode) (n : astNode) : astNode :=
  match n with
  | Root cs => Root (cs ++ [child])%list
  | Node k v t i cs =>
      Node k v t i (Some (match cs with Some l => l | None => [] end ++ [child])%list)
  end.

Definition isContainerType (t : nodeType) : bool :=
  match t with
  | tObject | tArray => true
  | _ => false
  end.

(** An entry [{ node, indent }] of [stack]. *)
Record frame : Type := { fnode : astNode; findent : Z }.

(** The source keeps in [stack] references to nodes that already sit in the
    [children] of the frame below, and fills them in place.  A frame is the
    last child of the one below it for as long as it is on the stack, so
    the model holds the open node in the frame and appends it to its parent
    when the frame is popped ([closeFrame]) and once more for every frame
    left at the end ([closeAll]). *)
Definition closeFrame (top next : frame) : frame :=
  {| fnode := pushChild (fnode top) (fnode next); findent := findent next |}.

(** [while (stack.length > 1 && stack[stack.length - 1].indent >= indent)
    stack.pop()]; the stack is its top and the frames below it. *)
Fixpoint popFrames (top : frame) (below : list frame) (indent : Z)
    : frame * list frame :=
  match below with
  | [] => (top, [])
  | next :: rest =>
      if Z.geb (findent top) indent then popFrames (closeFrame top next) rest indent
      else (top, below)
  end.

Fixpoint closeAll (top : frame) (below : list frame) : astNode :=
  match below with
  | [] => fnode top
  | next :: rest => closeAll (closeFrame top next) rest
  end.

(** The body of the [for] of [_linesToAst] for one line. *)
Definition processLine (this : SimpleParser) (options : parseOptions)
    (line : string) (top : frame) (below : list frame)
    : result (frame * list frame) :=
  let indent := Z.of_nat (_getIndentLevel this line) in
  let trimmed := trim line in
  if isEmpty trimmed then Ok (top, below)
  else if isCommentLine trimmed then Ok (top, below)
  else
    let '(parent, below1) := popFrames top below indent in
    if match p_arrayFormat options with Values => true | Indexed => false end
       && match nodeTypeOf (fnode parent) with tArray => true | _ => false end
       && negb (includes ":" line)
    then
      let node := Node "-" (_parseValue trimmed) (_getValueType trimmed)
                       indent None in
      Ok ({| fnode := pushChild node (fnode parent);
             findent := findent parent |}, below1)
    else
      match _parseKeyValue trimmed (nodeTypeOf (fnode parent)) with
      | Throw e => Throw e
      | Ok (key, (type, value)) =>
          if isContainerType type then
            Ok ({| fnode := Node key value type indent (Some []);
                   findent := indent |}, parent :: below1)
          else
            Ok ({| fnode := pushChild (Node key value type indent None)
                              (fnode parent);
                   findent := findent parent |}, below1)
      end.

Fixpoint linesLoop (this : SimpleParser) (options : parseOptions)
    (lines : list string) (top : frame) (below : list frame)
    : result astNode :=
  match lines with
  | [] => Ok (closeAll top below)
  | line :: rest =>
      match processLine this options line top below with
      | Throw e => Throw e
      | Ok (top1, below1) => linesLoop this options rest top1 below1
      end
  end.

(** [_linesToAst(lines, options)]: the tree or the error, and the instance
    after [_detectIndentType]. *)
Definition _linesToAst (this : SimpleParser) (lines : list string)
    (options : parseOptions) : result astNode * SimpleParser :=
  let this1 := _detectIndentType lines this in
  (linesLoop this1 options lines {| fnode := Root []; findent := (-1)%Z |} [],
   this1).

(** [array[i] = v] for an index [i]. *)
Definition arraySet (i : N) (v : value) (array : list (option value))
    : list (option value) :=
  if N.ltb i 4294967295 then
    let n := N.to_nat i in
    if Nat.ltb n (List.length array) then
      (firstn n array ++ Some v :: skipn (S n) array)%list
    else
      (array ++ repeat None (n - List.length array) ++ [Some v])%list
  else array.

(** [array[i] = v] for a number [i]. *)
Definition arrayWrite (i : number) (v : value) (array : list (option value))
    : list (option value) :=
  match toIndex i with
  | Some n => arraySet n v array
  | None => array
  end.

(** How often the body of [for (let i = start; i <= end; i++)] runs when
    nothing stops it; [None] is without end. *)
Definition rangeCount (start end_ : number) : option N :=
  match start, end_ with
  | Finite m1 e1, Finite m2 e2 =>
      if numLe start end_ then
        let '(x, y) := align m1 e1 m2 e2 in
        let e0 := Z.min e1 e2 in
        let d := (y - x)%Z in
        Some (Z.to_N (if Z.leb 0 e0 then d * 10 ^ e0 else d / 10 ^ (- e0)) + 1)%N
      else Some 0%N
  | Finite _ _, Infinity false => None
  | Infinity false, Infinity false => None
  | Infinity true, Finite _ _ => None
  | Infinity true, Infinity _ => None
  | _, _ => Some 0%N
  end.

(** [n] rounds of [array[i] = value; explicitIndices.push(i); i++]. *)
Fixpoint rangeLoop (n : nat) (i : number) (v : value)
    (array : list (option value)) (explicitIndices : list number)
    : list (option value) * list number :=
  match n with
  | O => (array, explicitIndices)
  | S k =>
      rangeLoop k (addZ i 1) v (arrayWrite i v array)
                (explicitIndices ++ [i])%list
  end.

(** The greatest length of an array. *)
Definition maxArrayLength : N := 4294967295.

(** The range loop as a whole.  [push] throws once [explicitIndices] is
    full and the exception ends [parse], so the loop either completes all
    its rounds or throws. *)
Definition rangeAssign (start end_ : number) (v : value)
    (array : list (option value)) (explicitIndices : list number)
    : result (list (option value) * list number) :=
  match rangeCount start end_ with
  | Some n =>
      if N.leb (N.of_nat (List.length explicitIndices) + n) maxArrayLength
      then Ok (rangeLoop (N.to_nat n) start v array explicitIndices)
      else Throw RangeError
  | None => Throw RangeError
  end.

(** [explicitIndices.includes(currentIndex)] *)
Definition includesIndex (explicitIndices : list number) (currentIndex : N) : bool :=
  existsb (fun x => numEq x (Finite (Z.of_N currentIndex) 0)) explicitIndices.

(** [while (explicitIndices.includes(currentIndex)) currentIndex++].  The
    loop leaves within [length explicitIndices + 1] rounds; [fuel] is that
    bound. *)
Fixpoint skipClaimed (fuel : nat) (explicitIndices : list number)
    (currentIndex : N) : N :=
  match fuel with
  | O => currentIndex
  | S f =>
      if includesIndex explicitIndices currentIndex
      then skipClaimed f explicitIndices (currentIndex + 1)%N
      else currentIndex
  end.

(** The loop over [dashIndices]. *)
Fixpoint fillDashes (dashIndices : list value) (explicitIndices : list number)
    (currentIndex : N) (array : list (option value)) : list (option value) :=
  match dashIndices with
  | [] => array
  | dash :: rest =>
      let currentIndex1 :=
        skipClaimed (S (List.length explicitIndices)) explicitIndices
                    currentIndex in
      fillDashes rest explicitIndices (currentIndex1 + 1)%N
                 (arraySet currentIndex1 dash array)
  end.

(** The loop that writes [0] into every hole. *)
Definition fillHoles (array : list (option value)) : list value :=
  map (fun slot => match slot with
                   | Some v => v
                   | None => VNumber (Finite 0 0)
                   end) array.

Definition nodeKey (n : astNode) : string :=
  match n with
  | Root _ => "undefined"
  | Node k _ _ _ _ => k
  end.

Definition nodeValue (n : astNode) : value :=
  match n with
  | Root _ => VNull
  | Node _ v _ _ _ => v
  end.

(** The state of the first loop of the array branch. *)
Record arrayState : Type := {
  array : list (option value);
  explicitIndices : list number;
  dashIndices : list value
}.

(** The [for] of the object branch of [_astToObject]; [materialize] is the
    recursive call. *)
Fixpoint objectLoop (materialize : astNode -> result value)
    (cs : list astNode) (obj : value) : result value :=
  match cs with
  | [] => Ok obj
  | child :: rest =>
      if isContainerType (nodeTypeOf child) then
        match materialize child with
        | Ok v => objectLoop materialize rest (objSet (nodeKey child) v obj)
        | Throw e => Throw e
        end
      else
        objectLoop materialize rest (objSet (nodeKey child) (nodeValue child) obj)
  end.

(** The first [for] of the array branch. *)
Fixpoint arrayLoop (materialize : astNode -> result value)
    (cs : list astNode) (st : arrayState) : result arrayState :=
  match cs with
  | [] => Ok st
  | child :: rest =>
      if String.eqb (nodeKey child) "-" then
        match materialize child with
        | Ok v =>
            arrayLoop materialize rest
              {| array := array st;
                 explicitIndices := explicitIndices st;
                 dashIndices := (dashIndices st ++ [v])%list |}
        | Throw e => Throw e
        end
      else if includes "-" (nodeKey child) then
        let parts := map Number (split "-" (nodeKey child)) in
        let start := nth 0 parts NaN in
        let end_ := nth 1 parts NaN in
        match materialize child with
        | Ok v =>
            match rangeAssign start end_ v (array st) (explicitIndices st) with
            | Ok (a, ex) =>
                arrayLoop materialize rest
                  {| array := a; explicitIndices := ex;
                     dashIndices := dashIndices st |}
            | Throw e => Throw e
            end
        | Throw e => Throw e
        end
      else
        let index := parseInt (nodeKey child) in
        if negb (isNaN index) then
          match materialize child with
          | Ok v =>
              if N.ltb (N.of_nat (List.length (explicitIndices st)))
                       maxArrayLength
              then
                arrayLoop materialize rest
                  {| array := arrayWrite index v (array st);
                     explicitIndices := (explicitIndices st ++ [index])%list;
                     dashIndices := dashIndices st |}
              else Throw RangeError
          | Throw e => Throw e
          end
        else arrayLoop materialize rest st
  end.

(** [array], [explicitIndices] and [dashIndices] as they are declared. *)
Definition emptyArrayState : arrayState :=
  {| array := []; explicitIndices := []; dashIndices := [] |}.

(** Whether [v] passes for true in a condition. *)
Definition truthy (v : value) : bool :=
  match v with
  | VNull => false
  | VNumber NaN => false
  | VNumber (Finite m _) => negb (Z.eqb m 0)
  | VNumber (Infinity _) => true
  | VBoolean b => b
  | VString s => negb (isEmpty s)
  | VArray _ | VObject _ _ => true
  end.

(** What the array branch does once the first loop is over: placeholders,
    holes, and the fallback to the inline value. *)
Definition finishArray (val : value) (st : arrayState) : value :=
  let filled := fillDashes (dashIndices st) (explicitIndices st) 0 (array st) in
  if Nat.eqb (List.length filled) 0
     && match val with VArray _ => true | _ => false end
  then val
  else VArray (fillHoles filled).

(** [_astToObject(astNode)].  A node without [children] goes through the
    loops with [astNode.children || []], that is with no child. *)
Fixpoint _astToObject (node : astNode) {struct node} : result value :=
  match node with
  | Root children => objectLoop (fun c => _astToObject c) children emptyObject
  | Node key val type indent children =>
      match type with
      | tString | tNumber | tNull => Ok val
      | tObject =>
          match children with
          | Some cs => objectLoop (fun c => _astToObject c) cs emptyObject
          | None => Ok emptyObject
          end
      | tArray =>
          match children with
          | None =>
              if truthy val then Ok val
              else Ok (finishArray val emptyArrayState)
          | Some cs =>
              match arrayLoop (fun c => _astToObject c) cs emptyArrayState with
              | Ok st => Ok (finishArray val st)
              | Throw e => Throw e
              end
          end
      end
  end.

(** [parse(simpleStr, options)]: the value or the error, and the instance
    afterwards. *)
Definition parse (this : SimpleParser) (simpleStr : string)
    (options : parseOptions) : result value * SimpleParser :=
  let processed := _removeComments simpleStr in
  let lines := _processMultilineStrings processed in
  let '(ast, this1) := _linesToAst this lines options in
  match ast with
  | Ok a => (_astToObject a, this1)
  | Throw e => (Throw e, this1)
  end.

(* ------------------------------------------------------------------ *)
(** *** Serialization *)
(* ------------------------------------------------------------------ *)

(** [_getIndentString(level, options)] *)
Definition _getIndentString (level : nat) (options : stringifyOptions) : string :=
  repeatStr (indentChar options) (level * indent options).

(** [_escapeString(str)]: the callback of [replace] applied to every
    linefeed, tab, backslash and double quote. *)
Fixpoint _escapeString (str : string) : string :=
  match str with
  | EmptyString => EmptyString
  | String c r =>
      (if Ascii.eqb c LF then String BACKSLASH "n"
       else if Ascii.eqb c TAB then String BACKSLASH "t"
       else if Ascii.eqb c BACKSLASH then String BACKSLASH (str1 BACKSLASH)
       else if Ascii.eqb c DQUOTE then String BACKSLASH (str1 DQUOTE)
       else str1 c) ++ _escapeString r
  end.

(** [_needsQuotes(str)] *)
Definition _needsQuotes (str : string) : bool :=
  if match head str with Some c => isDigit c | None => false end then true
  else if String.eqb str "None" || String.eqb str "true"
          || String.eqb str "false" then true
  else if includes ":" str || includes "," str || includes "[" str
          || includes "]" str || includes "{" str || includes "}" str then true
  else if match head str with Some c => isSpace c | None => false end
          || match last str with Some c => isSpace c | None => false end then true
  else false.

(** The [for] of [_shouldInlineArray]. *)
Fixpoint inlineItemsLoop (l : list value) : bool :=
  match l with
  | [] => true
  | item :: r =>
      if isObjectLike item then false
      else if isNonEmptyArray item then false
      else inlineItemsLoop r
  end.

(** [_shouldInlineArray(arr)] *)
Definition _shouldInlineArray (arr : list value) : bool :=
  if Nat.eqb (List.length arr) 0 then true
  else if Nat.ltb 3 (List.length arr) then false
  else inlineItemsLoop arr.

(** The [for] of [_shouldInlineObject]. *)
Fixpoint inlineEntriesLoop (l : list (string * value)) : bool :=
  match l with
  | [] => true
  | (_, v) :: r =>
      if isObjectLike v then false
      else if isNonEmptyArray v then false
      else inlineEntriesLoop r
  end.

(** [_shouldInlineObject(obj)] *)
Definition _shouldInlineObject (entries : list (string * value)) : bool :=
  if Nat.eqb (List.length entries) 0 then true
  else if Nat.ltb 3 (List.length entries) then false
  else inlineEntriesLoop entries.

(** The [for] over the elements of two arrays of one length; [eq] is the
    recursive call. *)
Fixpoint itemsEqualLoop (eq : value -> value -> bool) (xs ys : list value)
    : bool :=
  match xs, ys with
  | x :: xs', y :: ys' =>
      if negb (eq x y) then false else itemsEqualLoop eq xs' ys'
  | _, _ => true
  end.

(** [this._isEqual(va, b[key])], [eq] being the call on two values of the
    model.  A value and what is [undefined] or a function differ in their
    [typeof].  [Object.prototype] is an object that is not an array and
    has no enumerable key: the objects equal to it are those that are not
    arrays and have no own entry. *)
Definition equalsProperty (eq : value -> value -> bool) (va : value)
    (pb : property) : bool :=
  match pb with
  | Data vb => eq va vb
  | TheObjectPrototype =>
      match va with
      | VObject _ [] => true
      | _ => false
      end
  | NoData => false
  end.

(** The [for] over [keysA]: [l] is what is left of the entries of [a]. *)
Fixpoint entriesEqualLoop (eq : value -> value -> bool)
    (b : value) (l : list (string * value)) : bool :=
  match l with
  | [] => true
  | (key, va) :: r =>
      if negb (equalsProperty eq va (get key b)) then false
      else entriesEqualLoop eq b r
  end.

(** [_isEqual(a, b)] *)
Fixpoint _isEqual (a b : value) {struct a} : bool :=
  if negb (jsType_eqb (typeof a) (typeof b)) then false
  else
    match a, b with
    | VNull, VNull => true
    | VNull, _ | _, VNull => false
    | VArray xs, VArray ys =>
        if negb (Nat.eqb (List.length xs) (List.length ys)) then false
        else itemsEqualLoop (fun x y => _isEqual x y) xs ys
    | VObject _ ea, VObject _ eb =>
        if negb (Nat.eqb (List.length ea) (List.length eb)) then false
        else entriesEqualLoop (fun x y => _isEqual x y) b ea
    | VArray _, VObject _ _ | VObject _ _, VArray _ => false
    | VNumber x, VNumber y => numEq x y
    | VBoolean x, VBoolean y => Bool.eqb x y
    | VString x, VString y => String.eqb x y
    | _, _ => false
    end.

(** The number of leading elements of [l] equal to [x]: the inner [while]
    of the indexed branch stops at [j = i + 1 + runLength obj[i] rest]. *)
Fixpoint runLength (x : value) (l : list value) : nat :=
  match l with
  | [] => 0
  | y :: r => if _isEqual x y then S (runLength x r) else 0
  end.

(** One line of an indexed block: [i-(j-1): v] for a run, [i: v] otherwise. *)
Definition indexedLine (ind : string) (i j : nat) (valueStr : string) : string :=
  if Nat.ltb 1 (j - i) then
    ind ++ natToString i ++ "-" ++ natToString (j - 1) ++ ": " ++ valueStr
        ++ str1 LF
  else
    ind ++ natToString i ++ ": " ++ valueStr ++ str1 LF.

(** A call [this._objectToSimple(v, l, options)] with [l] and [options]
    fixed: from the flag [this.outerParsed] before the call to the text and
    the flag after it. *)
Definition renderer : Type := value -> bool -> string * bool.

(** [obj.map(item => this._objectToSimple(item, level, options))] *)
Fixpoint mapItems (render : renderer) (l : list value) (flag : bool)
    : list string * bool :=
  match l with
  | [] => ([], flag)
  | item :: r =>
      let '(s, f1) := render item flag in
      let '(ss, f2) := mapItems render r f1 in
      (s :: ss, f2)
  end.

(** The [for] of the ['values'] branch: the text added to [result]. *)
Fixpoint valuesLoop (render : renderer) (ind : string) (l : list value)
    (flag : bool) : string * bool :=
  match l with
  | [] => (EmptyString, flag)
  | x :: r =>
      let '(valueStr, f1) := render x flag in
      let '(rest, f2) := valuesLoop render ind r f1 in
      (ind ++ valueStr ++ str1 LF ++ rest, f2)
  end.

(** The [while] of the indexed branch, walking the elements once: [l] is
    [obj] from index [i] on, and [skip] counts the elements still inside
    the run that started at the last rendered index, which is the effect
    of [i = j]. *)
Fixpoint indexedLoop (render : renderer) (ind : string) (l : list value)
    (i skip : nat) (flag : bool) : string * bool :=
  match l with
  | [] => (EmptyString, flag)
  | x :: r =>
      match skip with
      | S k => indexedLoop render ind r (S i) k flag
      | O =>
          let j := i + 1 + runLength x r in
          let '(valueStr, f1) := render x flag in
          let '(rest, f2) := indexedLoop render ind r (S i) (j - i - 1) f1 in
          (indexedLine ind i j valueStr ++ rest, f2)
      end
  end.

(** [entries.map(([key, value]) => `${key}: ${...}`)] *)
Fixpoint mapPairs (render : renderer) (l : list (string * value)) (flag : bool)
    : list string * bool :=
  match l with
  | [] => ([], flag)
  | (key, v) :: r =>
      let '(s, f1) := render v flag in
      let '(ss, f2) := mapPairs render r f1 in
      ((key ++ ": " ++ s) :: ss, f2)
  end.

(** The [for] over the entries of a block mapping. *)
Fixpoint entriesLoop (render : renderer) (ind : string)
    (l : list (string * value)) (flag : bool) : string * bool :=
  match l with
  | [] => (EmptyString, flag)
  | (key, v) :: r =>
      let '(valueStr, f1) := render v flag in
      let '(rest, f2) := entriesLoop render ind r f1 in
      (ind ++ key ++ ": " ++ valueStr ++ str1 LF ++ rest, f2)
  end.

(** [_objectToSimple(obj, level, options)], with [this.outerParsed] passed
    in and returned. *)
Fixpoint _objectToSimple (obj : value) (level : nat) (options : stringifyOptions)
    (flag : bool) {struct obj} : string * bool :=
  match obj with
  | VNull => ("None", flag)
  | VNumber n => (numberToString n, flag)
  | VBoolean b => (if b then "true" else "false", flag)
  | VString s =>
      if _needsQuotes s then (str1 DQUOTE ++ _escapeString s ++ str1 DQUOTE, flag)
      else (_escapeString s, flag)
  | VArray arr =>
      if Nat.eqb (List.length arr) 0 then ("[]", flag)
      else if _shouldInlineArray arr then
        let '(items, flag1) :=
          mapItems (fun item f => _objectToSimple item level options f) arr flag in
        ("[" ++ join ", " items ++ "]", flag1)
      else
        let ind := _getIndentString (level + 1) options in
        let '(body, flag1) :=
          match s_arrayFormat options with
          | Values =>
              valuesLoop (fun x f => _objectToSimple x (level + 1) options f)
                         ind arr flag
          | Indexed =>
              indexedLoop (fun x f => _objectToSimple x (level + 1) options f)
                          ind arr 0 0 flag
          end in
        (trim ("[]" ++ str1 LF ++ body), flag1)
  | VObject _ entries =>
      if _shouldInlineObject entries then
        let '(pairs, flag1) :=
          mapPairs (fun v f => _objectToSimple v level options f) entries flag in
        ("{" ++ join ", " pairs ++ "}", flag1)
      else
        let result0 := if flag then "{}" ++ str1 LF else EmptyString in
        let '(body, flag1) :=
          entriesLoop (fun v f => _objectToSimple v (level + 1) options f)
                      (_getIndentString level options) entries true in
        (trim (result0 ++ body), flag1)
  end.

(** [stringify(obj, options)]: the text, and the instance afterwards. *)
Definition stringify (this : SimpleParser) (obj : value)
    (options : stringifyOptions) : string * SimpleParser :=
  let '(text, flag) := _objectToSimple obj 0 options false in
  (text, {| indentType := indentType this; indentSize := indentSize this;
            outerParsed := flag |}).

End Simple.

(* ================================================================== *)
(** ** The specification's own notions *)
(* ================================================================== *)

Import Simple.

(** These definitions follow the words of the specification; the theorems
    compare them with the functions translated from the source. *)
Module Spec.

(** A scalar: null, a number, a boolean or a string. *)
Definition isScalar (v : value) : Prop :=
  match v with
  | VArray _ | VObject _ _ => False
  | _ => True
  end.

(** A scalar or an empty container. *)
Definition isScalarOrEmpty (v : value) : Prop :=
  match v with
  | VArray (_ :: _) | VObject _ (_ :: _) => False
  | _ => True
  end.

Definition isWhitespace (c : ascii) : Prop :=
  In c [TAB; LF; VT; FF; CR; SPACE; NBSP].

Definition isDecimalDigit (c : ascii) : Prop :=
  In c ["0"; "1"; "2"; "3"; "4"; "5"; "6"; "7"; "8"; "9"]%char.

Definition contains (c : ascii) (s : string) : Prop :=
  exists a b, s = a ++ String c b.

(** The raw text starts with a digit, equals None, true or false, contains
    one of the six structural characters, or has leading or trailing
    whitespace. *)
Definition mustBeQuoted (s : string) : Prop :=
  (exists c r, s = String c r /\ isDecimalDigit c)
  \/ (s = "None" \/ s = "true" \/ s = "false")
  \/ (exists c, In c [":"; ","; "["; "]"; "{"; "}"]%char /\ contains c s)
  \/ (exists c r, s = String c r /\ isWhitespace c)
  \/ (exists r c, s = r ++ String c EmptyString /\ isWhitespace c).

(** Some mapping inside [v], or [v] itself, is not written inline. *)
Fixpoint hasBlockMapping (v : value) : bool :=
  match v with
  | VArray items => existsb hasBlockMapping items
  | VObject _ entries =>
      negb (_shouldInlineObject entries)
      || existsb (fun e => hasBlockMapping (snd e)) entries
  | _ => false
  end.

(** The inline form of a sequence and of a mapping. *)
Definition inlineSequence (items : list string) : string :=
  "[" ++ join ", " items ++ "]".

Definition inlineMapping (pairs : list string) : string :=
  "{" ++ join ", " pairs ++ "}".

(** The trimmed line starts with [//] or [#]: the block parser skips it. *)
Definition isCommentLike (line : string) : Prop :=
  isCommentLine (trim line) = true.

Definition hasColon (line : string) : Prop := contains ":" line.

(** The pure-value-sequence exception for a line reached with the stack
    [(top, below)]: the format is values and the parent, the top of the
    stack once the frames at or beyond the level of the line are popped,
    is a sequence. *)
Definition pureValueContext (this : SimpleParser) (options : parseOptions)
    (line : string) (top : frame) (below : list frame) : Prop :=
  p_arrayFormat options = Values
  /\ nodeTypeOf
       (fnode (fst (popFrames top below
                      (Z.of_nat (_getIndentLevel this line))))) = tArray.

(** A line that makes the block parser fail. *)
Definition invalidAt (this : SimpleParser) (options : parseOptions)
    (line : string) (top : frame) (below : list frame) : Prop :=
  ~ isCommentLike line /\ ~ hasColon line
  /\ ~ pureValueContext this options line top below.

(** Structural equality: the same kind; scalars by value; sequences
    element by element; mappings by the same set of keys with equal values
    under each key, in whatever order the keys come. *)
#[warnings="-register-all"]
Inductive deepEqual : value -> value -> Prop :=
| de_null : deepEqual VNull VNull
| de_number x y : numEq x y = true -> deepEqual (VNumber x) (VNumber y)
| de_boolean b : deepEqual (VBoolean b) (VBoolean b)
| de_string s : deepEqual (VString s) (VString s)
| de_array xs ys : Forall2 deepEqual xs ys -> deepEqual (VArray xs) (VArray ys)
| de_object pa pb ea eb :
    (forall k, In k (map fst ea) <-> In k (map fst eb)) ->
    (forall k va vb,
        lookup k ea = Some va -> lookup k eb = Some vb -> deepEqual va vb) ->
    deepEqual (VObject pa ea) (VObject pb eb).

(** A value of the model stands for a JavaScript value when no mapping in
    it has a key twice. *)
#[warnings="-register-all"]
Inductive wellFormed : value -> Prop :=
| wf_null : wellFormed VNull
| wf_number n : wellFormed (VNumber n)
| wf_boolean b : wellFormed (VBoolean b)
| wf_string s : wellFormed (VString s)
| wf_array items : Forall wellFormed items -> wellFormed (VArray items)
| wf_object proto entries :
    NoDup (map fst entries) ->
    Forall (fun e => wellFormed (snd e)) entries ->
    wellFormed (VObject proto entries).

(** A run: an element and the elements after it that equal it. *)
Definition isRun (run : list value) : Prop :=
  exists x tail, run = x :: tail /\ Forall (deepEqual x) tail.

(** Each run ends where the next element differs from its first one. *)
Fixpoint separated (runs : list (list value)) : Prop :=
  match runs with
  | r1 :: ((r2 :: _) as rest) =>
      (forall x y, hd_error r1 = Some x -> hd_error r2 = Some y ->
                   ~ deepEqual x y)
      /\ separated rest
  | _ => True
  end.

(** The line of a run of [len] elements that starts at index [start]. *)
Definition runLine (ind : string) (start len : nat) (text : string) : string :=
  if Nat.ltb 1 len then
    ind ++ natToString start ++ "-" ++ natToString (start + len - 1) ++ ": "
        ++ text ++ str1 LF
  else
    ind ++ natToString start ++ ": " ++ text ++ str1 LF.

(** One line per run, the first element of each run being rendered. *)
Fixpoint runLines (render : renderer) (ind : string) (runs : list (list value))
    (start : nat) (flag : bool) : string * bool :=
  match runs with
  | [] => (EmptyString, flag)
  | run :: rest =>
      match run with
      | [] => runLines render ind rest start flag
      | x :: _ =>
          let '(text, f1) := render x flag in
          let '(more, f2) :=
            runLines render ind rest (start + List.length run) f1 in
          (runLine ind start (List.length run) text ++ more, f2)
      end
  end.

(** A child line of a sequence block, with the value it materializes to:
    the placeholder [-: v], a range [s-e: v], or an index [n: v]. *)
Inductive entry : Type :=
| Placeholder (v : value)
| Range (s e : nat) (v : value)
| Index (n : nat) (v : value).

Definition keyOf (en : entry) : string :=
  match en with
  | Placeholder _ => "-"
  | Range s e _ => natToString s ++ "-" ++ natToString e
  | Index n _ => natToString n
  end.

Definition valueOf (en : entry) : value :=
  match en with
  | Placeholder v | Range _ _ v | Index _ v => v
  end.

(** The indices an entry claims: every index of an inclusive range, the
    index of an index line, none for a placeholder. *)
Definition claimsOf (en : entry) : list nat :=
  match en with
  | Placeholder _ => []
  | Range s e _ => seq s (e + 1 - s)
  | Index n _ => [n]
  end.

Definition claims (ens : list entry) : list nat := flat_map claimsOf ens.

(** The values of the placeholders, in encounter order. *)
Definition placeholders (ens : list entry) : list value :=
  flat_map (fun en => match en with Placeholder v => [v] | _ => [] end) ens.

Definition covers (en : entry) (i : nat) : bool :=
  match en with
  | Placeholder _ => false
  | Range s e _ => Nat.leb s i && Nat.leb i e
  | Index n _ => Nat.eqb i n
  end.

(** The value an index gets from the ranges and index lines: that of the
    last entry that claims it. *)
Fixpoint explicitAt (ens : list entry) (i : nat) : option value :=
  match ens with
  | [] => None
  | en :: rest =>
      match explicitAt rest i with
      | Some v => Some v
      | None => if covers en i then Some (valueOf en) else None
      end
  end.

(** The indices given to placeholders by a cursor that starts at [cursor]:
    each placeholder in turn gets the lowest index from the cursor on that
    no range or index line claims, and the cursor moves just past it. *)
Inductive placeholderTargets (claimed : list nat) : nat -> list nat -> Prop :=
| pt_nil cursor : placeholderTargets claimed cursor []
| pt_cons cursor t ts :
    cursor <= t ->
    ~ In t claimed ->
    (forall j, cursor <= j < t -> In j claimed) ->
    placeholderTargets claimed (S t) ts ->
    placeholderTargets claimed cursor (t :: ts).

(** The text in double quotes. *)
Definition quoted (s : string) : string := str1 DQUOTE ++ s ++ str1 DQUOTE.

(** Whether [p] holds of an element that the indexed form writes, the
    first element of a run; [skip] counts the elements still inside the
    run under way. *)
Fixpoint anyRunHead (p : value -> bool) (l : list value) (skip : nat) : bool :=
  match l with
  | [] => false
  | x :: r =>
      match skip with
      | S k => anyRunHead p r k
      | O => p x || anyRunHead p r (runLength x r)
      end
  end.

(** Whether writing [v] writes a mapping in block form. *)
Fixpoint writesBlockMapping (options : stringifyOptions) (v : value) : bool :=
  match v with
  | VArray items =>
      if _shouldInlineArray items then
        existsb (writesBlockMapping options) items
      else
        match s_arrayFormat options with
        | Values => existsb (writesBlockMapping options) items
        | Indexed => anyRunHead (fun x => writesBlockMapping options x) items 0
        end
  | VObject _ entries =>
      negb (_shouldInlineObject entries)
      || existsb (fun e => writesBlockMapping options (snd e)) entries
  | _ => false
  end.

(** The marker rule by position.  In the definitions that follow,
    [before] tells whether a mapping in block form was written earlier in
    the call; [text x before] is the text of [x] there and [writes x]
    tells whether writing [x] writes such a mapping.  Each element is
    written with what was written before the elements that precede it. *)
Fixpoint itemTexts (text : value -> bool -> string) (writes : value -> bool)
    (l : list value) (before : bool) : list string :=
  match l with
  | [] => []
  | x :: r => text x before :: itemTexts text writes r (before || writes x)
  end.

Fixpoint valueLines (text : value -> bool -> string) (writes : value -> bool)
    (ind : string) (l : list value) (before : bool) : string :=
  match l with
  | [] => EmptyString
  | x :: r =>
      ind ++ text x before ++ str1 LF
          ++ valueLines text writes ind r (before || writes x)
  end.

Fixpoint indexLines (text : value -> bool -> string) (writes : value -> bool)
    (ind : string) (l : list value) (i skip : nat) (before : bool) : string :=
  match l with
  | [] => EmptyString
  | x :: r =>
      match skip with
      | S k => indexLines text writes ind r (S i) k before
      | O =>
          let n := runLength x r in
          runLine ind i (S n) (text x before)
            ++ indexLines text writes ind r (S i) n (before || writes x)
      end
  end.

Fixpoint pairTexts (text : value -> bool -> string) (writes : value -> bool)
    (l : list (string * value)) (before : bool) : list string :=
  match l with
  | [] => []
  | (key, v) :: r =>
      (key ++ ": " ++ text v before)
        :: pairTexts text writes r (before || writes v)
  end.

Fixpoint entryLines (text : value -> bool -> string) (writes : value -> bool)
    (ind : string) (l : list (string * value)) (before : bool) : string :=
  match l with
  | [] => EmptyString
  | (key, v) :: r =>
      ind ++ key ++ ": " ++ text v before ++ str1 LF
          ++ entryLines text writes ind r (before || writes v)
  end.

(** The text of [v] at [level] under the marker rule: a mapping in block
    form starts with the marker line exactly when a mapping in block form
    was written earlier in the call, and what it holds is written after
    it. *)
Fixpoint textOf (options : stringifyOptions) (v : value) (level : nat)
    (before : bool) {struct v} : string :=
  match v with
  | VNull => "None"
  | VNumber n => numberToString n
  | VBoolean b => if b then "true" else "false"
  | VString s =>
      if _needsQuotes s then quoted (_escapeString s) else _escapeString s
  | VArray arr =>
      if Nat.eqb (List.length arr) 0 then "[]"
      else if _shouldInlineArray arr then
        inlineSequence
          (itemTexts (fun x b => textOf options x level b)
                     (writesBlockMapping options) arr before)
      else
        let ind := _getIndentString (level + 1) options in
        trim ("[]" ++ str1 LF ++
              match s_arrayFormat options with
              | Values =>
                  valueLines (fun x b => textOf options x (level + 1) b)
                             (writesBlockMapping options) ind arr before
              | Indexed =>
                  indexLines (fun x b => textOf options x (level + 1) b)
                             (writesBlockMapping options) ind arr 0 0 before
              end)
  | VObject _ entries =>
      if _shouldInlineObject entries then
        inlineMapping
          (pairTexts (fun x b => textOf options x level b)
                     (writesBlockMapping options) entries before)
      else
        trim ((if before then "{}" ++ str1 LF else EmptyString)
              ++ entryLines (fun x b => textOf options x (level + 1) b)
                            (writesBlockMapping options)
                            (_getIndentString level options) entries true)
  end.

End Spec.

(** Plain data, as [JSON.parse] and object literals without the key
    [__proto__] give it: every mapping has the prototype
    [Object.prototype] and no own key [__proto__]. *)
Fixpoint plainData (v : value) : bool :=
  match v with
  | VArray items => List.forallb plainData items
  | VObject ObjectPrototype entries =>
      negb (hasKey "__proto__" entries)
      && List.forallb (fun e => plainData (snd e)) entries
  | VObject _ _ => false
  | _ => true
  end.

(** The rendering of [x] by [render] gives the text of the marker rule,
    and leaves the flag set exactly when it was set or writing [x] writes
    a mapping in block form. *)
Definition followsRule (render : renderer) (text : value -> bool -> string)
    (writes : value -> bool) (x : value) : Prop :=
  forall f, render x f = (text x f, f || writes x).

(** Serializing [v] and parsing the text again on the same instance. *)
Definition roundTrip (this : SimpleParser) (v : value)
    (sopts : stringifyOptions) (popts : parseOptions) : result value :=
  let '(text, this1) := stringify this v sopts in
  fst (parse this1 text popts).

(** Once set, the flag stays set through the rendering of [x]. *)
Definition keepsTrue (render : renderer) (x : value) : Prop :=
  snd (render x true) = true.

(** The rendering of [x] sets the flag. *)
Definition setsFlag (render : renderer) (x : value) : Prop :=
  snd (render x false) = true.

(** A mapping too long to be written inline. *)
Definition fourEntries : list (string * value) :=
  [("a", VNull); ("b", VNull); ("c", VNull); ("d", VNull)].

(** A sequence of two mappings in block form. *)
Definition twoBlocks : value :=
  VArray [VObject ObjectPrototype fourEntries;
          VObject ObjectPrototype (("e", VNull) :: fourEntries)].

(** The stack once the lines [lines] have gone through the body of the
    [for] of [_linesToAst]. *)
Fixpoint stackAfter (this : SimpleParser) (options : parseOptions)
    (lines : list string) (top : frame) (below : list frame)
    : result (frame * list frame) :=
  match lines with
  | [] => Ok (top, below)
  | line :: rest =>
      match processLine this options line top below with
      | Throw e => Throw e
      | Ok (top1, below1) => stackAfter this options rest top1 below1
      end
  end.

(** The stack [_linesToAst] starts from. *)
Definition rootFrame : frame := {| fnode := Root []; findent := (-1)%Z |}.

(** What [materialize] throws on [c], if it throws, is [RangeError]. *)
Definition throwsOnlyRangeError (materialize : astNode -> result value)
    (c : astNode) : Prop :=
  forall e, materialize c = Throw e -> e = RangeError.

(** The sequence of the demonstration at the end of the source file. *)
Definition arrayWithRepeats : list value :=
  map (fun z => VNumber (Finite z 0)) [1; 1; 1; 2; 3; 3; 4; 4; 4; 4; 5]%Z.

(** The element of a sparse array at [i]; [None] for a hole and beyond
    the end. *)
Definition slot (a : list (option value)) (i : nat) : option value :=
  match nth_error a i with
  | Some (Some v) => Some v
  | _ => None
  end.

(** The number that is the index [i]. *)
Definition indexNumber (i : nat) : number := Finite (Z.of_nat i) 0.

(** What one entry does to the state of the first loop of the array
    branch. *)
Definition applyEntry (st : arrayState) (en : Spec.entry) : arrayState :=
  match en with
  | Spec.Placeholder v =>
      {| array := array st; explicitIndices := explicitIndices st;
         dashIndices := (dashIndices st ++ [v])%list |}
  | Spec.Range s e v =>
      {| array := fold_left (fun a i => arraySet (N.of_nat i) v a)
                            (seq s (e + 1 - s)) (array st);
         explicitIndices :=
           (explicitIndices st ++ map indexNumber (seq s (e + 1 - s)))%list;
         dashIndices := dashIndices st |}
  | Spec.Index n v =>
      {| array := arraySet (N.of_nat n) v (array st);
         explicitIndices := (explicitIndices st ++ [indexNumber n])%list;
         dashIndices := dashIndices st |}
  end.

(** The placeholder value that goes to the target [i]. *)
Fixpoint dashAt (targets : list nat) (dashes : list value) (i : nat)
    : option value :=
  match targets, dashes with
  | t :: ts, v :: vs => if Nat.eqb i t then Some v else dashAt ts vs i
  | _, _ => None
  end.

(** The children of the sequence block of the specification, the lines
    [1-3: 0], [5-6: 1] and [-: 0], and what they are as entries. *)
Definition exampleChildren : list astNode :=
  [Node "1-3" (VNumber (Finite 0 0)) tNumber 1 None;
   Node "5-6" (VNumber (Finite 1 0)) tNumber 1 None;
   Node "-" (VNumber (Finite 0 0)) tNumber 1 None].

Definition exampleEntries : list Spec.entry :=
  [Spec.Range 1 3 (VNumber (Finite 0 0));
   Spec.Range 5 6 (VNumber (Finite 1 0));
   Spec.Placeholder (VNumber (Finite 0 0))].

(** No line that the block parser reads starts with whitespace. *)
Definition noIndentedLine (lines : list string) : Prop :=
  Forall (fun line =>
            isEmpty (trim line) || isCommentLine (trim line) = true
            \/ fst (span isSpace line) = EmptyString) lines.

(** The synthetic node that wraps the document. *)
Definition isRoot (n : astNode) : Prop :=
  match n with Root _ => True | Node _ _ _ _ _ => False end.

(** An object that is not an array. *)
Definition isObject (v : value) : Prop :=
  exists proto entries, v = VObject proto entries.

(** The frame at the bottom of the stack. *)
Definition bottom (top : frame) (below : list frame) : frame :=
  List.last below top.

(** A text made of the given lines. *)
Definition unlines (ls : list string) : string := join (str1 LF) ls.

(* ================================================================== *)
(** ** Classes of texts and values used by the further properties *)
(* ================================================================== *)

(** A character that [_removeComments] copies outside strings and
    comments whatever follows it: not a quote, a slash or a hash. *)
Definition isPlainChar (c : ascii) : bool :=
  negb (isQuote c) && negb (Ascii.eqb c "/") && negb (Ascii.eqb c "#").

Definition isPlain (s : string) : bool := JS.forallb isPlainChar s.

(** A text without the character [c]. *)
Definition lacks (c : ascii) (s : string) : bool :=
  JS.forallb (fun d => negb (Ascii.eqb d c)) s.

(** A text without quotes. *)
Definition noQuote (s : string) : bool :=
  JS.forallb (fun c => negb (isQuote c)) s.

(** The test of the [filter] that ends [_processMultilineStrings]. *)
Definition nonBlank (line : string) : bool :=
  Nat.ltb 0 (String.length (trim line)).

(** A text that [trim] leaves alone. *)
Definition isTrimmed (s : string) : Prop := trim s = s.

(** A text made of whitespace only. *)
Definition allSpace (s : string) : bool := JS.forallb isSpace s.

(** A character that [_splitByComma] only gathers: not a comma, a quote,
    a bracket or a brace. *)
Definition isAtomChar (c : ascii) : bool :=
  negb (Ascii.eqb c ",") && negb (isQuote c)
  && negb (Ascii.eqb c "[") && negb (Ascii.eqb c "]")
  && negb (Ascii.eqb c "{") && negb (Ascii.eqb c "}").

(** An item of an inline sequence as the serializer writes a scalar: not
    empty, trimmed, and without a character that [_splitByComma] reads. *)
Definition isAtom (s : string) : Prop :=
  s <> EmptyString /\ isTrimmed s /\ JS.forallb isAtomChar s = true.

(** The [type] that goes with each kind of value a node can hold. *)
Inductive hasType : value -> nodeType -> Prop :=
| ht_null : hasType VNull tNull
| ht_number n : hasType (VNumber n) tNumber
| ht_string s : hasType (VString s) tString
| ht_array items : hasType (VArray items) tArray
| ht_object proto entries : hasType (VObject proto entries) tObject.

Definition isLetter (c : ascii) : bool :=
  (Ascii.leb "a" c && Ascii.leb c "z") || (Ascii.leb "A" c && Ascii.leb c "Z").

(** A text of letters and digits, not empty. *)
Definition isToken (s : string) : bool :=
  negb (isEmpty s) && JS.forallb (fun c => isLetter c || isDigit c) s.

(** A word: a letter followed by letters and digits. *)
Definition isWord (s : string) : bool :=
  match s with
  | String c r => isLetter c && JS.forallb (fun d => isLetter d || isDigit d) r
  | EmptyString => false
  end.

(** Scalars whose text is a token: [null], a natural number of at most 15
    digits, and a word other than the three that are quoted. *)
Inductive plainScalar : value -> Prop :=
| ps_null : plainScalar VNull
| ps_nat n :
    String.length (natToString n) <= 15 -> plainScalar (VNumber (indexNumber n))
| ps_word w :
    isWord w = true -> w <> "None" -> w <> "true" -> w <> "false" ->
    plainScalar (VString w).

(** What a block mapping can hold on one line and get back from [parse]: a
    plain scalar, a sequence of at most three of them, or the empty
    mapping. *)
Inductive flatValue : value -> Prop :=
| fv_scalar v : plainScalar v -> flatValue v
| fv_array arr :
    List.length arr <= 3 -> Forall plainScalar arr -> flatValue (VArray arr)
| fv_empty : flatValue emptyObject.

(** The entry a key/value line at the top of a document stands for: the
    key and the value of [_parseKeyValue], except that a mapping written
    on the line comes out empty. *)
Definition lineEntry (line : string) : string * value :=
  match _parseKeyValue (trim line) tObject with
  | Ok (key, (tObject, _)) => (key, emptyObject)
  | Ok (key, (_, v)) => (key, v)
  | Throw _ => (EmptyString, VNull)
  end.

(** The node [_linesToAst] makes of a key/value line at level 0. *)
Definition lineNode (line : string) : astNode :=
  match _parseKeyValue (trim line) tObject with
  | Ok (key, (type, v)) =>
      Node key v type 0 (if isContainerType type then Some [] else None)
  | Throw _ => Root []
  end.

(** The stack of [_linesToAst] between two lines of a flat document: the
    root with the nodes made so far, and on top of it the last node when
    that one is a container. *)
Definition flatStack (done : list astNode) (pending : option astNode)
    : frame * list frame :=
  match pending with
  | None => ({| fnode := Root done; findent := (-1)%Z |}, [])
  | Some n =>
      ({| fnode := n; findent := 0%Z |},
       [{| fnode := Root done; findent := (-1)%Z |}])
  end.

Definition pendingNodes (pending : option astNode) : list astNode :=
  match pending with Some n => [n] | None => [] end.

(** A line of a flat document: without quote, slash, hash or linefeed,
    and either blank or a key/value line that does not start with
    whitespace. *)
Definition isFlatLine (line : string) : bool :=
  isPlain line && lacks LF line
  && (allSpace line
      || (includes ":" line
          && match line with
             | String c _ => negb (isSpace c)
             | EmptyString => false
             end)).

(** The lines of a block, each ended by a linefeed, as the loops of
    [_objectToSimple] add them to [result]. *)
Definition blockText (lines : list string) : string :=
  fold_right (fun l acc => l ++ str1 LF ++ acc) EmptyString lines.

(** The line of an entry of a block mapping at level 0. *)
Definition entryLine (options : stringifyOptions) (e : string * value) : string :=
  fst e ++ ": " ++ fst (_objectToSimple (snd e) 1 options true).

(** The values [parse] builds: no boolean and no [NaN], in the entries of
    a mapping, in its prototype and in the elements of a sequence, and no
    mapping with a key twice. *)
#[warnings="-register-all"]
Inductive parsed : value -> Prop :=
| pv_null : parsed VNull
| pv_number n : isNaN n = false -> parsed (VNumber n)
| pv_string s : parsed (VString s)
| pv_array items : Forall parsed items -> parsed (VArray items)
| pv_object proto entries :
    NoDup (map fst entries) ->
    Forall (fun e => parsed (snd e)) entries ->
    (forall q, proto = ValuePrototype q -> parsed q) ->
    parsed (VObject proto entries).

(** Plain data in which no mapping has a key twice. *)
Definition plainValue (v : value) : Prop :=
  Spec.wellFormed v /\ plainData v = true.

(** No [NaN] among the numbers of [v]. *)
Fixpoint nanFree (v : value) : bool :=
  match v with
  | VNumber n => negb (isNaN n)
  | VArray items => List.forallb nanFree items
  | VObject _ entries => List.forallb (fun e => nanFree (snd e)) entries
  | _ => true
  end.

(** A tree all of whose nodes hold such values. *)
#[warnings="-register-all"]
Inductive parsedNode : astNode -> Prop :=
| pn_root cs : Forall parsedNode cs -> parsedNode (Root cs)
| pn_leaf key v type indent :
    parsed v -> parsedNode (Node key v type indent None)
| pn_node key v type indent cs :
    parsed v -> Forall parsedNode cs ->
    parsedNode (Node key v type indent (Some cs)).

(** The slots and placeholders of an array under construction. *)
Definition parsedState (st : arrayState) : Prop :=
  Forall (fun slot => match slot with Some v => parsed v | None => True end)
         (array st)
  /\ Forall parsed (dashIndices st).

(** The indentation fields once a style is set: a kind, and a size that
    is a positive number. *)
Definition styleReady (this : SimpleParser) : Prop :=
  indentType this <> None /\ exists n, indentSize this = Some (S n).

(** The indentation fields of an instance between two calls: as the
    constructor leaves them, or set. *)
Definition styleFresh (this : SimpleParser) : Prop :=
  indentType this = None \/ styleReady this.

(** The node [_linesToAst] makes of a pure-value line at level 1. *)
Definition itemNode (t : string) : astNode :=
  Node "-" (_parseValue t) (_getValueType t) 1 None.

(** The lines of a block sequence of pure values under [key]: the line
    that opens it and one line per item, indented by [ind]. *)
Definition valuesBlock (key ind : string) (items : list string) : list string :=
  (key ++ ": []") :: map (fun t => ind ++ t) items.

(* ================================================================== *)
(** ** Theorems *)
(* ================================================================== *)

(** *** Characters and strings *)

Lemma isDigit_spec (c : ascii) : isDigit c = true <-> Spec.isDecimalDigit c.
Proof.
  unfold Spec.isDecimalDigit. split.
  - destruct c as [[] [] [] [] [] [] [] []]; cbn; intros H;
      first [ discriminate H
            | clear H; repeat first [ left; reflexivity | right ] ].
  - cbn. intros H.
    repeat (destruct H as [H | H]; [ subst c; reflexivity | ]).
    contradiction.
Qed.

Lemma isSpace_spec (c : ascii) : isSpace c = true <-> Spec.isWhitespace c.
Proof.
  unfold Spec.isWhitespace. split.
  - destruct c as [[] [] [] [] [] [] [] []]; cbn; intros H;
      first [ discriminate H
            | clear H; repeat first [ left; reflexivity | right ] ].
  - cbn. intros H.
    repeat (destruct H as [H | H]; [ subst c; reflexivity | ]).
    contradiction.
Qed.

Lemma prefix_str1 (c d : ascii) (r : string) :
  String.prefix (String c EmptyString) (String d r) = Ascii.eqb c d.
Proof.
  cbn. destruct (ascii_dec c d) as [e | n].
  - subst. rewrite Ascii.eqb_refl. now destruct r.
  - symmetry. now apply Ascii.eqb_neq.
Qed.

Lemma includes_char (c : ascii) (s : string) :
  includes (String c EmptyString) s = true <-> Spec.contains c s.
Proof.
  unfold Spec.contains. induction s as [| d r IH].
  - cbn. split; [ discriminate | ].
    intros (a & b & H). destruct a; discriminate H.
  - change (includes (String c EmptyString) (String d r))
      with (String.prefix (String c EmptyString) (String d r) || includes (String c EmptyString) r).
    rewrite prefix_str1, orb_true_iff, IH. split.
    + intros [H | (a & b & H)].
      * apply Ascii.eqb_eq in H. subst d. now exists EmptyString, r.
      * exists (String d a), b. cbn. now rewrite H.
    + intros (a & b & H). destruct a as [| x a]; cbn in H.
      * injection H as -> ->. left. apply Ascii.eqb_refl.
      * injection H as -> ->. right. now exists a, b.
Qed.

Lemma last_spec (s : string) (c : ascii) :
  JS.last s = Some c <-> exists r, s = r ++ String c EmptyString.
Proof.
  revert c. induction s as [| d r IH]; intros c.
  - cbn. split; [ discriminate | ].
    intros (a & H). destruct a; discriminate H.
  - destruct r as [| e r'].
    + cbn. split.
      * intros [= ->]. now exists EmptyString.
      * intros (a & H). destruct a as [| x a]; cbn in H.
        -- now injection H as ->.
        -- injection H as _ H. destruct a; discriminate H.
    + change (JS.last (String d (String e r'))) with (JS.last (String e r')).
      rewrite IH. split.
      * intros (a & H). exists (String d a). cbn. now rewrite H.
      * intros (a & H). destruct a as [| x a]; cbn in H.
        -- discriminate H.
        -- injection H as _ H. now exists a.
Qed.

(** [_needsQuotes] decides the quoting rule of the specification. *)
Lemma needsQuotes_spec (s : string) :
  _needsQuotes s = true <-> Spec.mustBeQuoted s.
Proof.
  unfold _needsQuotes, Spec.mustBeQuoted.
  split.
  - destruct (match JS.head s with Some c => isDigit c | None => false end) eqn:Hd.
    { intros _. left. destruct s as [| c r]; [ discriminate Hd | ].
      exists c, r. split; [ reflexivity | now apply isDigit_spec ]. }
    destruct (String.eqb s "None" || String.eqb s "true" || String.eqb s "false")
      eqn:Hk.
    { intros _. right; left.
      rewrite !orb_true_iff, !String.eqb_eq in Hk. tauto. }
    destruct (includes ":" s || includes "," s || includes "[" s
              || includes "]" s || includes "{" s || includes "}" s) eqn:Hc.
    { intros _. right; right; left.
      rewrite !orb_true_iff in Hc.
      destruct Hc as [[[[[H | H] | H] | H] | H] | H];
        apply (includes_char _ s) in H;
        eexists; (split; [ | exact H ]); cbn; tauto. }
    destruct (match JS.head s with Some c => isSpace c | None => false end
              || match JS.last s with Some c => isSpace c | None => false end)
      eqn:Hw; [ | discriminate ].
    intros _. right; right; right.
    rewrite orb_true_iff in Hw. destruct Hw as [H | H].
    + left. destruct s as [| c r]; [ discriminate H | ].
      exists c, r. split; [ reflexivity | now apply isSpace_spec ].
    + right. destruct (JS.last s) as [c |] eqn:Hl; [ | discriminate H ].
      apply last_spec in Hl. destruct Hl as (r & ->).
      exists r, c. split; [ reflexivity | now apply isSpace_spec ].
  - intros [H | [H | [H | [H | H]]]].
    + destruct H as (c & r & -> & H). apply isDigit_spec in H.
      cbn. now rewrite H.
    + destruct (match JS.head s with Some c => isDigit c | None => false end);
        [ reflexivity | ].
      assert (E : String.eqb s "None" || String.eqb s "true"
                  || String.eqb s "false" = true).
      { rewrite !orb_true_iff, !String.eqb_eq. tauto. }
      now rewrite E.
    + destruct (match JS.head s with Some c => isDigit c | None => false end);
        [ reflexivity | ].
      destruct (String.eqb s "None" || String.eqb s "true" || String.eqb s "false");
        [ reflexivity | ].
      assert (E : includes ":" s || includes "," s || includes "[" s
                  || includes "]" s || includes "{" s || includes "}" s = true).
      { destruct H as (c & Hin & Hc). apply includes_char in Hc.
        rewrite !orb_true_iff.
        cbn in Hin.
        repeat (destruct Hin as [Hin | Hin]; [ subst c; tauto | ]).
        contradiction. }
      now rewrite E.
    + destruct H as (c & r & -> & H). apply isSpace_spec in H.
      cbn [JS.head]. rewrite H. cbn [orb].
      repeat match goal with |- (if ?b then true else _) = true => destruct b; [ reflexivity | ] end.
      reflexivity.
    + destruct H as (r & c & -> & H). apply isSpace_spec in H.
      assert (Hl : JS.last (r ++ String c EmptyString) = Some c).
      { apply last_spec. now exists r. }
      rewrite Hl, H, orb_true_r. cbv iota.
      repeat match goal with |- (if ?b then true else _) = true => destruct b; [ reflexivity | ] end.
      reflexivity.
Qed.

Lemma length_append_string (a b : string) :
  String.length (a ++ b) = String.length a + String.length b.
Proof. induction a as [| c a IH]; cbn; [ reflexivity | now rewrite IH ]. Qed.

Lemma quoted_neq (s : string) : Spec.quoted s <> s.
Proof.
  intros H. apply (f_equal String.length) in H.
  unfold Spec.quoted in H. rewrite !length_append_string in H. cbn in H. lia.
Qed.


(** C6.  A string value is written between double quotes exactly when the
    quoting rule of the specification applies to its raw text, and bare
    otherwise; in both cases the text is the escape encoding.  The string
    21 is quoted, hello is not, and [a: b] is. *)
Theorem C6_string_quoting :
  (forall (s : string) (level : nat) (options : stringifyOptions) (flag : bool),
      let out := fst (_objectToSimple (VString s) level options flag) in
      (out = Spec.quoted (_escapeString s) <-> Spec.mustBeQuoted s)
      /\ (out = _escapeString s <-> ~ Spec.mustBeQuoted s))
  /\ fst (stringify constructor (VString "21") defaultStringifyOptions)
     = Spec.quoted "21"
  /\ fst (stringify constructor (VString "hello") defaultStringifyOptions)
     = "hello"
  /\ fst (stringify constructor (VString "a: b") defaultStringifyOptions)
     = Spec.quoted "a: b".
Proof.
  split; [ | repeat split ].
  intros s level options flag. cbn [_objectToSimple].
  destruct (_needsQuotes s) eqn:E; cbn [fst].
  - assert (Q : Spec.mustBeQuoted s) by now apply needsQuotes_spec.
    split; split; intros H.
    + exact Q.
    + reflexivity.
    + exfalso. exact (quoted_neq _ H).
    + contradiction.
  - assert (Q : ~ Spec.mustBeQuoted s).
    { intros H. apply needsQuotes_spec in H. congruence. }
    split; split; intros H.
    + exfalso. symmetry in H. exact (quoted_neq _ H).
    + contradiction.
    + exact Q.
    + reflexivity.
Qed.

(** *** The value type *)

(** Induction over values, through the lists of a sequence or a mapping. *)
Lemma value_ind' (P : value -> Prop) :
  P VNull ->
  (forall n, P (VNumber n)) ->
  (forall b, P (VBoolean b)) ->
  (forall s, P (VString s)) ->
  (forall items, Forall P items -> P (VArray items)) ->
  (forall proto entries,
      (forall q, proto = ValuePrototype q -> P q) ->
      Forall (fun e => P (snd e)) entries -> P (VObject proto entries)) ->
  forall v, P v.
Proof.
  intros Hnull Hnum Hbool Hstr Harr Hobj.
  fix IH 1. intros [| n | b | s | items | proto entries].
  - exact Hnull.
  - apply Hnum.
  - apply Hbool.
  - apply Hstr.
  - apply Harr. induction items as [| x r IHr]; constructor; [ apply IH | exact IHr ].
  - apply Hobj.
    + destruct proto as [| | q]; intros q' E; try discriminate E.
      injection E as <-. apply IH.
    + induction entries as [| [k x] r IHr]; constructor;
        [ apply IH | exact IHr ].
Qed.

(** *** Assignment keeps an object an object *)

Lemma objSet_isObject (key : string) (v obj : value) :
  isObject obj -> isObject (objSet key v obj).
Proof.
  intros (p & es & ->). unfold objSet.
  destruct (String.eqb key "__proto__" && reachesAccessor (VObject p es)).
  - destruct v; unfold isObject; eauto.
  - unfold isObject; eauto.
Qed.

Lemma objectLoop_isObject materialize (cs : list astNode) :
  forall obj v, isObject obj -> objectLoop materialize cs obj = Ok v ->
                isObject v.
Proof.
  induction cs as [| c r IH]; intros obj v Ho; cbn [objectLoop].
  - now intros [= <-].
  - destruct (isContainerType (nodeTypeOf c)).
    + destruct (materialize c) as [w | e]; [ | discriminate ].
      apply IH. now apply objSet_isObject.
    + apply IH. now apply objSet_isObject.
Qed.

(** *** The root of the parse tree *)

Lemma pushChild_isRoot (c n : astNode) : isRoot n -> isRoot (pushChild c n).
Proof. destruct n; cbn; tauto. Qed.

Lemma bottom_cons (top next : frame) (rest : list frame) :
  bottom top (next :: rest) = bottom next rest.
Proof.
  unfold bottom. revert top next. induction rest as [| x r IH]; intros top next.
  - reflexivity.
  - change (List.last (next :: x :: r) top) with (List.last (x :: r) top).
    now rewrite (IH top x), (IH next x).
Qed.

Lemma bottom_closeFrame (top next : frame) (rest : list frame) :
  isRoot (fnode (bottom next rest)) ->
  isRoot (fnode (bottom (closeFrame top next) rest)).
Proof.
  destruct rest as [| x r].
  - cbn. apply pushChild_isRoot.
  - rewrite !bottom_cons. tauto.
Qed.

Lemma popFrames_bottom (below : list frame) (top : frame) (indent : Z) :
  isRoot (fnode (bottom top below)) ->
  isRoot (fnode (bottom (fst (popFrames top below indent))
                        (snd (popFrames top below indent)))).
Proof.
  revert top. induction below as [| next rest IH]; intros top H.
  - exact H.
  - cbn [popFrames]. destruct (Z.geb (findent top) indent).
    + apply IH. apply bottom_closeFrame. now rewrite bottom_cons in H.
    + exact H.
Qed.

Lemma processLine_bottom this options line top below top1 below1 :
  isRoot (fnode (bottom top below)) ->
  processLine this options line top below = Ok (top1, below1) ->
  isRoot (fnode (bottom top1 below1)).
Proof.
  intros H. unfold processLine.
  destruct (isEmpty (trim line)); [ now intros [= <- <-] | ].
  destruct (isCommentLine (trim line)); [ now intros [= <- <-] | ].
  pose proof (popFrames_bottom below top
                (Z.of_nat (_getIndentLevel this line)) H) as Hp.
  destruct (popFrames top below (Z.of_nat (_getIndentLevel this line)))
    as [parent below'].
  cbn [fst snd] in Hp.
  match goal with |- (if ?b then _ else _) = _ -> _ => destruct b end.
  - intros [= <- <-]. destruct below' as [| x r].
    + cbn in *. now apply pushChild_isRoot.
    + rewrite bottom_cons in *. exact Hp.
  - destruct (_parseKeyValue (trim line) (nodeTypeOf (fnode parent)))
      as [[key [type val]] | e]; [ | discriminate ].
    destruct (isContainerType type); intros [= <- <-].
    + now rewrite bottom_cons.
    + destruct below' as [| x r].
      * cbn in *. now apply pushChild_isRoot.
      * rewrite bottom_cons in *. exact Hp.
Qed.

Lemma closeAll_isRoot (below : list frame) (top : frame) :
  isRoot (fnode (bottom top below)) -> isRoot (closeAll top below).
Proof.
  revert top. induction below as [| next rest IH]; intros top H.
  - exact H.
  - cbn [closeAll]. apply IH. apply bottom_closeFrame.
    now rewrite bottom_cons in H.
Qed.

Lemma linesLoop_isRoot this options lines top below ast :
  isRoot (fnode (bottom top below)) ->
  linesLoop this options lines top below = Ok ast ->
  isRoot ast.
Proof.
  revert top below. induction lines as [| line rest IH]; intros top below H.
  - cbn. intros [= <-]. now apply closeAll_isRoot.
  - cbn [linesLoop].
    destruct (processLine this options line top below) as [[top1 below1] | e] eqn:E;
      [ | discriminate ].
    apply IH. eapply processLine_bottom; eassumption.
Qed.

(** C9.  Whenever [parse] returns, what it returns is a mapping. *)
Theorem C9_parse_returns_mapping (this : SimpleParser) (simpleStr : string)
    (options : parseOptions) (v : value) :
  fst (parse this simpleStr options) = Ok v ->
  exists proto entries, v = VObject proto entries.
Proof.
  unfold parse, _linesToAst. cbn [fst snd].
  destruct (linesLoop _ _ _ _ _) as [ast | e] eqn:E; cbn [fst]; [ | discriminate ].
  apply linesLoop_isRoot in E; [ | exact I ].
  destruct ast as [children | ]; [ | contradiction ].
  cbn [_astToObject]. apply objectLoop_isObject.
  now exists ObjectPrototype, [].
Qed.

Lemma C9_witness :
  fst (parse constructor "a: 1" defaultParseOptions)
    = Ok (VObject ObjectPrototype [("a", VNumber (Finite 1 0))])
  /\ exists proto entries,
       VObject ObjectPrototype [("a", VNumber (Finite 1 0))]
       = VObject proto entries.
Proof.
  split; [ reflexivity | ].
  apply (C9_parse_returns_mapping constructor "a: 1" defaultParseOptions).
  reflexivity.
Defined.

(** *** Round trip *)

(** C1.  The document [a: 1] parses to the mapping with the one entry
    [a -> 1]; [stringify] writes that mapping inline, as [{a: 1}], at the
    root too; and [parse] reads this text as one key/value line, with key
    [{a] and the string [1}] as value.  So [parse (stringify v)] is not [v],
    in either array format. *)
Theorem C1_roundtrip_fails_on_small_mapping :
  let v := VObject ObjectPrototype [("a", VNumber (Finite 1 0))] in
  let indexed := {| p_arrayFormat := Indexed |} in
  let values := {| p_arrayFormat := Values |} in
  fst (parse constructor "a: 1" indexed) = Ok v
  /\ fst (parse constructor "a: 1" values) = Ok v
  /\ fst (stringify constructor v defaultStringifyOptions) = "{a: 1}"
  /\ roundTrip constructor v defaultStringifyOptions indexed
     = Ok (VObject ObjectPrototype [("{a", VString "1}")])
  /\ roundTrip constructor v
       {| indent := 2; indentChar := " "; compact := false;
          s_arrayFormat := Values |} values
     = Ok (VObject ObjectPrototype [("{a", VString "1}")])
  /\ roundTrip constructor emptyObject defaultStringifyOptions indexed
     = Throw (InvalidLine "{}").
Proof. cbv zeta. repeat split. Qed.

(** *** The fields of the instance *)

(** C8.  After a document indented with a tab, the instance keeps the style
    tab/1 through the parse of a document with no indented line: [parse]
    never sets [indentType] back to [null], and the default of
    [_detectIndentType] applies to a [null] field only.  A fresh instance
    gives space/2 for the same document.  The value returned is the same. *)
Theorem C8_indent_style_survives_parse :
  let first := unlines ["a: {}"; String TAB "b: 1"] in
  let this1 := snd (parse constructor first defaultParseOptions) in
  let '(r2, this2) := parse this1 "x: 1" defaultParseOptions in
  let '(r0, this0) := parse constructor "x: 1" defaultParseOptions in
  (indentType this1, indentSize this1) = (Some tab, Some 1)
  /\ (indentType this2, indentSize this2) = (Some tab, Some 1)
  /\ (indentType this0, indentSize this0) = (Some space, Some 2)
  /\ r2 = r0.
Proof. cbv zeta. repeat split. Qed.

(** *** The flag through the loops of the serializer *)

Section FlagThroughLoops.

Variable render : renderer.

Lemma mapItems_true (l : list value) :
  Forall (keepsTrue render) l -> snd (mapItems render l true) = true.
Proof.
  induction 1 as [| x r Hx _ IH]; [ reflexivity | ].
  cbn [mapItems]. unfold keepsTrue in Hx.
  destruct (render x true) as [s f1]. cbn in Hx. subst f1.
  destruct (mapItems render r true) as [ss f2]. exact IH.
Qed.

Lemma mapItems_source (l : list value) (f : bool) :
  snd (mapItems render l f) = true -> f = true \/ Exists (setsFlag render) l.
Proof.
  revert f. induction l as [| x r IH]; intros f; cbn [mapItems].
  - cbn. tauto.
  - destruct (render x f) as [s f1] eqn:E1.
    specialize (IH f1).
    destruct (mapItems render r f1) as [ss f2]. cbn [snd] in *.
    intros H. destruct (IH H) as [-> | Hr].
    + destruct f; [ now left | right ].
      apply Exists_cons_hd. unfold setsFlag. now rewrite E1.
    + right. now apply Exists_cons_tl.
Qed.

Lemma mapPairs_true (l : list (string * value)) :
  Forall (fun e => keepsTrue render (snd e)) l -> snd (mapPairs render l true) = true.
Proof.
  induction 1 as [| [k x] r Hx _ IH]; [ reflexivity | ].
  cbn [mapPairs]. unfold keepsTrue in Hx. cbn [snd] in Hx.
  destruct (render x true) as [s f1]. cbn in Hx. subst f1.
  destruct (mapPairs render r true) as [ss f2]. exact IH.
Qed.

Lemma mapPairs_source (l : list (string * value)) (f : bool) :
  snd (mapPairs render l f) = true ->
  f = true \/ Exists (fun e => setsFlag render (snd e)) l.
Proof.
  revert f. induction l as [| [k x] r IH]; intros f; cbn [mapPairs].
  - cbn. tauto.
  - destruct (render x f) as [s f1] eqn:E1.
    specialize (IH f1).
    destruct (mapPairs render r f1) as [ss f2]. cbn [snd] in *.
    intros H. destruct (IH H) as [-> | Hr].
    + destruct f; [ now left | right ].
      apply Exists_cons_hd. unfold setsFlag. cbn [snd]. now rewrite E1.
    + right. now apply Exists_cons_tl.
Qed.

Lemma valuesLoop_true (ind : string) (l : list value) :
  Forall (keepsTrue render) l -> snd (valuesLoop render ind l true) = true.
Proof.
  induction 1 as [| x r Hx _ IH]; [ reflexivity | ].
  cbn [valuesLoop]. unfold keepsTrue in Hx.
  destruct (render x true) as [s f1]. cbn in Hx. subst f1.
  destruct (valuesLoop render ind r true) as [ss f2]. exact IH.
Qed.

Lemma valuesLoop_source (ind : string) (l : list value) (f : bool) :
  snd (valuesLoop render ind l f) = true -> f = true \/ Exists (setsFlag render) l.
Proof.
  revert f. induction l as [| x r IH]; intros f; cbn [valuesLoop].
  - cbn. tauto.
  - destruct (render x f) as [s f1] eqn:E1.
    specialize (IH f1).
    destruct (valuesLoop render ind r f1) as [ss f2]. cbn [snd] in *.
    intros H. destruct (IH H) as [-> | Hr].
    + destruct f; [ now left | right ].
      apply Exists_cons_hd. unfold setsFlag. now rewrite E1.
    + right. now apply Exists_cons_tl.
Qed.

Lemma indexedLoop_true (ind : string) (l : list value) (i skip : nat) :
  Forall (keepsTrue render) l -> snd (indexedLoop render ind l i skip true) = true.
Proof.
  intros H. revert i skip.
  induction H as [| x r Hx _ IH]; intros i skip; [ reflexivity | ].
  cbn [indexedLoop]. destruct skip as [| k]; [ | apply IH ].
  unfold keepsTrue in Hx.
  destruct (render x true) as [s f1]. cbn in Hx. subst f1.
  specialize (IH (S i) (i + 1 + runLength x r - i - 1)).
  destruct (indexedLoop render ind r (S i) _ true) as [ss f2]. exact IH.
Qed.

Lemma indexedLoop_source (ind : string) (l : list value) (i skip : nat)
    (f : bool) :
  snd (indexedLoop render ind l i skip f) = true ->
  f = true \/ Exists (setsFlag render) l.
Proof.
  revert i skip f. induction l as [| x r IH]; intros i skip f;
    cbn [indexedLoop].
  - cbn. tauto.
  - destruct skip as [| k].
    + destruct (render x f) as [s f1] eqn:E1.
      specialize (IH (S i) (i + 1 + runLength x r - i - 1) f1).
      destruct (indexedLoop render ind r (S i) _ f1) as [ss f2].
      cbn [snd] in *.
      intros H. destruct (IH H) as [-> | Hr].
      * destruct f; [ now left | right ].
        apply Exists_cons_hd. unfold setsFlag. now rewrite E1.
      * right. now apply Exists_cons_tl.
    + intros H. destruct (IH _ _ _ H) as [-> | Hr]; [ now left | right ].
      now apply Exists_cons_tl.
Qed.

Lemma entriesLoop_true (ind : string) (l : list (string * value)) :
  Forall (fun e => keepsTrue render (snd e)) l ->
  snd (entriesLoop render ind l true) = true.
Proof.
  induction 1 as [| [k x] r Hx _ IH]; [ reflexivity | ].
  cbn [entriesLoop]. unfold keepsTrue in Hx. cbn [snd] in Hx.
  destruct (render x true) as [s f1]. cbn in Hx. subst f1.
  destruct (entriesLoop render ind r true) as [ss f2]. exact IH.
Qed.

End FlagThroughLoops.

Lemma objectToSimple_keeps_true (obj : value) :
  forall level options, snd (_objectToSimple obj level options true) = true.
Proof.
  induction obj as [| n | b | s | items IH | proto entries _ IH]
    using value_ind';
    intros level options; cbn [_objectToSimple]; try reflexivity.
  - now destruct (_needsQuotes s).
  - destruct (Nat.eqb (List.length items) 0); [ reflexivity | ].
    destruct (_shouldInlineArray items).
    + pose proof (mapItems_true
                    (fun item f => _objectToSimple item level options f) items) as H.
      destruct (mapItems _ items true) as [ss f]. cbn [snd] in *. apply H.
      eapply Forall_impl; [ | exact IH ]. intros x Hx. apply Hx.
    + destruct (s_arrayFormat options).
      * pose proof (indexedLoop_true
                      (fun x f => _objectToSimple x (level + 1) options f)
                      (_getIndentString (level + 1) options) items 0 0) as H.
        destruct (indexedLoop _ _ items 0 0 true) as [ss f]. cbn [snd] in *.
        apply H. eapply Forall_impl; [ | exact IH ]. intros x Hx. apply Hx.
      * pose proof (valuesLoop_true
                      (fun x f => _objectToSimple x (level + 1) options f)
                      (_getIndentString (level + 1) options) items) as H.
        destruct (valuesLoop _ _ items true) as [ss f]. cbn [snd] in *.
        apply H. eapply Forall_impl; [ | exact IH ]. intros x Hx. apply Hx.
  - destruct (_shouldInlineObject entries).
    + pose proof (mapPairs_true
                    (fun v f => _objectToSimple v level options f) entries) as H.
      destruct (mapPairs _ entries true) as [ss f]. cbn [snd] in *. apply H.
      eapply Forall_impl; [ | exact IH ]. intros x Hx. apply Hx.
    + pose proof (entriesLoop_true
                    (fun v f => _objectToSimple v (level + 1) options f)
                    (_getIndentString level options) entries) as H.
      destruct (entriesLoop _ _ entries true) as [ss f]. cbn [snd] in *.
      apply H. eapply Forall_impl; [ | exact IH ]. intros x Hx. apply Hx.
Qed.

Lemma existsb_of_Exists {A : Type} (p : A -> bool) (P : A -> Prop) (l : list A) :
  Forall (fun x => P x -> p x = true) l -> Exists P l -> existsb p l = true.
Proof.
  induction 1 as [| x r Hx _ IH]; intros H; inversion H; subst; cbn.
  - now rewrite Hx.
  - rewrite IH by assumption. apply orb_true_r.
Qed.

Lemma objectToSimple_flag_source (obj : value) :
  forall level options,
    snd (_objectToSimple obj level options false) = true ->
    Spec.hasBlockMapping obj = true.
Proof.
  induction obj as [| n | b | s | items IH | proto entries _ IH]
    using value_ind';
    intros level options; cbn [_objectToSimple]; try discriminate.
  - now destruct (_needsQuotes s).
  - cbn [Spec.hasBlockMapping].
    destruct (Nat.eqb (List.length items) 0); [ discriminate | ].
    destruct (_shouldInlineArray items).
    + pose proof (mapItems_source
                    (fun item f => _objectToSimple item level options f)
                    items false) as H.
      destruct (mapItems _ items false) as [ss f]. cbn [snd] in *.
      intros Hf. destruct (H Hf) as [E | E]; [ discriminate E | ].
      eapply existsb_of_Exists; [ | exact E ].
      eapply Forall_impl; [ | exact IH ]. intros x Hx. apply Hx.
    + destruct (s_arrayFormat options).
      * pose proof (indexedLoop_source
                      (fun x f => _objectToSimple x (level + 1) options f)
                      (_getIndentString (level + 1) options) items 0 0 false) as H.
        destruct (indexedLoop _ _ items 0 0 false) as [ss f]. cbn [snd] in *.
        intros Hf. destruct (H Hf) as [E | E]; [ discriminate E | ].
        eapply existsb_of_Exists; [ | exact E ].
        eapply Forall_impl; [ | exact IH ]. intros x Hx. apply Hx.
      * pose proof (valuesLoop_source
                      (fun x f => _objectToSimple x (level + 1) options f)
                      (_getIndentString (level + 1) options) items false) as H.
        destruct (valuesLoop _ _ items false) as [ss f]. cbn [snd] in *.
        intros Hf. destruct (H Hf) as [E | E]; [ discriminate E | ].
        eapply existsb_of_Exists; [ | exact E ].
        eapply Forall_impl; [ | exact IH ]. intros x Hx. apply Hx.
  - cbn [Spec.hasBlockMapping].
    destruct (_shouldInlineObject entries); [ | reflexivity ].
    pose proof (mapPairs_source
                  (fun v f => _objectToSimple v level options f)
                  entries false) as H.
    destruct (mapPairs _ entries false) as [ss f]. cbn [snd] in *.
    intros Hf. destruct (H Hf) as [E | E]; [ discriminate E | ].
    cbn [negb orb].
    eapply (existsb_of_Exists _ (fun e => setsFlag
              (fun v f => _objectToSimple v level options f) (snd e)));
      [ | exact E ].
    eapply Forall_impl; [ | exact IH ]. intros x Hx. apply Hx.
Qed.

(** *** The flag and the marker rule by position *)

Lemma indexedLine_runLine (ind : string) (i n : nat) (text : string) :
  indexedLine ind i (i + 1 + n) text = Spec.runLine ind i (S n) text.
Proof.
  unfold indexedLine, Spec.runLine.
  replace (i + 1 + n - i) with (S n) by lia.
  replace (i + 1 + n - 1) with (i + S n - 1) by lia.
  reflexivity.
Qed.

Section MarkerByPosition.

Variable render : renderer.
Variable text : value -> bool -> string.
Variable writes : value -> bool.

Lemma mapItems_position (l : list value) :
  Forall (followsRule render text writes) l ->
  forall f, mapItems render l f
            = (Spec.itemTexts text writes l f, f || existsb writes l).
Proof.
  induction 1 as [| x r Hx _ IH]; intros f; cbn [mapItems Spec.itemTexts existsb].
  - now rewrite orb_false_r.
  - rewrite (Hx f), IH. now rewrite orb_assoc.
Qed.

Lemma valuesLoop_position (ind : string) (l : list value) :
  Forall (followsRule render text writes) l ->
  forall f, valuesLoop render ind l f
            = (Spec.valueLines text writes ind l f, f || existsb writes l).
Proof.
  induction 1 as [| x r Hx _ IH]; intros f;
    cbn [valuesLoop Spec.valueLines existsb].
  - now rewrite orb_false_r.
  - rewrite (Hx f), IH. now rewrite orb_assoc.
Qed.

Lemma indexedLoop_position (ind : string) (l : list value) :
  Forall (followsRule render text writes) l ->
  forall i skip f,
    indexedLoop render ind l i skip f
    = (Spec.indexLines text writes ind l i skip f,
       f || Spec.anyRunHead writes l skip).
Proof.
  induction 1 as [| x r Hx _ IH]; intros i skip f;
    cbn [indexedLoop Spec.indexLines Spec.anyRunHead].
  - now rewrite orb_false_r.
  - destruct skip as [| k]; [ | apply IH ].
    rewrite (Hx f).
    replace (i + 1 + runLength x r - i - 1) with (runLength x r) by lia.
    rewrite IH, indexedLine_runLine. now rewrite orb_assoc.
Qed.

Lemma mapPairs_position (l : list (string * value)) :
  Forall (fun e => followsRule render text writes (snd e)) l ->
  forall f, mapPairs render l f
            = (Spec.pairTexts text writes l f,
               f || existsb (fun e => writes (snd e)) l).
Proof.
  induction 1 as [| [k x] r Hx _ IH]; intros f;
    cbn [mapPairs Spec.pairTexts existsb snd].
  - now rewrite orb_false_r.
  - cbn [snd] in Hx. rewrite (Hx f), IH. now rewrite orb_assoc.
Qed.

Lemma entriesLoop_position (ind : string) (l : list (string * value)) :
  Forall (fun e => followsRule render text writes (snd e)) l ->
  forall f, entriesLoop render ind l f
            = (Spec.entryLines text writes ind l f,
               f || existsb (fun e => writes (snd e)) l).
Proof.
  induction 1 as [| [k x] r Hx _ IH]; intros f;
    cbn [entriesLoop Spec.entryLines existsb snd].
  - now rewrite orb_false_r.
  - cbn [snd] in Hx. rewrite (Hx f), IH. now rewrite orb_assoc.
Qed.

End MarkerByPosition.

(** [_objectToSimple] writes the text of the marker rule, and leaves the
    flag set exactly when it was set or a mapping in block form has been
    written. *)
Lemma objectToSimple_position (obj : value) :
  forall level options flag,
    _objectToSimple obj level options flag
    = (Spec.textOf options obj level flag,
       flag || Spec.writesBlockMapping options obj).
Proof.
  induction obj as [| n | b | s | items IH | proto entries _ IH]
    using value_ind';
    intros level options flag;
    cbn [_objectToSimple Spec.textOf Spec.writesBlockMapping];
    try (now rewrite orb_false_r).
  - rewrite orb_false_r. now destruct (_needsQuotes s).
  - destruct (Nat.eqb (List.length items) 0) eqn:El.
    + apply Nat.eqb_eq, length_zero_iff_nil in El. subst items.
      cbn. now rewrite orb_false_r.
    + destruct (_shouldInlineArray items).
      * rewrite (mapItems_position _
                   (fun x f => Spec.textOf options x level f)
                   (Spec.writesBlockMapping options)).
        -- reflexivity.
        -- eapply Forall_impl; [ | exact IH ]. intros x Hx f. apply Hx.
      * destruct (s_arrayFormat options).
        -- rewrite (indexedLoop_position _
                      (fun x f => Spec.textOf options x (level + 1) f)
                      (Spec.writesBlockMapping options)).
           ++ reflexivity.
           ++ eapply Forall_impl; [ | exact IH ]. intros x Hx f. apply Hx.
        -- rewrite (valuesLoop_position _
                      (fun x f => Spec.textOf options x (level + 1) f)
                      (Spec.writesBlockMapping options)).
           ++ reflexivity.
           ++ eapply Forall_impl; [ | exact IH ]. intros x Hx f. apply Hx.
  - destruct (_shouldInlineObject entries); cbn [negb orb].
    + rewrite (mapPairs_position _
                 (fun x f => Spec.textOf options x level f)
                 (Spec.writesBlockMapping options)).
      * reflexivity.
      * eapply Forall_impl; [ | exact IH ]. intros x Hx f. apply Hx.
    + rewrite (entriesLoop_position _
                 (fun x f => Spec.textOf options x (level + 1) f)
                 (Spec.writesBlockMapping options)).
      * cbn [orb]. now rewrite orb_true_r.
      * eapply Forall_impl; [ | exact IH ]. intros x Hx f. apply Hx.
Qed.

(** C7.  [stringify] starts [_objectToSimple] with the flag unset.  A
    mapping in block form is preceded by the marker line exactly when the
    flag is set as its rendering starts; its entries are rendered with the
    flag set, and the flag is set when the rendering ends.  Once set the
    flag stays set through every rendering, and only a mapping in block
    form sets it.  The flag passes from each element, entry and run to the
    next, so that it is set at a mapping exactly when a mapping in block
    form was written earlier in the call: the text of every value is the
    text of the marker rule by position, in which, in one call, the first
    mapping in block form has no marker and every later one has it. *)
Theorem C7_one_shot_marker :
  (forall this obj options,
      fst (stringify this obj options)
      = fst (_objectToSimple obj 0 options false))
  /\ (forall proto entries level options flag,
         _shouldInlineObject entries = false ->
         _objectToSimple (VObject proto entries) level options flag
         = (trim ((if flag then "{}" ++ str1 LF else EmptyString)
                  ++ fst (entriesLoop
                            (fun v f => _objectToSimple v (level + 1) options f)
                            (_getIndentString level options) entries true)),
            true))
  /\ (forall obj level options,
         snd (_objectToSimple obj level options true) = true)
  /\ (forall obj level options,
         snd (_objectToSimple obj level options false) = true ->
         Spec.hasBlockMapping obj = true)
  /\ (forall obj level options flag,
         _objectToSimple obj level options flag
         = (Spec.textOf options obj level flag,
            flag || Spec.writesBlockMapping options obj))
  /\ (forall this obj options,
         fst (stringify this obj options) = Spec.textOf options obj 0 false).
Proof.
  split; [ | split; [ | split; [ | split; [ | split ] ] ] ].
  - intros this obj options. unfold stringify.
    now destruct (_objectToSimple obj 0 options false).
  - intros proto entries level options flag H. cbn [_objectToSimple]. rewrite H.
    pose proof (entriesLoop_true
                  (fun v f => _objectToSimple v (level + 1) options f)
                  (_getIndentString level options) entries) as Ht.
    destruct (entriesLoop _ _ entries true) as [body f]. cbn [fst snd] in *.
    rewrite Ht; [ reflexivity | ].
    apply Forall_forall. intros e _. apply objectToSimple_keeps_true.
  - intros obj level options. apply objectToSimple_keeps_true.
  - intros obj level options. apply objectToSimple_flag_source.
  - intros obj level options flag. apply objectToSimple_position.
  - intros this obj options. unfold stringify.
    now rewrite objectToSimple_position.
Qed.

Lemma C7_witness :
  _objectToSimple (VObject ObjectPrototype fourEntries) 1
    defaultStringifyOptions true
  = (unlines ["{}"; "  a: None"; "  b: None"; "  c: None"; "  d: None"], true)
  /\ Spec.hasBlockMapping (VArray [VObject ObjectPrototype fourEntries]) = true
  /\ fst (stringify constructor twoBlocks defaultStringifyOptions)
     = unlines ["[]"; "  0: a: None"; "  b: None"; "  c: None"; "  d: None";
                "  1: {}"; "  e: None"; "  a: None"; "  b: None";
                "  c: None"; "  d: None"]
  /\ fst (stringify constructor twoBlocks
            {| indent := 2; indentChar := " "; compact := false;
               s_arrayFormat := Values |})
     = unlines ["[]"; "  a: None"; "  b: None"; "  c: None"; "  d: None";
                "  {}"; "  e: None"; "  a: None"; "  b: None";
                "  c: None"; "  d: None"].
Proof.
  split; [ | split; [ | split ] ].
  - rewrite (proj1 (proj2 C7_one_shot_marker) ObjectPrototype fourEntries 1
               defaultStringifyOptions true eq_refl).
    reflexivity.
  - apply (proj1 (proj2 (proj2 (proj2 C7_one_shot_marker)))
             (VArray [VObject ObjectPrototype fourEntries]) 0
             defaultStringifyOptions).
    reflexivity.
  - rewrite (proj2 (proj2 (proj2 (proj2 (proj2 C7_one_shot_marker))))
               constructor twoBlocks defaultStringifyOptions).
    reflexivity.
  - rewrite (proj2 (proj2 (proj2 (proj2 (proj2 C7_one_shot_marker))))
               constructor twoBlocks).
    reflexivity.
Defined.

(** *** Inline or block *)

Lemma isObjectLike_scalar (v : value) :
  isObjectLike v = false <-> Spec.isScalar v.
Proof. destruct v; cbn; intuition discriminate. Qed.

Lemma isNonEmptyArray_scalar (v : value) :
  Spec.isScalar v -> isNonEmptyArray v = false.
Proof. destruct v; cbn; tauto. Qed.

Lemma inlineItemsLoop_spec (l : list value) :
  inlineItemsLoop l = true <-> Forall Spec.isScalar l.
Proof.
  induction l as [| x r IH]; cbn [inlineItemsLoop].
  - split; [ constructor | reflexivity ].
  - destruct (isObjectLike x) eqn:E.
    + split; [ discriminate | ].
      intros H. inversion H as [| ? ? Hx _]; subst.
      cbn [snd] in Hx. apply isObjectLike_scalar in Hx. congruence.
    + apply isObjectLike_scalar in E.
      rewrite (isNonEmptyArray_scalar _ E), IH. split.
      * now constructor.
      * intros H. now inversion H.
Qed.

Lemma inlineEntriesLoop_spec (l : list (string * value)) :
  inlineEntriesLoop l = true <-> Forall (fun e => Spec.isScalar (snd e)) l.
Proof.
  induction l as [| [k x] r IH]; cbn [inlineEntriesLoop].
  - split; [ constructor | reflexivity ].
  - destruct (isObjectLike x) eqn:E.
    + split; [ discriminate | ].
      intros H. inversion H as [| ? ? Hx _]; subst.
      cbn [snd] in Hx. apply isObjectLike_scalar in Hx. congruence.
    + apply isObjectLike_scalar in E.
      rewrite (isNonEmptyArray_scalar _ E), IH. split.
      * now constructor.
      * intros H. now inversion H.
Qed.

Lemma shouldInlineArray_spec (arr : list value) :
  arr <> [] ->
  (_shouldInlineArray arr = true
   <-> List.length arr <= 3 /\ Forall Spec.isScalar arr).
Proof.
  intros Hne. unfold _shouldInlineArray.
  destruct arr as [| x r]; [ contradiction | ].
  cbn [List.length Nat.eqb].
  destruct (Nat.ltb 3 (S (List.length r))) eqn:E.
  - apply Nat.ltb_lt in E. split; [ discriminate | lia ].
  - apply Nat.ltb_ge in E. rewrite inlineItemsLoop_spec. tauto.
Qed.

Lemma shouldInlineObject_spec (entries : list (string * value)) :
  entries <> [] ->
  (_shouldInlineObject entries = true
   <-> List.length entries <= 3
       /\ Forall (fun e => Spec.isScalar (snd e)) entries).
Proof.
  intros Hne. unfold _shouldInlineObject.
  destruct entries as [| x r]; [ contradiction | ].
  cbn [List.length Nat.eqb].
  destruct (Nat.ltb 3 (S (List.length r))) eqn:E.
  - apply Nat.ltb_lt in E. split; [ discriminate | lia ].
  - apply Nat.ltb_ge in E. rewrite inlineEntriesLoop_spec. tauto.
Qed.

Lemma objectToSimple_scalar (v : value) (level : nat)
    (options : stringifyOptions) (flag : bool) :
  Spec.isScalar v -> snd (_objectToSimple v level options flag) = flag.
Proof.
  destruct v; cbn; try tauto. now destruct (_needsQuotes s).
Qed.

Lemma objectToSimple_scalar_text (v : value) (level : nat)
    (options : stringifyOptions) (f g : bool) :
  Spec.isScalar v ->
  fst (_objectToSimple v level options f) = fst (_objectToSimple v level options g).
Proof.
  destruct v; cbn; try tauto. now destruct (_needsQuotes s).
Qed.

Lemma mapItems_scalars (level : nat) (options : stringifyOptions)
    (l : list value) (flag : bool) :
  Forall Spec.isScalar l ->
  mapItems (fun item f => _objectToSimple item level options f) l flag
  = (map (fun item => fst (_objectToSimple item level options flag)) l, flag).
Proof.
  induction 1 as [| x r Hx _ IH]; [ reflexivity | ].
  cbn [mapItems map].
  pose proof (objectToSimple_scalar x level options flag Hx) as Hs.
  destruct (_objectToSimple x level options flag) as [s f1]. cbn in Hs. subst f1.
  now rewrite IH.
Qed.

Lemma mapPairs_scalars (level : nat) (options : stringifyOptions)
    (l : list (string * value)) (flag : bool) :
  Forall (fun e => Spec.isScalar (snd e)) l ->
  mapPairs (fun v f => _objectToSimple v level options f) l flag
  = (map (fun e => fst e ++ ": "
                   ++ fst (_objectToSimple (snd e) level options flag)) l, flag).
Proof.
  induction 1 as [| [k x] r Hx _ IH]; [ reflexivity | ].
  cbn [mapPairs map fst snd]. cbn [snd] in Hx.
  pose proof (objectToSimple_scalar x level options flag Hx) as Hs.
  destruct (_objectToSimple x level options flag) as [s f1]. cbn in Hs. subst f1.
  now rewrite IH.
Qed.

(** C5, as amended.  A non-empty sequence none of whose elements is an
    empty sequence is written inline exactly when it has at most three
    elements and every element is a scalar; a non-empty mapping none of
    whose values is an empty sequence, exactly when it has at most three
    entries and every value is a scalar.  The inline text is the bracketed
    list of the rendered elements, the block text starts with the marker
    line.  Three scalars are written inline, four as a block. *)
Theorem C5_inline_rule :
  (forall arr level options flag,
      arr <> [] ->
      Forall (fun v => v <> VArray []) arr ->
      let out := fst (_objectToSimple (VArray arr) level options flag) in
      let body :=
        match s_arrayFormat options with
        | Values =>
            valuesLoop (fun x f => _objectToSimple x (level + 1) options f)
              (_getIndentString (level + 1) options) arr flag
        | Indexed =>
            indexedLoop (fun x f => _objectToSimple x (level + 1) options f)
              (_getIndentString (level + 1) options) arr 0 0 flag
        end in
      (List.length arr <= 3 /\ Forall Spec.isScalar arr ->
       out = Spec.inlineSequence
               (map (fun x => fst (_objectToSimple x level options flag)) arr))
      /\ (~ (List.length arr <= 3 /\ Forall Spec.isScalar arr) ->
          out = trim ("[]" ++ str1 LF ++ fst body)))
  /\ (forall proto entries level options flag,
         entries <> [] ->
         Forall (fun e => snd e <> VArray []) entries ->
         let out :=
           fst (_objectToSimple (VObject proto entries) level options flag) in
         let body :=
           entriesLoop (fun v f => _objectToSimple v (level + 1) options f)
             (_getIndentString level options) entries true in
         (List.length entries <= 3
          /\ Forall (fun e => Spec.isScalar (snd e)) entries ->
          out = Spec.inlineMapping
                  (map (fun e => fst e ++ ": "
                          ++ fst (_objectToSimple (snd e) level options flag))
                       entries))
         /\ (~ (List.length entries <= 3
                /\ Forall (fun e => Spec.isScalar (snd e)) entries) ->
             out = trim ((if flag then "{}" ++ str1 LF else EmptyString)
                         ++ fst body)))
  /\ fst (stringify constructor
            (VArray [VNumber (Finite 1 0); VNumber (Finite 2 0);
                     VNumber (Finite 3 0)]) defaultStringifyOptions)
     = "[1, 2, 3]"
  /\ fst (stringify constructor
            (VArray [VNumber (Finite 1 0); VNumber (Finite 2 0);
                     VNumber (Finite 3 0); VNumber (Finite 4 0)])
            defaultStringifyOptions)
     = unlines ["[]"; "  0: 1"; "  1: 2"; "  2: 3"; "  3: 4"]
  /\ fst (stringify constructor
            (VObject ObjectPrototype [("a", VNull); ("b", VNull); ("c", VNull)])
            defaultStringifyOptions)
     = "{a: None, b: None, c: None}"
  /\ fst (stringify constructor (VObject ObjectPrototype fourEntries)
            defaultStringifyOptions)
     = unlines ["a: None"; "b: None"; "c: None"; "d: None"].
Proof.
  split; [ | split; [ | repeat split ] ].
  - intros arr level options flag Hne _. cbv zeta.
    pose proof (shouldInlineArray_spec arr Hne) as Hs.
    cbn [_objectToSimple].
    destruct arr as [| x r] eqn:Ea; [ contradiction | ]. rewrite <- Ea in *.
    replace (Nat.eqb (List.length arr) 0) with false by now rewrite Ea.
    split; intros H.
    + rewrite (proj2 Hs H), mapItems_scalars by apply H. reflexivity.
    + destruct (_shouldInlineArray arr); [ exfalso; tauto | ].
      now destruct (s_arrayFormat options);
        match goal with |- context [ let '(_, _) := ?e in _ ] => destruct e end.
  - intros proto entries level options flag Hne _. cbv zeta.
    pose proof (shouldInlineObject_spec entries Hne) as Hs.
    cbn [_objectToSimple].
    split; intros H.
    + rewrite (proj2 Hs H), mapPairs_scalars by apply H. reflexivity.
    + destruct (_shouldInlineObject entries); [ exfalso; tauto | ].
      now destruct (entriesLoop _ _ entries true).
Qed.

Lemma C5_witness :
  fst (_objectToSimple (VArray [VString "x"; VNull]) 0
         defaultStringifyOptions false) = "[x, None]"
  /\ fst (_objectToSimple (VObject ObjectPrototype [("k", VArray [VNull])]) 0
            defaultStringifyOptions false) = "k: [None]".
Proof.
  split.
  - apply (proj1 (proj1 C5_inline_rule [VString "x"; VNull] 0
                    defaultStringifyOptions false
                    ltac:(discriminate)
                    ltac:(repeat constructor; discriminate))).
    split; [ cbn; lia | repeat constructor ].
  - rewrite (proj2 (proj1 (proj2 C5_inline_rule) ObjectPrototype
                      [("k", VArray [VNull])] 0
                      defaultStringifyOptions false
                      ltac:(discriminate)
                      ltac:(repeat constructor; discriminate))).
    + reflexivity.
    + intros [_ H]. inversion H as [| ? ? Hx _]. exact Hx.
Defined.

(** C5 as the specification states it fails on a sequence whose one element
    is an empty mapping: the element is an empty container and the length
    is one, yet the sequence is written as a block. *)
Lemma C5_counterexample :
  let arr := [emptyObject] in
  (List.length arr <= 3 /\ Forall Spec.isScalarOrEmpty arr)
  /\ _shouldInlineArray arr = false
  /\ fst (stringify constructor (VArray arr) defaultStringifyOptions)
     = unlines ["[]"; "  0: {}"]
  /\ fst (stringify constructor (VArray arr) defaultStringifyOptions)
     <> Spec.inlineSequence ["{}"].
Proof.
  cbv zeta. repeat split.
  - cbn. lia.
  - repeat constructor.
  - discriminate.
Qed.

(** *** Errors *)

Lemma astNode_ind' (P : astNode -> Prop) :
  (forall cs, Forall P cs -> P (Root cs)) ->
  (forall k v t i cs,
      match cs with Some l => Forall P l | None => True end ->
      P (Node k v t i cs)) ->
  forall n, P n.
Proof.
  intros Hroot Hnode. fix IH 1. intros [cs | k v t i cs].
  - apply Hroot. induction cs as [| c r IHr]; constructor; [ apply IH | exact IHr ].
  - apply Hnode. destruct cs as [l |]; [ | exact I ].
    induction l as [| c r IHr]; constructor; [ apply IH | exact IHr ].
Qed.

Lemma objectLoop_throws materialize (cs : list astNode) :
  Forall (throwsOnlyRangeError materialize) cs ->
  forall obj e, objectLoop materialize cs obj = Throw e -> e = RangeError.
Proof.
  induction 1 as [| c r Hc _ IH]; intros obj e; cbn [objectLoop].
  - discriminate.
  - destruct (isContainerType (nodeTypeOf c)); [ | apply IH ].
    destruct (materialize c) as [v | e'] eqn:E; [ apply IH | ].
    intros [= <-]. now apply Hc.
Qed.

Lemma rangeAssign_throws start end_ v a ex e :
  rangeAssign start end_ v a ex = Throw e -> e = RangeError.
Proof.
  unfold rangeAssign. destruct (rangeCount start end_) as [n |].
  - destruct (N.leb _ _); [ discriminate | now intros [= <-] ].
  - now intros [= <-].
Qed.

Lemma arrayLoop_throws materialize (cs : list astNode) :
  Forall (throwsOnlyRangeError materialize) cs ->
  forall st e, arrayLoop materialize cs st = Throw e -> e = RangeError.
Proof.
  induction 1 as [| c r Hc _ IH]; intros st e; cbn [arrayLoop].
  - discriminate.
  - destruct (String.eqb (nodeKey c) "-").
    { destruct (materialize c) as [v | e'] eqn:E; [ apply IH | ].
      intros [= <-]. now apply Hc. }
    destruct (includes "-" (nodeKey c)).
    { destruct (materialize c) as [v | e'] eqn:E.
      - destruct (rangeAssign _ _ v (array st) (explicitIndices st))
          as [[a ex] | e'] eqn:Er; [ apply IH | ].
        intros [= <-]. now apply rangeAssign_throws in Er.
      - intros [= <-]. now apply Hc. }
    destruct (negb (isNaN (parseInt (nodeKey c)))); [ | apply IH ].
    destruct (materialize c) as [v | e'] eqn:E.
    + destruct (N.ltb _ _); [ apply IH | now intros [= <-] ].
    + intros [= <-]. now apply Hc.
Qed.

Lemma astToObject_throws (n : astNode) (e : error) :
  _astToObject n = Throw e -> e = RangeError.
Proof.
  revert e. induction n as [cs IH | k v t i cs IH] using astNode_ind';
    intros e; cbn [_astToObject].
  - intros E. eapply objectLoop_throws; [ | exact E ]. exact IH.
  - destruct t; try discriminate.
    + destruct cs as [l |]; [ | discriminate ].
      intros E. eapply objectLoop_throws; [ | exact E ]. exact IH.
    + destruct cs as [l |]; [ | destruct (truthy v); discriminate ].
      destruct (arrayLoop _ l _) as [st | e'] eqn:E; [ discriminate | ].
      intros [= <-]. eapply arrayLoop_throws; [ | exact E ]. exact IH.
Qed.

Lemma includes_cons (c d : ascii) (r : string) :
  includes (String c EmptyString) (String d r) = Ascii.eqb c d || includes (String c EmptyString) r.
Proof.
  change (includes (String c EmptyString) (String d r))
    with (String.prefix (String c EmptyString) (String d r) || includes (String c EmptyString) r).
  now rewrite prefix_str1.
Qed.

Lemma indexOf_includes (c : ascii) (s : string) :
  indexOf c s = None <-> includes (String c EmptyString) s = false.
Proof.
  induction s as [| d r IH].
  - cbn. tauto.
  - rewrite includes_cons. cbn [indexOf]. rewrite (Ascii.eqb_sym c d).
    destruct (Ascii.eqb d c); cbn [orb].
    + split; discriminate.
    + destruct (indexOf c r); rewrite <- IH; split; congruence.
Qed.

Lemma includes_trimStart (c : ascii) (s : string) :
  isSpace c = false -> includes (String c EmptyString) (trimStart s) = includes (String c EmptyString) s.
Proof.
  intros Hc. induction s as [| d r IH]; [ reflexivity | ].
  cbn [trimStart]. destruct (isSpace d) eqn:Ed; [ | reflexivity ].
  rewrite IH, includes_cons.
  destruct (Ascii.eqb c d) eqn:E; [ | reflexivity ].
  apply Ascii.eqb_eq in E. congruence.
Qed.

Lemma includes_trimEnd (c : ascii) (s : string) :
  isSpace c = false -> includes (String c EmptyString) (trimEnd s) = includes (String c EmptyString) s.
Proof.
  intros Hc. induction s as [| d r IH]; [ reflexivity | ].
  cbn [trimEnd]. rewrite includes_cons.
  destruct (isSpace d && isEmpty (trimEnd r)) eqn:E.
  - apply andb_true_iff in E. destruct E as [Ed Ee].
    destruct (trimEnd r); [ | discriminate Ee ].
    rewrite <- IH.
    destruct (Ascii.eqb c d) eqn:E; [ | reflexivity ].
    apply Ascii.eqb_eq in E. congruence.
  - now rewrite includes_cons, IH.
Qed.

Lemma includes_trim (c : ascii) (s : string) :
  isSpace c = false -> includes (String c EmptyString) (trim s) = includes (String c EmptyString) s.
Proof.
  intros Hc. unfold trim. now rewrite includes_trimEnd, includes_trimStart.
Qed.

Lemma hasColon_includes (line : string) :
  ~ Spec.hasColon line <-> includes ":" line = false.
Proof.
  unfold Spec.hasColon. rewrite <- (includes_char ":" line).
  destruct (includes ":" line); split; congruence.
Qed.

Lemma isCommentLike_false (line : string) :
  ~ Spec.isCommentLike line <-> isCommentLine (trim line) = false.
Proof.
  unfold Spec.isCommentLike. destruct (isCommentLine (trim line)); split; congruence.
Qed.

Lemma parseKeyValue_Throw (line : string) (pt : nodeType) (e : error) :
  _parseKeyValue (trim line) pt = Throw e
  <-> includes ":" line = false /\ e = InvalidLine (trim line).
Proof.
  unfold _parseKeyValue.
  rewrite <- (includes_trim ":" line eq_refl), <- indexOf_includes.
  destruct (indexOf ":" (trim line)).
  - split; [ discriminate | now intros [? _] ].
  - split; [ intros [= <-]; tauto | now intros [_ ->] ].
Qed.

(** When the body of the loop throws. *)
Lemma processLine_Throw this options line top below e :
  processLine this options line top below = Throw e <->
  isEmpty (trim line) = false /\ Spec.invalidAt this options line top below
  /\ e = InvalidLine (trim line).
Proof.
  unfold processLine, Spec.invalidAt, Spec.pureValueContext.
  rewrite isCommentLike_false, hasColon_includes.
  destruct (isEmpty (trim line)); [ split; [ discriminate | now intros [? _] ] | ].
  destruct (isCommentLine (trim line));
    [ split; [ discriminate | now intros (_ & (? & _) & _) ] | ].
  destruct (popFrames top below (Z.of_nat (_getIndentLevel this line)))
    as [parent below1]. cbn [fst].
  pose proof (parseKeyValue_Throw line (nodeTypeOf (fnode parent))) as Hk.
  destruct (p_arrayFormat options), (nodeTypeOf (fnode parent)),
    (includes ":" line); cbn [andb negb];
    try (split; [ discriminate
                | intros (_ & (_ & _ & H) & _); exfalso; apply H; now split ]);
    (destruct (_parseKeyValue (trim line) _) as [[key [type val]] | e'];
     [ split;
       [ destruct (isContainerType type); discriminate
       | intros (_ & (_ & Hc & _) & _);
         assert (X : Ok (key, (type, val))
                     = @Throw (string * (nodeType * value))
                         (InvalidLine (trim line)))
           by (apply Hk; now split);
         discriminate X ]
     | split;
       [ intros [= <-]; destruct (proj1 (Hk e') eq_refl) as [Hc ->];
         repeat split; try assumption; intros [H1 H2]; discriminate
       | intros (_ & _ & ->);
         destruct (proj1 (Hk e') eq_refl) as [_ ->]; reflexivity ] ]).
Qed.

Lemma linesLoop_stackAfter this options lines top below :
  linesLoop this options lines top below
  = match stackAfter this options lines top below with
    | Ok (t, b) => Ok (closeAll t b)
    | Throw e => Throw e
    end.
Proof.
  revert top below. induction lines as [| line rest IH]; intros top below.
  - reflexivity.
  - cbn [linesLoop stackAfter].
    destruct (processLine this options line top below) as [[t b] | e];
      [ apply IH | reflexivity ].
Qed.

(** The loop throws at the first line whose body throws. *)
Lemma stackAfter_Throw this options lines top below e :
  stackAfter this options lines top below = Throw e <->
  exists before line after top1 below1,
    lines = (before ++ line :: after)%list
    /\ stackAfter this options before top below = Ok (top1, below1)
    /\ processLine this options line top1 below1 = Throw e.
Proof.
  revert top below. induction lines as [| x rest IH]; intros top below.
  - split; [ discriminate | ].
    intros (before & line & after & _ & _ & H & _). now destruct before.
  - cbn [stackAfter]. split.
    + destruct (processLine this options x top below) as [[t b] | e'] eqn:E.
      * intros H. apply IH in H.
        destruct H as (before & line & after & t1 & b1 & -> & Hs & Hp).
        exists (x :: before), line, after, t1, b1.
        repeat split; [ | exact Hp ]. cbn [stackAfter]. now rewrite E.
      * intros [= <-]. now exists [], x, rest, top, below.
    + intros (before & line & after & t1 & b1 & Hl & Hs & Hp).
      destruct before as [| y before].
      * cbn in Hl, Hs. injection Hl as <- <-. injection Hs as <- <-.
        now rewrite Hp.
      * cbn in Hl. injection Hl as <- ->. cbn [stackAfter] in Hs.
        destruct (processLine this options x top below) as [[t b] | e'];
          [ | discriminate Hs ].
        apply IH. now exists before, line, after, t1, b1.
Qed.

Lemma parse_Throw_InvalidLine this text options t :
  fst (parse this text options) = Throw (InvalidLine t) <->
  stackAfter (_detectIndentType (_processMultilineStrings (_removeComments text))
                this)
    options (_processMultilineStrings (_removeComments text)) rootFrame []
  = Throw (InvalidLine t).
Proof.
  unfold parse, _linesToAst. fold rootFrame. rewrite linesLoop_stackAfter.
  destruct (stackAfter _ options _ rootFrame []) as [[top below] | e]; cbn [fst].
  - split; [ | discriminate ].
    intros H. apply astToObject_throws in H. discriminate H.
  - cbn. split; intros [= ->]; reflexivity.
Qed.

Lemma logical_lines_not_blank (str : string) :
  Forall (fun line => isEmpty (trim line) = false) (_processMultilineStrings str).
Proof.
  apply Forall_forall. intros line H. unfold _processMultilineStrings in H.
  apply filter_In in H. destruct H as [_ H]. apply Nat.ltb_lt in H.
  destruct (trim line); [ cbn in H; lia | reflexivity ].
Qed.

(** In the indexed format a line goes through exactly when it is
    comment-like or has a colon. *)
Lemma stackAfter_indexed this options lines top below :
  p_arrayFormat options = Indexed ->
  Forall (fun line => isEmpty (trim line) = false) lines ->
  ((exists t b, stackAfter this options lines top below = Ok (t, b))
   <-> Forall (fun line => Spec.isCommentLike line \/ Spec.hasColon line) lines).
Proof.
  intros Hf Hb. revert top below.
  induction Hb as [| x rest Hx _ IH]; intros top below.
  - split; [ constructor | now exists top, below ].
  - cbn [stackAfter].
    destruct (processLine this options x top below) as [[t b] | e] eqn:E.
    + rewrite IH. split.
      * intros H. constructor; [ | exact H ].
        destruct (isCommentLine (trim x)) eqn:Ec; [ now left | right ].
        destruct (includes ":" x) eqn:Ei.
        -- apply (includes_char ":" x). exact Ei.
        -- exfalso.
           assert (Ht : processLine this options x top below
                        = Throw (InvalidLine (trim x))).
           { apply processLine_Throw. split; [ exact Hx | ].
             split; [ | reflexivity ].
             unfold Spec.invalidAt. rewrite isCommentLike_false, hasColon_includes.
             repeat split; try assumption.
             intros [H' _]. congruence. }
           congruence.
      * intros H. now inversion H.
    + split; [ now intros (? & ? & ?) | ].
      intros H. inversion H as [| ? ? Ha _]. subst. exfalso.
      apply processLine_Throw in E. destruct E as (_ & (Hc & Hn & _) & _). tauto.
Qed.

(** C2, as amended.  [parse] raises [InvalidLine] exactly when some logical
    line that is not comment-like has no colon and is reached outside the
    pure-value-sequence context; the error carries the trimmed text of the
    first such line.  In the indexed format that is: every line before it
    is comment-like or has a colon, and it is neither.  The block parser
    raises nothing else, and the document [foo bar] raises [InvalidLine]. *)
Theorem C2_invalid_line :
  (forall this text options t,
      let lines := _processMultilineStrings (_removeComments text) in
      let this1 := _detectIndentType lines this in
      fst (parse this text options) = Throw (InvalidLine t) <->
      exists before line after top below,
        lines = (before ++ line :: after)%list
        /\ stackAfter this1 options before rootFrame [] = Ok (top, below)
        /\ Spec.invalidAt this1 options line top below
        /\ t = trim line)
  /\ (forall this text t,
         let lines := _processMultilineStrings (_removeComments text) in
         fst (parse this text {| p_arrayFormat := Indexed |})
         = Throw (InvalidLine t) <->
         exists before line after,
           lines = (before ++ line :: after)%list
           /\ Forall (fun l => Spec.isCommentLike l \/ Spec.hasColon l) before
           /\ ~ Spec.isCommentLike line /\ ~ Spec.hasColon line
           /\ t = trim line)
  /\ (forall this lines options,
         fst (_linesToAst this lines options) <> Throw RangeError)
  /\ fst (parse constructor "foo bar" defaultParseOptions)
     = Throw (InvalidLine "foo bar").
Proof.
  assert (main : forall this text options t,
             fst (parse this text options) = Throw (InvalidLine t) <->
             exists before line after top below,
               _processMultilineStrings (_removeComments text)
               = (before ++ line :: after)%list
               /\ stackAfter
                    (_detectIndentType
                       (_processMultilineStrings (_removeComments text)) this)
                    options before rootFrame [] = Ok (top, below)
               /\ Spec.invalidAt
                    (_detectIndentType
                       (_processMultilineStrings (_removeComments text)) this)
                    options line top below
               /\ t = trim line).
  { intros this text options t.
    rewrite parse_Throw_InvalidLine, stackAfter_Throw.
    pose proof (logical_lines_not_blank (_removeComments text)) as Hb.
    split.
    - intros (before & line & after & top & below & Hl & Hs & Hp).
      apply processLine_Throw in Hp. destruct Hp as (_ & Hi & [= ->]).
      now exists before, line, after, top, below.
    - intros (before & line & after & top & below & Hl & Hs & Hi & ->).
      exists before, line, after, top, below. repeat split; try assumption.
      apply processLine_Throw. repeat split; try apply Hi.
      rewrite Hl in Hb. apply Forall_app in Hb. destruct Hb as [_ Hb].
      now inversion Hb. }
  split; [ exact main | split; [ | split; [ | reflexivity ] ] ].
  - intros this text t. cbv zeta. rewrite main.
    pose proof (logical_lines_not_blank (_removeComments text)) as Hb.
    split.
    + intros (before & line & after & top & below & Hl & Hs & Hi & ->).
      exists before, line, after. repeat split; try apply Hi; try assumption.
      rewrite Hl in Hb. apply Forall_app in Hb. destruct Hb as [Hb _].
      eapply (proj1 (stackAfter_indexed _ {| p_arrayFormat := Indexed |}
                       before rootFrame [] eq_refl Hb)).
      eauto.
    + intros (before & line & after & Hl & Hf & Hc & Hn & ->).
      rewrite Hl in Hb. apply Forall_app in Hb. destruct Hb as [Hb _].
      destruct (proj2 (stackAfter_indexed
                        (_detectIndentType
                           (_processMultilineStrings (_removeComments text)) this)
                        {| p_arrayFormat := Indexed |}
                        before rootFrame [] eq_refl Hb) Hf) as (top & below & Hs).
      exists before, line, after, top, below. repeat split; try assumption.
      intros [H _]. discriminate H.
  - intros this lines options. unfold _linesToAst. fold rootFrame. cbn [fst].
    rewrite linesLoop_stackAfter.
    destruct (stackAfter _ options lines rootFrame []) as [[t b] | e] eqn:E;
      [ discriminate | ].
    apply stackAfter_Throw in E.
    destruct E as (before & line & after & top & below & _ & _ & Hp).
    apply processLine_Throw in Hp. destruct Hp as (_ & _ & ->). discriminate.
Qed.

(** C2 as the specification states it fails on a quoted text that runs
    over a line break: the second logical line has no colon and the format
    is indexed, yet the line is skipped as a comment and [parse] returns a
    value. *)
Lemma C2_counterexample :
  let text := unlines ["a: 'x"; "#y'"] in
  _processMultilineStrings (_removeComments text) = ["a: 'x"; "#y'"]
  /\ includes ":" "#y'" = false
  /\ fst (parse constructor text {| p_arrayFormat := Indexed |})
     = Ok (VObject ObjectPrototype [("a", VString "'x")]).
Proof. cbv zeta. repeat split. Qed.

(** *** Structural equality *)

Lemma lookup_In (k : string) (v : value) (es : list (string * value)) :
  lookup k es = Some v -> In (k, v) es.
Proof.
  induction es as [| [k' v'] r IH]; cbn [lookup]; [ discriminate | ].
  destruct (String.eqb k' k) eqn:E.
  - intros [= ->]. apply String.eqb_eq in E. subst. now left.
  - intros H. right. now apply IH.
Qed.

Lemma In_lookup (k : string) (v : value) (es : list (string * value)) :
  NoDup (map fst es) -> In (k, v) es -> lookup k es = Some v.
Proof.
  induction es as [| [k' v'] r IH]; cbn [lookup map fst]; [ contradiction | ].
  intros Hnd Hin. inversion Hnd as [| ? ? Hni Hnd']; subst.
  destruct Hin as [[= -> ->] | Hin].
  - now rewrite String.eqb_refl.
  - destruct (String.eqb k' k) eqn:E.
    + apply String.eqb_eq in E. subst k'. exfalso. apply Hni.
      change k with (fst (k, v)). now apply in_map.
    + now apply IH.
Qed.

Lemma lookup_keys (k : string) (es : list (string * value)) :
  In k (map fst es) <-> exists v, lookup k es = Some v.
Proof.
  induction es as [| [k' v'] r IH]; cbn [lookup map fst In].
  - split; [ contradiction | now intros [v H] ].
  - destruct (String.eqb k' k) eqn:E.
    + apply String.eqb_eq in E. split; [ now exists v' | now left ].
    + apply String.eqb_neq in E. rewrite IH. split; [ | tauto ].
      intros [H | H]; [ contradiction | exact H ].
Qed.

Lemma itemsEqualLoop_spec (eq : value -> value -> bool) (xs ys : list value) :
  List.length xs = List.length ys ->
  (itemsEqualLoop eq xs ys = true <-> Forall2 (fun x y => eq x y = true) xs ys).
Proof.
  revert ys. induction xs as [| x xs IH]; intros [| y ys] Hl;
    try discriminate Hl; cbn [itemsEqualLoop].
  - split; [ constructor | reflexivity ].
  - injection Hl as Hl. destruct (eq x y) eqn:E; cbn [negb].
    + rewrite (IH ys Hl). split; [ now constructor | ].
      intros H. now inversion H.
    + split; [ discriminate | ].
      intros H. inversion H. congruence.
Qed.

Lemma hasKey_In (k : string) (obj : list (string * value)) :
  hasKey k obj = true <-> In k (map fst obj).
Proof.
  induction obj as [| [k' v] obj IH]; cbn; [ now split | ].
  rewrite orb_true_iff, IH, String.eqb_eq. tauto.
Qed.

(** On an object with the prototype [Object.prototype], a key other than
    [__proto__] is read among the own entries: nothing that is inherited
    is a value. *)
Lemma get_plain (key : string) (eb : list (string * value)) :
  key <> "__proto__" ->
  get key (VObject ObjectPrototype eb)
  = match lookup key eb with Some v => Data v | None => NoData end.
Proof.
  intros Hk. cbn [get getFrom]. destruct (lookup key eb); [ reflexivity | ].
  apply String.eqb_neq in Hk. now rewrite Hk.
Qed.

Lemma plainData_object (p : prototype value) (es : list (string * value)) :
  plainData (VObject p es) = true ->
  p = ObjectPrototype
  /\ ~ In "__proto__" (map fst es)
  /\ Forall (fun e => plainData (snd e) = true) es.
Proof.
  cbn [plainData]. destruct p; try discriminate.
  rewrite andb_true_iff, negb_true_iff. intros [Hk Hv].
  split; [ reflexivity | split ].
  - intros H. apply hasKey_In in H. congruence.
  - apply Forall_forall. intros e He.
    rewrite List.forallb_forall in Hv. now apply Hv.
Qed.

Lemma plainData_array (items : list value) :
  plainData (VArray items) = true ->
  Forall (fun x => plainData x = true) items.
Proof.
  cbn [plainData]. intros H. apply Forall_forall. intros x Hx.
  rewrite List.forallb_forall in H. now apply H.
Qed.

Lemma entriesEqualLoop_spec (eq : value -> value -> bool)
    (eb l : list (string * value)) :
  ~ In "__proto__" (map fst l) ->
  (entriesEqualLoop eq (VObject ObjectPrototype eb) l = true <->
   Forall (fun e => exists vb, lookup (fst e) eb = Some vb
                               /\ eq (snd e) vb = true) l).
Proof.
  induction l as [| [k va] r IH]; cbn [entriesEqualLoop map fst In]; intros Hp.
  - split; [ constructor | reflexivity ].
  - rewrite get_plain by tauto.
    destruct (lookup k eb) as [vb |] eqn:El; cbn [equalsProperty].
    + destruct (eq va vb) eqn:E; cbn [negb].
      * rewrite IH by tauto. split.
        -- intros H. constructor; [ now exists vb | exact H ].
        -- intros H. now inversion H.
      * split; [ discriminate | ].
        intros H. inversion H as [| ? ? (vb' & H1 & H2) _]. subst.
        cbn [fst snd] in *. congruence.
    + cbn [negb]. split; [ discriminate | ].
      intros H. inversion H as [| ? ? (vb' & H1 & _) _]. subst.
      cbn [fst] in H1. congruence.
Qed.

Lemma Forall2_equiv {X : Type} (A B : X -> X -> Prop) (Q : X -> Prop)
    (xs : list X) :
  Forall (fun x => forall y, Q y -> (A x y <-> B x y)) xs ->
  forall ys, Forall Q ys -> (Forall2 A xs ys <-> Forall2 B xs ys).
Proof.
  induction 1 as [| x xs Hx _ IH]; intros ys Hq.
  - split; intros H; inversion H; constructor.
  - split; intros H; inversion H as [| ? y ? ys' Hxy Hr]; subst;
      inversion Hq; subst; constructor;
      try (now apply Hx); now apply (IH ys').
Qed.

Lemma Forall2_length_eqb {X : Type} (A : X -> X -> Prop) (xs ys : list X) :
  Forall2 A xs ys -> Nat.eqb (List.length xs) (List.length ys) = true.
Proof.
  intros H. apply Nat.eqb_eq. induction H; cbn; [ reflexivity | now f_equal ].
Qed.

(** [_isEqual] decides structural equality on well-formed plain data. *)
Lemma isEqual_spec (a : value) :
  forall b, Spec.wellFormed a -> Spec.wellFormed b ->
            plainData a = true -> plainData b = true ->
            (_isEqual a b = true <-> Spec.deepEqual a b).
Proof.
  induction a as [| n | v | s | items IH | pa entries _ IH] using value_ind';
    intros b Wa Wb Pa Pb.
  - destruct b; cbn; split; intros H; try discriminate H; try (now inversion H).
    constructor.
  - destruct b as [| m | | | |]; cbn; split; intros H;
      try discriminate H; try (now inversion H).
    now constructor.
  - destruct b as [| | w | | |]; cbn; split; intros H;
      try discriminate H; try (now inversion H).
    + apply Bool.eqb_prop in H. subst. constructor.
    + inversion H. subst. apply Bool.eqb_reflx.
  - destruct b as [| | | t | |]; cbn; split; intros H;
      try discriminate H; try (now inversion H).
    + apply String.eqb_eq in H. subst. constructor.
    + inversion H. subst. apply String.eqb_refl.
  - destruct b as [| | | | ys |]; cbn [_isEqual typeof jsType_eqb negb];
      try (split; intros H; [ discriminate H | now inversion H ]).
    inversion Wa as [| | | | ? Wi |]; subst.
    inversion Wb as [| | | | ? Wy |]; subst.
    apply plainData_array in Pa, Pb.
    assert (IH' : Forall (fun x => forall y,
                    Spec.wellFormed y /\ plainData y = true ->
                    ((fun x y => _isEqual x y = true) x y
                     <-> Spec.deepEqual x y)) items).
    { rewrite Forall_forall in *. intros x Hx y [Hy Py]. apply IH; auto. }
    assert (Qy : Forall (fun y => Spec.wellFormed y /\ plainData y = true) ys).
    { rewrite Forall_forall in *. intros y Hy. split; auto. }
    pose proof (Forall2_equiv _ _ _ items IH' ys Qy) as Heq.
    destruct (Nat.eqb (List.length items) (List.length ys)) eqn:El; cbn [negb].
    + apply Nat.eqb_eq in El. rewrite (itemsEqualLoop_spec _ _ _ El), Heq.
      split; intros H; [ now constructor | now inversion H ].
    + split; [ discriminate | ].
      intros H. inversion H as [| | | | ? ? H2 |]; subst.
      apply Forall2_length_eqb in H2. congruence.
  - destruct b as [| | | | | pb eb]; cbn [_isEqual typeof jsType_eqb negb];
      try (split; intros H; [ discriminate H | now inversion H ]).
    inversion Wa as [| | | | | ? ? Na Wea]; subst.
    inversion Wb as [| | | | | ? ? Nb Web]; subst.
    apply plainData_object in Pa, Pb.
    destruct Pa as (-> & Ka & Pea), Pb as (-> & Kb & Peb).
    rewrite Forall_forall in IH, Wea, Web, Pea, Peb.
    destruct (Nat.eqb (List.length entries) (List.length eb)) eqn:El; cbn [negb].
    + apply Nat.eqb_eq in El.
      rewrite entriesEqualLoop_spec by exact Ka. rewrite Forall_forall. split.
      * intros H.
        assert (Hsub : incl (map fst entries) (map fst eb)).
        { intros k Hk. apply in_map_iff in Hk. destruct Hk as ([k' va] & <- & Hin).
          destruct (H _ Hin) as (vb & Hl & _). apply lookup_keys. now exists vb. }
        constructor.
        -- intros k. split; [ apply Hsub | ].
           apply (NoDup_length_incl Na); [ | exact Hsub ].
           rewrite !length_map. lia.
        -- intros k va vb Ha Hb. apply lookup_In in Ha.
           destruct (H _ Ha) as (vb' & Hl & He). cbn [fst snd] in *.
           assert (vb' = vb) by congruence. subst vb'.
           apply lookup_In in Hb.
           apply (IH _ Ha); [ apply (Wea _ Ha) | apply (Web _ Hb)
                            | apply (Pea _ Ha) | apply (Peb _ Hb) | exact He ].
      * intros H [k va] Hin. inversion H as [| | | | | ? ? ? ? Hk Hv]; subst.
        cbn [fst snd].
        assert (Hkb : In k (map fst eb)).
        { apply Hk. change k with (fst (k, va)). now apply in_map. }
        apply lookup_keys in Hkb. destruct Hkb as [vb Hb].
        exists vb. split; [ exact Hb | ].
        pose proof (lookup_In _ _ _ Hb) as Hinb.
        apply (IH _ Hin); [ apply (Wea _ Hin) | apply (Web _ Hinb)
                          | apply (Pea _ Hin) | apply (Peb _ Hinb) | ].
        apply (Hv k); [ now apply In_lookup | exact Hb ].
    + split; [ discriminate | ].
      intros H. inversion H as [| | | | | ? ? ? ? Hk Hv]; subst.
      apply Nat.eqb_neq in El. exfalso. apply El.
      rewrite <- (length_map fst entries), <- (length_map fst eb).
      apply Nat.le_antisymm; apply NoDup_incl_length; try assumption;
        intros k; apply Hk.
Qed.

(** Structural equality is symmetric and transitive. *)

Lemma numEq_Finite (m1 e1 m2 e2 : Z) :
  numEq (Finite m1 e1) (Finite m2 e2) = true
  <-> (m1 * 10 ^ (e1 - Z.min e1 e2) = m2 * 10 ^ (e2 - Z.min e1 e2))%Z.
Proof. unfold numEq, align. apply Z.eqb_eq. Qed.

Lemma scaled_eq (m1 e1 m2 e2 e : Z) :
  (e <= Z.min e1 e2)%Z ->
  (m1 * 10 ^ (e1 - Z.min e1 e2) = m2 * 10 ^ (e2 - Z.min e1 e2)
   <-> m1 * 10 ^ (e1 - e) = m2 * 10 ^ (e2 - e))%Z.
Proof.
  intros H. set (m := Z.min e1 e2) in *.
  replace (e1 - e)%Z with ((e1 - m) + (m - e))%Z by lia.
  replace (e2 - e)%Z with ((e2 - m) + (m - e))%Z by lia.
  rewrite !Z.pow_add_r by lia. rewrite !Z.mul_assoc.
  assert (P : (10 ^ (m - e) <> 0)%Z) by (apply Z.pow_nonzero; lia).
  split; [ now intros -> | now apply Z.mul_reg_r ].
Qed.

Lemma numEq_sym (x y : number) : numEq x y = true -> numEq y x = true.
Proof.
  destruct x as [| s1 | m1 e1], y as [| s2 | m2 e2]; cbn; try discriminate.
  - intros H. apply Bool.eqb_prop in H. subst. apply Bool.eqb_reflx.
  - change (numEq (Finite m1 e1) (Finite m2 e2) = true
            -> numEq (Finite m2 e2) (Finite m1 e1) = true).
    rewrite !numEq_Finite, (Z.min_comm e2 e1). congruence.
Qed.

Lemma numEq_trans (x y z : number) :
  numEq x y = true -> numEq y z = true -> numEq x z = true.
Proof.
  destruct x as [| s1 | m1 e1], y as [| s2 | m2 e2], z as [| s3 | m3 e3];
    cbn; try discriminate.
  - intros H1 H2. apply Bool.eqb_prop in H1, H2. subst. apply Bool.eqb_reflx.
  - change (numEq (Finite m1 e1) (Finite m2 e2) = true
            -> numEq (Finite m2 e2) (Finite m3 e3) = true
            -> numEq (Finite m1 e1) (Finite m3 e3) = true).
    rewrite !numEq_Finite.
    set (e := Z.min e1 (Z.min e2 e3)).
    rewrite (scaled_eq m1 e1 m2 e2 e), (scaled_eq m2 e2 m3 e3 e),
      (scaled_eq m1 e1 m3 e3 e) by (unfold e; lia).
    congruence.
Qed.

Lemma Forall2_sym_under {X : Type} (R : X -> X -> Prop) (xs : list X) :
  Forall (fun x => forall y, R x y -> R y x) xs ->
  forall ys, Forall2 R xs ys -> Forall2 R ys xs.
Proof.
  induction 1 as [| x xs Hx _ IH]; intros ys H; inversion H; subst;
    constructor; auto.
Qed.

Lemma Forall2_trans_under {X : Type} (R : X -> X -> Prop) (xs : list X) :
  Forall (fun x => forall y z, R x y -> R y z -> R x z) xs ->
  forall ys zs, Forall2 R xs ys -> Forall2 R ys zs -> Forall2 R xs zs.
Proof.
  induction 1 as [| x xs Hx _ IH]; intros ys zs H1 H2; inversion H1; subst;
    inversion H2; subst; constructor; eauto.
Qed.

Lemma deepEqual_sym (a : value) :
  forall b, Spec.deepEqual a b -> Spec.deepEqual b a.
Proof.
  induction a as [| n | v | s | items IH | pa entries _ IH] using value_ind';
    intros b H; inversion H; subst; try constructor.
  - now apply numEq_sym.
  - eapply Forall2_sym_under; eassumption.
  - intros k. symmetry. auto.
  - intros k vb va Hb Ha.
    rewrite Forall_forall in IH.
    apply (IH (k, va) (lookup_In _ _ _ Ha)). eauto.
Qed.

Lemma deepEqual_trans (a : value) :
  forall b c, Spec.deepEqual a b -> Spec.deepEqual b c -> Spec.deepEqual a c.
Proof.
  induction a as [| n | v | s | items IH | pa entries _ IH] using value_ind';
    intros b c H1 H2; inversion H1; subst; inversion H2; subst;
    try constructor.
  - eapply numEq_trans; eassumption.
  - eapply Forall2_trans_under; eassumption.
  - intros k. etransitivity; eauto.
  - intros k va vc Ha Hc.
    match goal with
    | Hk : forall k, In k (map fst entries) <-> In k (map fst ?eb) |- _ =>
        assert (Hb : In k (map fst eb))
          by (apply Hk, lookup_keys; now exists va)
    end.
    apply lookup_keys in Hb. destruct Hb as [vb Hb].
    rewrite Forall_forall in IH.
    apply (IH (k, va) (lookup_In _ _ _ Ha) vb vc); eauto.
Qed.

(** Any two elements of a run of more than one element are equal. *)
Lemma run_pairwise (run : list value) :
  Spec.isRun run -> 2 <= List.length run ->
  forall y z, In y run -> In z run -> Spec.deepEqual y z.
Proof.
  intros (x & tail & -> & Hall) Hlen. rewrite Forall_forall in Hall.
  assert (Hxx : Spec.deepEqual x x).
  { destruct tail as [| w tail']; [ cbn in Hlen; lia | ].
    assert (Hw : Spec.deepEqual x w) by (apply Hall; now left).
    eapply deepEqual_trans; [ exact Hw | now apply deepEqual_sym ]. }
  assert (Hx : forall y, In y (x :: tail) -> Spec.deepEqual x y).
  { intros y [<- | Hy]; [ exact Hxx | now apply Hall ]. }
  intros y z Hy Hz.
  eapply deepEqual_trans; [ apply deepEqual_sym, Hx, Hy | apply Hx, Hz ].
Qed.

(** What differs from the first element of a run differs from all of them. *)
Lemma run_boundary (run : list value) (x next : value) :
  Spec.isRun run -> hd_error run = Some x -> ~ Spec.deepEqual x next ->
  forall y, In y run -> ~ Spec.deepEqual y next.
Proof.
  intros (x' & tail & -> & Hall) [= ->] Hn y Hy Hd. apply Hn.
  destruct Hy as [<- | Hy]; [ exact Hd | ].
  rewrite Forall_forall in Hall.
  eapply deepEqual_trans; [ apply Hall, Hy | exact Hd ].
Qed.

(** *** Runs *)

Lemma runLength_le (x : value) (r : list value) :
  runLength x r <= List.length r.
Proof.
  induction r as [| y r IH]; cbn; [ lia | ].
  destruct (_isEqual x y); cbn; lia.
Qed.

Lemma runLength_firstn (x : value) (r : list value) :
  Forall (fun y => _isEqual x y = true) (firstn (runLength x r) r).
Proof.
  induction r as [| y r IH]; cbn; [ constructor | ].
  destruct (_isEqual x y) eqn:E; cbn; constructor; assumption.
Qed.

Lemma runLength_next (x y : value) (r : list value) :
  hd_error (skipn (runLength x r) r) = Some y -> _isEqual x y = false.
Proof.
  induction r as [| z r IH]; cbn; [ discriminate | ].
  destruct (_isEqual x z) eqn:E; cbn; [ exact IH | ].
  now intros [= <-].
Qed.

Lemma indexedLoop_skip (render : renderer) (ind : string) (r : list value)
    (i skip : nat) (f : bool) :
  skip <= List.length r ->
  indexedLoop render ind r i skip f
  = indexedLoop render ind (skipn skip r) (i + skip) 0 f.
Proof.
  revert i skip. induction r as [| y r IH]; intros i skip Hs.
  - destruct skip; [ now rewrite Nat.add_0_r | cbn in Hs; lia ].
  - destruct skip as [| k].
    + now rewrite Nat.add_0_r.
    + cbn [indexedLoop skipn]. cbn in Hs. rewrite IH by lia.
      f_equal. lia.
Qed.

(** The indexed loop writes one line per run. *)
Lemma indexedLoop_runs (render : renderer) (ind : string) (n : nat) :
  forall (l : list value) (i : nat) (f : bool),
    List.length l <= n ->
    Forall (fun x => Spec.wellFormed x /\ plainData x = true) l ->
    exists runs,
      concat runs = l
      /\ Forall Spec.isRun runs
      /\ Spec.separated runs
      /\ indexedLoop render ind l i 0 f = Spec.runLines render ind runs i f.
Proof.
  induction n as [| n IH]; intros l i f Hn Hw.
  - destruct l; [ | cbn in Hn; lia ]. exists []. repeat split. constructor.
  - destruct l as [| x r]; [ exists []; repeat split; constructor | ].
    cbn in Hn. inversion Hw as [| ? ? [Wx Px] Wr]; subst.
    pose proof (runLength_le x r) as Hle.
    rewrite <- (firstn_skipn (runLength x r) r) in Wr.
    apply Forall_app in Wr. destruct Wr as [Wf Wsk].
    destruct (IH (skipn (runLength x r) r) (S i + runLength x r)
                (snd (render x f))) as (runs & Hc & Hr & Hs & He).
    { rewrite length_skipn. lia. }
    { exact Wsk. }
    exists ((x :: firstn (runLength x r) r) :: runs). split; [ | split; [ | split ] ].
    + cbn [concat]. rewrite Hc. cbn. now rewrite firstn_skipn.
    + constructor; [ | exact Hr ].
      exists x, (firstn (runLength x r) r). split; [ reflexivity | ].
      pose proof (runLength_firstn x r) as Hf.
      rewrite Forall_forall in *. intros y Hy.
      destruct (Wf y Hy) as [Wy Py].
      apply isEqual_spec; auto.
    + cbn [Spec.separated]. destruct runs as [| r2 runs']; [ exact I | ].
      split; [ | exact Hs ].
      intros x' y [= <-] Hy.
      assert (Hh : hd_error (skipn (runLength x r) r) = Some y).
      { rewrite <- Hc. destruct r2; [ discriminate Hy | ].
        cbn in Hy. injection Hy as ->. reflexivity. }
      pose proof (runLength_next x y r Hh) as Hne.
      destruct (skipn (runLength x r) r) as [| y' rest]; [ discriminate Hh | ].
      injection Hh as ->. inversion Wsk as [| ? ? [Wy Py] _]; subst.
      intros Hd. apply isEqual_spec in Hd; [ congruence | assumption .. ].
    + cbn [indexedLoop Spec.runLines].
      destruct (render x f) as [text f1] eqn:Er. cbn [snd] in He.
      replace (i + 1 + runLength x r - i - 1) with (runLength x r) by lia.
      rewrite indexedLoop_skip by exact Hle.
      replace (List.length (x :: firstn (runLength x r) r))
        with (S (runLength x r))
        by (cbn; rewrite firstn_length_le by exact Hle; reflexivity).
      replace (i + S (runLength x r)) with (S i + runLength x r) by lia.
      rewrite He. rewrite indexedLine_runLine.
      now destruct (Spec.runLines render ind runs (S i + runLength x r) f1).
Qed.

Lemma indexed_block_runs (arr : list value) (level : nat)
    (options : stringifyOptions) (flag : bool) :
  s_arrayFormat options = Indexed ->
  _shouldInlineArray arr = false ->
  Forall (fun x => Spec.wellFormed x /\ plainData x = true) arr ->
  exists runs,
    concat runs = arr
    /\ Forall Spec.isRun runs
    /\ Spec.separated runs
    /\ _objectToSimple (VArray arr) level options flag
       = (let '(body, flag1) :=
            Spec.runLines
              (fun x f => _objectToSimple x (level + 1) options f)
              (_getIndentString (level + 1) options) runs 0 flag in
          (trim ("[]" ++ str1 LF ++ body), flag1)).
Proof.
  intros Hf Hi Hw.
  destruct (indexedLoop_runs
              (fun x f => _objectToSimple x (level + 1) options f)
              (_getIndentString (level + 1) options)
              (List.length arr) arr 0 flag (Nat.le_refl _) Hw)
    as (runs & Hc & Hr & Hs & He).
  exists runs. repeat split; try assumption.
  cbn [_objectToSimple]. rewrite Hi, Hf, He.
  destruct arr; [ discriminate Hi | reflexivity ].
Qed.

(** C4.  Two neighbours that are not structurally equal are compressed
    into one line.  [_isEqual] reads [b[key]] for every own key of [a]
    without asking whether [key] is an own key of [b], so what [b]
    inherits counts.  A mapping whose one own key is [__proto__], with an
    empty mapping as value, and the mapping with the one key [x] have
    different key sets; [_isEqual] compares the empty mapping with
    [Object.prototype], finds no key in either and answers true, and the
    two are written as the run [0-1].  The same happens to a value that
    [parse] returns: the second element of [s] has the own key [y] and
    inherits [x] from the prototype that its line [__proto__] installed;
    it is folded into the run of the first element, which has the own key
    [x], and its text is not written. *)
Theorem C4_unequal_elements_compressed :
  let a := VObject ObjectPrototype [("__proto__", emptyObject)] in
  let b := VObject ObjectPrototype [("x", VNull)] in
  let text := unlines ["s: []"; "  0: {}"; "    x: 1"; "  1: {}";
                       "    __proto__: {}"; "      x: 1"; "    y: 2"] in
  let first := VObject ObjectPrototype [("x", VNumber (Finite 1 0))] in
  let second := VObject (ValuePrototype first) [("y", VNumber (Finite 2 0))] in
  (Spec.wellFormed a /\ Spec.wellFormed b /\ ~ Spec.deepEqual a b
   /\ _isEqual a b = true
   /\ fst (stringify constructor (VArray [a; b]) defaultStringifyOptions)
      = unlines ["[]"; "  0-1: __proto__: {}"])
  /\ (fst (parse constructor text defaultParseOptions)
      = Ok (VObject ObjectPrototype [("s", VArray [first; second])])
      /\ ~ Spec.deepEqual first second
      /\ _isEqual first second = true
      /\ fst (stringify constructor
                (VObject ObjectPrototype [("s", VArray [first; second])])
                defaultStringifyOptions)
         = unlines ["s: []"; "    0-1: {x: 1}"]).
Proof.
  cbv zeta. split; [ split; [ | split; [ | split; [ | split ] ] ]
                   | split; [ | split; [ | split ] ] ];
    try reflexivity.
  - repeat constructor; cbn; tauto.
  - repeat constructor; cbn; tauto.
  - intros H. inversion H as [| | | | | ? ? ? ? Hk _]; subst.
    destruct (proj2 (Hk "x") (or_introl eq_refl)) as [E | []]. discriminate E.
  - intros H. inversion H as [| | | | | ? ? ? ? Hk _]; subst.
    destruct (proj1 (Hk "x") (or_introl eq_refl)) as [E | []]. discriminate E.
Qed.

(** X30.  On well-formed plain data, that is when every mapping has the
    prototype [Object.prototype], no own key [__proto__] and no key
    twice, [_isEqual] is structural equality.  Any two elements of a run
    of more than one element are equal, and what differs from the first
    element of a run differs from all of them.  In the indexed format a
    sequence of such values written as a block splits into runs, each
    made of an element and the elements after it that equal it, and each
    ending where the next element differs; the block has one line per
    run, [start-end: value] for a run of more than one element and
    [index: value] for a run of one, the value being the rendering of the
    first element of the run.  The sequence 1 1 1 2 3 3 4 4 4 4 5 gives
    the five lines of the specification. *)
Theorem run_length_compression_plain_data :
  (forall a b, Spec.wellFormed a -> Spec.wellFormed b ->
               plainData a = true -> plainData b = true ->
               (_isEqual a b = true <-> Spec.deepEqual a b))
  /\ (forall run, Spec.isRun run -> 2 <= List.length run ->
                  forall y z, In y run -> In z run -> Spec.deepEqual y z)
  /\ (forall run x next,
         Spec.isRun run -> hd_error run = Some x -> ~ Spec.deepEqual x next ->
         forall y, In y run -> ~ Spec.deepEqual y next)
  /\ (forall arr level options flag,
         s_arrayFormat options = Indexed ->
         _shouldInlineArray arr = false ->
         Forall (fun x => Spec.wellFormed x /\ plainData x = true) arr ->
         exists runs,
           concat runs = arr
           /\ Forall Spec.isRun runs
           /\ Spec.separated runs
           /\ _objectToSimple (VArray arr) level options flag
              = (let '(body, flag1) :=
                   Spec.runLines
                     (fun x f => _objectToSimple x (level + 1) options f)
                     (_getIndentString (level + 1) options) runs 0 flag in
                 (trim ("[]" ++ str1 LF ++ body), flag1)))
  /\ fst (stringify constructor (VArray arrayWithRepeats)
            {| indent := 2; indentChar := " "; compact := false;
               s_arrayFormat := Indexed |})
     = unlines ["[]"; "  0-2: 1"; "  3: 2"; "  4-5: 3"; "  6-9: 4"; "  10: 5"].
Proof.
  split; [ | split; [ | split; [ | split; [ | reflexivity ] ] ] ].
  - intros a b. apply isEqual_spec.
  - apply run_pairwise.
  - apply run_boundary.
  - apply indexed_block_runs.
Qed.

Lemma run_length_compression_plain_data_witness :
  exists runs,
    concat runs = arrayWithRepeats
    /\ Forall Spec.isRun runs
    /\ Spec.separated runs
    /\ _objectToSimple (VArray arrayWithRepeats) 0 defaultStringifyOptions false
       = (let '(body, flag1) :=
            Spec.runLines
              (fun x f => _objectToSimple x (0 + 1) defaultStringifyOptions f)
              (_getIndentString (0 + 1) defaultStringifyOptions) runs 0 false in
          (trim ("[]" ++ str1 LF ++ body), flag1)).
Proof.
  apply (proj1 (proj2 (proj2 (proj2 run_length_compression_plain_data)))
           arrayWithRepeats 0 defaultStringifyOptions false).
  - reflexivity.
  - reflexivity.
  - repeat constructor.
Defined.

(** *** Decimal keys *)

Lemma uint_digits (d : Decimal.uint) :
  JS.forallb isDigit (NilEmpty.string_of_uint d) = true.
Proof. induction d; cbn; auto. Qed.

Lemma natToString_digits (n : nat) : JS.forallb isDigit (natToString n) = true.
Proof.
  unfold natToString, digitsOfN, NilZero.string_of_uint.
  destruct (N.to_uint (N.of_nat n)); try apply uint_digits. reflexivity.
Qed.

Lemma natToString_nonempty (n : nat) : isEmpty (natToString n) = false.
Proof.
  unfold natToString, digitsOfN, NilZero.string_of_uint.
  destruct (N.to_uint (N.of_nat n)); reflexivity.
Qed.

Lemma natToString_value (n : nat) : digitsToN (natToString n) = N.of_nat n.
Proof.
  unfold natToString, digitsOfN, digitsToN, NilZero.string_of_uint.
  destruct (N.to_uint (N.of_nat n)) eqn:E;
    try (rewrite <- E at 1; rewrite NilEmpty.usu, E, <- E;
         apply DecimalN.Unsigned.of_to).
  exfalso. destruct (N.of_nat n); cbn in E; [ discriminate E | ].
  now apply (Unsigned.to_uint_nonnil p).
Qed.

Lemma digit_not_space (c : ascii) : isDigit c = true -> isSpace c = false.
Proof.
  destruct c as [[] [] [] [] [] [] [] []]; cbn; intros H;
    first [ discriminate H | reflexivity ].
Qed.

Lemma digit_not_dash (c : ascii) : isDigit c = true -> Ascii.eqb "-" c = false.
Proof.
  destruct c as [[] [] [] [] [] [] [] []]; cbn; intros H;
    first [ discriminate H | reflexivity ].
Qed.

Lemma digits_no_dash (s : string) :
  JS.forallb isDigit s = true -> includes "-" s = false.
Proof.
  induction s as [| c r IH]; [ reflexivity | ].
  cbn [JS.forallb]. rewrite andb_true_iff. intros [Hc Hr].
  now rewrite includes_cons, (digit_not_dash c Hc), IH.
Qed.

Lemma digits_trimStart (s : string) :
  JS.forallb isDigit s = true -> trimStart s = s.
Proof.
  destruct s as [| c r]; [ reflexivity | ].
  cbn [JS.forallb trimStart]. rewrite andb_true_iff. intros [Hc _].
  now rewrite (digit_not_space c Hc).
Qed.

Lemma digits_trimEnd (s : string) :
  JS.forallb isDigit s = true -> trimEnd s = s.
Proof.
  induction s as [| c r IH]; [ reflexivity | ].
  cbn [JS.forallb trimEnd]. rewrite andb_true_iff. intros [Hc Hr].
  now rewrite (digit_not_space c Hc), IH.
Qed.

Lemma digits_trim (s : string) : JS.forallb isDigit s = true -> trim s = s.
Proof.
  intros H. unfold trim. now rewrite digits_trimStart, digits_trimEnd.
Qed.

Lemma digits_span (s : string) :
  JS.forallb isDigit s = true -> span isDigit s = (s, EmptyString).
Proof.
  induction s as [| c r IH]; [ reflexivity | ].
  cbn [JS.forallb span]. rewrite andb_true_iff. intros [Hc Hr].
  now rewrite Hc, IH.
Qed.

Lemma digits_takeSign (s : string) :
  JS.forallb isDigit s = true -> takeSign s = (false, s).
Proof.
  destruct s as [| c r]; [ reflexivity | ].
  cbn [JS.forallb]. rewrite andb_true_iff. intros [Hc _].
  destruct c as [[] [] [] [] [] [] [] []]; cbn in Hc;
    first [ discriminate Hc | reflexivity ].
Qed.

Lemma digits_not_Infinity (s : string) :
  JS.forallb isDigit s = true -> startsWith "Infinity" s = false.
Proof.
  destruct s as [| c r]; [ reflexivity | ].
  cbn [JS.forallb]. rewrite andb_true_iff. intros [Hc _].
  destruct c as [[] [] [] [] [] [] [] []]; cbn in Hc;
    first [ discriminate Hc | reflexivity ].
Qed.

Lemma digits_scanRadix (s : string) :
  JS.forallb isDigit s = true -> scanRadix s = None.
Proof.
  destruct s as [| c [| p ds]]; try reflexivity.
  - intros _. unfold scanRadix.
    destruct c as [[] [] [] [] [] [] [] []]; reflexivity.
  - cbn [JS.forallb]. rewrite !andb_true_iff. intros (_ & Hp & _).
    unfold scanRadix.
    destruct c as [[] [] [] [] [] [] [] []]; try reflexivity.
    destruct p as [[] [] [] [] [] [] [] []]; cbn in Hp;
      first [ discriminate Hp | reflexivity ].
Qed.

Lemma string_app_nil_r (s : string) : s ++ EmptyString = s.
Proof. induction s as [| c r IH]; cbn; [ reflexivity | now rewrite IH ]. Qed.

Lemma Number_natToString (n : nat) : Number (natToString n) = indexNumber n.
Proof.
  pose proof (natToString_digits n) as Hd.
  pose proof (natToString_nonempty n) as He.
  unfold Number. rewrite (digits_trim _ Hd), He, (digits_scanRadix _ Hd),
    (digits_takeSign _ Hd).
  unfold scanDecimal. rewrite (digits_not_Infinity _ Hd), (digits_span _ Hd).
  cbn [isEmpty andb]. rewrite He. cbn [andb].
  rewrite string_app_nil_r, natToString_value. cbn.
  unfold indexNumber. now rewrite nat_N_Z.
Qed.

Lemma parseInt_natToString (n : nat) : parseInt (natToString n) = indexNumber n.
Proof.
  pose proof (natToString_digits n) as Hd.
  pose proof (natToString_nonempty n) as He.
  unfold parseInt. rewrite (digits_trimStart _ Hd), (digits_takeSign _ Hd),
    (digits_span _ Hd), He, natToString_value. cbn.
  unfold indexNumber. now rewrite nat_N_Z.
Qed.

Lemma split_no_separator (c : ascii) (s : string) :
  includes (String c EmptyString) s = false -> split c s = [s].
Proof.
  induction s as [| d r IH]; [ reflexivity | ].
  rewrite includes_cons, orb_false_iff. intros [Hd Hr].
  cbn [split]. rewrite (Ascii.eqb_sym d c), Hd, (IH Hr). reflexivity.
Qed.

Lemma split_app (c : ascii) (a b : string) :
  includes (String c EmptyString) a = false ->
  split c (a ++ String c b) = a :: split c b.
Proof.
  induction a as [| d r IH].
  - intros _. cbn. now rewrite Ascii.eqb_refl.
  - rewrite includes_cons, orb_false_iff. intros [Hd Hr].
    cbn [append split]. rewrite (Ascii.eqb_sym d c), Hd, (IH Hr). reflexivity.
Qed.

Lemma includes_app_r (c : ascii) (a b : string) :
  includes (String c EmptyString) (a ++ String c b) = true.
Proof.
  induction a as [| d r IH]; cbn [append]; rewrite includes_cons.
  - now rewrite Ascii.eqb_refl.
  - rewrite IH. apply orb_true_r.
Qed.

(** What the three kinds of key are to the first loop of the array branch. *)
Lemma range_key (s e : nat) :
  let key := natToString s ++ "-" ++ natToString e in
  String.eqb key "-" = false
  /\ includes "-" key = true
  /\ map Number (split "-" key) = [indexNumber s; indexNumber e].
Proof.
  cbv zeta. split; [ | split ].
  - pose proof (natToString_nonempty s) as He.
    destruct (natToString s) as [| c r] eqn:E; [ discriminate He | ].
    pose proof (natToString_digits s) as Hd. rewrite E in Hd.
    cbn [JS.forallb] in Hd. apply andb_true_iff in Hd. destruct Hd as [Hc _].
    apply String.eqb_neq. intros H. cbn in H. injection H as -> _.
    discriminate Hc.
  - apply (includes_app_r "-").
  - change (natToString s ++ "-" ++ natToString e)
      with (natToString s ++ String "-" (natToString e)).
    rewrite split_app by (apply digits_no_dash, natToString_digits).
    rewrite split_no_separator by (apply digits_no_dash, natToString_digits).
    cbn [map]. now rewrite !Number_natToString.
Qed.

Lemma index_key (n : nat) :
  String.eqb (natToString n) "-" = false
  /\ includes "-" (natToString n) = false
  /\ parseInt (natToString n) = indexNumber n.
Proof.
  split; [ | split ].
  - apply String.eqb_neq. intros H.
    pose proof (natToString_digits n) as Hd. rewrite H in Hd. discriminate Hd.
  - apply digits_no_dash, natToString_digits.
  - apply parseInt_natToString.
Qed.

(** *** Sparse arrays *)

Lemma slot_nil (i : nat) : slot [] i = None.
Proof. unfold slot. now destruct i. Qed.

Lemma slot_lt (a : list (option value)) (i : nat) (v : value) :
  slot a i = Some v -> i < List.length a.
Proof.
  unfold slot. destruct (nth_error a i) eqn:E; [ | discriminate ].
  intros _. apply nth_error_Some. congruence.
Qed.

Lemma arraySet_length (n : nat) (v : value) (a : list (option value)) :
  (N.of_nat n < 4294967295)%N ->
  List.length (arraySet (N.of_nat n) v a) = Nat.max (List.length a) (S n).
Proof.
  intros Hb. unfold arraySet.
  apply N.ltb_lt in Hb. rewrite Hb, Nat2N.id.
  destruct (Nat.ltb n (List.length a)) eqn:E.
  - apply Nat.ltb_lt in E.
    rewrite length_app, length_firstn. cbn [List.length]. rewrite length_skipn. lia.
  - apply Nat.ltb_ge in E.
    rewrite !length_app, repeat_length. cbn [List.length]. lia.
Qed.

Lemma arraySet_slot (n : nat) (v : value) (a : list (option value)) (j : nat) :
  (N.of_nat n < 4294967295)%N ->
  slot (arraySet (N.of_nat n) v a) j
  = if Nat.eqb j n then Some v else slot a j.
Proof.
  intros Hb. unfold arraySet, slot.
  apply N.ltb_lt in Hb. rewrite Hb, Nat2N.id.
  destruct (Nat.ltb n (List.length a)) eqn:E.
  - apply Nat.ltb_lt in E.
    destruct (Nat.eqb j n) eqn:Ej.
    + apply Nat.eqb_eq in Ej. subst j.
      rewrite nth_error_app2 by (rewrite length_firstn; lia).
      rewrite length_firstn. replace (n - Nat.min n (List.length a)) with 0 by lia.
      reflexivity.
    + apply Nat.eqb_neq in Ej. destruct (Nat.lt_ge_cases j n) as [Hlt | Hge].
      * rewrite nth_error_app1 by (rewrite length_firstn; lia).
        now rewrite nth_error_firstn, (proj2 (Nat.ltb_lt j n) Hlt).
      * rewrite nth_error_app2 by (rewrite length_firstn; lia).
        rewrite length_firstn. replace (Nat.min n (List.length a)) with n by lia.
        destruct (j - n) as [| k] eqn:Ek; [ lia | ].
        cbn [nth_error]. rewrite nth_error_skipn.
        replace (S n + k) with j by lia. reflexivity.
  - apply Nat.ltb_ge in E.
    destruct (Nat.eqb j n) eqn:Ej.
    + apply Nat.eqb_eq in Ej. subst j.
      rewrite nth_error_app2 by lia.
      rewrite nth_error_app2 by (rewrite repeat_length; lia).
      rewrite repeat_length.
      replace (n - List.length a - (n - List.length a)) with 0 by lia.
      reflexivity.
    + apply Nat.eqb_neq in Ej.
      destruct (Nat.lt_ge_cases j (List.length a)) as [Hlt | Hge].
      * now rewrite nth_error_app1 by lia.
      * rewrite nth_error_app2 by lia.
        rewrite (proj2 (nth_error_None a j)) by lia.
        destruct (Nat.lt_ge_cases j n) as [Hjn | Hjn].
        -- rewrite nth_error_app1 by (rewrite repeat_length; lia).
           rewrite nth_error_repeat by lia. reflexivity.
        -- rewrite nth_error_app2 by (rewrite repeat_length; lia).
           rewrite repeat_length.
           destruct (j - List.length a - (n - List.length a)) as [| k] eqn:Ek;
             [ lia | ].
           cbn [nth_error]. now destruct k.
Qed.

Lemma fillHoles_nth (a : list (option value)) (i : nat) :
  i < List.length a ->
  nth_error (fillHoles a) i
  = Some (match slot a i with Some v => v | None => VNumber (Finite 0 0) end).
Proof.
  intros H. unfold fillHoles, slot. rewrite nth_error_map.
  destruct (nth_error a i) as [[v |] |] eqn:E; try reflexivity.
  apply nth_error_None in E. lia.
Qed.

Lemma fillHoles_length (a : list (option value)) :
  List.length (fillHoles a) = List.length a.
Proof. apply length_map. Qed.

(** *** Numbers that are indices *)

Lemma numEq_index (a b : nat) :
  numEq (indexNumber a) (indexNumber b) = Nat.eqb a b.
Proof.
  unfold numEq, indexNumber, align. cbn. rewrite !Z.mul_1_r.
  destruct (Nat.eqb a b) eqn:E.
  - apply Nat.eqb_eq in E. subst. apply Z.eqb_refl.
  - apply Nat.eqb_neq in E. apply Z.eqb_neq. lia.
Qed.

Lemma toIndex_index (n : nat) : toIndex (indexNumber n) = Some (N.of_nat n).
Proof.
  unfold toIndex, indexNumber.
  replace (Z.ltb (Z.of_nat n) 0) with false by (symmetry; apply Z.ltb_ge; lia).
  f_equal. lia.
Qed.

Lemma arrayWrite_index (n : nat) (v : value) (a : list (option value)) :
  arrayWrite (indexNumber n) v a = arraySet (N.of_nat n) v a.
Proof. unfold arrayWrite. now rewrite toIndex_index. Qed.

Lemma addZ_index (n : nat) : addZ (indexNumber n) 1 = indexNumber (S n).
Proof. unfold addZ, indexNumber. f_equal. lia. Qed.

Lemma rangeCount_index (s e : nat) :
  rangeCount (indexNumber s) (indexNumber e) = Some (N.of_nat (e + 1 - s)).
Proof.
  unfold rangeCount, indexNumber, numLe, align. cbn. rewrite !Z.mul_1_r.
  destruct (Z.leb (Z.of_nat s) (Z.of_nat e)) eqn:E.
  - apply Z.leb_le in E. f_equal. lia.
  - apply Z.leb_gt in E. f_equal. lia.
Qed.

Lemma rangeLoop_index (n s : nat) (v : value) (a : list (option value))
    (ex : list number) :
  rangeLoop n (indexNumber s) v a ex
  = (fold_left (fun a i => arraySet (N.of_nat i) v a) (seq s n) a,
     (ex ++ map indexNumber (seq s n))%list).
Proof.
  revert s a ex. induction n as [| n IH]; intros s a ex.
  - cbn. now rewrite app_nil_r.
  - cbn [rangeLoop seq fold_left map].
    rewrite addZ_index, arrayWrite_index, IH, <- app_assoc. reflexivity.
Qed.

Lemma includesIndex_claims (claimed : list nat) (c : nat) :
  includesIndex (map indexNumber claimed) (N.of_nat c) = true <-> In c claimed.
Proof.
  unfold includesIndex. rewrite existsb_exists. split.
  - intros (x & Hx & He). apply in_map_iff in Hx. destruct Hx as (i & <- & Hi).
    rewrite nat_N_Z in He. change (Finite (Z.of_nat c) 0) with (indexNumber c) in He.
    rewrite numEq_index in He. apply Nat.eqb_eq in He. now subst.
  - intros H. exists (indexNumber c). split; [ now apply in_map | ].
    rewrite nat_N_Z. change (Finite (Z.of_nat c) 0) with (indexNumber c).
    rewrite numEq_index. apply Nat.eqb_refl.
Qed.

(** *** The first loop of the array branch *)

Lemma foldRange_slot (v : value) (n : nat) :
  forall (s : nat) (a : list (option value)) (j : nat),
    (forall i, s <= i < s + n -> (N.of_nat i < 4294967295)%N) ->
    slot (fold_left (fun a i => arraySet (N.of_nat i) v a) (seq s n) a) j
    = if Nat.leb s j && Nat.ltb j (s + n) then Some v else slot a j.
Proof.
  induction n as [| n IH]; intros s a j Hb.
  - cbn [seq fold_left]. destruct (Nat.leb s j) eqn:E1; [ | reflexivity ].
    destruct (Nat.ltb j (s + 0)) eqn:E2; [ | reflexivity ].
    apply Nat.leb_le in E1. apply Nat.ltb_lt in E2. lia.
  - cbn [seq fold_left]. rewrite IH by (intros i Hi; apply Hb; lia).
    rewrite arraySet_slot by (apply Hb; lia).
    destruct (Nat.leb (S s) j) eqn:E1, (Nat.ltb j (S s + n)) eqn:E2,
             (Nat.eqb j s) eqn:E3, (Nat.leb s j) eqn:E4,
             (Nat.ltb j (s + S n)) eqn:E5; cbn [andb]; try reflexivity;
      repeat match goal with
             | H : Nat.leb _ _ = true |- _ => apply Nat.leb_le in H
             | H : Nat.leb _ _ = false |- _ => apply Nat.leb_gt in H
             | H : Nat.ltb _ _ = true |- _ => apply Nat.ltb_lt in H
             | H : Nat.ltb _ _ = false |- _ => apply Nat.ltb_ge in H
             | H : Nat.eqb _ _ = true |- _ => apply Nat.eqb_eq in H
             | H : Nat.eqb _ _ = false |- _ => apply Nat.eqb_neq in H
             end; lia.
Qed.

Lemma foldRange_length (v : value) (n : nat) :
  forall (s : nat) (a : list (option value)) (i : nat),
    (forall k, s <= k < s + n -> (N.of_nat k < 4294967295)%N) ->
    (i < List.length (fold_left (fun a i => arraySet (N.of_nat i) v a)
                                (seq s n) a)
     <-> i < List.length a \/ i < s + n /\ 0 < n).
Proof.
  induction n as [| n IH]; intros s a i Hb.
  - cbn [seq fold_left]. lia.
  - cbn [seq fold_left]. rewrite IH by (intros k Hk; apply Hb; lia).
    rewrite arraySet_length by (apply Hb; lia). lia.
Qed.

Lemma covers_claims (en : Spec.entry) (i : nat) :
  Spec.covers en i = true <-> In i (Spec.claimsOf en).
Proof.
  destruct en as [v | s e v | n v]; cbn [Spec.covers Spec.claimsOf].
  - split; [ discriminate | contradiction ].
  - rewrite in_seq, andb_true_iff, Nat.leb_le, Nat.leb_le. lia.
  - rewrite Nat.eqb_eq. cbn. intuition congruence.
Qed.

Lemma applyEntry_slot (st : arrayState) (en : Spec.entry) (j : nat) :
  Forall (fun i => (N.of_nat i < 4294967295)%N) (Spec.claimsOf en) ->
  slot (array (applyEntry st en)) j
  = if Spec.covers en j then Some (Spec.valueOf en) else slot (array st) j.
Proof.
  intros Hb. rewrite Forall_forall in Hb.
  destruct en as [v | s e v | n v];
    cbn [applyEntry array Spec.covers Spec.valueOf Spec.claimsOf] in *.
  - reflexivity.
  - rewrite foldRange_slot by (intros i Hi; apply Hb, in_seq; lia).
    destruct (Nat.leb s j) eqn:E1, (Nat.ltb j (s + (e + 1 - s))) eqn:E2,
             (Nat.leb j e) eqn:E3; cbn [andb]; try reflexivity;
      repeat match goal with
             | H : Nat.leb _ _ = true |- _ => apply Nat.leb_le in H
             | H : Nat.leb _ _ = false |- _ => apply Nat.leb_gt in H
             | H : Nat.ltb _ _ = true |- _ => apply Nat.ltb_lt in H
             | H : Nat.ltb _ _ = false |- _ => apply Nat.ltb_ge in H
             end; lia.
  - apply arraySet_slot. apply Hb. now left.
Qed.

Lemma applyEntry_length (st : arrayState) (en : Spec.entry) (i : nat) :
  Forall (fun i => (N.of_nat i < 4294967295)%N) (Spec.claimsOf en) ->
  (i < List.length (array (applyEntry st en))
   <-> i < List.length (array st)
       \/ exists j, In j (Spec.claimsOf en) /\ i <= j).
Proof.
  intros Hb. rewrite Forall_forall in Hb.
  destruct en as [v | s e v | n v]; cbn [applyEntry array Spec.claimsOf] in *.
  - split; [ tauto | ]. intros [H | (j & [] & _)]. exact H.
  - rewrite foldRange_length by (intros k Hk; apply Hb, in_seq; lia).
    split.
    + intros [H | [H1 H2]]; [ now left | right ].
      exists e. rewrite in_seq. lia.
    + intros [H | (j & Hj & Hij)]; [ now left | right ].
      apply in_seq in Hj. lia.
  - rewrite arraySet_length by (apply Hb; now left). split.
    + intros H. destruct (Nat.lt_ge_cases i (List.length (array st)));
        [ now left | right ]. exists n. split; [ now left | lia ].
    + intros [H | (j & [<- | []] & Hij)]; lia.
Qed.

Lemma entries_slot (ens : list Spec.entry) :
  forall (st : arrayState) (j : nat),
    Forall (fun i => (N.of_nat i < 4294967295)%N) (Spec.claims ens) ->
    slot (array (fold_left applyEntry ens st)) j
    = match Spec.explicitAt ens j with
      | Some v => Some v
      | None => slot (array st) j
      end.
Proof.
  induction ens as [| en rest IH]; intros st j Hb; [ reflexivity | ].
  unfold Spec.claims in Hb. cbn [flat_map] in Hb.
  apply Forall_app in Hb. destruct Hb as [Hb1 Hb2].
  cbn [fold_left Spec.explicitAt]. rewrite IH by exact Hb2.
  destruct (Spec.explicitAt rest j); [ reflexivity | ].
  rewrite applyEntry_slot by exact Hb1.
  now destruct (Spec.covers en j).
Qed.

Lemma entries_length (ens : list Spec.entry) :
  forall (st : arrayState) (i : nat),
    Forall (fun i => (N.of_nat i < 4294967295)%N) (Spec.claims ens) ->
    (i < List.length (array (fold_left applyEntry ens st))
     <-> i < List.length (array st)
         \/ exists j, In j (Spec.claims ens) /\ i <= j).
Proof.
  induction ens as [| en rest IH]; intros st i Hb.
  - cbn. split; [ tauto | ]. intros [H | (j & [] & _)]. exact H.
  - unfold Spec.claims in Hb. cbn [flat_map] in Hb.
    apply Forall_app in Hb. destruct Hb as [Hb1 Hb2].
    cbn [fold_left]. rewrite IH by exact Hb2.
    rewrite applyEntry_length by exact Hb1.
    unfold Spec.claims. cbn [flat_map]. split.
    + intros [[H | (j & Hj & Hij)] | (j & Hj & Hij)].
      * now left.
      * right. exists j. split; [ apply in_or_app; now left | exact Hij ].
      * right. exists j. split; [ apply in_or_app; now right | exact Hij ].
    + intros [H | (j & Hj & Hij)]; [ now left; left | ].
      apply in_app_or in Hj. destruct Hj as [Hj | Hj].
      * left; right. now exists j.
      * right. now exists j.
Qed.

Lemma entries_explicit (ens : list Spec.entry) :
  forall st,
    explicitIndices (fold_left applyEntry ens st)
    = (explicitIndices st ++ map indexNumber (Spec.claims ens))%list.
Proof.
  induction ens as [| en rest IH]; intros st.
  - cbn. now rewrite app_nil_r.
  - cbn [fold_left]. rewrite IH. unfold Spec.claims. cbn [flat_map].
    rewrite map_app, app_assoc. f_equal.
    destruct en; cbn [applyEntry explicitIndices Spec.claimsOf map];
      [ now rewrite app_nil_r | reflexivity | reflexivity ].
Qed.

Lemma entries_dashes (ens : list Spec.entry) :
  forall st,
    dashIndices (fold_left applyEntry ens st)
    = (dashIndices st ++ Spec.placeholders ens)%list.
Proof.
  induction ens as [| en rest IH]; intros st.
  - cbn. now rewrite app_nil_r.
  - cbn [fold_left]. rewrite IH. unfold Spec.placeholders. cbn [flat_map].
    rewrite app_assoc. f_equal.
    destruct en; cbn [applyEntry dashIndices]; [ reflexivity | | ];
      now rewrite app_nil_r.
Qed.

(** The first loop does to the state what the entries say. *)
Lemma arrayLoop_entries (cs : list astNode) (ens : list Spec.entry) :
  Forall2 (fun c en => nodeKey c = Spec.keyOf en
                       /\ _astToObject c = Ok (Spec.valueOf en)) cs ens ->
  forall st,
    (N.of_nat (List.length (explicitIndices st))
     + N.of_nat (List.length (Spec.claims ens)) <= maxArrayLength)%N ->
    arrayLoop (fun c => _astToObject c) cs st = Ok (fold_left applyEntry ens st).
Proof.
  induction 1 as [| c en cs ens [Hk Hv] _ IH]; intros st Hcap; [ reflexivity | ].
  unfold Spec.claims in Hcap. cbn [flat_map] in Hcap.
  rewrite length_app in Hcap. fold (Spec.claims ens) in Hcap.
  cbn [arrayLoop fold_left]. rewrite Hk, Hv.
  destruct en as [v | s e v | n v]; cbn [Spec.keyOf Spec.valueOf Spec.claimsOf] in *.
  - cbn [String.eqb Ascii.eqb Bool.eqb]. apply IH. exact Hcap.
  - destruct (range_key s e) as (E1 & E2 & E3). cbv zeta in E1, E2, E3.
    rewrite E1, E2, E3. cbn [nth].
    unfold rangeAssign. rewrite rangeCount_index.
    rewrite length_seq in Hcap.
    replace (N.leb (N.of_nat (List.length (explicitIndices st))
                    + N.of_nat (e + 1 - s)) maxArrayLength) with true
      by (symmetry; apply N.leb_le; lia).
    rewrite Nat2N.id, rangeLoop_index.
    apply IH. cbn [applyEntry explicitIndices].
    rewrite length_app, length_map, length_seq. lia.
  - destruct (index_key n) as (E1 & E2 & E3).
    rewrite E1, E2, E3. cbn [isNaN indexNumber negb].
    cbn [List.length] in Hcap.
    replace (N.ltb (N.of_nat (List.length (explicitIndices st))) maxArrayLength)
      with true by (symmetry; apply N.ltb_lt; lia).
    change (Finite (Z.of_nat n) 0) with (indexNumber n).
    rewrite arrayWrite_index.
    apply IH. cbn [applyEntry explicitIndices].
    rewrite length_app. cbn [List.length]. lia.
Qed.

(** *** The placeholders *)

Lemma placeholderTargets_ge (claimed : list nat) (cursor : nat)
    (targets : list nat) :
  Spec.placeholderTargets claimed cursor targets ->
  Forall (fun t => cursor <= t) targets.
Proof.
  induction 1 as [| cursor t ts Hle _ _ _ IH]; constructor; [ exact Hle | ].
  eapply Forall_impl; [ | exact IH ]. cbn. intros. lia.
Qed.

Lemma placeholderTargets_free (claimed : list nat) (cursor : nat)
    (targets : list nat) :
  Spec.placeholderTargets claimed cursor targets ->
  Forall (fun t => ~ In t claimed) targets.
Proof. induction 1; constructor; assumption. Qed.

Lemma interval_claimed (claimed : list nat) (c t : nat) :
  (forall j, c <= j < t -> In j claimed) -> t - c <= List.length claimed.
Proof.
  intros H.
  assert (E : List.length (seq c (t - c)) = t - c) by apply length_seq.
  rewrite <- E.
  apply NoDup_incl_length; [ apply seq_NoDup | ].
  intros j Hj. apply in_seq in Hj. apply H. lia.
Qed.

Lemma skipClaimed_spec (claimed : list nat) (fuel : nat) :
  forall cursor t,
    cursor <= t -> t - cursor < fuel ->
    (forall j, cursor <= j < t -> In j claimed) ->
    ~ In t claimed ->
    skipClaimed fuel (map indexNumber claimed) (N.of_nat cursor) = N.of_nat t.
Proof.
  induction fuel as [| fuel IH]; intros cursor t Hle Hf Hin Hnot; [ lia | ].
  cbn [skipClaimed].
  destruct (includesIndex (map indexNumber claimed) (N.of_nat cursor)) eqn:E.
  - apply includesIndex_claims in E.
    assert (cursor <> t) by (intros ->; contradiction).
    replace (N.of_nat cursor + 1)%N with (N.of_nat (S cursor)) by lia.
    apply IH; try lia; try assumption. intros j Hj. apply Hin. lia.
  - destruct (Nat.eq_dec cursor t) as [-> | Hne]; [ reflexivity | ].
    exfalso. assert (Hc : In cursor claimed) by (apply Hin; lia).
    apply includesIndex_claims in Hc. congruence.
Qed.

Lemma dashAt_None (targets : list nat) (dashes : list value) (i : nat) :
  ~ In i targets -> dashAt targets dashes i = None.
Proof.
  intros H. revert dashes. induction targets as [| t ts IH]; intros dashes.
  - reflexivity.
  - destruct dashes as [| v vs]; [ reflexivity | ].
    cbn [dashAt]. destruct (Nat.eqb i t) eqn:E.
    + apply Nat.eqb_eq in E. subst. exfalso. apply H. now left.
    + apply IH. intros Hi. apply H. now right.
Qed.

Lemma dashAt_nth (claimed : list nat) (cursor : nat) (targets : list nat) :
  Spec.placeholderTargets claimed cursor targets ->
  forall dashes k t v,
    nth_error targets k = Some t -> nth_error dashes k = Some v ->
    dashAt targets dashes t = Some v.
Proof.
  induction 1 as [| cursor t0 ts Hle Hfree Hlow Hrest IH];
    intros dashes k t v Ht Hv.
  - destruct k; discriminate Ht.
  - destruct dashes as [| v0 vs]; [ destruct k; discriminate Hv | ].
    destruct k as [| k]; cbn in Ht, Hv.
    + injection Ht as ->. injection Hv as ->. cbn [dashAt].
      now rewrite Nat.eqb_refl.
    + cbn [dashAt].
      pose proof (placeholderTargets_ge _ _ _ Hrest) as Hge.
      rewrite Forall_forall in Hge.
      assert (S t0 <= t) by (apply Hge; eapply nth_error_In; eassumption).
      replace (Nat.eqb t t0) with false by (symmetry; apply Nat.eqb_neq; lia).
      eapply IH; eassumption.
Qed.

(** The loop over the placeholders writes each of them at its target. *)
Lemma fillDashes_spec (claimed : list nat) (cursor : nat) (targets : list nat) :
  Spec.placeholderTargets claimed cursor targets ->
  forall dashes a,
    List.length targets = List.length dashes ->
    Forall (fun t => (N.of_nat t < 4294967295)%N) targets ->
    let a' := fillDashes dashes (map indexNumber claimed) (N.of_nat cursor) a in
    (forall j, slot a' j = match dashAt targets dashes j with
                           | Some v => Some v
                           | None => slot a j
                           end)
    /\ (forall i, i < List.length a'
                  <-> i < List.length a \/ exists t, In t targets /\ i <= t).
Proof.
  induction 1 as [| cursor t ts Hle Hfree Hlow Hrest IH];
    intros dashes a Hlen Hb; cbv zeta.
  - destruct dashes; [ | discriminate Hlen ]. cbn [fillDashes dashAt]. split.
    + reflexivity.
    + intros i. split; [ tauto | ]. intros [H | (t & [] & _)]. exact H.
  - destruct dashes as [| v vs]; [ discriminate Hlen | ].
    injection Hlen as Hlen. inversion Hb as [| ? ? Hbt Hbts]; subst.
    cbn [fillDashes].
    rewrite (skipClaimed_spec claimed _ cursor t Hle); try assumption.
    2:{ rewrite length_map. pose proof (interval_claimed claimed cursor t Hlow). lia. }
    replace (N.of_nat t + 1)%N with (N.of_nat (S t)) by lia.
    destruct (IH vs (arraySet (N.of_nat t) v a) Hlen Hbts) as [Hs Hl].
    cbv zeta in Hs, Hl. split.
    + intros j. rewrite Hs, arraySet_slot by exact Hbt. cbn [dashAt].
      destruct (Nat.eqb j t) eqn:E; [ | reflexivity ].
      apply Nat.eqb_eq in E. subst j.
      rewrite dashAt_None; [ reflexivity | ].
      pose proof (placeholderTargets_ge _ _ _ Hrest) as Hge.
      rewrite Forall_forall in Hge. intros Hin. apply Hge in Hin. lia.
    + intros i. rewrite Hl, arraySet_length by exact Hbt. split.
      * intros [H | (t' & Ht' & Hi)].
        -- destruct (Nat.lt_ge_cases i (List.length a)); [ now left | right ].
           exists t. split; [ now left | lia ].
        -- right. exists t'. split; [ now right | exact Hi ].
      * intros [H | (t' & [<- | Ht'] & Hi)].
        -- left. lia.
        -- left. lia.
        -- right. now exists t'.
Qed.

Lemma explicitAt_claims (ens : list Spec.entry) (i : nat) (v : value) :
  Spec.explicitAt ens i = Some v -> In i (Spec.claims ens).
Proof.
  induction ens as [| en rest IH]; [ discriminate | ].
  cbn [Spec.explicitAt]. unfold Spec.claims. cbn [flat_map].
  destruct (Spec.explicitAt rest i) as [w |].
  - intros H. apply in_or_app. right. now apply IH.
  - destruct (Spec.covers en i) eqn:E; [ | discriminate ].
    intros _. apply in_or_app. left. now apply covers_claims.
Qed.

(** C3.  Let the children of a sequence block be placeholders, ranges and
    index lines, none claiming an index beyond the greatest array index,
    and let each placeholder in turn be given the lowest index, from a
    cursor that starts at 0, which no range or index line claims.  Then the
    sequence holds, at every index some range or index line claims, the
    value of the last one that claims it, so a range puts its value at
    every index from its start to its end; at the target of each
    placeholder, the value of that placeholder; and the number 0 at every
    other position.  It ends at the highest index claimed or given to a
    placeholder.  The three lines of the specification give
    0 0 0 0 0 1 1. *)
Theorem C3_index_reconciliation :
  (forall key indent cs ens targets,
      Forall2 (fun c en => nodeKey c = Spec.keyOf en
                           /\ _astToObject c = Ok (Spec.valueOf en)) cs ens ->
      Forall (fun i => (N.of_nat i < 4294967295)%N) (Spec.claims ens ++ targets) ->
      (N.of_nat (List.length (Spec.claims ens)) <= 4294967295)%N ->
      Spec.placeholderTargets (Spec.claims ens) 0 targets ->
      List.length targets = List.length (Spec.placeholders ens) ->
      exists out,
        _astToObject (Node key (VArray []) tArray indent (Some cs))
        = Ok (VArray out)
        /\ (forall i v, Spec.explicitAt ens i = Some v -> nth_error out i = Some v)
        /\ (forall k t v,
               nth_error targets k = Some t ->
               nth_error (Spec.placeholders ens) k = Some v ->
               nth_error out t = Some v)
        /\ (forall i,
               i < List.length out ->
               Spec.explicitAt ens i = None -> ~ In i targets ->
               nth_error out i = Some (VNumber (Finite 0 0)))
        /\ (forall i,
               i < List.length out
               <-> exists j, In j (Spec.claims ens ++ targets) /\ i <= j))
  /\ fst (parse constructor
            (unlines ["test: []"; "    1-3: 0"; "    5-6: 1"; "    -: 0"])
            defaultParseOptions)
     = Ok (VObject ObjectPrototype
             [("test",
               VArray [VNumber (Finite 0 0); VNumber (Finite 0 0);
                       VNumber (Finite 0 0); VNumber (Finite 0 0);
                       VNumber (Finite 0 0); VNumber (Finite 1 0);
                       VNumber (Finite 1 0)])]).
Proof.
  split; [ | reflexivity ].
  intros key indent cs ens targets Hcs Hb Hcap Ht Hlen.
  apply Forall_app in Hb. destruct Hb as [Hbc Hbt].
  set (st0 := emptyArrayState).
  set (st1 := fold_left applyEntry ens st0).
  assert (Hloop : arrayLoop (fun c => _astToObject c) cs st0 = Ok st1).
  { apply arrayLoop_entries; [ exact Hcs | ].
    unfold st0, emptyArrayState, maxArrayLength. cbn. lia. }
  assert (Hex : explicitIndices st1 = map indexNumber (Spec.claims ens))
    by apply entries_explicit.
  assert (Hda : dashIndices st1 = Spec.placeholders ens)
    by apply entries_dashes.
  destruct (fillDashes_spec _ _ _ Ht (Spec.placeholders ens) (array st1) Hlen Hbt)
    as [Hs Hl].
  cbv zeta in Hs, Hl. change (N.of_nat 0) with 0%N in Hs, Hl.
  set (filled := fillDashes (Spec.placeholders ens)
                   (map indexNumber (Spec.claims ens)) 0%N (array st1))
    in *.
  assert (Hfin : finishArray (VArray []) st1 = VArray (fillHoles filled)).
  { unfold finishArray. rewrite Hex, Hda. fold filled.
    clearbody filled. destruct filled; reflexivity. }
  assert (Hslot1 : forall j, slot (array st1) j = Spec.explicitAt ens j).
  { intros j. unfold st1. rewrite entries_slot by exact Hbc.
    unfold st0, emptyArrayState. cbn [array]. rewrite slot_nil.
    now destruct (Spec.explicitAt ens j). }
  pose proof (placeholderTargets_free _ _ _ Ht) as Hfree.
  rewrite Forall_forall in Hfree.
  exists (fillHoles filled). split; [ | split; [ | split; [ | split ] ] ].
  - cbn [_astToObject]. fold st0. now rewrite Hloop, Hfin.
  - intros i v Hi.
    assert (Hsl : slot filled i = Some v).
    { rewrite Hs, dashAt_None, Hslot1; [ exact Hi | ].
      intros Hin. apply (Hfree _ Hin). eapply explicitAt_claims. exact Hi. }
    rewrite fillHoles_nth by (eapply slot_lt; exact Hsl). now rewrite Hsl.
  - intros k t v Hk Hv.
    assert (Hsl : slot filled t = Some v).
    { rewrite Hs. now rewrite (dashAt_nth _ _ _ Ht _ k t v Hk Hv). }
    rewrite fillHoles_nth by (eapply slot_lt; exact Hsl). now rewrite Hsl.
  - intros i Hi He Hn. rewrite fillHoles_length in Hi.
    rewrite fillHoles_nth by exact Hi.
    now rewrite Hs, dashAt_None, Hslot1, He by exact Hn.
  - intros i. rewrite fillHoles_length, Hl. unfold st1.
    rewrite entries_length by exact Hbc.
    unfold st0, emptyArrayState. cbn [array List.length]. split.
    + intros [[H | (j & Hj & Hij)] | (t & Hj & Hij)]; [ lia | | ].
      * exists j. split; [ apply in_or_app; now left | exact Hij ].
      * exists t. split; [ apply in_or_app; now right | exact Hij ].
    + intros (j & Hj & Hij). apply in_app_or in Hj. destruct Hj as [Hj | Hj].
      * left; right. now exists j.
      * right. now exists j.
Qed.

Lemma C3_witness :
  exists out,
    _astToObject (Node "test" (VArray []) tArray 0 (Some exampleChildren))
    = Ok (VArray out)
    /\ (forall i v,
           Spec.explicitAt exampleEntries i = Some v -> nth_error out i = Some v)
    /\ (forall k t v,
           nth_error [0] k = Some t ->
           nth_error (Spec.placeholders exampleEntries) k = Some v ->
           nth_error out t = Some v)
    /\ (forall i,
           i < List.length out ->
           Spec.explicitAt exampleEntries i = None -> ~ In i [0] ->
           nth_error out i = Some (VNumber (Finite 0 0)))
    /\ (forall i,
           i < List.length out
           <-> exists j, In j (Spec.claims exampleEntries ++ [0]) /\ i <= j).
Proof.
  apply (proj1 C3_index_reconciliation "test" 0%Z exampleChildren
           exampleEntries [0]).
  - repeat constructor.
  - repeat constructor.
  - cbn. lia.
  - constructor.
    + lia.
    + cbn. intuition discriminate.
    + intros j Hj. lia.
    + constructor.
  - reflexivity.
Defined.

(** Targets exist for any number of placeholders: the cursor always finds
    an index that is not claimed. *)
Lemma lowest_free (claimed : list nat) (fuel : nat) :
  forall cursor,
    (forall j, cursor <= j < cursor + fuel -> In j claimed)
    \/ exists t, cursor <= t /\ ~ In t claimed
                 /\ forall j, cursor <= j < t -> In j claimed.
Proof.
  induction fuel as [| fuel IH]; intros cursor.
  - left. intros j Hj. lia.
  - destruct (in_dec Nat.eq_dec cursor claimed) as [Hin | Hnot].
    + destruct (IH (S cursor)) as [Hall | (t & Hle & Hfree & Hlow)].
      * left. intros j Hj.
        destruct (Nat.eq_dec j cursor) as [-> | Hne]; [ exact Hin | ].
        apply Hall. lia.
      * right. exists t. repeat split; [ lia | exact Hfree | ].
        intros j Hj.
        destruct (Nat.eq_dec j cursor) as [-> | Hne]; [ exact Hin | ].
        apply Hlow. lia.
    + right. exists cursor. repeat split; [ lia | exact Hnot | ].
      intros j Hj. lia.
Qed.

Lemma placeholderTargets_exist (claimed : list nat) (n : nat) :
  forall cursor,
  exists targets,
    List.length targets = n /\ Spec.placeholderTargets claimed cursor targets.
Proof.
  induction n as [| n IH]; intros cursor.
  - exists []. split; [ reflexivity | constructor ].
  - destruct (lowest_free claimed (S (List.length claimed)) cursor)
      as [Hall | (t & Hle & Hfree & Hlow)].
    + exfalso.
      pose proof (interval_claimed claimed cursor
                    (cursor + S (List.length claimed)) Hall). lia.
    + destruct (IH (S t)) as (ts & Hlen & Hts).
      exists (t :: ts). split; [ cbn; now rewrite Hlen | ].
      now constructor.
Qed.

(** *** The bounds of the two fuelled loops *)

Lemma trimStart_length (s : string) :
  String.length (trimStart s) <= String.length s.
Proof.
  induction s as [| c r IH]; cbn; [ lia | ].
  destruct (isSpace c); cbn; lia.
Qed.

Lemma trimEnd_length (s : string) :
  String.length (trimEnd s) <= String.length s.
Proof.
  induction s as [| c r IH]; cbn; [ lia | ].
  destruct (isSpace c && isEmpty (trimEnd r)); cbn; lia.
Qed.

Lemma trim_length (s : string) : String.length (trim s) <= String.length s.
Proof.
  unfold trim. pose proof (trimEnd_length (trimStart s)).
  pose proof (trimStart_length s). lia.
Qed.

Lemma string_substring_length (s : string) :
  forall n m, String.length (String.substring n m s) <= m.
Proof.
  induction s as [| c r IH]; intros n m.
  - destruct n, m; cbn; lia.
  - destruct n as [| n].
    + destruct m as [| m]; cbn; [ lia | ]. specialize (IH 0 m). lia.
    + cbn. apply IH.
Qed.

Lemma substring_inner_length (s : string) :
  2 <= String.length s ->
  String.length (JS.substring 1 (String.length s - 1) s) <= String.length s - 2.
Proof.
  intros H. unfold JS.substring.
  etransitivity; [ apply string_substring_length | lia ].
Qed.

Lemma substringFrom_length (a : nat) (s : string) :
  String.length (substringFrom a s) <= String.length s.
Proof.
  unfold substringFrom, JS.substring.
  etransitivity; [ apply string_substring_length | lia ].
Qed.

Lemma endsWith_nonempty (p s : string) :
  p <> EmptyString -> endsWith p s = true -> s <> EmptyString.
Proof.
  intros Hp H ->. cbn in H. destruct p; [ now apply Hp | discriminate H ].
Qed.

Lemma enclosed_length (o c : ascii) (s : string) :
  o <> c ->
  startsWith (String o EmptyString) s && endsWith (String c EmptyString) s = true ->
  2 <= String.length s.
Proof.
  intros Hoc H. apply andb_true_iff in H. destruct H as [Hs He].
  destruct s as [| x r]; [ discriminate Hs | ].
  unfold startsWith in Hs. rewrite prefix_str1 in Hs.
  apply Ascii.eqb_eq in Hs. subst x.
  cbn [endsWith] in He. apply orb_true_iff in He. destruct He as [He | He].
  - apply String.eqb_eq in He. injection He as He _. contradiction.
  - apply endsWith_nonempty in He; [ | discriminate ].
    destruct r; [ contradiction | cbn; lia ].
Qed.

Lemma splitByCommaFrom_length (rest : string) :
  forall prev current depth inString stringChar,
    Forall (fun seg => String.length seg
                       <= String.length current + String.length rest)
           (splitByCommaFrom prev rest current depth inString stringChar).
Proof.
  induction rest as [| c r IH]; intros prev current depth inString stringChar.
  - cbn [splitByCommaFrom]. destruct (negb (isEmpty (trim current)));
      constructor; [ | constructor ].
    pose proof (trim_length current). cbn. lia.
  - cbn [splitByCommaFrom].
    destruct (if isQuote c && negb (optEqb prev BACKSLASH)
              then if negb inString then (true, Some c)
                   else if optEqb stringChar c then (false, None)
                        else (inString, stringChar)
              else (inString, stringChar)) as [in1 sc1].
    assert (Happ : forall d in' sc',
      Forall (fun seg => String.length seg
                         <= String.length current + String.length (String c r))
        (splitByCommaFrom (Some c) r (current ++ str1 c) d in' sc')).
    { intros d in' sc'. eapply Forall_impl; [ | apply IH ].
      cbn. intros seg Hseg. rewrite length_append_string in Hseg. cbn in Hseg. lia. }
    destruct (negb in1); [ | apply Happ ].
    match goal with |- context [ if ?b then _ :: _ else _ ] => destruct b end;
      [ | apply Happ ].
    constructor.
    + pose proof (trim_length current). cbn. lia.
    + eapply Forall_impl; [ | apply IH ]. cbn. intros seg Hseg. lia.
Qed.

Lemma splitByComma_length (str : string) :
  Forall (fun seg => String.length seg <= String.length str) (_splitByComma str).
Proof. apply (splitByCommaFrom_length str None EmptyString). Qed.

Lemma parseValueFuel_eq (fuel : nat) (valueStr : string) :
  parseValueFuel fuel valueStr
  = if String.eqb valueStr "None" then VNull
    else if String.eqb valueStr "{}" then emptyObject
    else if String.eqb valueStr "[]" then VArray []
    else if _isNumber valueStr then VNumber (_parseNumber valueStr)
    else if isQuoted valueStr then
      VString (_parseString
                 (JS.substring 1 (String.length valueStr - 1) valueStr))
    else if isBracketed valueStr then
      match fuel with
      | S f => VArray (parseInlineArrayWith (parseValueFuel f) valueStr)
      | O => VArray []
      end
    else if isBraced valueStr then
      match fuel with
      | S f => parseInlineObjectWith (parseValueFuel f) valueStr
      | O => emptyObject
      end
    else VString (_parseString valueStr).
Proof. destruct fuel; reflexivity. Qed.

Lemma fold_left_ext_in {A B : Type} (f g : A -> B -> A) (l : list B) :
  (forall a b, In b l -> f a b = g a b) ->
  forall a, fold_left f l a = fold_left g l a.
Proof.
  induction l as [| b r IH]; intros H a; [ reflexivity | ].
  cbn. rewrite (H a b) by now left. apply IH. intros a' b' Hb. apply H. now right.
Qed.

(** The text is fuel enough for [_parseValue]: more fuel changes nothing. *)
Lemma parseValueFuel_enough (n : nat) :
  forall m s, m <= n -> String.length s <= m ->
              parseValueFuel m s = parseValueFuel (String.length s) s.
Proof.
  induction n as [| n IH]; intros m s Hm Hs.
  - replace m with (String.length s) by lia. reflexivity.
  - rewrite (parseValueFuel_eq m), (parseValueFuel_eq (String.length s)).
    repeat match goal with
           | |- (if ?b then _ else _) = (if ?b then _ else _) =>
               destruct b eqn:?; [ try reflexivity | ]
           end; try reflexivity.
    + assert (Hl : 2 <= String.length s)
        by (eapply (enclosed_length "[" "]"); [ discriminate | eassumption ]).
      pose proof (substring_inner_length s Hl) as Hsub.
      destruct m as [| m']; [ lia | ].
      destruct (String.length s) as [| l'] eqn:El; [ lia | ].
      f_equal. unfold parseInlineArrayWith. rewrite El.
      destruct (isEmpty _); [ reflexivity | ].
      apply map_ext_in. intros item Hitem.
      pose proof (splitByComma_length
                    (trim (JS.substring 1 (S l' - 1) s))) as Hall.
      rewrite Forall_forall in Hall. specialize (Hall item Hitem).
      pose proof (trim_length (JS.substring 1 (S l' - 1) s)) as Ht.
      pose proof (trim_length item) as Hti.
      rewrite (IH m' (trim item)) by lia.
      rewrite (IH l' (trim item)) by lia. reflexivity.
    + assert (Hl : 2 <= String.length s)
        by (eapply (enclosed_length "{" "}"); [ discriminate | eassumption ]).
      pose proof (substring_inner_length s Hl) as Hsub.
      destruct m as [| m']; [ lia | ].
      destruct (String.length s) as [| l'] eqn:El; [ lia | ].
      unfold parseInlineObjectWith. rewrite El.
      destruct (isEmpty _); [ reflexivity | ].
      apply fold_left_ext_in. intros obj pair Hpair.
      destruct (indexOf ":" pair) as [colonIndex |]; [ | reflexivity ].
      pose proof (splitByComma_length
                    (trim (JS.substring 1 (S l' - 1) s))) as Hall.
      rewrite Forall_forall in Hall. specialize (Hall pair Hpair).
      pose proof (trim_length (JS.substring 1 (S l' - 1) s)) as Ht.
      pose proof (trim_length (substringFrom (colonIndex + 1) pair)) as Hti.
      pose proof (substringFrom_length (colonIndex + 1) pair) as Hsf.
      rewrite (IH m' (trim (substringFrom (colonIndex + 1) pair))) by lia.
      rewrite (IH l' (trim (substringFrom (colonIndex + 1) pair))) by lia.
      reflexivity.
Qed.

(** X2.  [_parseValue] is [parseValueFuel] with any fuel from the length
    of the text on: the recursion through inline sequences and mappings
    ends within the fuel that [_parseValue] gives it. *)
Lemma parseValue_fuel (fuel : nat) (valueStr : string) :
  String.length valueStr <= fuel ->
  parseValueFuel fuel valueStr = _parseValue valueStr.
Proof. intros H. now apply (parseValueFuel_enough fuel). Qed.

Lemma parseValue_fuel_witness :
  String.length "[1, [2, {a: b}]]" <= 40
  /\ parseValueFuel 40 "[1, [2, {a: b}]]" = _parseValue "[1, [2, {a: b}]]".
Proof.
  split; [ cbn; lia | ].
  apply (parseValue_fuel 40 "[1, [2, {a: b}]]"). cbn. lia.
Defined.

Lemma numEq_index_unique (x : number) (a b : N) :
  numEq x (Finite (Z.of_N a) 0) = true ->
  numEq x (Finite (Z.of_N b) 0) = true -> a = b.
Proof.
  intros Ha Hb. apply numEq_sym in Ha.
  pose proof (numEq_trans _ _ _ Ha Hb) as H.
  apply numEq_Finite in H. cbn in H. lia.
Qed.

(** Distinct indices that [explicitIndices] includes are no more than its
    elements. *)
Lemma included_bound (ex : list number) :
  forall cs : list N,
    NoDup cs -> (forall c, In c cs -> includesIndex ex c = true) ->
    List.length cs <= List.length ex.
Proof.
  induction ex as [| x r IH]; intros cs Hnd Hall.
  - destruct cs as [| c cs]; [ cbn; lia | ].
    specialize (Hall c (or_introl eq_refl)). discriminate Hall.
  - set (hit := fun c => numEq x (Finite (Z.of_N c) 0)).
    assert (H1 : List.length (filter hit cs) <= 1).
    { assert (Hn : NoDup (filter hit cs)) by now apply NoDup_filter.
      destruct (filter hit cs) as [| a [| b l]] eqn:E; cbn; try lia.
      exfalso.
      assert (Ia : In a (filter hit cs)) by (rewrite E; now left).
      assert (Ib : In b (filter hit cs)) by (rewrite E; right; now left).
      apply filter_In in Ia, Ib.
      assert (a = b) by (eapply numEq_index_unique; [ apply Ia | apply Ib ]).
      subst. inversion Hn as [| ? ? Hni _]. apply Hni. now left. }
    assert (H2 : List.length (filter (fun c => negb (hit c)) cs)
                 <= List.length r).
    { apply IH; [ now apply NoDup_filter | ].
      intros c Hc. apply filter_In in Hc. destruct Hc as [Hc Hh].
      specialize (Hall c Hc). unfold includesIndex in Hall. cbn in Hall.
      unfold hit in Hh. apply negb_true_iff in Hh. rewrite Hh in Hall.
      exact Hall. }
    pose proof (filter_length hit cs). cbn [List.length]. lia.
Qed.

Lemma skipClaimed_cases (ex : list number) (fuel : nat) :
  forall c,
    includesIndex ex (skipClaimed fuel ex c) = false
    \/ forall k, k < fuel -> includesIndex ex (c + N.of_nat k)%N = true.
Proof.
  induction fuel as [| fuel IH]; intros c.
  - right. intros k Hk. lia.
  - cbn [skipClaimed]. destruct (includesIndex ex c) eqn:E; [ | now left ].
    destruct (IH (c + 1)%N) as [H | H]; [ now left | right ].
    intros k Hk. destruct k as [| k].
    + now rewrite N.add_0_r.
    + replace (c + N.of_nat (S k))%N with (c + 1 + N.of_nat k)%N by lia.
      apply H. lia.
Qed.

Lemma NoDup_map_injective {A B : Type} (f : A -> B) (l : list A) :
  (forall a b, f a = f b -> a = b) -> NoDup l -> NoDup (map f l).
Proof.
  intros Hf. induction 1 as [| a l Hni _ IH]; cbn; constructor; [ | exact IH ].
  intros Hin. apply in_map_iff in Hin. destruct Hin as (b & Hb & Hin).
  apply Hf in Hb. now subst.
Qed.

(** X3.  The cursor loop of the placeholder assignment ends on an index
    that [explicitIndices] does not include, whatever the numbers in it. *)
Lemma skipClaimed_free (ex : list number) (c : N) :
  includesIndex ex (skipClaimed (S (List.length ex)) ex c) = false.
Proof.
  destruct (skipClaimed_cases ex (S (List.length ex)) c) as [H | H];
    [ exact H | exfalso ].
  pose proof (included_bound ex
                (map (fun k => (c + N.of_nat k)%N) (seq 0 (S (List.length ex)))))
    as Hb.
  rewrite length_map, length_seq in Hb.
  assert (S (List.length ex) <= List.length ex); [ apply Hb | lia ].
  - apply NoDup_map_injective; [ | apply seq_NoDup ].
    intros a b Hab. lia.
  - intros x Hx. apply in_map_iff in Hx. destruct Hx as (k & <- & Hk).
    apply in_seq in Hk. apply H. lia.
Qed.

(** *** What [parse] reads of the instance *)

Lemma detectLoop_spec (lines : list string) :
  (noIndentedLine lines /\ forall this, detectLoop lines this = this)
  \/ exists k n, forall this,
       detectLoop lines this
       = {| indentType := Some k; indentSize := Some n;
            outerParsed := outerParsed this |}.
Proof.
  induction lines as [| line rest IH].
  - left. split; [ constructor | reflexivity ].
  - cbn [detectLoop].
    destruct (isEmpty (trim line) || isCommentLine (trim line)) eqn:E.
    + destruct IH as [[Hn Hd] | (k & n & Hd)].
      * left. split; [ constructor; [ now left | exact Hn ] | exact Hd ].
      * right. now exists k, n.
    + destruct (span isSpace line) as [spaces r] eqn:Es.
      destruct spaces as [| c spaces']; cbn [isEmpty negb].
      * destruct IH as [[Hn Hd] | (k & n & Hd)].
        -- left. split; [ | exact Hd ].
           constructor; [ right; now rewrite Es | exact Hn ].
        -- right. now exists k, n.
      * right. destruct (includes (str1 TAB) (String c spaces')).
        -- now exists tab, 1.
        -- now exists space, (String.length (String c spaces')).
Qed.

Lemma span_head_false (p : ascii -> bool) (line : string) :
  fst (span isSpace line) = EmptyString ->
  (forall c, p c = true -> isSpace c = true) ->
  fst (span p line) = EmptyString.
Proof.
  destruct line as [| c r]; [ reflexivity | ]. cbn [span].
  destruct (isSpace c) eqn:E.
  - destruct (span isSpace r). discriminate.
  - intros _ H. destruct (p c) eqn:Ep; [ | reflexivity ].
    apply H in Ep. congruence.
Qed.

Lemma getIndentLevel_no_indent (this : SimpleParser) (line : string) :
  fst (span isSpace line) = EmptyString -> _getIndentLevel this line = 0.
Proof.
  intros H. unfold _getIndentLevel.
  destruct (indentType this) as [[|] |].
  - destruct (span isSpace line) as [spaces r]. cbn in H. subst.
    destruct (indentSize this) as [n |]; [ apply Nat.Div0.div_0_l | reflexivity ].
  - pose proof (span_head_false (fun c => Ascii.eqb c TAB) line H) as Ht.
    destruct (span (fun c => Ascii.eqb c TAB) line) as [tabs r].
    cbn in Ht. rewrite Ht; [ reflexivity | ].
    intros c Hc. apply Ascii.eqb_eq in Hc. now subst.
  - destruct (span isSpace line) as [spaces r]. cbn in H. subst.
    destruct (indentSize this) as [n |]; [ apply Nat.Div0.div_0_l | reflexivity ].
Qed.

Lemma processLine_level (a b : SimpleParser) options line top below :
  (isEmpty (trim line) || isCommentLine (trim line) = true
   \/ _getIndentLevel a line = _getIndentLevel b line) ->
  processLine a options line top below = processLine b options line top below.
Proof.
  unfold processLine. intros [H | H].
  - apply orb_true_iff in H. destruct H as [-> | H]; [ reflexivity | ].
    rewrite H. now destruct (isEmpty (trim line)).
  - now rewrite H.
Qed.

Lemma linesLoop_level (a b : SimpleParser) options (lines : list string) :
  Forall (fun line =>
            isEmpty (trim line) || isCommentLine (trim line) = true
            \/ _getIndentLevel a line = _getIndentLevel b line) lines ->
  forall top below,
    linesLoop a options lines top below = linesLoop b options lines top below.
Proof.
  induction 1 as [| line rest Hl _ IH]; intros top below; [ reflexivity | ].
  cbn [linesLoop]. rewrite (processLine_level a b _ _ _ _ Hl).
  destruct (processLine b options line top below) as [[t bl] | e];
    [ apply IH | reflexivity ].
Qed.

(** X1.  What [parse] returns does not depend on the instance it runs on:
    the style that an earlier call left behind is either replaced by the
    style of the first indented line, or no line is indented and every
    level is 0 under any style. *)
Lemma parse_result_independent (a b : SimpleParser) (simpleStr : string)
    (options : parseOptions) :
  fst (parse a simpleStr options) = fst (parse b simpleStr options).
Proof.
  unfold parse, _linesToAst, _detectIndentType.
  set (lines := _processMultilineStrings (_removeComments simpleStr)).
  assert (H : linesLoop
                match indentType (detectLoop lines a) with
                | Some _ => detectLoop lines a
                | None => {| indentType := Some space; indentSize := Some 2;
                             outerParsed := outerParsed (detectLoop lines a) |}
                end options lines {| fnode := Root []; findent := -1 |} []
              = linesLoop
                  match indentType (detectLoop lines b) with
                  | Some _ => detectLoop lines b
                  | None => {| indentType := Some space; indentSize := Some 2;
                               outerParsed := outerParsed (detectLoop lines b) |}
                  end options lines {| fnode := Root []; findent := -1 |} []).
  { apply linesLoop_level.
    destruct (detectLoop_spec lines) as [[Hn Hd] | (k & n & Hd)].
    - eapply Forall_impl; [ | exact Hn ]. cbn. intros line [Hl | Hl].
      + now left.
      + right. now rewrite !getIndentLevel_no_indent.
    - rewrite (Hd a), (Hd b). cbn [indentType].
      apply Forall_forall. intros line _. right. reflexivity. }
  cbn [fst snd]. rewrite H. clear H.
  destruct (linesLoop _ options lines _ []); reflexivity.
Qed.

(** X4.  A range key whose upper end is [Infinity] stops [parse] with
    [RangeError]: the loop pushes indices until the array of claimed
    indices is full. *)
Lemma parse_unbounded_range :
  fst (parse constructor (unlines ["t: []"; "  0-Infinity: 1"])
         defaultParseOptions) = Throw RangeError.
Proof. reflexivity. Qed.

(** *** Comments and logical lines *)

Lemma removeCommentsFrom_prev (p q : option ascii) (s : string)
    (inComment : bool) (stringChar : option ascii) :
  removeCommentsFrom p s inComment false stringChar
  = removeCommentsFrom q s inComment false stringChar.
Proof. destruct s; reflexivity. Qed.

Lemma isPlainChar_inv (c : ascii) :
  isPlainChar c = true ->
  isQuote c = false /\ Ascii.eqb c "/" = false /\ Ascii.eqb c "#" = false.
Proof.
  unfold isPlainChar. intros H.
  apply andb_true_iff in H. destruct H as [H H3].
  apply andb_true_iff in H. destruct H as [H1 H2].
  apply negb_true_iff in H1, H2, H3. now repeat split.
Qed.

Lemma removeCommentsFrom_plain_app (a b : string) :
  isPlain a = true ->
  forall prev,
    removeCommentsFrom prev (a ++ b) false false None
    = a ++ removeCommentsFrom None b false false None.
Proof.
  induction a as [| c a IH]; intros Ha prev.
  - apply removeCommentsFrom_prev.
  - cbn in Ha. apply andb_true_iff in Ha. destruct Ha as [Hc Ha].
    apply isPlainChar_inv in Hc. destruct Hc as (Hq & Hs & Hh).
    cbn [append removeCommentsFrom]. rewrite Hq, Hs, Hh. cbn.
    now rewrite IH.
Qed.

(** X6.  A text without quote, slash and hash holds no comment and no
    string: [_removeComments] returns it as it is. *)
Lemma removeComments_plain (s : string) :
  isPlain s = true -> _removeComments s = s.
Proof.
  intros H. unfold _removeComments.
  rewrite <- (string_app_nil_r s) at 1.
  rewrite removeCommentsFrom_plain_app by exact H.
  apply string_app_nil_r.
Qed.

Lemma removeComments_plain_witness :
  isPlain "a: 1" = true /\ _removeComments "a: 1" = "a: 1".
Proof.
  split; [ reflexivity | ].
  apply (removeComments_plain "a: 1"). reflexivity.
Defined.

Lemma lacks_cons (c d : ascii) (s : string) :
  lacks c (String d s) = true -> Ascii.eqb d c = false /\ lacks c s = true.
Proof.
  unfold lacks. cbn. intros H. apply andb_true_iff in H.
  destruct H as [H1 H2]. apply negb_true_iff in H1. now split.
Qed.

(** The inner loop of the line comment: it runs to the next linefeed. *)
Lemma skip_line_comment (c rest : string) :
  lacks LF c = true ->
  rest = EmptyString \/ (exists r, rest = String LF r) ->
  forall p,
    (fix skip (p : option ascii) (l : string) {struct l} : string :=
       match l with
       | EmptyString => EmptyString
       | String d r =>
           if Ascii.eqb d LF then removeCommentsFrom p l false false None
           else skip (Some d) r
       end) p (c ++ rest)
    = removeCommentsFrom None rest false false None.
Proof.
  intros Hc Hrest. induction c as [| d c IH]; intros p.
  - cbn [append]. destruct Hrest as [-> | [r ->]]; [ reflexivity | ].
    rewrite Ascii.eqb_refl. apply removeCommentsFrom_prev.
  - apply lacks_cons in Hc. destruct Hc as [Hd Hc].
    cbn [append]. rewrite Hd. now apply IH.
Qed.

(** X7.  Outside a string, a hash or two slashes discard the text up to
    the linefeed that ends the line, or up to the end of the text. *)
Lemma removeComments_line_comment (a marker c rest : string) :
  isPlain a = true ->
  marker = "#" \/ marker = "//" ->
  lacks LF c = true ->
  rest = EmptyString \/ (exists r, rest = String LF r) ->
  _removeComments (a ++ marker ++ c ++ rest) = a ++ _removeComments rest.
Proof.
  intros Ha Hm Hc Hrest. unfold _removeComments.
  rewrite removeCommentsFrom_plain_app by exact Ha. f_equal.
  destruct Hm as [-> | ->].
  - cbn [append removeCommentsFrom head]. cbn [negb andb orb isQuote Ascii.eqb].
    cbn -[removeCommentsFrom append].
    now apply skip_line_comment.
  - cbn [append removeCommentsFrom head]. cbn -[removeCommentsFrom append].
    now apply (skip_line_comment c rest Hc Hrest).
Qed.

Lemma removeComments_line_comment_witness :
  _removeComments ("a: 1 " ++ "//" ++ " one" ++ String LF "b: 2")
  = "a: 1 " ++ _removeComments (String LF "b: 2").
Proof.
  apply (removeComments_line_comment "a: 1 " "//" " one" (String LF "b: 2")).
  - reflexivity.
  - now right.
  - reflexivity.
  - right. now exists "b: 2".
Defined.

(** Inside a string opened by [q], up to the quote that closes it. *)
Lemma removeCommentsFrom_in_string (q : ascii) (s b : string) :
  isQuote q = true ->
  lacks q s = true -> lacks BACKSLASH s = true ->
  forall prev,
    optEqb prev BACKSLASH = false ->
    removeCommentsFrom prev (s ++ String q b) false true (Some q)
    = s ++ String q (removeCommentsFrom None b false false None).
Proof.
  intros Hq. induction s as [| c s IH]; intros Hs Hb prev Hp.
  - cbn [append removeCommentsFrom]. rewrite Hq. cbn [negb andb optEqb].
    rewrite Ascii.eqb_refl, Hp. cbn [negb andb].
    f_equal. apply removeCommentsFrom_prev.
  - apply lacks_cons in Hs. destruct Hs as [Hc Hs].
    apply lacks_cons in Hb. destruct Hb as [Hc' Hb].
    cbn [append removeCommentsFrom]. cbn [negb andb optEqb].
    rewrite (Ascii.eqb_sym q c), Hc, Hc'. cbn [negb andb orb].
    assert (Hrec : removeCommentsFrom (Some c) (s ++ String q b) false true (Some q)
                   = s ++ String q (removeCommentsFrom None b false false None)).
    { apply IH; [ exact Hs | exact Hb | exact Hc' ]. }
    destruct (isQuote c); now rewrite Hrec.
Qed.

(** X8.  A quoted text without a backslash is copied as it is, so a hash,
    slashes or the other quote inside it start nothing; what follows the
    closing quote is read outside the string. *)
Lemma removeComments_string (a s b : string) (q : ascii) :
  isPlain a = true ->
  isQuote q = true ->
  lacks q s = true -> lacks BACKSLASH s = true ->
  _removeComments (a ++ String q (s ++ String q b))
  = a ++ String q (s ++ String q (_removeComments b)).
Proof.
  intros Ha Hq Hs Hb. unfold _removeComments.
  rewrite removeCommentsFrom_plain_app by exact Ha. f_equal.
  cbn [removeCommentsFrom]. rewrite Hq. cbn [negb andb]. f_equal.
  apply removeCommentsFrom_in_string; try assumption.
  cbn. destruct q as [[] [] [] [] [] [] [] []]; try reflexivity;
    discriminate Hq.
Qed.

Lemma removeComments_string_witness :
  _removeComments ("a: " ++ String DQUOTE ("it's #1 // x" ++ String DQUOTE " # c"))
  = "a: " ++ String DQUOTE ("it's #1 // x"
                             ++ String DQUOTE (_removeComments " # c")).
Proof.
  apply (removeComments_string "a: " "it's #1 // x" " # c" DQUOTE);
    reflexivity.
Defined.

(** Inside a block comment, up to the end of the text or to the marker
    that closes it. *)
Lemma removeCommentsFrom_in_comment (c : string) :
  lacks "/" c = true ->
  forall prev stringChar,
    (forall b,
        removeCommentsFrom prev (c ++ "*/" ++ b) true false stringChar
        = removeCommentsFrom None b false false stringChar)
    /\ removeCommentsFrom prev c true false stringChar = EmptyString.
Proof.
  induction c as [| d c IH]; intros Hl prev stringChar.
  - split; [ | reflexivity ]. intros b.
    cbn [append removeCommentsFrom head]. cbn -[removeCommentsFrom].
    apply removeCommentsFrom_prev.
  - apply lacks_cons in Hl. destruct Hl as [Hd Hl].
    destruct (IH Hl (Some d) stringChar) as [IH1 IH2].
    assert (Hn : forall t, optEqb (head (c ++ String "*" t)) "/" = false).
    { intros t. destruct c as [| e c']; [ reflexivity | ].
      apply lacks_cons in Hl. cbn [append head optEqb]. apply Hl. }
    assert (Hn' : optEqb (head c) "/" = false).
    { destruct c as [| e c']; [ reflexivity | ].
      apply lacks_cons in Hl. cbn [head optEqb]. apply Hl. }
    split; [ intros b | ];
      cbn [append removeCommentsFrom]; cbn [negb andb];
      rewrite Hd; cbn [negb andb].
    + change (c ++ "*/" ++ b) with (c ++ String "*" (String "/" b)).
      rewrite Hn, andb_false_r. apply IH1.
    + rewrite Hn', andb_false_r. apply IH2.
Qed.

(** X9.  A block comment whose body holds no slash is dropped with
    everything in it, quotes, hashes and stars included, up to the first
    star followed by a slash; a block comment that is never closed drops
    the rest of the text.  A slash in the body can take the star of the
    closing marker for the start of a comment: in [a/*/*/b] the comment is
    never closed. *)
Lemma removeComments_block_comment (a c : string) :
  isPlain a = true ->
  lacks "/" c = true ->
  (forall b, _removeComments (a ++ "/*" ++ c ++ "*/" ++ b)
             = a ++ _removeComments b)
  /\ _removeComments (a ++ "/*" ++ c) = a
  /\ _removeComments "a/*/*/b" = "a".
Proof.
  intros Ha Hl. unfold _removeComments.
  destruct (removeCommentsFrom_in_comment c Hl (Some "*"%char) None)
    as [H1 H2].
  split; [ intros b | split; [ | reflexivity ] ];
    rewrite removeCommentsFrom_plain_app by exact Ha.
  - f_equal. cbn [append removeCommentsFrom head]. cbn -[removeCommentsFrom append].
    apply H1.
  - rewrite <- (string_app_nil_r a) at 2. f_equal.
    cbn [append removeCommentsFrom head]. cbn -[removeCommentsFrom append].
    apply H2.
Qed.

Lemma removeComments_block_comment_witness :
  (forall b, _removeComments ("x: 1 " ++ "/*" ++ " it's #2 ** " ++ "*/" ++ b)
             = "x: 1 " ++ _removeComments b)
  /\ _removeComments ("x: 1 " ++ "/*" ++ " it's #2 ** ") = "x: 1 "
  /\ _removeComments "a/*/*/b" = "a".
Proof.
  apply (removeComments_block_comment "x: 1 " " it's #2 ** "); reflexivity.
Defined.

Lemma splitLinesFrom_prev (p q : option ascii) (s cur : string)
    (stringChar : option ascii) :
  splitLinesFrom p s cur false stringChar
  = splitLinesFrom q s cur false stringChar.
Proof. destruct s; reflexivity. Qed.

Lemma string_app_assoc (a b c : string) : (a ++ b) ++ c = a ++ b ++ c.
Proof. induction a as [| x a IH]; cbn; [ reflexivity | now rewrite IH ]. Qed.

(** Outside a string the loop gathers the characters up to a linefeed. *)
Lemma splitLinesFrom_line (line rest cur : string) :
  noQuote line = true -> lacks LF line = true ->
  forall prev,
    splitLinesFrom prev (line ++ rest) cur false None
    = splitLinesFrom None rest (cur ++ line) false None.
Proof.
  revert cur. induction line as [| c line IH]; intros cur Hq Hl prev.
  - cbn [append]. rewrite string_app_nil_r. apply splitLinesFrom_prev.
  - apply lacks_cons in Hl. destruct Hl as [Hc Hl].
    cbn in Hq. apply andb_true_iff in Hq. destruct Hq as [Hcq Hq].
    apply negb_true_iff in Hcq.
    cbn [append splitLinesFrom]. rewrite Hcq, Hc.
    rewrite andb_false_r.
    rewrite (IH (cur ++ str1 c) Hq Hl).
    now rewrite string_app_assoc.
Qed.

Lemma splitLinesFrom_unlines (ls : list string) :
  Forall (fun l => noQuote l = true /\ lacks LF l = true) ls ->
  forall prev cur,
    filter nonBlank (splitLinesFrom prev (unlines ls) cur false None)
    = filter nonBlank
        match ls with
        | [] => [cur]
        | l :: r => (cur ++ l) :: r
        end.
Proof.
  induction 1 as [| l r [Hq Hl] _ IH]; intros prev cur.
  - cbn. destruct cur; reflexivity.
  - destruct r as [| l2 r].
    + change (unlines [l]) with l.
      rewrite <- (string_app_nil_r l) at 1.
      rewrite splitLinesFrom_line by assumption.
      cbn [splitLinesFrom]. destruct (cur ++ l); reflexivity.
    + change (unlines (l :: l2 :: r))
        with (l ++ String LF (unlines (l2 :: r))).
      rewrite splitLinesFrom_line by assumption.
      cbn [splitLinesFrom]. cbn [isQuote]. cbn -[splitLinesFrom unlines nonBlank].
      rewrite IH. reflexivity.
Qed.

Lemma processMultilineStrings_unlines (ls : list string) :
  Forall (fun l => noQuote l = true /\ lacks LF l = true) ls ->
  _processMultilineStrings (unlines ls) = filter nonBlank ls.
Proof.
  intros H. unfold _processMultilineStrings.
  change (fun line => Nat.ltb 0 (String.length (trim line))) with nonBlank.
  rewrite splitLinesFrom_unlines by exact H.
  destruct ls; reflexivity.
Qed.

(** X10.  A text without quotes is cut at its linefeeds and loses its
    blank lines, nothing else. *)
Lemma processMultilineStrings_lines (ls : list string) :
  Forall (fun l => noQuote l = true /\ lacks LF l = true) ls ->
  _processMultilineStrings (unlines ls) = filter nonBlank ls.
Proof. apply processMultilineStrings_unlines. Qed.

Lemma processMultilineStrings_lines_witness :
  _processMultilineStrings (unlines ["a: 1"; "  "; "b: 2"; EmptyString])
  = filter nonBlank ["a: 1"; "  "; "b: 2"; EmptyString].
Proof.
  apply (processMultilineStrings_lines ["a: 1"; "  "; "b: 2"; EmptyString]).
  repeat constructor.
Defined.

(** *** [trim] *)

Lemma trimStart_allSpace (a b : string) :
  allSpace a = true -> trimStart (a ++ b) = trimStart b.
Proof.
  induction a as [| c a IH]; cbn; [ reflexivity | ].
  intros H. apply andb_true_iff in H. destruct H as [Hc Ha].
  rewrite Hc. now apply IH.
Qed.

Lemma trimEnd_allSpace (b : string) : allSpace b = true -> trimEnd b = EmptyString.
Proof.
  induction b as [| c b IH]; cbn; [ reflexivity | ].
  intros H. apply andb_true_iff in H. destruct H as [Hc Hb].
  rewrite (IH Hb), Hc. reflexivity.
Qed.

Lemma trimEnd_app_allSpace (a b : string) :
  allSpace b = true -> trimEnd (a ++ b) = trimEnd a.
Proof.
  intros Hb. induction a as [| c a IH]; cbn [append trimEnd].
  - now apply trimEnd_allSpace.
  - now rewrite IH.
Qed.

Lemma trimEnd_idempotent (s : string) : trimEnd (trimEnd s) = trimEnd s.
Proof.
  induction s as [| c s IH]; [ reflexivity | ].
  cbn [trimEnd]. destruct (isSpace c && isEmpty (trimEnd s)) eqn:E;
    [ reflexivity | ].
  cbn [trimEnd]. now rewrite IH, E.
Qed.

Lemma trimStart_head (s : string) :
  match s with
  | EmptyString => True
  | String c _ => isSpace c = false
  end -> trimStart s = s.
Proof. destruct s as [| c r]; cbn; [ reflexivity | ]. now intros ->. Qed.

Lemma trimStart_result (s : string) :
  match trimStart s with
  | EmptyString => True
  | String c _ => isSpace c = false
  end.
Proof.
  induction s as [| c s IH]; cbn; [ exact I | ].
  destruct (isSpace c) eqn:E; [ exact IH | exact E ].
Qed.

Lemma trimEnd_head (s : string) :
  match s with
  | EmptyString => True
  | String c _ => isSpace c = false
  end ->
  match trimEnd s with
  | EmptyString => True
  | String c _ => isSpace c = false
  end.
Proof.
  destruct s as [| c r]; cbn; [ trivial | ]. intros H. rewrite H. exact H.
Qed.

Lemma trim_idempotent (s : string) : trim (trim s) = trim s.
Proof.
  unfold trim.
  rewrite (trimStart_head (trimEnd (trimStart s))).
  - apply trimEnd_idempotent.
  - apply trimEnd_head, trimStart_result.
Qed.

(** A text that starts and ends with a character that is not whitespace
    is trimmed. *)
Lemma trimEnd_last (s : string) :
  match JS.last s with
  | Some c => isSpace c = false
  | None => True
  end -> trimEnd s = s.
Proof.
  induction s as [| c s IH]; [ reflexivity | ].
  cbn [JS.last trimEnd]. destruct s as [| d s'].
  - intros ->. reflexivity.
  - intros H. rewrite (IH H). now rewrite andb_false_r.
Qed.

Lemma last_app (a b : string) :
  b <> EmptyString -> JS.last (a ++ b) = JS.last b.
Proof.
  intros Hb. induction a as [| c a IH]; [ reflexivity | ].
  cbn [append JS.last]. rewrite <- IH.
  destruct (a ++ b) eqn:E; [ | reflexivity ].
  destruct a; [ cbn in E; contradiction | discriminate E ].
Qed.

Lemma trim_tight (s : string) :
  match s with String c _ => isSpace c = false | EmptyString => True end ->
  match JS.last s with Some c => isSpace c = false | None => True end ->
  trim s = s.
Proof.
  intros Hh Hl. unfold trim. rewrite (trimStart_head s Hh).
  now apply trimEnd_last.
Qed.

Lemma isTrimmed_head (s : string) :
  isTrimmed s ->
  match s with String c _ => isSpace c = false | EmptyString => True end.
Proof.
  unfold isTrimmed, trim. intros H. rewrite <- H.
  apply trimEnd_head, trimStart_result.
Qed.

Lemma trim_allSpace_app (a s : string) :
  allSpace a = true -> isTrimmed s -> trim (a ++ s) = s.
Proof.
  intros Ha Hs. unfold trim. rewrite trimStart_allSpace by exact Ha.
  exact Hs.
Qed.

Lemma trim_allSpace (s : string) : allSpace s = true -> trim s = EmptyString.
Proof.
  intros H. unfold trim. replace s with (s ++ EmptyString)
    by apply string_app_nil_r.
  now rewrite trimStart_allSpace by exact H.
Qed.

(** *** [_splitByComma] *)

Lemma splitByCommaFrom_trimmed (rest : string) :
  forall prev current depth inString stringChar,
    Forall isTrimmed
           (splitByCommaFrom prev rest current depth inString stringChar).
Proof.
  induction rest as [| c r IH]; intros prev current depth inString stringChar.
  - cbn [splitByCommaFrom]. destruct (negb (isEmpty (trim current)));
      constructor; [ apply trim_idempotent | constructor ].
  - cbn [splitByCommaFrom].
    destruct (if isQuote c && negb (optEqb prev BACKSLASH)
              then if negb inString then (true, Some c)
                   else if optEqb stringChar c then (false, None)
                        else (inString, stringChar)
              else (inString, stringChar)) as [in1 sc1].
    destruct (negb in1); [ | apply IH ].
    match goal with |- context [ if ?b then _ :: _ else _ ] => destruct b end;
      [ | apply IH ].
    constructor; [ apply trim_idempotent | apply IH ].
Qed.

(** X11.  Every segment that [_splitByComma] returns is trimmed, and is
    no longer than the text. *)
Lemma splitByComma_segments (str : string) :
  Forall (fun seg => trim seg = seg /\ String.length seg <= String.length str)
         (_splitByComma str).
Proof.
  apply Forall_forall. intros seg Hin. split.
  - pose proof (splitByCommaFrom_trimmed str None EmptyString 0 false None) as H.
    rewrite Forall_forall in H. now apply H.
  - pose proof (splitByComma_length str) as H.
    rewrite Forall_forall in H. now apply H.
Qed.

Lemma isAtomChar_inv (c : ascii) :
  isAtomChar c = true ->
  Ascii.eqb c "," = false /\ isQuote c = false
  /\ Ascii.eqb c "[" = false /\ Ascii.eqb c "]" = false
  /\ Ascii.eqb c "{" = false /\ Ascii.eqb c "}" = false.
Proof.
  unfold isAtomChar. intros H.
  repeat (apply andb_true_iff in H; destruct H as [H ?]).
  repeat match goal with
         | X : negb _ = true |- _ => apply negb_true_iff in X
         end.
  now repeat split.
Qed.

(** Outside a string and outside brackets, the loop gathers the
    characters of an atom. *)
Lemma splitByCommaFrom_atom (s rest : string) :
  JS.forallb isAtomChar s = true ->
  forall prev current,
    exists prev',
      splitByCommaFrom prev (s ++ rest) current 0 false None
      = splitByCommaFrom prev' rest (current ++ s) 0 false None.
Proof.
  induction s as [| c s IH]; intros Hs prev current.
  - exists prev. cbn [append]. now rewrite string_app_nil_r.
  - cbn in Hs. apply andb_true_iff in Hs. destruct Hs as [Hc Hs].
    apply isAtomChar_inv in Hc.
    destruct Hc as (H1 & H2 & H3 & H4 & H5 & H6).
    destruct (IH Hs (Some c) (current ++ str1 c)) as (p & Hp).
    exists p.
    cbn [append splitByCommaFrom]. rewrite H2. cbn [andb negb].
    rewrite H1, H3, H4, H5, H6. cbn [andb orb].
    rewrite Hp. now rewrite string_app_assoc.
Qed.

Lemma atom_trim_app (cur x : string) :
  allSpace cur = true -> isAtom x ->
  trim (cur ++ x) = x /\ isEmpty (trim (cur ++ x)) = false.
Proof.
  intros Hc (Hn & Ht & _).
  rewrite (trim_allSpace_app cur x Hc Ht). split; [ reflexivity | ].
  destruct x; [ contradiction | reflexivity ].
Qed.

Lemma splitByCommaFrom_join (items : list string) :
  Forall isAtom items ->
  forall prev cur,
    allSpace cur = true ->
    splitByCommaFrom prev (join ", " items) cur 0 false None = items.
Proof.
  induction 1 as [| x r Hx _ IH]; intros prev cur Hcur.
  - cbn [join splitByCommaFrom]. now rewrite (trim_allSpace cur Hcur).
  - destruct (atom_trim_app cur x Hcur Hx) as [Ht Hne].
    destruct Hx as (Hn & Htr & Hat).
    destruct r as [| y r].
    + change (join ", " [x]) with x.
      rewrite <- (string_app_nil_r x) at 1.
      destruct (splitByCommaFrom_atom x EmptyString Hat prev cur)
        as (p & ->).
      cbn [splitByCommaFrom]. now rewrite Hne, Ht.
    + change (join ", " (x :: y :: r))
        with (x ++ String "," (String " " (join ", " (y :: r)))).
      destruct (splitByCommaFrom_atom x
                  (String "," (String " " (join ", " (y :: r)))) Hat prev cur)
        as (p & ->).
      cbn [splitByCommaFrom]. cbn [isQuote]. cbn -[splitByCommaFrom join trim].
      rewrite Ht. f_equal. now apply IH.
Qed.

(** X12.  Atoms joined by a comma and a space are split back into the
    atoms: [_splitByComma] inverts [join] on the texts the serializer
    writes for scalars. *)
Lemma splitByComma_join (items : list string) :
  Forall isAtom items -> _splitByComma (join ", " items) = items.
Proof. intros H. now apply splitByCommaFrom_join. Qed.

Lemma splitByComma_join_witness :
  _splitByComma (join ", " ["1"; "None"; "a b"]) = ["1"; "None"; "a b"].
Proof.
  apply (splitByComma_join ["1"; "None"; "a b"]).
  repeat constructor; discriminate.
Defined.

(** *** [_parseValue], [_getValueType] and [_parseKeyValue] *)

Lemma parseInlineArrayWith_fuel (f : nat) (s : string) :
  String.length s <= S f -> 2 <= String.length s ->
  parseInlineArrayWith (parseValueFuel f) s = _parseInlineArray s.
Proof.
  intros Hf Hl. unfold _parseInlineArray, parseInlineArrayWith.
  destruct (isEmpty _); [ reflexivity | ].
  apply map_ext_in. intros item Hitem.
  pose proof (splitByComma_length
                (trim (JS.substring 1 (String.length s - 1) s))) as Hall.
  rewrite Forall_forall in Hall. specialize (Hall item Hitem).
  pose proof (trim_length (JS.substring 1 (String.length s - 1) s)) as Ht.
  pose proof (substring_inner_length s Hl) as Hsub.
  pose proof (trim_length item) as Hti.
  apply (parseValueFuel_enough f); lia.
Qed.

Lemma parseInlineObjectWith_fuel (f : nat) (s : string) :
  String.length s <= S f -> 2 <= String.length s ->
  parseInlineObjectWith (parseValueFuel f) s = _parseInlineObject s.
Proof.
  intros Hf Hl. unfold _parseInlineObject, parseInlineObjectWith.
  destruct (isEmpty _); [ reflexivity | ].
  apply fold_left_ext_in. intros obj pair Hpair.
  destruct (indexOf ":" pair) as [colonIndex |]; [ | reflexivity ].
  pose proof (splitByComma_length
                (trim (JS.substring 1 (String.length s - 1) s))) as Hall.
  rewrite Forall_forall in Hall. specialize (Hall pair Hpair).
  pose proof (trim_length (JS.substring 1 (String.length s - 1) s)) as Ht.
  pose proof (substring_inner_length s Hl) as Hsub.
  pose proof (trim_length (substringFrom (colonIndex + 1) pair)) as Hti.
  pose proof (substringFrom_length (colonIndex + 1) pair) as Hsf.
  f_equal. apply (parseValueFuel_enough f); lia.
Qed.

(** [_parseValue] as the source writes it, the two inline parsers calling
    [_parseValue] back. *)
Lemma parseValue_eq (valueStr : string) :
  _parseValue valueStr
  = if String.eqb valueStr "None" then VNull
    else if String.eqb valueStr "{}" then emptyObject
    else if String.eqb valueStr "[]" then VArray []
    else if _isNumber valueStr then VNumber (_parseNumber valueStr)
    else if isQuoted valueStr then
      VString (_parseString
                 (JS.substring 1 (String.length valueStr - 1) valueStr))
    else if isBracketed valueStr then VArray (_parseInlineArray valueStr)
    else if isBraced valueStr then _parseInlineObject valueStr
    else VString (_parseString valueStr).
Proof.
  unfold _parseValue. rewrite parseValueFuel_eq.
  repeat match goal with
         | |- (if ?b then _ else _) = (if ?b then _ else _) =>
             destruct b eqn:?; [ try reflexivity | ]
         end; try reflexivity.
  - assert (Hl : 2 <= String.length valueStr)
      by (eapply (enclosed_length "[" "]"); [ discriminate | eassumption ]).
    destruct (String.length valueStr) as [| l] eqn:El; [ lia | ].
    f_equal. apply parseInlineArrayWith_fuel; lia.
  - assert (Hl : 2 <= String.length valueStr)
      by (eapply (enclosed_length "{" "}"); [ discriminate | eassumption ]).
    destruct (String.length valueStr) as [| l] eqn:El; [ lia | ].
    apply parseInlineObjectWith_fuel; lia.
Qed.

(** An inline mapping is an object, whatever its pairs assign. *)
Lemma parseInlineObject_isObject (str : string) :
  isObject (_parseInlineObject str).
Proof.
  unfold _parseInlineObject, parseInlineObjectWith.
  destruct (isEmpty _); [ now exists ObjectPrototype, [] | ].
  generalize (_splitByComma (trim (JS.substring 1 (String.length str - 1) str))).
  intros pairs.
  assert (H : isObject emptyObject) by now exists ObjectPrototype, [].
  revert H. generalize emptyObject.
  induction pairs as [| pair r IH]; intros obj Ho; [ exact Ho | ].
  cbn [fold_left]. apply IH.
  destruct (indexOf ":" pair); [ now apply objSet_isObject | exact Ho ].
Qed.

(** X13.  The [type] that [_getValueType] gives a text is the kind of the
    value that [_parseValue] reads from it, so a node made from one text
    never holds a value of another kind than its [type] says. *)
Lemma parseValue_hasType (valueStr : string) :
  hasType (_parseValue valueStr) (_getValueType valueStr).
Proof.
  rewrite parseValue_eq. unfold _getValueType.
  repeat match goal with
         | |- hasType (if ?b then _ else _) (if ?b then _ else _) =>
             destruct b; [ try (now constructor) | ]
         end; try (now constructor).
  destruct (parseInlineObject_isObject valueStr) as (p & es & ->).
  constructor.
Qed.

Lemma indexOf_app (c : ascii) (k r : string) :
  lacks c k = true ->
  indexOf c (k ++ String c r) = Some (String.length k).
Proof.
  induction k as [| d k IH]; intros H.
  - cbn. now rewrite Ascii.eqb_refl.
  - apply lacks_cons in H. destruct H as [Hd Hk].
    cbn. rewrite Hd, (IH Hk). reflexivity.
Qed.

Lemma string_substring_prefix (k r : string) :
  String.substring 0 (String.length k) (k ++ r) = k.
Proof.
  induction k as [| d k IH]; cbn.
  - now destruct r.
  - now rewrite IH.
Qed.

Lemma string_substring_skip (k r : string) (m : nat) :
  String.substring (String.length k) m (k ++ r) = String.substring 0 m r.
Proof. induction k as [| d k IH]; cbn; [ reflexivity | exact IH ]. Qed.

Lemma string_substring_all (s : string) :
  String.substring 0 (String.length s) s = s.
Proof.
  rewrite <- (string_app_nil_r s) at 2. apply string_substring_prefix.
Qed.

Lemma substring_prefix (k r : string) :
  JS.substring 0 (String.length k) (k ++ r) = k.
Proof.
  unfold JS.substring. rewrite length_append_string.
  rewrite Nat.min_0_l. cbn [Nat.min Nat.max].
  replace (Nat.min (String.length k) (String.length k + String.length r))
    with (String.length k) by lia.
  rewrite Nat.sub_0_r. apply string_substring_prefix.
Qed.

Lemma substringFrom_skip (k r : string) :
  substringFrom (String.length k) (k ++ r) = r.
Proof.
  unfold substringFrom, JS.substring. rewrite length_append_string.
  set (a := String.length k). set (b := String.length r).
  replace (Nat.min (Nat.min a (a + b)) (Nat.min (a + b) (a + b)))
    with a by lia.
  replace (Nat.max (Nat.min a (a + b)) (Nat.min (a + b) (a + b)) - a)
    with b by lia.
  subst a b. rewrite string_substring_skip. apply string_substring_all.
Qed.

(** A key/value line cut at its first colon. *)
Lemma parseKeyValue_split (k v : string) (parentType : nodeType) :
  lacks ":" k = true ->
  _parseKeyValue (k ++ String ":" v) parentType
  = Ok (trim k, (_getValueType (trim v), _parseValue (trim v))).
Proof.
  intros Hk. unfold _parseKeyValue. rewrite (indexOf_app ":" k v Hk).
  rewrite substring_prefix.
  replace (String.length k + 1) with (String.length (k ++ ":"))
    by (rewrite length_append_string; reflexivity).
  replace (k ++ String ":" v) with ((k ++ ":") ++ v)
    by (rewrite string_app_assoc; reflexivity).
  rewrite substringFrom_skip.
  rewrite parseValue_eq. unfold _getValueType.
  repeat match goal with
         | |- context [ if ?b then _ else _ ] => destruct b; [ reflexivity | ]
         end.
  reflexivity.
Qed.

(** X14.  [_parseKeyValue] cuts a line at its first colon, trims both
    sides, and gives the value text the [type] of [_getValueType] and the
    value of [_parseValue]: the branches it repeats agree with the two
    methods. *)
Lemma parseKeyValue_classification (k v : string) (parentType : nodeType) :
  lacks ":" k = true ->
  _parseKeyValue (k ++ ":" ++ v) parentType
  = Ok (trim k, (_getValueType (trim v), _parseValue (trim v))).
Proof. apply parseKeyValue_split. Qed.

Lemma parseKeyValue_classification_witness :
  _parseKeyValue (" a b " ++ ":" ++ " [1, x]: 2 ") tObject
  = Ok (trim " a b ", (_getValueType (trim " [1, x]: 2 "),
                       _parseValue (trim " [1, x]: 2 "))).
Proof.
  apply (parseKeyValue_classification " a b " " [1, x]: 2 " tObject).
  reflexivity.
Defined.

(** *** Decimal numerals *)

Lemma string_of_list_app (l1 l2 : list DecimalFacts.digits) :
  NilEmpty.string_of_uint (DecimalFacts.of_list (l1 ++ l2))
  = NilEmpty.string_of_uint (DecimalFacts.of_list l1)
    ++ NilEmpty.string_of_uint (DecimalFacts.of_list l2).
Proof.
  induction l1 as [| d l1 IH]; [ reflexivity | ].
  destruct d; cbn; now rewrite IH.
Qed.

Lemma rev_of_list (l : list DecimalFacts.digits) :
  Decimal.rev (DecimalFacts.of_list l) = DecimalFacts.of_list (List.rev l).
Proof.
  apply DecimalFacts.to_list_inj.
  now rewrite DecimalFacts.rev_spec, !DecimalFacts.to_list_of_list.
Qed.

Lemma of_uint_snoc0 (l : list DecimalFacts.digits) :
  N.of_uint (DecimalFacts.of_list (l ++ [DecimalFacts.d0]))
  = (10 * N.of_uint (DecimalFacts.of_list l))%N.
Proof.
  unfold N.of_uint. rewrite !Unsigned.of_uint_alt, !rev_of_list.
  rewrite rev_app_distr. reflexivity.
Qed.

Lemma lnzhead_snoc (l : list DecimalFacts.digits) (d : DecimalFacts.digits) :
  l <> [] -> DecimalFacts.lnzhead l = l ->
  DecimalFacts.lnzhead (l ++ [d]) = (l ++ [d])%list.
Proof.
  destruct l as [| h t]; [ intros H; now contradiction H | intros _ ].
  destruct h; try reflexivity.
  intros H. exfalso. exact (DecimalFacts.lnzhead_neq_d0_head _ _ H).
Qed.

Lemma to_uint_list (p : positive) :
  let l := DecimalFacts.to_list (Pos.to_uint p) in
  l <> [] /\ DecimalFacts.lnzhead l = l.
Proof.
  cbv zeta.
  assert (Hn : DecimalFacts.to_list (Pos.to_uint p) <> []).
  { intros E. apply (Unsigned.to_uint_nonnil p).
    apply DecimalFacts.to_list_inj. exact E. }
  split; [ exact Hn | ].
  pose proof (DecimalN.Unsigned.to_of (Pos.to_uint p)) as H.
  change (N.of_uint (Pos.to_uint p)) with (Pos.of_uint (Pos.to_uint p)) in H.
  rewrite Unsigned.of_to in H. cbn [N.to_uint] in H.
  apply (f_equal DecimalFacts.to_list) in H.
  rewrite DecimalFacts.unorm_spec in H. unfold DecimalFacts.lunorm in H.
  destruct (DecimalFacts.lnzhead (DecimalFacts.to_list (Pos.to_uint p)))
    eqn:E; [ | now symmetry ].
  exfalso. apply (Unsigned.to_uint_nonzero p).
  apply DecimalFacts.to_list_inj. now rewrite H.
Qed.

(** Ten times a positive number is written with one more zero. *)
Lemma digitsOfN_tenfold (n : N) :
  (0 < n)%N -> digitsOfN (10 * n) = digitsOfN n ++ "0".
Proof.
  intros Hn. destruct n as [| p]; [ lia | ].
  destruct (to_uint_list p) as [Hne Hnz].
  set (l := DecimalFacts.to_list (Pos.to_uint p)) in *.
  assert (Hu : Pos.to_uint p = DecimalFacts.of_list l)
    by (symmetry; apply DecimalFacts.of_list_to_list).
  assert (Ht : N.to_uint (10 * N.pos p)
               = DecimalFacts.of_list (l ++ [DecimalFacts.d0])).
  { replace (10 * N.pos p)%N
      with (N.of_uint (DecimalFacts.of_list (l ++ [DecimalFacts.d0]))).
    - rewrite DecimalN.Unsigned.to_of.
      apply DecimalFacts.to_list_inj.
      rewrite DecimalFacts.unorm_spec, DecimalFacts.to_list_of_list.
      unfold DecimalFacts.lunorm.
      rewrite (lnzhead_snoc l DecimalFacts.d0 Hne Hnz).
      destruct l; [ now contradiction Hne | reflexivity ].
    - rewrite of_uint_snoc0, <- Hu.
      change (N.of_uint (Pos.to_uint p)) with (Pos.of_uint (Pos.to_uint p)).
      now rewrite Unsigned.of_to. }
  unfold digitsOfN. rewrite Ht. cbn [N.to_uint]. rewrite Hu.
  unfold NilZero.string_of_uint.
  rewrite string_of_list_app.
  destruct l as [| h t]; [ now contradiction Hne | ].
  destruct h; reflexivity.
Qed.

Lemma zeros_S (k : nat) : zeros (S k) = zeros k ++ "0".
Proof.
  unfold zeros. induction k as [| k IH]; [ reflexivity | ].
  cbn [repeatStr] in *. rewrite IH at 1. reflexivity.
Qed.

Lemma digitsOfN_scaled (n : N) (k : nat) :
  (0 < n)%N -> digitsOfN (n * 10 ^ N.of_nat k) = digitsOfN n ++ zeros k.
Proof.
  intros Hn. induction k as [| k IH].
  - cbn. rewrite N.mul_1_r. now rewrite string_app_nil_r.
  - rewrite zeros_S, <- string_app_assoc, <- IH.
    rewrite <- digitsOfN_tenfold by (apply N.mul_pos_pos; [ exact Hn | ];
                                      apply N.neq_0_lt_0, N.pow_nonzero; lia).
    f_equal. rewrite Nat2N.inj_succ, N.pow_succ_r'. lia.
Qed.

(** [trimMantissa] takes zeros off the end of the mantissa and counts
    them. *)
Lemma trimMantissa_spec (fuel : nat) :
  forall m e,
    (0 < m)%Z ->
    exists m' k,
      trimMantissa fuel m e = (m', (e + Z.of_nat k)%Z)
      /\ (0 < m')%Z /\ (m = m' * 10 ^ Z.of_nat k)%Z.
Proof.
  induction fuel as [| fuel IH]; intros m e Hm.
  - exists m, 0. cbn. rewrite Z.add_0_r, Z.mul_1_r. auto.
  - cbn [trimMantissa].
    destruct (Z.eqb_spec m 0) as [E | _]; [ lia | ].
    destruct (Z.eqb_spec (Z.rem m 10) 0) as [Hr | Hr].
    + assert (Hq : m = (10 * Z.quot m 10)%Z).
      { pose proof (Z.quot_rem' m 10). lia. }
      destruct (IH (Z.quot m 10) (e + 1)%Z) as (m' & k & Ht & Hp & Hv);
        [ lia | ].
      exists m', (S k). rewrite Ht. split; [ f_equal; lia | ].
      split; [ exact Hp | ].
      rewrite Nat2Z.inj_succ, Z.pow_succ_r by lia. lia.
    + exists m, 0. rewrite Z.add_0_r, Z.mul_1_r. auto.
Qed.

Lemma zeros_length (k : nat) : String.length (zeros k) = k.
Proof.
  unfold zeros. induction k as [| k IH]; [ reflexivity | ].
  cbn. now rewrite IH.
Qed.

(** A natural number of at most 21 digits is written as its digits. *)
Lemma numberToString_nat (n : nat) :
  String.length (natToString n) <= 21 ->
  numberToString (indexNumber n) = natToString n.
Proof.
  intros Hlen. destruct n as [| n]; [ reflexivity | ].
  unfold indexNumber, numberToString.
  destruct (trimMantissa_spec
              (S (Z.to_nat (Z.log2 (Z.abs (Z.of_nat (S n))))))
              (Z.of_nat (S n)) 0) as (m & k & -> & Hm & Hv); [ lia | ].
  destruct (Z.eqb_spec m 0) as [E | _]; [ lia | ].
  destruct (Z.ltb_spec m 0) as [E | _]; [ lia | ].
  assert (Hd : natToString (S n) = digitsOfN (Z.abs_N m) ++ zeros k).
  { unfold natToString. rewrite <- digitsOfN_scaled by lia. f_equal.
    apply N2Z.inj. rewrite N2Z.inj_mul, N2Z.inj_pow, N2Z.inj_abs_N.
    rewrite !nat_N_Z. rewrite Z.abs_eq by lia. exact Hv. }
  rewrite Hd in Hlen. rewrite length_append_string, zeros_length in Hlen.
  set (s := digitsOfN (Z.abs_N m)) in *.
  destruct (Z.leb_spec (Z.of_nat (String.length s))
                       (Z.of_nat (String.length s) + (0 + Z.of_nat k)))
    as [_ | E]; [ | lia ].
  destruct (Z.leb_spec (Z.of_nat (String.length s) + (0 + Z.of_nat k)) 21)
    as [_ | E]; [ | lia ].
  cbn [andb append]. rewrite Hd. f_equal. f_equal. lia.
Qed.

Lemma natToString_not_minus (n : nat) :
  match natToString n with
  | String c _ => isDigit c = true
  | EmptyString => False
  end.
Proof.
  pose proof (natToString_digits n) as Hd.
  pose proof (natToString_nonempty n) as Hn.
  destruct (natToString n) as [| c r]; [ discriminate Hn | ].
  cbn in Hd. now apply andb_true_iff in Hd.
Qed.

Lemma isNumber_natToString (n : nat) : _isNumber (natToString n) = true.
Proof.
  unfold _isNumber.
  pose proof (natToString_digits n) as Hd.
  pose proof (natToString_nonempty n) as Hn.
  pose proof (natToString_not_minus n) as Hm.
  destruct (natToString n) as [| c r] eqn:E; [ contradiction | ].
  assert (Hc : c <> "-"%char) by (intros ->; discriminate Hm).
  replace (match String c r with String "-" r0 => r0 | _ => String c r end)
    with (String c r).
  - rewrite (digits_span _ Hd). reflexivity.
  - destruct c as [[] [] [] [] [] [] [] []]; try reflexivity.
    now contradiction Hc.
Qed.

Lemma parseFloat_natToString (n : nat) :
  parseFloat (natToString n) = indexNumber n.
Proof.
  unfold parseFloat.
  pose proof (natToString_digits n) as Hd.
  rewrite (digits_trimStart _ Hd), (digits_takeSign _ Hd).
  unfold scanDecimal.
  rewrite (digits_not_Infinity _ Hd), (digits_span _ Hd).
  pose proof (natToString_nonempty n) as Hn.
  destruct (natToString n) as [| c r] eqn:E; [ discriminate Hn | ].
  cbn -[digitsToN]. rewrite string_app_nil_r, <- E, natToString_value.
  unfold indexNumber. now rewrite nat_N_Z.
Qed.

Lemma digits_not_keyword (s : string) :
  JS.forallb isDigit s = true ->
  String.eqb s "None" = false /\ String.eqb s "{}" = false
  /\ String.eqb s "[]" = false.
Proof.
  destruct s as [| c r]; [ now repeat split | ]. cbn [JS.forallb].
  intros H. apply andb_true_iff in H. destruct H as [Hc _].
  destruct c as [[] [] [] [] [] [] [] []]; cbn in Hc; try discriminate Hc;
    now repeat split.
Qed.

(** The decimal text of a natural number is read as that number. *)
Lemma parseValue_natToString (n : nat) :
  _parseValue (natToString n) = VNumber (indexNumber n)
  /\ _getValueType (natToString n) = tNumber.
Proof.
  rewrite parseValue_eq. unfold _getValueType.
  destruct (digits_not_keyword _ (natToString_digits n)) as (-> & -> & ->).
  rewrite isNumber_natToString. unfold _parseNumber.
  rewrite parseFloat_natToString. now split.
Qed.

(** X17.  A natural number of at most 15 digits is written as its digits
    and read back as the same number.  Ten to the 21 is written with an
    exponent, as [1e+21], which [_isNumber] does not accept: it is read
    back as a string. *)
Lemma natural_number_round_trip :
  (forall (n level : nat) (options : stringifyOptions) (flag : bool),
      String.length (natToString n) <= 15 ->
      fst (_objectToSimple (VNumber (indexNumber n)) level options flag)
      = natToString n
      /\ _parseValue (natToString n) = VNumber (indexNumber n))
  /\ fst (_objectToSimple (VNumber (Finite (10 ^ 21) 0)) 0
            defaultStringifyOptions false) = "1e+21"
  /\ _parseValue "1e+21" = VString "1e+21".
Proof.
  split; [ | split; reflexivity ].
  intros n level options flag Hn. cbn [_objectToSimple fst].
  split; [ apply numberToString_nat; lia | apply parseValue_natToString ].
Qed.

Lemma natural_number_round_trip_witness :
  String.length (natToString 1024) <= 15
  /\ fst (_objectToSimple (VNumber (indexNumber 1024)) 0
            defaultStringifyOptions false) = natToString 1024
  /\ _parseValue (natToString 1024) = VNumber (indexNumber 1024).
Proof.
  split; [ cbn; lia | ].
  apply (proj1 natural_number_round_trip 1024 0 defaultStringifyOptions false).
  cbn. lia.
Defined.

(** *** Flat documents *)

Lemma forallb_app (p : ascii -> bool) (a b : string) :
  JS.forallb p (a ++ b) = JS.forallb p a && JS.forallb p b.
Proof.
  induction a as [| c a IH]; [ reflexivity | ].
  cbn. now rewrite IH, andb_assoc.
Qed.

Lemma unlines_forallb (p : ascii -> bool) (ls : list string) :
  p LF = true ->
  Forall (fun l => JS.forallb p l = true) ls ->
  JS.forallb p (unlines ls) = true.
Proof.
  intros Hp. induction 1 as [| l r Hl _ IH]; [ reflexivity | ].
  destruct r as [| l2 r]; [ exact Hl | ].
  change (unlines (l :: l2 :: r)) with (l ++ String LF (unlines (l2 :: r))).
  rewrite forallb_app, Hl. cbn [JS.forallb andb]. now rewrite Hp, IH.
Qed.

Lemma plain_noQuote (s : string) : isPlain s = true -> noQuote s = true.
Proof.
  unfold isPlain, noQuote. induction s as [| c s IH]; [ reflexivity | ].
  cbn. intros H. apply andb_true_iff in H. destruct H as [Hc Hs].
  apply isPlainChar_inv in Hc. destruct Hc as [-> _]. now apply IH.
Qed.

Lemma isFlatLine_inv (line : string) :
  isFlatLine line = true ->
  isPlain line = true /\ lacks LF line = true
  /\ (allSpace line = true
      \/ includes ":" line = true
         /\ exists c r, line = String c r /\ isSpace c = false).
Proof.
  unfold isFlatLine. intros H.
  apply andb_true_iff in H. destruct H as [H H3].
  apply andb_true_iff in H. destruct H as [H1 H2].
  split; [ exact H1 | split; [ exact H2 | ] ].
  apply orb_true_iff in H3. destruct H3 as [H3 | H3]; [ now left | right ].
  apply andb_true_iff in H3. destruct H3 as [Hc Hh].
  split; [ exact Hc | ].
  destruct line as [| c r]; [ discriminate Hh | ].
  exists c, r. split; [ reflexivity | now apply negb_true_iff ].
Qed.

Lemma nonBlank_allSpace (line : string) :
  allSpace line = true -> nonBlank line = false.
Proof. intros H. unfold nonBlank. now rewrite (trim_allSpace line H). Qed.

Lemma trim_head (c : ascii) (r : string) :
  isSpace c = false -> exists r', trim (String c r) = String c r'.
Proof.
  intros Hc. unfold trim. cbn [trimStart]. rewrite Hc.
  cbn [trimEnd]. rewrite Hc. cbn [andb]. eauto.
Qed.

(** What the lines of a flat document that are not blank are to the block
    parser. *)
Lemma flat_line_facts (line : string) :
  isFlatLine line = true -> nonBlank line = true ->
  isEmpty (trim line) = false
  /\ isCommentLine (trim line) = false
  /\ includes ":" line = true
  /\ fst (span isSpace line) = EmptyString.
Proof.
  intros Hf Hn. apply isFlatLine_inv in Hf.
  destruct Hf as (Hp & _ & [Hs | (Hc & c & r & -> & Hsp)]).
  - rewrite (nonBlank_allSpace line Hs) in Hn. discriminate Hn.
  - destruct (trim_head c r Hsp) as [r' Ht]. rewrite Ht.
    cbn in Hp. apply andb_true_iff in Hp. destruct Hp as [Hpc _].
    apply isPlainChar_inv in Hpc. destruct Hpc as (_ & Hsl & Hh).
    repeat split; try assumption.
    + unfold isCommentLine, startsWith. rewrite prefix_str1.
      rewrite (Ascii.eqb_sym "#" c), Hh, orb_false_r.
      cbn [String.prefix]. destruct (ascii_dec "/" c) as [<- | _];
        [ discriminate Hsl | reflexivity ].
    + cbn. now rewrite Hsp.
Qed.

Lemma detectLoop_no_indent (lines : list string) (this : SimpleParser) :
  noIndentedLine lines -> detectLoop lines this = this.
Proof.
  induction 1 as [| line rest Hl _ IH]; [ reflexivity | ].
  cbn [detectLoop]. destruct Hl as [-> | Hl]; [ exact IH | ].
  destruct (isEmpty (trim line) || isCommentLine (trim line)); [ exact IH | ].
  destruct (span isSpace line) as [spaces r]. cbn in Hl. subst spaces.
  exact IH.
Qed.

Lemma parseKeyValue_kind (line : string) (pt : nodeType) key type v :
  _parseKeyValue line pt = Ok (key, (type, v)) -> hasType v type.
Proof.
  unfold _parseKeyValue. destruct (indexOf ":" line); [ | discriminate ].
  repeat match goal with
         | |- context [ if ?b then _ else _ ] => destruct b
         end; intros [= <- <- <-]; try (now constructor).
  destruct (parseInlineObject_isObject
              (trim (substringFrom (n + 1) line))) as (p & es & ->).
  constructor.
Qed.

Lemma parseKeyValue_Ok (line : string) (pt : nodeType) :
  includes ":" line = true ->
  exists key type v, _parseKeyValue (trim line) pt = Ok (key, (type, v)).
Proof.
  intros Hc.
  destruct (_parseKeyValue (trim line) pt) as [[key [type v]] | e] eqn:E;
    [ now exists key, type, v | ].
  apply parseKeyValue_Throw in E. destruct E as [E _]. congruence.
Qed.

(** One line of a flat document through the body of the loop. *)
Lemma processLine_flat (this : SimpleParser) (options : parseOptions)
    (line : string) (done : list astNode) (pending : option astNode) :
  isFlatLine line = true -> nonBlank line = true ->
  let node := lineNode line in
  processLine this options line
    (fst (flatStack done pending)) (snd (flatStack done pending))
  = Ok (if isContainerType (nodeTypeOf node)
        then flatStack (done ++ pendingNodes pending) (Some node)
        else flatStack ((done ++ pendingNodes pending) ++ [node]) None).
Proof.
  intros Hf Hn.
  destruct (flat_line_facts line Hf Hn) as (He & Hc & Hcol & Hsp).
  destruct (parseKeyValue_Ok line tObject Hcol) as (key & type & v & Hkv).
  cbv zeta. unfold lineNode, processLine. rewrite Hkv, He, Hc.
  rewrite (getIndentLevel_no_indent this line Hsp).
  assert (Hpop : popFrames (fst (flatStack done pending))
                   (snd (flatStack done pending)) (Z.of_nat 0)
                 = ({| fnode := Root (done ++ pendingNodes pending);
                       findent := (-1)%Z |}, [])).
  { destruct pending as [n |]; cbn; [ reflexivity | ].
    now rewrite app_nil_r. }
  rewrite Hpop. cbn [fnode nodeTypeOf].
  rewrite andb_false_r. cbn [andb].
  rewrite Hkv.
  cbn [nodeTypeOf]. destruct (isContainerType type); reflexivity.
Qed.

Lemma linesLoop_flat (this : SimpleParser) (options : parseOptions)
    (lines : list string) :
  Forall (fun l => isFlatLine l = true /\ nonBlank l = true) lines ->
  forall done pending,
    linesLoop this options lines
      (fst (flatStack done pending)) (snd (flatStack done pending))
    = Ok (Root (done ++ pendingNodes pending ++ map lineNode lines)).
Proof.
  induction 1 as [| line rest [Hf Hn] _ IH]; intros done pending.
  - destruct pending; cbn; now rewrite ?app_nil_r.
  - cbn [linesLoop]. rewrite (processLine_flat _ _ _ _ _ Hf Hn). cbv zeta.
    destruct (isContainerType (nodeTypeOf (lineNode line))).
    + pose proof (IH (done ++ pendingNodes pending)%list
                     (Some (lineNode line))) as H.
      destruct (flatStack (done ++ pendingNodes pending)%list
                          (Some (lineNode line))) as [t b].
      cbn [fst snd] in H. rewrite H. cbn [pendingNodes map].
      now rewrite <- !app_assoc.
    + pose proof (IH ((done ++ pendingNodes pending) ++ [lineNode line])%list
                     None) as H.
      destruct (flatStack
                  ((done ++ pendingNodes pending) ++ [lineNode line])%list
                  None) as [t b].
      cbn [fst snd] in H. rewrite H. cbn [pendingNodes map].
      now rewrite <- !app_assoc.
Qed.

Lemma lineNode_entry (line : string) :
  includes ":" line = true ->
  let node := lineNode line in
  nodeKey node = fst (lineEntry line)
  /\ (if isContainerType (nodeTypeOf node)
      then _astToObject node = Ok (snd (lineEntry line))
      else nodeValue node = snd (lineEntry line)).
Proof.
  intros Hc. destruct (parseKeyValue_Ok line tObject Hc)
    as (key & type & v & Hkv).
  pose proof (parseKeyValue_kind _ _ _ _ _ Hkv) as Hk.
  cbv zeta. unfold lineNode, lineEntry. rewrite Hkv.
  destruct Hk; cbn; split; reflexivity.
Qed.

Lemma objectLoop_flat (lines : list string) :
  Forall (fun l => includes ":" l = true) lines ->
  forall obj,
    objectLoop (fun c => _astToObject c) (map lineNode lines) obj
    = Ok (fold_left (fun o l => objSet (fst (lineEntry l)) (snd (lineEntry l)) o)
                    lines obj).
Proof.
  induction 1 as [| line rest Hc _ IH]; intros obj; [ reflexivity | ].
  cbn [map objectLoop fold_left].
  destruct (lineNode_entry line Hc) as [Hk Hv]. rewrite Hk.
  destruct (isContainerType (nodeTypeOf (lineNode line))).
  - rewrite Hv. apply IH.
  - rewrite Hv. apply IH.
Qed.

Lemma parse_flat_lines (this : SimpleParser) (ls : list string)
    (options : parseOptions) :
  Forall (fun l => isFlatLine l = true) ls ->
  fst (parse this (unlines ls) options)
  = Ok (fold_left
          (fun o l => objSet (fst (lineEntry l)) (snd (lineEntry l)) o)
          (filter nonBlank ls) emptyObject).
Proof.
  intros Hls.
  assert (Hplain : isPlain (unlines ls) = true).
  { apply unlines_forallb; [ reflexivity | ].
    eapply Forall_impl; [ | exact Hls ]. cbn. intros l Hl.
    now apply isFlatLine_inv in Hl. }
  assert (Hlines : _processMultilineStrings (unlines ls) = filter nonBlank ls).
  { apply processMultilineStrings_unlines.
    eapply Forall_impl; [ | exact Hls ]. cbn. intros l Hl.
    apply isFlatLine_inv in Hl. destruct Hl as (Hp & Hl & _).
    split; [ now apply plain_noQuote | exact Hl ]. }
  assert (Hflat : Forall (fun l => isFlatLine l = true /\ nonBlank l = true)
                         (filter nonBlank ls)).
  { apply Forall_forall. intros l Hin. apply filter_In in Hin.
    destruct Hin as [Hin Hn]. rewrite Forall_forall in Hls. auto. }
  unfold parse, _removeComments.
  rewrite <- (string_app_nil_r (unlines ls)) at 1.
  rewrite removeCommentsFrom_plain_app by exact Hplain.
  cbn [removeCommentsFrom]. rewrite string_app_nil_r, Hlines.
  unfold _linesToAst.
  rewrite (linesLoop_flat _ options (filter nonBlank ls) Hflat [] None).
  cbn [fst pendingNodes app _astToObject].
  rewrite objectLoop_flat; [ reflexivity | ].
  eapply Forall_impl; [ | exact Hflat ]. cbn. intros l [Hf Hn].
  now destruct (flat_line_facts l Hf Hn) as (_ & _ & Hc & _).
Qed.

(** The entry of a key/value line: the key is the trimmed text before
    the first colon; the value is what [_parseValue] reads from the
    trimmed text after it, except that a mapping comes out empty. *)
Lemma lineEntry_split (line k v : string) :
  trim line = k ++ ":" ++ v -> lacks ":" k = true ->
  lineEntry line
  = (trim k, match _getValueType (trim v) with
             | tObject => emptyObject
             | _ => _parseValue (trim v)
             end).
Proof.
  intros Ht Hk. unfold lineEntry. rewrite Ht.
  change (k ++ ":" ++ v) with (k ++ String ":" v).
  rewrite (parseKeyValue_split k v tObject Hk).
  now destruct (_getValueType (trim v)).
Qed.

(** X20.  A document of blank lines and of key/value lines that do not
    start with whitespace and hold no quote, slash or hash never fails.
    It parses to the object that the assignments [obj[key] = value] of its
    lines build from the empty object, in the order of the lines: a later
    line with the same key replaces the value of the earlier one, and the
    key [__proto__] acts on the prototype.  The key of a line is the
    trimmed text before its first colon; its value is what [_parseValue]
    reads from the trimmed text after that colon, except that a mapping
    written in braces comes out empty.  This holds in both array formats
    and on every instance. *)
Lemma parse_flat_document :
  (forall (this : SimpleParser) (ls : list string) (options : parseOptions),
      Forall (fun l => isFlatLine l = true) ls ->
      fst (parse this (unlines ls) options)
      = Ok (fold_left
              (fun o l => objSet (fst (lineEntry l)) (snd (lineEntry l)) o)
              (filter nonBlank ls) emptyObject))
  /\ (forall line k v,
         trim line = k ++ ":" ++ v -> lacks ":" k = true ->
         lineEntry line
         = (trim k, match _getValueType (trim v) with
                    | tObject => emptyObject
                    | _ => _parseValue (trim v)
                    end)).
Proof. split; [ apply parse_flat_lines | apply lineEntry_split ]. Qed.

Lemma parse_flat_document_witness :
  fst (parse constructor
         (unlines ["a: 1"; "  "; "b: [x, 2]"; "c: {d: 3}"; "a: None"])
         defaultParseOptions)
  = Ok (VObject ObjectPrototype
          [("a", VNull);
           ("b", VArray [VString "x"; VNumber (Finite 2 0)]);
           ("c", emptyObject)]).
Proof.
  rewrite (proj1 parse_flat_document constructor
             ["a: 1"; "  "; "b: [x, 2]"; "c: {d: 3}"; "a: None"]
             defaultParseOptions).
  - reflexivity.
  - repeat constructor.
Defined.

(** *** The text of plain scalars *)

Lemma tokenChar_facts (c : ascii) :
  isLetter c || isDigit c = true ->
  isAtomChar c = true /\ isPlainChar c = true /\ isSpace c = false
  /\ Ascii.eqb c LF = false /\ Ascii.eqb c ":" = false
  /\ Ascii.eqb c BACKSLASH = false /\ Ascii.eqb c TAB = false
  /\ Ascii.eqb c DQUOTE = false /\ isQuote c = false.
Proof.
  destruct c as [[] [] [] [] [] [] [] []]; cbn; intros H;
    first [ discriminate H | repeat split ].
Qed.

Lemma letter_not_digit (c : ascii) : isLetter c = true -> isDigit c = false.
Proof.
  destruct c as [[] [] [] [] [] [] [] []]; cbn; intros H;
    first [ discriminate H | reflexivity ].
Qed.

Lemma forallb_impl (p q : ascii -> bool) (s : string) :
  (forall c, p c = true -> q c = true) ->
  JS.forallb p s = true -> JS.forallb q s = true.
Proof.
  intros Hpq. induction s as [| c s IH]; [ reflexivity | ].
  cbn. intros H. apply andb_true_iff in H. destruct H as [Hc Hs].
  now rewrite (Hpq c Hc), IH.
Qed.

Lemma isToken_inv (s : string) :
  isToken s = true ->
  s <> EmptyString /\ JS.forallb (fun c => isLetter c || isDigit c) s = true.
Proof.
  unfold isToken. intros H. apply andb_true_iff in H. destruct H as [Hn Hs].
  split; [ | exact Hs ]. intros ->. discriminate Hn.
Qed.

Lemma token_last (s : string) :
  JS.forallb (fun c => isLetter c || isDigit c) s = true ->
  match JS.last s with Some c => isSpace c = false | None => True end.
Proof.
  induction s as [| c s IH]; [ intros _; exact I | ].
  cbn [JS.forallb JS.last]. intros H.
  apply andb_true_iff in H. destruct H as [Hc Hs].
  destruct s as [| d s']; [ | exact (IH Hs) ].
  now apply tokenChar_facts in Hc.
Qed.

(** What a token is to the scanners of the parser. *)
Lemma token_facts (s : string) :
  isToken s = true ->
  isAtom s /\ isPlain s = true /\ lacks LF s = true /\ lacks ":" s = true
  /\ lacks BACKSLASH s = true
  /\ (exists c r, s = String c r /\ isSpace c = false)
  /\ match JS.last s with Some c => isSpace c = false | None => True end.
Proof.
  intros H. apply isToken_inv in H. destruct H as [Hn Hs].
  assert (Hh : exists c r, s = String c r /\ isSpace c = false).
  { destruct s as [| c r]; [ now contradiction Hn | ].
    exists c, r. split; [ reflexivity | ].
    cbn in Hs. apply andb_true_iff in Hs. destruct Hs as [Hc _].
    now apply tokenChar_facts in Hc. }
  pose proof (token_last s Hs) as Hl.
  repeat split; try assumption.
  - apply trim_tight; [ | exact Hl ].
    destruct Hh as (c & r & -> & Hc). exact Hc.
  - eapply forallb_impl; [ | exact Hs ]. intros c Hc.
    now apply tokenChar_facts in Hc.
  - eapply forallb_impl; [ | exact Hs ]. intros c Hc.
    now apply tokenChar_facts in Hc.
  - eapply forallb_impl; [ | exact Hs ]. cbn. intros c Hc.
    apply tokenChar_facts in Hc. apply negb_true_iff. tauto.
  - eapply forallb_impl; [ | exact Hs ]. cbn. intros c Hc.
    apply tokenChar_facts in Hc. apply negb_true_iff. tauto.
  - eapply forallb_impl; [ | exact Hs ]. cbn. intros c Hc.
    apply tokenChar_facts in Hc. apply negb_true_iff. tauto.
Qed.

Lemma word_token (w : string) : isWord w = true -> isToken w = true.
Proof.
  unfold isWord, isToken. destruct w as [| c r]; [ discriminate | ].
  intros H. apply andb_true_iff in H. destruct H as [Hc Hs].
  cbn [isEmpty negb andb JS.forallb]. now rewrite Hc, Hs.
Qed.

Lemma natToString_token (n : nat) : isToken (natToString n) = true.
Proof.
  unfold isToken. rewrite natToString_nonempty. cbn [negb andb].
  eapply forallb_impl; [ | apply natToString_digits ].
  cbn. intros c ->. apply orb_true_r.
Qed.

Lemma parseString_plain (s : string) :
  lacks BACKSLASH s = true -> _parseString s = s.
Proof.
  induction s as [| c s IH]; [ reflexivity | ]. intros H.
  apply lacks_cons in H. destruct H as [Hc Hs].
  cbn [_parseString]. now rewrite Hc, IH.
Qed.

Lemma escapeString_token (s : string) :
  JS.forallb (fun c => isLetter c || isDigit c) s = true ->
  _escapeString s = s.
Proof.
  induction s as [| c s IH]; [ reflexivity | ].
  cbn [JS.forallb _escapeString]. intros H.
  apply andb_true_iff in H. destruct H as [Hc Hs].
  apply tokenChar_facts in Hc.
  destruct Hc as (_ & _ & _ & -> & _ & -> & -> & -> & _).
  cbn. now rewrite IH.
Qed.

Lemma word_head (w : string) :
  isWord w = true -> exists c r, w = String c r /\ isLetter c = true.
Proof.
  unfold isWord. destruct w as [| c r]; [ discriminate | ].
  intros H. apply andb_true_iff in H. destruct H as [Hc _]. eauto.
Qed.

Lemma letter_head_facts (c : ascii) (r : string) :
  isLetter c = true ->
  String.eqb (String c r) "{}" = false
  /\ String.eqb (String c r) "[]" = false
  /\ _isNumber (String c r) = false
  /\ isQuoted (String c r) = false
  /\ isBracketed (String c r) = false
  /\ isBraced (String c r) = false.
Proof.
  intros Hc. unfold _isNumber, isQuoted, isBracketed, isBraced, startsWith.
  rewrite !prefix_str1.
  destruct c as [[] [] [] [] [] [] [] []]; cbn in Hc; try discriminate Hc;
    now repeat split.
Qed.

(** A word other than [None] is read as the string it is. *)
Lemma parseValue_word (w : string) :
  isWord w = true -> w <> "None" ->
  _parseValue w = VString w /\ _getValueType w = tString.
Proof.
  intros Hw Hn. rewrite parseValue_eq. unfold _getValueType.
  apply String.eqb_neq in Hn. rewrite Hn.
  destruct (word_head w Hw) as (c & r & -> & Hc).
  destruct (letter_head_facts c r Hc) as (-> & -> & -> & -> & -> & ->).
  rewrite parseString_plain; [ now split | ].
  now apply token_facts, word_token.
Qed.

Lemma needsQuotes_word (w : string) :
  isWord w = true -> w <> "None" -> w <> "true" -> w <> "false" ->
  _needsQuotes w = false.
Proof.
  intros Hw H1 H2 H3.
  destruct (_needsQuotes w) eqn:E; [ exfalso | reflexivity ].
  apply needsQuotes_spec in E.
  pose proof (word_token w Hw) as Ht. apply token_facts in Ht.
  destruct Ht as ((_ & _ & Hat) & _ & _ & Hcol & _ & (c & r & Hs & Hsp) & Hl).
  destruct (word_head w Hw) as (c' & r' & Hs' & Hc').
  destruct E as [(d & t & -> & Hd) | [E | [(d & Hd & Hcon) | [E | E]]]].
  - injection Hs' as <- _. apply isDigit_spec in Hd.
    rewrite (letter_not_digit d Hc') in Hd. discriminate Hd.
  - tauto.
  - apply includes_char in Hcon.
    assert (Hno : includes (String d EmptyString) w = false).
    { clear - Hat Hcol Hd. induction w as [| x w IH]; [ reflexivity | ].
      cbn in Hat. apply andb_true_iff in Hat. destruct Hat as [Hx Hat].
      apply lacks_cons in Hcol. destruct Hcol as [Hx' Hcol].
      rewrite includes_cons, (IH Hat Hcol), orb_false_r.
      apply isAtomChar_inv in Hx.
      destruct Hx as (A1 & _ & A3 & A4 & A5 & A6).
      cbn in Hd.
      repeat (destruct Hd as [<- | Hd];
              [ rewrite Ascii.eqb_sym; assumption | ]).
      contradiction. }
    congruence.
  - destruct E as (d & t & -> & Hd). injection Hs as <- _.
    apply isSpace_spec in Hd. congruence.
  - destruct E as (t & d & -> & Hd). apply isSpace_spec in Hd.
    rewrite last_app in Hl by discriminate. cbn in Hl. congruence.
Qed.

(** The text of a plain scalar is a token, leaves the flag alone, and is
    read back as the scalar. *)
Lemma plainScalar_text (v : value) (level : nat) (options : stringifyOptions)
    (flag : bool) :
  plainScalar v ->
  exists t,
    _objectToSimple v level options flag = (t, flag)
    /\ isToken t = true
    /\ _parseValue t = v
    /\ isContainerType (_getValueType t) = false.
Proof.
  intros [| n Hn | w Hw H1 H2 H3].
  - exists "None". now repeat split.
  - exists (natToString n). cbn [_objectToSimple].
    rewrite (numberToString_nat n) by lia.
    destruct (parseValue_natToString n) as [Hp Ht]. rewrite Ht.
    repeat split; [ apply natToString_token | exact Hp ].
  - exists w. cbn [_objectToSimple].
    rewrite (needsQuotes_word w Hw H1 H2 H3).
    pose proof (word_token w Hw) as Ht.
    rewrite escapeString_token by (now apply isToken_inv in Ht).
    destruct (parseValue_word w Hw H1) as [Hp Hty]. rewrite Hty.
    now repeat split.
Qed.

(** *** Inline sequences *)

Lemma join_cons2 (sep x y : string) (r : list string) :
  join sep (x :: y :: r) = x ++ sep ++ join sep (y :: r).
Proof. reflexivity. Qed.

Lemma join_forallb (p : ascii -> bool) (sep : string) (items : list string) :
  JS.forallb p sep = true ->
  Forall (fun s => JS.forallb p s = true) items ->
  JS.forallb p (join sep items) = true.
Proof.
  intros Hsep. induction 1 as [| x r Hx _ IH]; [ reflexivity | ].
  destruct r as [| y r]; [ exact Hx | ].
  rewrite join_cons2, !forallb_app, Hx, Hsep. exact IH.
Qed.

Lemma last_default {A : Type} (l : list A) (a b : A) :
  l <> [] -> List.last l a = List.last l b.
Proof.
  induction l as [| x l IH]; [ intros H; now contradiction H | intros _ ].
  destruct l as [| y l]; [ reflexivity | ].
  change (List.last (y :: l) a = List.last (y :: l) b). apply IH. discriminate.
Qed.

Lemma Forall_last {A : Type} (P : A -> Prop) (l : list A) (x : A) :
  Forall P (x :: l) -> P (List.last l x).
Proof.
  revert x. induction l as [| y l IH]; intros x H.
  - now inversion H.
  - inversion H as [| ? ? _ Hl]; subst.
    destruct l as [| z l]; [ now inversion Hl | ].
    change (P (List.last (z :: l) x)).
    rewrite (last_default (z :: l) x y) by discriminate. now apply IH.
Qed.

Lemma join_last (sep : string) (items : list string) (x : string) :
  Forall (fun s => s <> EmptyString) (x :: items) ->
  JS.last (join sep (x :: items)) = JS.last (List.last items x).
Proof.
  revert x. induction items as [| y r IH]; intros x H; [ reflexivity | ].
  inversion H as [| ? ? Hx Hr]; subst.
  rewrite join_cons2, <- string_app_assoc.
  rewrite last_app.
  - rewrite (IH y Hr). destruct r as [| z r]; [ reflexivity | ].
    change (List.last (y :: z :: r) x) with (List.last (z :: r) x).
    f_equal. apply last_default. discriminate.
  - inversion Hr as [| ? ? Hy _]; subst.
    destruct r as [| z r]; [ exact Hy | ].
    rewrite join_cons2. destruct y; [ now contradiction Hy | discriminate ].
Qed.

Lemma atom_head (s : string) :
  isAtom s -> exists c r, s = String c r /\ isSpace c = false
                          /\ isAtomChar c = true.
Proof.
  intros (Hn & Ht & Ha). apply isTrimmed_head in Ht.
  destruct s as [| c r]; [ now contradiction Hn | ].
  cbn in Ha. apply andb_true_iff in Ha. destruct Ha as [Hc _].
  now exists c, r.
Qed.

Lemma isTrimmed_last (s : string) :
  isTrimmed s ->
  match JS.last s with Some c => isSpace c = false | None => True end.
Proof.
  unfold isTrimmed, trim. intros H. rewrite <- H.
  generalize (trimStart s). clear. intros s.
  induction s as [| c s IH]; [ exact I | ].
  cbn [trimEnd]. destruct (isSpace c && isEmpty (trimEnd s)) eqn:E;
    [ exact I | ].
  cbn [JS.last]. destruct (trimEnd s) as [| d t] eqn:Et; [ | exact IH ].
  cbn in E. now rewrite andb_true_r in E.
Qed.

(** Atoms joined by a comma and a space make a trimmed text. *)
Lemma join_atoms_trimmed (items : list string) :
  Forall isAtom items -> isTrimmed (join ", " items).
Proof.
  intros H. destruct items as [| x r]; [ reflexivity | ].
  apply trim_tight.
  - inversion H as [| ? ? Hx _]; subst.
    destruct (atom_head x Hx) as (c & t & -> & Hc & _).
    destruct r; exact Hc.
  - rewrite join_last.
    + apply isTrimmed_last.
      pose proof (Forall_last isAtom r x H) as Hl.
      now destruct Hl as (_ & Hl & _).
    + eapply Forall_impl; [ | exact H ]. now intros s (Hs & _).
Qed.

Lemma substring_inner (c d : ascii) (s : string) :
  JS.substring 1 (String.length (String c (s ++ str1 d)) - 1)
               (String c (s ++ str1 d)) = s.
Proof.
  unfold JS.substring. cbn [String.length]. rewrite length_append_string.
  cbn [String.length str1].
  set (n := String.length s).
  replace (Nat.min (Nat.min 1 (S (n + 1))) (Nat.min (S (n + 1) - 1) (S (n + 1))))
    with 1 by lia.
  replace (Nat.max (Nat.min 1 (S (n + 1))) (Nat.min (S (n + 1) - 1) (S (n + 1)))
           - 1) with n by lia.
  cbn [String.substring]. subst n. apply string_substring_prefix.
Qed.

Lemma parseInlineArray_join (items : list string) :
  Forall isAtom items ->
  _parseInlineArray (Spec.inlineSequence items) = map _parseValue items.
Proof.
  intros H. unfold _parseInlineArray, parseInlineArrayWith, Spec.inlineSequence.
  change ("[" ++ join ", " items ++ "]")
    with (String "[" (join ", " items ++ str1 "]")).
  rewrite substring_inner. cbv zeta.
  pose proof (join_atoms_trimmed items H) as Ht. unfold isTrimmed in Ht.
  rewrite !Ht.
  destruct items as [| x r]; [ reflexivity | ].
  assert (Hne : isEmpty (join ", " (x :: r)) = false).
  { inversion H as [| ? ? Hx _]; subst.
    destruct (atom_head x Hx) as (c & t & -> & _). now destruct r. }
  rewrite Hne. unfold _splitByComma.
  rewrite (splitByCommaFrom_join (x :: r) H None EmptyString eq_refl).
  apply map_ext_in. intros item Hin. rewrite Forall_forall in H.
  destruct (H item Hin) as (_ & -> & _). reflexivity.
Qed.

(** X15.  An inline sequence of atoms is read item by item: the value of
    [_parseInlineArray] is the list of the values [_parseValue] gives the
    atoms, in their order. *)
Lemma parseInlineArray_atoms (items : list string) :
  Forall isAtom items ->
  _parseInlineArray (Spec.inlineSequence items) = map _parseValue items.
Proof. apply parseInlineArray_join. Qed.

Lemma parseInlineArray_atoms_witness :
  _parseInlineArray (Spec.inlineSequence ["1"; "None"; "a b"])
  = map _parseValue ["1"; "None"; "a b"].
Proof.
  apply (parseInlineArray_atoms ["1"; "None"; "a b"]).
  repeat constructor; discriminate.
Defined.

Lemma endsWith_app (a p : string) : endsWith p (a ++ p) = true.
Proof.
  induction a as [| c a IH]; cbn [append].
  - destruct p; cbn; [ reflexivity | ].
    now rewrite Ascii.eqb_refl, String.eqb_refl.
  - cbn [endsWith]. rewrite IH. apply orb_true_r.
Qed.

(** How the parser classifies a text in brackets that starts with an
    atom character. *)
Lemma bracketed_class (c : ascii) (r : string) :
  isAtomChar c = true ->
  let t := String "[" (String c r ++ "]") in
  _parseValue t = VArray (_parseInlineArray t) /\ _getValueType t = tArray.
Proof.
  intros Hc. cbv zeta. rewrite parseValue_eq. unfold _getValueType.
  assert (H1 : String.eqb (String "[" (String c r ++ "]")) "None" = false)
    by reflexivity.
  assert (H2 : String.eqb (String "[" (String c r ++ "]")) "{}" = false)
    by reflexivity.
  assert (H3 : String.eqb (String "[" (String c r ++ "]")) "[]" = false).
  { cbn. apply isAtomChar_inv in Hc.
    destruct Hc as (_ & _ & _ & -> & _). reflexivity. }
  assert (H4 : _isNumber (String "[" (String c r ++ "]")) = false)
    by reflexivity.
  assert (H5 : isQuoted (String "[" (String c r ++ "]")) = false)
    by reflexivity.
  assert (H6 : isBracketed (String "[" (String c r ++ "]")) = true).
  { unfold isBracketed, startsWith. rewrite prefix_str1. cbn [Ascii.eqb].
    cbn [andb Bool.eqb].
    change (String "[" (String c r ++ "]")) with (("[" ++ String c r) ++ "]").
    apply endsWith_app. }
  rewrite H1, H2, H3, H4, H5, H6. now split.
Qed.

(** *** Block mappings of flat values *)

Lemma plainScalar_isScalar (v : value) : plainScalar v -> Spec.isScalar v.
Proof. now intros []. Qed.

Lemma includes_mid (c : ascii) (a b : string) :
  includes (String c EmptyString) (a ++ String c b) = true.
Proof.
  induction a as [| d a IH]; cbn [append].
  - rewrite includes_cons, Ascii.eqb_refl. reflexivity.
  - rewrite includes_cons, IH. apply orb_true_r.
Qed.

(** The text of a flat value: what it is made of and how it is read. *)
Lemma flatValue_text (v : value) (level : nat) (options : stringifyOptions)
    (flag : bool) :
  flatValue v ->
  exists t,
    _objectToSimple v level options flag = (t, flag)
    /\ isPlain t = true /\ lacks LF t = true
    /\ (exists c r, t = String c r /\ isSpace c = false)
    /\ match JS.last t with Some c => isSpace c = false | None => True end
    /\ match _getValueType t with
       | tObject => emptyObject
       | _ => _parseValue t
       end = v.
Proof.
  intros [v' Hv | arr Hlen Harr | ].
  - destruct (plainScalar_text v' level options flag Hv)
      as (t & Ht & Htok & Hp & Hty).
    exists t. destruct (token_facts t Htok)
      as (_ & Hpl & Hlf & _ & _ & Hh & Hl).
    repeat split; try assumption.
    destruct (_getValueType t); try exact Hp; discriminate Hty.
  - destruct arr as [| x r].
    { exists "[]". repeat split; try reflexivity. now exists "["%char, "]". }
    assert (Hsc : Forall Spec.isScalar (x :: r)).
    { eapply Forall_impl; [ | exact Harr ]. apply plainScalar_isScalar. }
    assert (Hin : _shouldInlineArray (x :: r) = true).
    { apply shouldInlineArray_spec; [ discriminate | now split ]. }
    set (items := map (fun item => fst (_objectToSimple item level options flag))
                      (x :: r)).
    assert (Htext : _objectToSimple (VArray (x :: r)) level options flag
                    = (Spec.inlineSequence items, flag)).
    { cbn [_objectToSimple List.length Nat.eqb]. rewrite Hin.
      rewrite (mapItems_scalars level options (x :: r) flag Hsc).
      reflexivity. }
    assert (Htok : Forall (fun s => isToken s = true) items).
    { unfold items. apply Forall_map.
      eapply Forall_impl; [ | exact Harr ]. intros a Ha.
      destruct (plainScalar_text a level options flag Ha) as (t & -> & Ht & _).
      exact Ht. }
    assert (Hat : Forall isAtom items).
    { eapply Forall_impl; [ | exact Htok ]. intros s Hs.
      now apply token_facts in Hs. }
    assert (Hval : map _parseValue items = x :: r).
    { unfold items. rewrite map_map. rewrite <- (map_id (x :: r)) at 2.
      apply map_ext_in. intros a Ha. rewrite Forall_forall in Harr.
      destruct (plainScalar_text a level options flag (Harr a Ha))
        as (t & -> & _ & Hp & _).
      exact Hp. }
    assert (Hhead : exists c r0, join ", " items = String c r0
                                 /\ isAtomChar c = true).
    { unfold items. cbn [map].
      inversion Hat as [| ? ? Hx _]; subst.
      destruct (atom_head _ Hx) as (c & t & Hs & _ & Hc).
      fold (map (fun item => fst (_objectToSimple item level options flag)) r).
      destruct (map _ r) as [| y l].
      - exists c, t. now split.
      - rewrite join_cons2, Hs. exists c, (t ++ ", " ++ join ", " (y :: l)).
        now split. }
    destruct Hhead as (c & r0 & Hj & Hc).
    exists (Spec.inlineSequence items). split; [ exact Htext | ].
    unfold Spec.inlineSequence.
    change ("[" ++ join ", " items ++ "]")
      with (String "[" (join ", " items ++ "]")).
    split; [ | split; [ | split; [ | split ] ] ].
    + unfold isPlain. cbn [JS.forallb]. rewrite forallb_app.
      rewrite join_forallb; [ reflexivity | reflexivity | ].
      eapply Forall_impl; [ | exact Htok ]. intros s Hs.
      now apply token_facts in Hs.
    + unfold lacks. cbn [JS.forallb]. rewrite forallb_app.
      rewrite join_forallb; [ reflexivity | reflexivity | ].
      eapply Forall_impl; [ | exact Htok ]. intros s Hs.
      now apply token_facts in Hs.
    + now exists "["%char, (join ", " items ++ "]").
    + change (String "[" (join ", " items ++ "]"))
        with (("[" ++ join ", " items) ++ "]").
      rewrite last_app by discriminate. reflexivity.
    + rewrite Hj. destruct (bracketed_class c r0 Hc) as [Hp Hty].
      cbv zeta in Hp, Hty. rewrite Hty, Hp, <- Hj.
      change (String "[" (join ", " items ++ "]"))
        with (Spec.inlineSequence items).
      now rewrite parseInlineArray_join, Hval.
  - exists "{}". repeat split; try reflexivity. now exists "{"%char, "}".
Qed.

Lemma word_key (k : string) :
  isWord k = true -> arrayIndexOfKey k = None /\ String.eqb k "__proto__" = false.
Proof.
  intros Hk. destruct (word_head k Hk) as (c & r & -> & Hc).
  unfold arrayIndexOfKey. cbn [isEmpty negb JS.forallb andb].
  rewrite (letter_not_digit c Hc). cbn [andb].
  split; [ reflexivity | ].
  destruct c as [[] [] [] [] [] [] [] []]; cbn in Hc; try discriminate Hc;
    reflexivity.
Qed.

(** Assigning a key the object does not have, when the key is a word, adds
    the entry at the end. *)
Lemma objSet_word (k : string) (v : value) (p : prototype value)
    (obj : list (string * value)) :
  isWord k = true -> ~ In k (map fst obj) ->
  objSet k v (VObject p obj) = VObject p (obj ++ [(k, v)]).
Proof.
  intros Hk Hn. destruct (word_key k Hk) as [Hi Hp].
  unfold objSet, setOwn. rewrite Hp, Hi. cbn [andb].
  destruct (hasKey k obj) eqn:E; [ | reflexivity ].
  apply hasKey_In in E. contradiction.
Qed.

Lemma fold_objSet_words (es : list (string * value)) :
  NoDup (map fst es) ->
  Forall (fun e => isWord (fst e) = true) es ->
  forall p obj,
    (forall k, In k (map fst es) -> ~ In k (map fst obj)) ->
    fold_left (fun o e => objSet (fst e) (snd e) o) es (VObject p obj)
    = VObject p (obj ++ es).
Proof.
  induction es as [| [k v] es IH]; intros Hnd Hw p obj Hfresh.
  - cbn. now rewrite app_nil_r.
  - inversion Hnd as [| ? ? Hk Hnd']; subst.
    inversion Hw as [| ? ? Hwk Hw']; subst.
    cbn [fold_left fst snd].
    rewrite objSet_word; [ | exact Hwk | apply Hfresh; now left ].
    rewrite IH; [ now rewrite <- app_assoc | exact Hnd' | exact Hw' | ].
    intros k' Hk'. rewrite map_app, in_app_iff. cbn.
    intros [H | [<- | []]]; [ | contradiction ].
    apply (Hfresh k'); [ now right | exact H ].
Qed.

Lemma blockText_unlines (lines : list string) :
  lines <> [] -> blockText lines = unlines lines ++ str1 LF.
Proof.
  induction lines as [| l r IH]; [ intros H; now contradiction H | intros _ ].
  destruct r as [| l2 r].
  - reflexivity.
  - change (blockText (l :: l2 :: r))
      with (l ++ str1 LF ++ blockText (l2 :: r)).
    rewrite IH by discriminate.
    change (unlines (l :: l2 :: r)) with (l ++ str1 LF ++ unlines (l2 :: r)).
    now rewrite !string_app_assoc.
Qed.

Lemma entriesLoop_flat (options : stringifyOptions) (es : list (string * value)) :
  Forall (fun e => flatValue (snd e)) es ->
  entriesLoop (fun v f => _objectToSimple v 1 options f) EmptyString es true
  = (blockText (map (entryLine options) es), true).
Proof.
  induction 1 as [| [k v] es Hv _ IH]; [ reflexivity | ].
  cbn [entriesLoop map blockText fold_right].
  destruct (flatValue_text v 1 options true Hv) as (t & Ht & _).
  rewrite Ht, IH. unfold entryLine. cbn [fst snd]. rewrite Ht. cbn [fst].
  cbn [append]. now rewrite !string_app_assoc.
Qed.

(** What the line of an entry with a word key and a flat value is. *)
Lemma entryLine_facts (options : stringifyOptions) (e : string * value) :
  isWord (fst e) = true -> flatValue (snd e) ->
  let line := entryLine options e in
  isFlatLine line = true /\ nonBlank line = true /\ trim line = line
  /\ lineEntry line = e.
Proof.
  destruct e as [k v]. cbn [fst snd]. intros Hk Hv. cbv zeta.
  unfold entryLine. cbn [fst snd].
  destruct (flatValue_text v 1 options true Hv)
    as (t & -> & Hpl & Hlf & (c & r & Ht & Hc) & Hlast & Hval).
  cbn [fst].
  destruct (token_facts k (word_token k Hk))
    as ((_ & Hktr & _) & Hkpl & Hklf & Hkcol & _ & (kc & kr & Hks & Hkc) & _).
  assert (Htrim : trim (k ++ ": " ++ t) = k ++ ": " ++ t).
  { apply trim_tight.
    - rewrite Hks. exact Hkc.
    - replace (k ++ ": " ++ t) with ((k ++ ": ") ++ t)
        by (now rewrite string_app_assoc).
      rewrite last_app; [ exact Hlast | ]. rewrite Ht. discriminate. }
  assert (Httr : trim t = t).
  { apply trim_tight; [ rewrite Ht; exact Hc | exact Hlast ]. }
  split; [ | split; [ | split ] ].
  - unfold isFlatLine, isPlain, lacks. rewrite !forallb_app.
    unfold isPlain in Hkpl, Hpl. unfold lacks in Hklf, Hlf.
    rewrite Hkpl, Hpl, Hklf, Hlf. cbn [JS.forallb andb].
    change (k ++ ": " ++ t) with (k ++ String ":" (String " " t)).
    rewrite includes_mid. rewrite Hks. cbn [append]. rewrite Hkc.
    cbn. apply orb_true_r.
  - unfold nonBlank. rewrite Htrim, Hks. reflexivity.
  - exact Htrim.
  - unfold lineEntry. rewrite Htrim.
    change (k ++ ": " ++ t) with (k ++ String ":" (String " " t)).
    rewrite (parseKeyValue_split k (String " " t) tObject Hkcol).
    unfold isTrimmed in Hktr. rewrite Hktr.
    pose proof (trim_allSpace_app " " t eq_refl Httr) as Hsp.
    cbn [append] in Hsp. rewrite Hsp.
    rewrite <- Hval. now destruct (_getValueType t).
Qed.

Lemma fold_left_map {A B C : Type} (f : A -> C -> A) (g : B -> C)
    (l : list B) (a : A) :
  fold_left f (map g l) a = fold_left (fun a x => f a (g x)) l a.
Proof. revert a. induction l as [| x l IH]; intros a; cbn; auto. Qed.

Lemma trimEnd_app_nonempty (a b : string) :
  trimEnd b <> EmptyString -> trimEnd (a ++ b) = a ++ trimEnd b.
Proof.
  intros Hb. induction a as [| c a IH]; [ reflexivity | ].
  cbn [append trimEnd]. rewrite IH.
  destruct (a ++ trimEnd b) eqn:E.
  - destruct a; cbn in E; [ contradiction | discriminate E ].
  - cbn [isEmpty]. now rewrite andb_false_r.
Qed.

Lemma isTrimmed_trimEnd (s : string) : trim s = s -> trimEnd s = s.
Proof.
  intros H. rewrite <- H at 1. unfold trim.
  rewrite trimEnd_idempotent. exact H.
Qed.

Lemma unlines_trimEnd (lines : list string) :
  Forall (fun l => l <> EmptyString /\ trim l = l) lines ->
  trimEnd (unlines lines) = unlines lines.
Proof.
  induction 1 as [| x r [Hn Hx] Hr IH]; [ reflexivity | ].
  destruct r as [| y r]; [ now apply isTrimmed_trimEnd | ].
  change (unlines (x :: y :: r)) with (x ++ String LF (unlines (y :: r))).
  assert (Hy : unlines (y :: r) <> EmptyString).
  { inversion Hr as [| ? ? [Hy _] _]; subst.
    destruct r; [ exact Hy | ].
    destruct y; [ now contradiction Hy | discriminate ]. }
  assert (Ht : trimEnd (String LF (unlines (y :: r)))
               = String LF (unlines (y :: r))).
  { cbn [trimEnd]. rewrite IH.
    destruct (unlines (y :: r)); [ now contradiction Hy | ].
    now rewrite andb_false_r. }
  rewrite trimEnd_app_nonempty; rewrite Ht; [ reflexivity | discriminate ].
Qed.

Lemma unlines_trimmed (lines : list string) :
  Forall (fun l => l <> EmptyString /\ trim l = l) lines ->
  trim (unlines lines) = unlines lines.
Proof.
  intros H. unfold trim. rewrite trimStart_head.
  - now apply unlines_trimEnd.
  - destruct lines as [| x r]; [ exact I | ].
    inversion H as [| ? ? [Hn Hx] _]; subst.
    apply isTrimmed_head in Hx.
    destruct x as [| c t]; [ now contradiction Hn | ].
    destruct r; exact Hx.
Qed.

Lemma trim_blockText (lines : list string) :
  lines <> [] ->
  Forall (fun l => l <> EmptyString /\ trim l = l) lines ->
  trim (blockText lines) = unlines lines.
Proof.
  intros Hne H. rewrite (blockText_unlines lines Hne).
  pose proof (unlines_trimmed lines H) as Ht.
  pose proof (isTrimmed_head _ Ht) as Hh.
  pose proof (isTrimmed_trimEnd _ Ht) as He.
  unfold trim. rewrite trimStart_head.
  - rewrite trimEnd_app_allSpace by reflexivity. exact He.
  - destruct (unlines lines) eqn:E; [ exfalso | exact Hh ].
    destruct lines as [| x r]; [ now apply Hne | ].
    inversion H as [| ? ? [Hx _] _]; subst.
    destruct r; [ now apply Hx | ].
    destruct x; [ now apply Hx | discriminate E ].
Qed.

Lemma roundTrip_block (this : SimpleParser) (entries : list (string * value))
    (sopts : stringifyOptions) (popts : parseOptions) :
  3 < List.length entries ->
  NoDup (map fst entries) ->
  Forall (fun e => isWord (fst e) = true /\ flatValue (snd e)) entries ->
  fst (stringify this (VObject ObjectPrototype entries) sopts)
  = unlines (map (entryLine sopts) entries)
  /\ roundTrip this (VObject ObjectPrototype entries) sopts popts
     = Ok (VObject ObjectPrototype entries).
Proof.
  intros Hlen Hnd Hes.
  assert (Hfacts : Forall (fun e =>
                     let line := entryLine sopts e in
                     isFlatLine line = true /\ nonBlank line = true
                     /\ trim line = line /\ lineEntry line = e) entries).
  { eapply Forall_impl; [ | exact Hes ]. intros e [Hk Hv].
    now apply entryLine_facts. }
  assert (Hne : entries <> []) by (destruct entries; [ cbn in Hlen; lia | discriminate ]).
  assert (Htext : _objectToSimple (VObject ObjectPrototype entries) 0 sopts false
                  = (unlines (map (entryLine sopts) entries), true)).
  { cbn [_objectToSimple]. unfold _shouldInlineObject.
    destruct (Nat.eqb_spec (List.length entries) 0) as [E | _]; [ lia | ].
    destruct (Nat.ltb_spec 3 (List.length entries)) as [_ | E]; [ | lia ].
    unfold _getIndentString. cbn [Nat.mul repeatStr].
    rewrite entriesLoop_flat
      by (eapply Forall_impl; [ | exact Hes ]; now intros e [_ Hv]).
    cbn [append]. f_equal. apply trim_blockText.
    - destruct entries; [ now contradiction Hne | discriminate ].
    - apply Forall_map. eapply Forall_impl; [ | exact Hfacts ].
      cbv zeta. intros e (_ & Hn & Htr & _). split; [ | exact Htr ].
      intros E. rewrite E in Hn. discriminate Hn. }
  unfold roundTrip, stringify. rewrite Htext. cbn [fst].
  split; [ reflexivity | ].
  rewrite parse_flat_lines.
  - f_equal.
    assert (Hfilter : filter nonBlank (map (entryLine sopts) entries)
                      = map (entryLine sopts) entries).
    { apply forallb_filter_id. apply forallb_forall. intros l Hl.
      apply in_map_iff in Hl. destruct Hl as (e & <- & He).
      rewrite Forall_forall in Hfacts. now apply Hfacts. }
    rewrite Hfilter, fold_left_map.
    transitivity (fold_left (fun o e => objSet (fst e) (snd e) o) entries
                            emptyObject).
    + apply fold_left_ext_in. intros o e He.
      rewrite Forall_forall in Hfacts.
      destruct (Hfacts e He) as (_ & _ & _ & ->). reflexivity.
    + unfold emptyObject.
      rewrite fold_objSet_words; [ reflexivity | exact Hnd | | ].
      * eapply Forall_impl; [ | exact Hes ]. now intros e [Hk _].
      * intros k _ [].
  - apply Forall_map. eapply Forall_impl; [ | exact Hfacts ].
    cbv zeta. now intros e (Hf & _).
Qed.

(** X21.  A mapping of more than three entries whose keys are distinct
    words, each a letter followed by letters and digits, and whose values
    are plain scalars, sequences of at most three plain scalars, or the
    empty mapping is written as one line per entry, and [parse] reads that
    text back as the same mapping, with any options and on any instance.
    A plain scalar is [null], a natural number of at most 15 digits, or a
    string that is a word other than [None], [true] and [false]. *)
Lemma roundTrip_block_mapping (this : SimpleParser)
    (entries : list (string * value)) (sopts : stringifyOptions)
    (popts : parseOptions) :
  3 < List.length entries ->
  NoDup (map fst entries) ->
  Forall (fun e => isWord (fst e) = true /\ flatValue (snd e)) entries ->
  fst (stringify this (VObject ObjectPrototype entries) sopts)
  = unlines (map (entryLine sopts) entries)
  /\ roundTrip this (VObject ObjectPrototype entries) sopts popts
     = Ok (VObject ObjectPrototype entries).
Proof. apply roundTrip_block. Qed.

Lemma roundTrip_block_mapping_witness :
  let entries :=
    [("a", VNull); ("b2", VNumber (indexNumber 12)); ("c", VString "x9");
     ("d", VArray [VNumber (indexNumber 1); VString "y"]);
     ("e", emptyObject)] in
  fst (stringify constructor (VObject ObjectPrototype entries)
         defaultStringifyOptions)
  = unlines (map (entryLine defaultStringifyOptions) entries)
  /\ roundTrip constructor (VObject ObjectPrototype entries)
       defaultStringifyOptions defaultParseOptions
     = Ok (VObject ObjectPrototype entries).
Proof.
  apply (roundTrip_block_mapping constructor
           [("a", VNull); ("b2", VNumber (indexNumber 12)); ("c", VString "x9");
            ("d", VArray [VNumber (indexNumber 1); VString "y"]);
            ("e", emptyObject)]
           defaultStringifyOptions defaultParseOptions).
  - cbn. lia.
  - repeat (constructor; [ cbn; intuition discriminate | ]). constructor.
  - repeat (constructor; [ split; [ reflexivity | ] | ]).
    + apply fv_scalar, ps_null.
    + apply fv_scalar, ps_nat. cbn. lia.
    + apply fv_scalar, ps_word; [ reflexivity | discriminate .. ].
    + apply fv_array; [ cbn; lia | ].
      constructor; [ apply ps_nat; cbn; lia | ].
      constructor; [ apply ps_word; [ reflexivity | discriminate .. ] | ].
      constructor.
    + apply fv_empty.
    + constructor.
Defined.

(** X24.  A sequence of at most three plain scalars is written inline,
    and [_parseValue] reads the text back as the same sequence.  A plain
    scalar is [null], a natural number of at most 15 digits, or a string
    that is a word other than [None], [true] and [false]. *)
Lemma inline_sequence_round_trip (arr : list value) (level : nat)
    (options : stringifyOptions) (flag : bool) :
  List.length arr <= 3 -> Forall plainScalar arr ->
  _parseValue (fst (_objectToSimple (VArray arr) level options flag))
  = VArray arr.
Proof.
  intros Hlen Harr.
  destruct (flatValue_text (VArray arr) level options flag
              (fv_array arr Hlen Harr))
    as (t & -> & _ & _ & (c & r & Ht & _) & _ & Hv).
  cbn [fst]. unfold emptyObject in Hv.
  destruct (_getValueType t); try exact Hv. discriminate Hv.
Qed.

Lemma inline_sequence_round_trip_witness :
  let arr := [VNull; VNumber (indexNumber 7); VString "x"] in
  _parseValue (fst (_objectToSimple (VArray arr) 0 defaultStringifyOptions
                      false)) = VArray arr.
Proof.
  apply (inline_sequence_round_trip
           [VNull; VNumber (indexNumber 7); VString "x"] 0
           defaultStringifyOptions false).
  - cbn. lia.
  - constructor; [ apply ps_null | ].
    constructor; [ apply ps_nat; cbn; lia | ].
    constructor; [ apply ps_word; [ reflexivity | discriminate .. ] | ].
    constructor.
Defined.

(** *** The shape of what [parse] returns *)

Lemma mkFinite_finite (m e : Z) : exists m' e', mkFinite m e = Finite m' e'.
Proof.
  unfold mkFinite. destruct e as [| p | p]; eauto.
  destruct (stripZeros (Pos.to_nat p) m (Z.neg p)) as [m' e']. eauto.
Qed.

Lemma digit_not_I (c : ascii) : isDigit c = true -> c <> "I"%char.
Proof. intros H ->. discriminate H. Qed.

Lemma scanDecimal_digit (c : ascii) (t : string) :
  isDigit c = true ->
  exists m e rest, scanDecimal (String c t) = Some (Finite m e, rest).
Proof.
  intros Hc. unfold scanDecimal, startsWith.
  cbn [String.prefix]. destruct (ascii_dec "I" c) as [E | _];
    [ symmetry in E; now apply digit_not_I in E | ].
  cbn [span]. rewrite Hc. destruct (span isDigit t) as [ip r1].
  cbn [isEmpty andb].
  repeat match goal with
         | |- context [ let '(_, _) := ?x in _ ] => destruct x
         | |- context [ match ?x with _ => _ end ] => destruct x
         end;
    match goal with
    | |- exists m e rest, Some (mkFinite ?a ?b, ?r) = _ =>
        destruct (mkFinite_finite a b) as (m' & e' & ->);
        now exists m', e', r
    end.
Qed.

(** A text that [_isNumber] accepts is read as a finite number: the
    fallback of [_parseNumber] is not taken. *)
Lemma parseNumber_guarded (s : string) :
  _isNumber s = true ->
  exists m e, _parseNumber s = Finite m e /\ parseFloat s = Finite m e.
Proof.
  unfold _isNumber. intros H.
  assert (Hs : exists neg c t,
             isDigit c = true
             /\ takeSign (trimStart s) = (neg, String c t)).
  { destruct s as [| a r]; [ discriminate H | ].
    destruct (Ascii.eqb_spec a "-") as [-> | Ha].
    - destruct r as [| c t]; [ discriminate H | ].
      cbn [span] in H. destruct (isDigit c) eqn:Hc; [ | discriminate H ].
      exists true, c, t. now split.
    - assert (E : match String a r with
                  | String "-" r0 => r0
                  | _ => String a r
                  end = String a r).
      { destruct a as [[] [] [] [] [] [] [] []]; try reflexivity.
        now contradiction Ha. }
      rewrite E in H. cbn [span] in H.
      destruct (isDigit a) eqn:Hc; [ | discriminate H ].
      exists false, a, r. split; [ exact Hc | ].
      cbn [trimStart]. rewrite (digit_not_space a Hc).
      destruct a as [[] [] [] [] [] [] [] []]; try reflexivity;
        discriminate Hc. }
  destruct Hs as (neg & c & t & Hc & Ht).
  destruct (scanDecimal_digit c t Hc) as (m & e & rest & Hscan).
  unfold _parseNumber, parseFloat. rewrite Ht, Hscan.
  destruct neg; cbn; eauto.
Qed.

Lemma replaceKey_keys (k : string) (v : value) (es : list (string * value)) :
  map fst (replaceKey k v es) = map fst es.
Proof.
  induction es as [| [k' w] es IH]; [ reflexivity | ]. cbn [replaceKey].
  destruct (String.eqb k' k); cbn; [ reflexivity | now rewrite IH ].
Qed.

Lemma replaceKey_values (P : value -> Prop) (k : string) (v : value)
    (es : list (string * value)) :
  P v -> Forall (fun e => P (snd e)) es ->
  Forall (fun e => P (snd e)) (replaceKey k v es).
Proof.
  intros Hv. induction 1 as [| [k' w] es Hw Hes IH]; [ constructor | ].
  cbn [replaceKey]. destruct (String.eqb k' k); constructor; auto.
Qed.

Lemma insertIndexKey_keys (n : N) (k : string) (v : value)
    (es : list (string * value)) (k' : string) :
  In k' (map fst (insertIndexKey n k v es)) <-> k' = k \/ In k' (map fst es).
Proof.
  induction es as [| [a w] es IH]; cbn [insertIndexKey].
  - cbn. intuition.
  - destruct (arrayIndexOfKey a) as [m |].
    + destruct (N.ltb n m); cbn [map fst In] in *; [ intuition | ].
      rewrite IH. intuition.
    + cbn. intuition.
Qed.

Lemma insertIndexKey_NoDup (n : N) (k : string) (v : value)
    (es : list (string * value)) :
  ~ In k (map fst es) -> NoDup (map fst es) ->
  NoDup (map fst (insertIndexKey n k v es)).
Proof.
  induction es as [| [a w] es IH]; intros Hk Hnd; cbn [insertIndexKey].
  - cbn. constructor; [ tauto | constructor ].
  - destruct (arrayIndexOfKey a) as [m |].
    + destruct (N.ltb n m).
      * cbn [map fst]. now constructor.
      * cbn [map fst] in *. inversion Hnd as [| ? ? Ha Hnd']; subst.
        constructor.
        -- rewrite insertIndexKey_keys. cbn in Hk. intuition.
        -- apply IH; [ cbn in Hk; tauto | exact Hnd' ].
    + cbn [map fst]. now constructor.
Qed.

Lemma insertIndexKey_values (P : value -> Prop) (n : N) (k : string)
    (v : value) (es : list (string * value)) :
  P v -> Forall (fun e => P (snd e)) es ->
  Forall (fun e => P (snd e)) (insertIndexKey n k v es).
Proof.
  intros Hv. induction 1 as [| [a w] es Hw Hes IH]; cbn [insertIndexKey].
  - now repeat constructor.
  - destruct (arrayIndexOfKey a) as [m |].
    + destruct (N.ltb n m); repeat constructor; auto.
    + repeat constructor; auto.
Qed.

Lemma setOwn_NoDup (k : string) (v : value) (es : list (string * value)) :
  NoDup (map fst es) -> NoDup (map fst (setOwn k v es)).
Proof.
  intros Hnd. unfold setOwn. destruct (hasKey k es) eqn:E.
  - now rewrite replaceKey_keys.
  - assert (Hn : ~ In k (map fst es)).
    { intros H. apply hasKey_In in H. congruence. }
    destruct (arrayIndexOfKey k) as [n |].
    + now apply insertIndexKey_NoDup.
    + rewrite map_app. cbn [map fst]. apply NoDup_app.
      * exact Hnd.
      * constructor; [ intros [] | constructor ].
      * intros x Hx [<- | []]. contradiction.
Qed.

Lemma setOwn_values (P : value -> Prop) (k : string) (v : value)
    (es : list (string * value)) :
  P v -> Forall (fun e => P (snd e)) es ->
  Forall (fun e => P (snd e)) (setOwn k v es).
Proof.
  intros Hv Hes. unfold setOwn. destruct (hasKey k es).
  - now apply replaceKey_values.
  - destruct (arrayIndexOfKey k) as [n |].
    + now apply insertIndexKey_values.
    + apply Forall_app. split; [ exact Hes | now repeat constructor ].
Qed.

(** Property assignment keeps the shape, whether it writes an own
    property or installs a prototype. *)
Lemma objSet_parsed (k : string) (v obj : value) :
  parsed v -> parsed obj -> parsed (objSet k v obj).
Proof.
  intros Hv Ho. destruct obj as [| | | | | p es]; try exact Ho.
  inversion Ho as [| | | | ? ? Hnd Hvs Hp]; subst.
  unfold objSet.
  destruct (String.eqb k "__proto__" && reachesAccessor (VObject p es)).
  - destruct v; try exact Ho; constructor; try assumption.
    + intros q E. discriminate E.
    + intros q [= <-]. exact Hv.
    + intros q [= <-]. exact Hv.
  - constructor; [ now apply setOwn_NoDup | now apply setOwn_values | exact Hp ].
Qed.

Lemma parsed_empty : parsed emptyObject.
Proof.
  constructor; [ constructor | constructor | ]. intros q E. discriminate E.
Qed.

Lemma parseInlineArrayWith_parsed (f : string -> value) (s : string) :
  (forall t, parsed (f t)) -> Forall parsed (parseInlineArrayWith f s).
Proof.
  intros Hf. unfold parseInlineArrayWith.
  destruct (isEmpty _); [ constructor | ].
  apply Forall_map, Forall_forall. intros item _. apply Hf.
Qed.

Lemma parseInlineObjectWith_parsed (f : string -> value) (s : string) :
  (forall t, parsed (f t)) -> parsed (parseInlineObjectWith f s).
Proof.
  intros Hf. unfold parseInlineObjectWith.
  destruct (isEmpty _); [ apply parsed_empty | ].
  generalize (_splitByComma
                (trim (JS.substring 1 (String.length s - 1) s))).
  intros pairs. generalize parsed_empty. generalize emptyObject.
  induction pairs as [| pair pairs IH]; intros obj Hobj; [ exact Hobj | ].
  cbn [fold_left]. apply IH.
  destruct (indexOf ":" pair); [ | exact Hobj ].
  apply objSet_parsed; [ apply Hf | exact Hobj ].
Qed.

(** A text that [_isNumber] accepts is not read as [NaN]. *)
Lemma parseNumber_notNaN (s : string) :
  _isNumber s = true -> isNaN (_parseNumber s) = false.
Proof.
  intros H. now destruct (parseNumber_guarded s H) as (m & e & -> & _).
Qed.

Lemma parseValueFuel_parsed (fuel : nat) :
  forall s, parsed (parseValueFuel fuel s).
Proof.
  induction fuel as [| fuel IH]; intros s; rewrite parseValueFuel_eq;
    repeat match goal with
           | |- parsed (if ?b then _ else _) => destruct b eqn:?
           end;
    try apply parsed_empty;
    try (constructor; constructor);
    try (constructor; now apply parseNumber_notNaN).
  - constructor. now apply parseInlineArrayWith_parsed.
  - now apply parseInlineObjectWith_parsed.
Qed.

Lemma parseValue_parsed (s : string) : parsed (_parseValue s).
Proof. apply parseValueFuel_parsed. Qed.

Lemma parseKeyValue_parsed (line : string) (pt : nodeType) key type v :
  _parseKeyValue line pt = Ok (key, (type, v)) -> parsed v.
Proof.
  unfold _parseKeyValue. destruct (indexOf ":" line) as [i |]; [ | discriminate ].
  set (valueStr := trim (substringFrom (i + 1) line)).
  repeat match goal with
         | |- context [ if ?b then _ else _ ] => destruct b eqn:?
         end; intros [= <- <- <-];
    try apply parsed_empty;
    try (constructor; constructor);
    try (constructor; now apply parseNumber_notNaN).
  - constructor. apply parseInlineArrayWith_parsed, parseValue_parsed.
  - apply parseInlineObjectWith_parsed, parseValue_parsed.
Qed.

Lemma pushChild_parsed (c n : astNode) :
  parsedNode c -> parsedNode n -> parsedNode (pushChild c n).
Proof.
  intros Hc Hn. destruct Hn as [cs Hcs | k v t i Hv | k v t i cs Hv Hcs]; cbn.
  - constructor. apply Forall_app. split; [ exact Hcs | now constructor ].
  - constructor; [ exact Hv | now repeat constructor ].
  - constructor; [ exact Hv | ].
    apply Forall_app. split; [ exact Hcs | now constructor ].
Qed.

Lemma popFrames_parsed (below : list frame) :
  forall top indent,
    parsedNode (fnode top) ->
    Forall (fun f => parsedNode (fnode f)) below ->
    parsedNode (fnode (fst (popFrames top below indent)))
    /\ Forall (fun f => parsedNode (fnode f)) (snd (popFrames top below indent)).
Proof.
  induction below as [| next rest IH]; intros top indent Ht Hb.
  - now split.
  - cbn [popFrames]. inversion Hb as [| ? ? Hn Hr]; subst.
    destruct (Z.geb (findent top) indent); [ | now split ].
    apply IH; [ | exact Hr ]. cbn. now apply pushChild_parsed.
Qed.

Lemma processLine_parsed this options line top below top1 below1 :
  parsedNode (fnode top) ->
  Forall (fun f => parsedNode (fnode f)) below ->
  processLine this options line top below = Ok (top1, below1) ->
  parsedNode (fnode top1)
  /\ Forall (fun f => parsedNode (fnode f)) below1.
Proof.
  intros Ht Hb. unfold processLine.
  destruct (isEmpty (trim line)); [ now intros [= <- <-] | ].
  destruct (isCommentLine (trim line)); [ now intros [= <- <-] | ].
  pose proof (popFrames_parsed below top
                (Z.of_nat (_getIndentLevel this line)) Ht Hb) as [Hp Hb'].
  destruct (popFrames top below (Z.of_nat (_getIndentLevel this line)))
    as [parent below'].
  cbn [fst snd] in Hp, Hb'.
  match goal with |- (if ?b then _ else _) = _ -> _ => destruct b end.
  - intros [= <- <-]. split; [ | exact Hb' ]. cbn.
    apply pushChild_parsed; [ | exact Hp ].
    constructor. apply parseValue_parsed.
  - destruct (_parseKeyValue (trim line) (nodeTypeOf (fnode parent)))
      as [[key [type val]] | e] eqn:E; [ | discriminate ].
    apply parseKeyValue_parsed in E.
    destruct (isContainerType type); intros [= <- <-].
    + split; [ cbn; constructor; [ exact E | constructor ] | ].
      now constructor.
    + split; [ | exact Hb' ]. cbn.
      apply pushChild_parsed; [ now constructor | exact Hp ].
Qed.

Lemma closeAll_parsed (below : list frame) :
  forall top,
    parsedNode (fnode top) ->
    Forall (fun f => parsedNode (fnode f)) below ->
    parsedNode (closeAll top below).
Proof.
  induction below as [| next rest IH]; intros top Ht Hb; [ exact Ht | ].
  inversion Hb as [| ? ? Hn Hr]; subst. cbn [closeAll].
  apply IH; [ | exact Hr ]. cbn. now apply pushChild_parsed.
Qed.

Lemma linesLoop_parsed this options (lines : list string) :
  forall top below ast,
    parsedNode (fnode top) ->
    Forall (fun f => parsedNode (fnode f)) below ->
    linesLoop this options lines top below = Ok ast ->
    parsedNode ast.
Proof.
  induction lines as [| line rest IH]; intros top below ast Ht Hb.
  - cbn. intros [= <-]. now apply closeAll_parsed.
  - cbn [linesLoop].
    destruct (processLine this options line top below) as [[t b] | e] eqn:E;
      [ | discriminate ].
    destruct (processLine_parsed _ _ _ _ _ _ _ Ht Hb E) as [Ht' Hb'].
    now apply IH.
Qed.

Lemma nodeValue_parsed (n : astNode) : parsedNode n -> parsed (nodeValue n).
Proof. intros []; cbn; auto. constructor. Qed.

Lemma objectLoop_parsed (materialize : astNode -> result value)
    (cs : list astNode) :
  Forall (fun c => parsedNode c
                   /\ forall v, materialize c = Ok v -> parsed v) cs ->
  forall obj o,
    parsed obj -> objectLoop materialize cs obj = Ok o -> parsed o.
Proof.
  induction 1 as [| c cs [Hc Hm] _ IH]; intros obj o Hobj.
  - cbn. now intros [= <-].
  - cbn [objectLoop]. destruct (isContainerType (nodeTypeOf c)).
    + destruct (materialize c) as [v | e] eqn:E; [ | discriminate ].
      apply IH. apply objSet_parsed; [ now apply Hm | exact Hobj ].
    + apply IH. apply objSet_parsed; [ now apply nodeValue_parsed | exact Hobj ].
Qed.

Lemma Forall_firstn_skipn {A : Type} (P : A -> Prop) (n : nat) :
  forall l, Forall P l -> Forall P (firstn n l) /\ Forall P (skipn n l).
Proof.
  induction n as [| n IH]; intros l Hl; [ split; [ constructor | exact Hl ] | ].
  destruct Hl as [| x l Hx Hl]; [ split; constructor | ].
  destruct (IH l Hl) as [H1 H2]. cbn. split; [ now constructor | exact H2 ].
Qed.

Lemma arraySet_parsed (i : N) (v : value) (a : list (option value)) :
  parsed v ->
  Forall (fun slot => match slot with Some v => parsed v | None => True end) a ->
  Forall (fun slot => match slot with Some v => parsed v | None => True end)
         (arraySet i v a).
Proof.
  intros Hv Ha. unfold arraySet. destruct (N.ltb i 4294967295); [ | exact Ha ].
  destruct (Nat.ltb (N.to_nat i) (List.length a)).
  - apply Forall_app. split.
    + now apply Forall_firstn_skipn.
    + constructor; [ exact Hv | ]. now apply Forall_firstn_skipn.
  - apply Forall_app. split; [ exact Ha | ].
    apply Forall_app. split; [ | now repeat constructor ].
    apply Forall_forall. intros x Hx. apply repeat_spec in Hx. now subst.
Qed.

Lemma arrayWrite_parsed (i : number) (v : value) (a : list (option value)) :
  parsed v ->
  Forall (fun slot => match slot with Some v => parsed v | None => True end) a ->
  Forall (fun slot => match slot with Some v => parsed v | None => True end)
         (arrayWrite i v a).
Proof.
  intros Hv Ha. unfold arrayWrite. destruct (toIndex i); [ | exact Ha ].
  now apply arraySet_parsed.
Qed.

Lemma rangeLoop_parsed (n : nat) (v : value) :
  parsed v ->
  forall i a ex,
    Forall (fun slot => match slot with Some v => parsed v | None => True end) a ->
    Forall (fun slot => match slot with Some v => parsed v | None => True end)
           (fst (rangeLoop n i v a ex)).
Proof.
  intros Hv. induction n as [| n IH]; intros i a ex Ha; [ exact Ha | ].
  cbn [rangeLoop]. apply IH. now apply arrayWrite_parsed.
Qed.

Lemma arrayLoop_parsed (materialize : astNode -> result value)
    (cs : list astNode) :
  Forall (fun c => forall v, materialize c = Ok v -> parsed v) cs ->
  forall st st',
    parsedState st -> arrayLoop materialize cs st = Ok st' ->
    parsedState st'.
Proof.
  induction 1 as [| c cs Hm _ IH]; intros st st' [Ha Hd].
  - cbn. now intros [= <-].
  - cbn [arrayLoop].
    destruct (String.eqb (nodeKey c) "-").
    { destruct (materialize c) as [v | e] eqn:E; [ | discriminate ].
      apply IH. split; cbn; [ exact Ha | ].
      apply Forall_app. split; [ exact Hd | ]. constructor; [ | constructor ].
      now apply Hm. }
    destruct (includes "-" (nodeKey c)).
    { destruct (materialize c) as [v | e] eqn:E; [ | discriminate ].
      unfold rangeAssign.
      destruct (rangeCount _ _) as [n |]; [ | discriminate ].
      destruct (N.leb _ _); [ | discriminate ].
      pose proof (rangeLoop_parsed (N.to_nat n) v (Hm v eq_refl)
                    (nth 0 (map Number (split "-" (nodeKey c))) NaN)
                    (array st) (explicitIndices st) Ha) as Hr.
      destruct (rangeLoop _ _ _ _ _) as [a ex]. cbn [fst] in Hr.
      apply IH. now split. }
    destruct (negb (isNaN (parseInt (nodeKey c)))).
    { destruct (materialize c) as [v | e] eqn:E; [ | discriminate ].
      destruct (N.ltb _ _); [ | discriminate ].
      apply IH. split; cbn; [ | exact Hd ].
      apply arrayWrite_parsed; [ now apply Hm | exact Ha ]. }
    apply IH. now split.
Qed.

Lemma fillDashes_parsed (dashes : list value) :
  Forall parsed dashes ->
  forall ex c a,
    Forall (fun slot => match slot with Some v => parsed v | None => True end) a ->
    Forall (fun slot => match slot with Some v => parsed v | None => True end)
           (fillDashes dashes ex c a).
Proof.
  induction 1 as [| d ds Hd _ IH]; intros ex c a Ha; [ exact Ha | ].
  cbn [fillDashes]. apply IH. now apply arraySet_parsed.
Qed.

Lemma fillHoles_parsed (a : list (option value)) :
  Forall (fun slot => match slot with Some v => parsed v | None => True end) a ->
  Forall parsed (fillHoles a).
Proof.
  intros H. unfold fillHoles. apply Forall_map.
  eapply Forall_impl; [ | exact H ].
  intros [v |]; [ auto | now constructor ].
Qed.

Lemma finishArray_parsed (val : value) (st : arrayState) :
  parsed val -> parsedState st -> parsed (finishArray val st).
Proof.
  intros Hv [Ha Hd]. unfold finishArray.
  match goal with |- parsed (if ?b then _ else _) => destruct b end;
    [ exact Hv | ].
  constructor. apply fillHoles_parsed. now apply fillDashes_parsed.
Qed.

Lemma astToObject_parsed (n : astNode) :
  parsedNode n -> forall v, _astToObject n = Ok v -> parsed v.
Proof.
  induction n as [cs IH | k val t i cs IH] using astNode_ind'; intros Hn v.
  - inversion Hn as [? Hcs | |]; subst. cbn [_astToObject].
    apply (objectLoop_parsed (fun c => _astToObject c) cs);
      [ | apply parsed_empty ].
    rewrite Forall_forall in *. intros c Hc. split; [ now apply Hcs | ].
    apply IH; [ exact Hc | now apply Hcs ].
  - assert (Hval : parsed val) by now inversion Hn.
    assert (Hcs : match cs with
                  | Some l => Forall (fun c => parsedNode c
                                 /\ forall v, _astToObject c = Ok v -> parsed v) l
                  | None => True
                  end).
    { destruct cs as [l |]; [ | exact I ].
      inversion Hn as [| | ? ? ? ? ? _ Hl]; subst.
      rewrite Forall_forall in *. intros c Hc. split; [ now apply Hl | ].
      apply IH; [ exact Hc | now apply Hl ]. }
    cbn [_astToObject]. destruct t; try (now intros [= <-]).
    + destruct cs as [l |].
      * apply (objectLoop_parsed (fun c => _astToObject c) l Hcs).
        apply parsed_empty.
      * intros [= <-]. apply parsed_empty.
    + destruct cs as [l |].
      * destruct (arrayLoop _ l emptyArrayState) as [st |] eqn:E;
          [ | discriminate ].
        intros [= <-]. apply finishArray_parsed; [ exact Hval | ].
        apply (arrayLoop_parsed (fun c => _astToObject c) l)
          with (st := emptyArrayState);
          [ | now split; constructor | exact E ].
        eapply Forall_impl; [ | exact Hcs ]. now intros c [_ Hc].
      * destruct (truthy val); intros [= <-]; [ exact Hval | ].
        apply finishArray_parsed; [ exact Hval | now split; constructor ].
Qed.

Lemma parse_parsed (this : SimpleParser) (text : string)
    (options : parseOptions) (v : value) :
  fst (parse this text options) = Ok v -> parsed v.
Proof.
  unfold parse, _linesToAst.
  destruct (linesLoop _ options _ _ []) as [ast | e] eqn:E;
    cbn [fst]; [ | discriminate ].
  apply astToObject_parsed.
  eapply linesLoop_parsed; [ | | exact E ]; cbn; repeat constructor.
Qed.

(** X16.  On a text that [_isNumber] accepts, [parseFloat] does not give
    [NaN]: [_parseNumber] returns what [parseFloat] gives and never takes
    its fallback to 0 on the texts the parser gives it. *)
Lemma parseNumber_no_fallback (s : string) :
  _isNumber s = true ->
  isNaN (parseFloat s) = false /\ _parseNumber s = parseFloat s.
Proof.
  intros H. destruct (parseNumber_guarded s H) as (m & e & -> & ->).
  now split.
Qed.

Lemma parseNumber_no_fallback_witness :
  _isNumber "-12.50" = true
  /\ isNaN (parseFloat "-12.50") = false
  /\ _parseNumber "-12.50" = parseFloat "-12.50".
Proof.
  split; [ reflexivity | ].
  apply (parseNumber_no_fallback "-12.50"). reflexivity.
Defined.

(** X23.  Whatever [parse] returns holds no boolean and no [NaN], neither
    in the entries of a mapping, nor in the elements of a sequence, nor in
    a value that a line with the key [__proto__] installed as a
    prototype. *)
Lemma parse_result_shape (this : SimpleParser) (text : string)
    (options : parseOptions) (v : value) :
  fst (parse this text options) = Ok v -> parsed v.
Proof. apply parse_parsed. Qed.

Lemma parse_result_shape_witness :
  let v := VObject (ValuePrototype (VArray [VString "true"]))
             [("a", VArray [VNumber (Finite 1 0);
                            VObject ObjectPrototype
                              [("x", VNumber (Finite 2 0))]])] in
  fst (parse constructor
         (unlines ["a: [1, {x: 1, x: 2}]"; "__proto__: [true]"])
         defaultParseOptions) = Ok v
  /\ parsed v.
Proof.
  split; [ reflexivity | ].
  apply (parse_result_shape constructor
           (unlines ["a: [1, {x: 1, x: 2}]"; "__proto__: [true]"])
           defaultParseOptions).
  reflexivity.
Defined.

(** *** Scalars through the serializer and back *)

Lemma parseString_escaped (s : string) : _parseString (_escapeString s) = s.
Proof.
  induction s as [| c r IH]; [ reflexivity | ].
  cbn [_escapeString].
  destruct (Ascii.eqb_spec c LF) as [-> | H1]; [ cbn; now f_equal | ].
  destruct (Ascii.eqb_spec c TAB) as [-> | H2]; [ cbn; now f_equal | ].
  destruct (Ascii.eqb_spec c BACKSLASH) as [-> | H3]; [ cbn; now f_equal | ].
  destruct (Ascii.eqb_spec c DQUOTE) as [-> | H4]; [ cbn; now f_equal | ].
  cbn [str1 append _parseString].
  destruct (Ascii.eqb_spec c BACKSLASH) as [E | _]; [ contradiction | ].
  now f_equal.
Qed.

(** A text in double quotes is read as a string, whatever it holds. *)
Lemma parseValue_quoted (t : string) :
  _parseValue (Spec.quoted t) = VString (_parseString t)
  /\ _getValueType (Spec.quoted t) = tString.
Proof.
  rewrite parseValue_eq. unfold _getValueType, Spec.quoted.
  change (str1 DQUOTE ++ t ++ str1 DQUOTE)
    with (String DQUOTE (t ++ str1 DQUOTE)).
  assert (H1 : String.eqb (String DQUOTE (t ++ str1 DQUOTE)) "None" = false)
    by reflexivity.
  assert (H2 : String.eqb (String DQUOTE (t ++ str1 DQUOTE)) "{}" = false)
    by reflexivity.
  assert (H3 : String.eqb (String DQUOTE (t ++ str1 DQUOTE)) "[]" = false)
    by reflexivity.
  assert (H4 : _isNumber (String DQUOTE (t ++ str1 DQUOTE)) = false)
    by reflexivity.
  assert (H5 : isQuoted (String DQUOTE (t ++ str1 DQUOTE)) = true).
  { unfold isQuoted, startsWith. unfold str1 at 1.
    rewrite prefix_str1, Ascii.eqb_refl.
    change (String DQUOTE (t ++ str1 DQUOTE))
      with ((str1 DQUOTE ++ t) ++ str1 DQUOTE).
    now rewrite endsWith_app. }
  rewrite H1, H2, H3, H4, H5, substring_inner. now split.
Qed.

Lemma digits_lack_char (c : ascii) (s : string) :
  isDigit c = false -> JS.forallb isDigit s = true ->
  includes (String c EmptyString) s = false.
Proof.
  intros Hc. induction s as [| d s IH]; [ reflexivity | ].
  cbn [JS.forallb]. intros H. apply andb_true_iff in H. destruct H as [Hd Hs].
  rewrite includes_cons, (IH Hs), orb_false_r.
  destruct (Ascii.eqb_spec c d) as [<- | _]; [ congruence | reflexivity ].
Qed.

Lemma scanDecimal_natToString (n : nat) :
  scanDecimal (natToString n) = Some (indexNumber n, EmptyString).
Proof.
  pose proof (natToString_digits n) as Hd.
  unfold scanDecimal.
  rewrite (digits_not_Infinity _ Hd), (digits_span _ Hd).
  pose proof (natToString_nonempty n) as Hn.
  destruct (natToString n) as [| c r] eqn:E; [ discriminate Hn | ].
  cbn -[digitsToN]. rewrite string_app_nil_r, <- E, natToString_value.
  unfold indexNumber. now rewrite nat_N_Z.
Qed.

Lemma last_cons (c : ascii) (s : string) :
  s <> EmptyString -> JS.last (String c s) = JS.last s.
Proof. destruct s; [ intros H; now contradiction H | reflexivity ]. Qed.

(** The text of a minus sign and digits, as a string value and as a text
    to read. *)
Lemma minus_digits (n : nat) :
  let s := String "-" (natToString n) in
  _needsQuotes s = false /\ _escapeString s = s
  /\ _parseValue s = VNumber (Finite (- Z.of_nat n) 0).
Proof.
  cbv zeta.
  pose proof (natToString_digits n) as Hd.
  pose proof (natToString_nonempty n) as Hn.
  split; [ | split ].
  - unfold _needsQuotes. cbn [head isDigit].
    change (match Some "-"%char with Some c => isDigit c | None => false end)
      with false. cbv iota.
    change (String.eqb (String "-" (natToString n)) "None") with false.
    change (String.eqb (String "-" (natToString n)) "true") with false.
    change (String.eqb (String "-" (natToString n)) "false") with false.
    cbn [orb]. rewrite !includes_cons.
    rewrite !digits_lack_char by (reflexivity || exact Hd).
    cbn [Ascii.eqb Bool.eqb andb orb isSpace].
    rewrite last_cons by (intros E; rewrite E in Hn; discriminate Hn).
    pose proof (token_last (natToString n)) as Hl.
    destruct (JS.last (natToString n)) as [c |]; [ | reflexivity ].
    rewrite Hl; [ reflexivity | ].
    eapply forallb_impl; [ | exact Hd ]. cbn. intros d ->. apply orb_true_r.
  - cbn [_escapeString]. cbn [Ascii.eqb Bool.eqb andb append str1].
    cbn -[_escapeString natToString].
    rewrite escapeString_token; [ reflexivity | ].
    eapply forallb_impl; [ | exact Hd ]. cbn. intros d ->. apply orb_true_r.
  - rewrite parseValue_eq.
    change (String.eqb (String "-" (natToString n)) "None") with false.
    change (String.eqb (String "-" (natToString n)) "{}") with false.
    change (String.eqb (String "-" (natToString n)) "[]") with false.
    cbv iota.
    assert (Hnum : _isNumber (String "-" (natToString n)) = true).
    { unfold _isNumber. rewrite (digits_span _ Hd).
      destruct (natToString n); [ discriminate Hn | reflexivity ]. }
    rewrite Hnum. unfold _parseNumber, parseFloat.
    cbn [trimStart]. change (isSpace "-") with false. cbv iota.
    cbn [takeSign]. rewrite scanDecimal_natToString. reflexivity.
Qed.

(** How a text in braces is classified. *)
Lemma braced_type (body : string) :
  _getValueType (String "{" (body ++ "}")) = tObject.
Proof.
  unfold _getValueType.
  change (String.eqb (String "{" (body ++ "}")) "None") with false.
  cbv iota. destruct (String.eqb (String "{" (body ++ "}")) "{}");
    [ reflexivity | ].
  change (String.eqb (String "{" (body ++ "}")) "[]") with false.
  change (_isNumber (String "{" (body ++ "}"))) with false.
  change (isQuoted (String "{" (body ++ "}"))) with false.
  change (isBracketed (String "{" (body ++ "}")))
    with (false && endsWith "]" (String "{" (body ++ "}"))).
  cbv iota. cbn [andb].
  assert (H : isBraced (String "{" (body ++ "}")) = true).
  { unfold isBraced, startsWith. rewrite prefix_str1. cbn [Ascii.eqb Bool.eqb andb].
    change (String "{" (body ++ "}")) with (("{" ++ body) ++ "}").
    apply endsWith_app. }
  now rewrite H.
Qed.

Lemma inline_mapping_line (this : SimpleParser) (key body : string)
    (options : parseOptions) :
  isWord key = true -> isPlain body = true -> lacks LF body = true ->
  fst (parse this (key ++ ": {" ++ body ++ "}") options)
  = Ok (VObject ObjectPrototype [(key, emptyObject)]).
Proof.
  intros Hk Hb Hl.
  set (line := key ++ ": {" ++ body ++ "}").
  destruct (token_facts key (word_token key Hk))
    as ((_ & Hktr & _) & Hkpl & Hklf & Hkcol & _ & (kc & kr & Hks & Hkc) & _).
  assert (Htr : trim line = line).
  { apply trim_tight.
    - unfold line. rewrite Hks. exact Hkc.
    - unfold line.
      replace (key ++ ": {" ++ body ++ "}")
        with ((key ++ ": {" ++ body) ++ "}")
        by (now rewrite !string_app_assoc).
      rewrite last_app by discriminate. reflexivity. }
  assert (Hflat : isFlatLine line = true).
  { unfold isFlatLine, isPlain, lacks, line. rewrite !forallb_app.
    unfold isPlain in Hkpl, Hb. unfold lacks in Hklf, Hl.
    rewrite Hkpl, Hb, Hklf, Hl. cbn [JS.forallb andb].
    change (key ++ ": {" ++ body ++ "}")
      with (key ++ String ":" (" {" ++ body ++ "}")).
    rewrite includes_mid. rewrite Hks. cbn [append]. rewrite Hkc.
    cbn. apply orb_true_r. }
  assert (Hnb : nonBlank line = true).
  { unfold nonBlank. rewrite Htr. unfold line. rewrite Hks. reflexivity. }
  assert (Hentry : lineEntry line = (key, emptyObject)).
  { unfold lineEntry. rewrite Htr. unfold line.
    change (key ++ ": {" ++ body ++ "}")
      with (key ++ String ":" (String " " (String "{" (body ++ "}")))).
    rewrite (parseKeyValue_split key _ tObject Hkcol).
    unfold isTrimmed in Hktr. rewrite Hktr.
    assert (Ht : trim (String " " (String "{" (body ++ "}")))
                 = String "{" (body ++ "}")).
    { unfold trim. cbn [trimStart isSpace Ascii.eqb Bool.eqb orb]. cbv iota.
      apply trimEnd_last.
      change (String "{" (body ++ "}")) with (("{" ++ body) ++ "}").
      rewrite last_app by discriminate. reflexivity. }
    rewrite Ht, braced_type. reflexivity. }
  pose proof (parse_flat_lines this [line] options
                (Forall_cons _ Hflat (Forall_nil _))) as H.
  change (unlines [line]) with line in H. rewrite H.
  cbn [filter]. rewrite Hnb. cbn [fold_left]. rewrite Hentry. cbn [fst snd].
  pose proof (objSet_word key emptyObject ObjectPrototype [] Hk
                (fun H => H)) as Hs.
  change (VObject ObjectPrototype []) with emptyObject in Hs.
  now rewrite Hs.
Qed.

(** X18.  A string that the serializer writes between double quotes is
    read back as the same string by [_parseValue], whatever it holds:
    digits, [None], brackets, quotes or backslashes. *)
Lemma quoted_string_round_trip (s : string) (level : nat)
    (options : stringifyOptions) (flag : bool) :
  _needsQuotes s = true ->
  _parseValue (fst (_objectToSimple (VString s) level options flag))
  = VString s.
Proof.
  intros H. cbn [_objectToSimple]. rewrite H. cbn [fst].
  change (str1 DQUOTE ++ _escapeString s ++ str1 DQUOTE)
    with (Spec.quoted (_escapeString s)).
  destruct (parseValue_quoted (_escapeString s)) as [-> _].
  now rewrite parseString_escaped.
Qed.

Lemma quoted_string_round_trip_witness :
  _needsQuotes "[1, 2]" = true
  /\ _parseValue (fst (_objectToSimple (VString "[1, 2]") 0
                         defaultStringifyOptions false))
     = VString "[1, 2]".
Proof.
  split; [ reflexivity | ].
  apply (quoted_string_round_trip "[1, 2]" 0 defaultStringifyOptions false).
  reflexivity.
Defined.

(** X19.  A string made of a minus sign and at most 15 digits is
    written without quotes, and [_parseValue] reads that text as a
    negative number: such a string does not come back from the serializer
    as a string. *)
Lemma negative_numeral_string_misread (n level : nat)
    (options : stringifyOptions) (flag : bool) :
  String.length (natToString n) <= 15 ->
  let s := String "-" (natToString n) in
  fst (_objectToSimple (VString s) level options flag) = s
  /\ _parseValue s = VNumber (Finite (- Z.of_nat n) 0)
  /\ _parseValue s <> VString s.
Proof.
  intros _. cbv zeta. destruct (minus_digits n) as (Hq & He & Hp).
  cbv zeta in *.
  cbn [_objectToSimple]. rewrite Hq, He, Hp. cbn [fst].
  repeat split. discriminate.
Qed.

Lemma negative_numeral_string_misread_witness :
  fst (_objectToSimple (VString "-12") 0 defaultStringifyOptions false)
  = "-12"
  /\ _parseValue "-12" = VNumber (Finite (-12) 0)
  /\ _parseValue "-12" <> VString "-12".
Proof.
  apply (negative_numeral_string_misread 12 0 defaultStringifyOptions false).
  cbn. lia.
Defined.

(** X22.  A key/value line whose value is written in braces gives the
    key the empty mapping: whatever stands between the braces is
    dropped. *)
Lemma inline_mapping_value_lost (this : SimpleParser) (key body : string)
    (options : parseOptions) :
  isWord key = true -> isPlain body = true -> lacks LF body = true ->
  fst (parse this (key ++ ": {" ++ body ++ "}") options)
  = Ok (VObject ObjectPrototype [(key, emptyObject)]).
Proof. apply inline_mapping_line. Qed.

Lemma inline_mapping_value_lost_witness :
  fst (parse constructor ("a" ++ ": {" ++ "b: 1, c: 2" ++ "}")
         defaultParseOptions)
  = Ok (VObject ObjectPrototype [("a", emptyObject)]).
Proof.
  apply (inline_mapping_value_lost constructor "a" "b: 1, c: 2"
           defaultParseOptions); reflexivity.
Defined.

(** *** [_isEqual] on plain data *)

Lemma Forall2_refl_under {X : Type} (R : X -> X -> Prop) (l : list X) :
  Forall (fun x => R x x) l -> Forall2 R l l.
Proof. induction 1; constructor; auto. Qed.

Lemma numEq_refl (n : number) : isNaN n = false -> numEq n n = true.
Proof.
  destruct n as [| s | m e]; cbn [isNaN]; [ discriminate | | ]; intros _.
  - apply Bool.eqb_reflx.
  - now apply numEq_Finite.
Qed.

Lemma deepEqual_refl (v : value) : nanFree v = true -> Spec.deepEqual v v.
Proof.
  induction v as [| n | b | s | items IH | p entries _ IH] using value_ind';
    cbn [nanFree]; intros H.
  - constructor.
  - constructor. apply numEq_refl. now apply negb_true_iff.
  - constructor.
  - constructor.
  - constructor. apply Forall2_refl_under.
    rewrite List.forallb_forall in H. rewrite Forall_forall in *. auto.
  - constructor; [ tauto | ].
    intros k va vb Ha Hb. rewrite Ha in Hb. injection Hb as <-.
    apply lookup_In in Ha. rewrite List.forallb_forall in H.
    rewrite Forall_forall in IH. apply (IH (k, va) Ha). apply (H (k, va) Ha).
Qed.

Lemma isEqual_refl (a : value) :
  plainValue a -> nanFree a = true -> _isEqual a a = true.
Proof.
  intros [Wa Pa] Hn. apply isEqual_spec; try assumption.
  now apply deepEqual_refl.
Qed.

Lemma isEqual_sym (a b : value) :
  plainValue a -> plainValue b -> _isEqual a b = _isEqual b a.
Proof.
  intros [Wa Pa] [Wb Pb].
  destruct (_isEqual a b) eqn:E1, (_isEqual b a) eqn:E2; try reflexivity.
  - apply isEqual_spec in E1; try assumption.
    apply deepEqual_sym in E1.
    apply isEqual_spec in E1; try assumption. congruence.
  - apply isEqual_spec in E2; try assumption.
    apply deepEqual_sym in E2.
    apply isEqual_spec in E2; try assumption. congruence.
Qed.

Lemma isEqual_trans (a b c : value) :
  plainValue a -> plainValue b -> plainValue c ->
  _isEqual a b = true -> _isEqual b c = true -> _isEqual a c = true.
Proof.
  intros [Wa Pa] [Wb Pb] [Wc Pc] H1 H2.
  apply isEqual_spec in H1; try assumption.
  apply isEqual_spec in H2; try assumption.
  apply isEqual_spec; try assumption.
  eapply deepEqual_trans; eassumption.
Qed.

Lemma isEqual_entries (ea eb : list (string * value)) :
  plainValue (VObject ObjectPrototype ea) ->
  plainValue (VObject ObjectPrototype eb) ->
  nanFree (VObject ObjectPrototype ea) = true ->
  (forall k v, In (k, v) ea <-> In (k, v) eb) ->
  _isEqual (VObject ObjectPrototype ea) (VObject ObjectPrototype eb) = true.
Proof.
  intros [Wa Pa] [Wb Pb] Hn Hsame.
  apply isEqual_spec; try assumption.
  inversion Wa as [| | | | | ? ? Hnda _]; subst.
  inversion Wb as [| | | | | ? ? Hndb _]; subst.
  constructor.
  - intros k. rewrite !lookup_keys. split; intros [v Hv].
    + exists v. apply In_lookup; [ exact Hndb | ].
      apply Hsame. now apply lookup_In.
    + exists v. apply In_lookup; [ exact Hnda | ].
      apply Hsame. now apply lookup_In.
  - intros k va vb H1 H2.
    apply lookup_In in H1. pose proof H1 as H1'. apply Hsame in H1.
    apply (In_lookup _ _ _ Hndb) in H1. rewrite H1 in H2. injection H2 as <-.
    apply deepEqual_refl. cbn [nanFree] in Hn.
    rewrite List.forallb_forall in Hn. exact (Hn _ H1').
Qed.

(** X25.  On plain data, that is values in which every mapping has the
    prototype [Object.prototype], no own key [__proto__] and no key
    twice, [_isEqual] is symmetric and transitive; it is reflexive where
    there is no [NaN], and two mappings with the same entries are equal
    whatever the order of their keys.  On [NaN] it is not reflexive.
    Beyond plain data it is not symmetric: a mapping with the one key [x]
    equals a mapping that has another key and inherits [x], and not the
    other way round. *)
Lemma isEqual_equivalence :
  (forall a, plainValue a -> nanFree a = true -> _isEqual a a = true)
  /\ (forall a b, plainValue a -> plainValue b ->
                  _isEqual a b = _isEqual b a)
  /\ (forall a b c, plainValue a -> plainValue b -> plainValue c ->
                    _isEqual a b = true -> _isEqual b c = true ->
                    _isEqual a c = true)
  /\ (forall ea eb,
         plainValue (VObject ObjectPrototype ea) ->
         plainValue (VObject ObjectPrototype eb) ->
         nanFree (VObject ObjectPrototype ea) = true ->
         (forall k v, In (k, v) ea <-> In (k, v) eb) ->
         _isEqual (VObject ObjectPrototype ea) (VObject ObjectPrototype eb)
         = true)
  /\ _isEqual (VNumber NaN) (VNumber NaN) = false
  /\ (let a := VObject ObjectPrototype [("x", VNumber (Finite 1 0))] in
      let b := VObject (ValuePrototype a) [("y", VNumber (Finite 2 0))] in
      _isEqual a b = true /\ _isEqual b a = false).
Proof.
  split; [ | split; [ | split; [ | split; [ | split; [ reflexivity | ] ] ] ] ].
  - apply isEqual_refl.
  - apply isEqual_sym.
  - apply isEqual_trans.
  - apply isEqual_entries.
  - cbv zeta. split; reflexivity.
Qed.

Lemma isEqual_equivalence_witness :
  let a := VObject ObjectPrototype
             [("a", VNumber (Finite 1 0)); ("b", VNull)] in
  let b := VObject ObjectPrototype
             [("b", VNull); ("a", VNumber (Finite 10 (-1)))] in
  plainValue a /\ plainValue b /\ _isEqual a b = _isEqual b a.
Proof.
  assert (Ha : plainValue (VObject ObjectPrototype
                             [("a", VNumber (Finite 1 0)); ("b", VNull)])).
  { split; [ | reflexivity ]. constructor.
    - repeat (constructor; [ cbn; intuition discriminate | ]). constructor.
    - repeat constructor. }
  assert (Hb : plainValue (VObject ObjectPrototype
                             [("b", VNull); ("a", VNumber (Finite 10 (-1)))])).
  { split; [ | reflexivity ]. constructor.
    - repeat (constructor; [ cbn; intuition discriminate | ]). constructor.
    - repeat constructor. }
  split; [ exact Ha | split; [ exact Hb | ] ].
  exact (proj1 (proj2 isEqual_equivalence) _ _ Ha Hb).
Defined.

(** *** The indentation style *)

Lemma detectLoop_first (before : list string) (line : string)
    (after : list string) (this : SimpleParser) (ws rest : string) :
  noIndentedLine before ->
  isEmpty (trim line) || isCommentLine (trim line) = false ->
  span isSpace line = (ws, rest) -> ws <> EmptyString ->
  detectLoop (before ++ line :: after) this
  = {| indentType := Some (if includes (str1 TAB) ws then tab else space);
       indentSize := Some (if includes (str1 TAB) ws then 1
                           else String.length ws);
       outerParsed := outerParsed this |}.
Proof.
  intros Hb Hl Hs Hw. induction Hb as [| l r Hlr _ IH].
  - cbn [app detectLoop]. rewrite Hl, Hs.
    destruct ws as [| c w]; [ now contradiction Hw | ].
    cbn [isEmpty negb]. now destruct (includes (str1 TAB) (String c w)).
  - cbn [app detectLoop]. destruct Hlr as [-> | Hlr]; [ exact IH | ].
    destruct (isEmpty (trim l) || isCommentLine (trim l)); [ exact IH | ].
    destruct (span isSpace l) as [sp r0]. cbn in Hlr. subst sp. exact IH.
Qed.

Lemma detectLoop_ready (lines : list string) (this : SimpleParser) :
  styleFresh this -> styleFresh (detectLoop lines this)
  /\ (indentType (detectLoop lines this) = None -> indentType this = None).
Proof.
  intros Hf. induction lines as [| line rest IH]; [ now split | ].
  cbn [detectLoop].
  destruct (isEmpty (trim line) || isCommentLine (trim line)); [ exact IH | ].
  destruct (span isSpace line) as [ws r].
  destruct ws as [| c w]; [ exact IH | ]. cbn [isEmpty negb].
  destruct (includes (str1 TAB) (String c w)); cbn.
  - split; [ right; split; [ discriminate | now exists 0 ] | discriminate ].
  - split; [ right; split; [ discriminate | ] | discriminate ].
    exists (String.length w). reflexivity.
Qed.

Lemma detectIndentType_ready (lines : list string) (this : SimpleParser) :
  styleFresh this -> styleReady (_detectIndentType lines this).
Proof.
  intros Hf. unfold _detectIndentType.
  destruct (detectLoop_ready lines this Hf) as [[Hn | Hr] _].
  - rewrite Hn. split; [ discriminate | now exists 1 ].
  - destruct (indentType (detectLoop lines this)) eqn:E; [ exact Hr | ].
    destruct Hr as [Hr _]. congruence.
Qed.

(** X26.  The first line with leading whitespace that is neither blank
    nor a comment decides the style, whatever the instance held before:
    tab with size 1 when the whitespace holds a tab, space with the length
    of the whitespace otherwise.  After [_detectIndentType], and so after
    every [parse], the kind is set and the size is a positive number, so
    [_getIndentLevel] never divides by [null] or by zero. *)
Lemma detectIndentType_style :
  (forall before line after this ws rest,
      noIndentedLine before ->
      isEmpty (trim line) || isCommentLine (trim line) = false ->
      span isSpace line = (ws, rest) -> ws <> EmptyString ->
      _detectIndentType (before ++ line :: after) this
      = {| indentType := Some (if includes (str1 TAB) ws then tab else space);
           indentSize := Some (if includes (str1 TAB) ws then 1
                               else String.length ws);
           outerParsed := outerParsed this |})
  /\ (forall lines this,
         styleFresh this -> styleReady (_detectIndentType lines this))
  /\ (forall this text options,
         styleFresh this -> styleReady (snd (parse this text options))).
Proof.
  split; [ | split ].
  - intros before line after this ws rest Hb Hl Hs Hw.
    unfold _detectIndentType.
    rewrite (detectLoop_first before line after this ws rest Hb Hl Hs Hw).
    reflexivity.
  - apply detectIndentType_ready.
  - intros this text options Hf. unfold parse, _linesToAst.
    destruct (linesLoop _ options _ _ []); cbn [snd];
      now apply detectIndentType_ready.
Qed.

Lemma detectIndentType_style_witness :
  let this := {| indentType := Some tab; indentSize := Some 1;
                 outerParsed := true |} in
  _detectIndentType (["a: []"] ++ "   0: 1" :: ["      1: 2"]) this
  = {| indentType := Some space; indentSize := Some 3; outerParsed := true |}.
Proof.
  apply (proj1 detectIndentType_style ["a: []"] "   0: 1" ["      1: 2"]
           {| indentType := Some tab; indentSize := Some 1;
              outerParsed := true |} "   " "0: 1").
  - constructor; [ now right | constructor ].
  - reflexivity.
  - reflexivity.
  - discriminate.
Defined.

(** *** Inline mappings *)

Lemma join_nonempty (sep x : string) (r : list string) :
  x <> EmptyString -> isEmpty (join sep (x :: r)) = false.
Proof.
  intros Hx. destruct x as [| c t]; [ now contradiction Hx | ].
  destruct r; reflexivity.
Qed.

Lemma parseInlineObject_join (kvs : list (string * string)) :
  Forall (fun kv => isToken (fst kv) = true /\ isAtom (snd kv)) kvs ->
  _parseInlineObject
    (Spec.inlineMapping (map (fun kv => fst kv ++ ": " ++ snd kv) kvs))
  = fold_left (fun o kv => objSet (fst kv) (_parseValue (snd kv)) o) kvs
      emptyObject.
Proof.
  intros H.
  set (pairs := map (fun kv => fst kv ++ ": " ++ snd kv) kvs).
  assert (Hat : Forall isAtom pairs).
  { unfold pairs. apply Forall_map. eapply Forall_impl; [ | exact H ].
    intros [k t] [Hk (Hn & Htr & Hch)]. cbn [fst snd] in *.
    destruct (token_facts k Hk)
      as ((_ & _ & Hkch) & _ & _ & _ & _ & (c & r & -> & Hc) & _).
    split; [ discriminate | split ].
    - apply trim_tight; [ exact Hc | ].
      replace (String c r ++ ": " ++ t) with ((String c r ++ ": ") ++ t)
        by (now rewrite string_app_assoc).
      rewrite last_app by exact Hn. now apply isTrimmed_last.
    - rewrite !forallb_app, Hkch, Hch. reflexivity. }
  unfold _parseInlineObject, parseInlineObjectWith, Spec.inlineMapping.
  change ("{" ++ join ", " pairs ++ "}")
    with (String "{" (join ", " pairs ++ str1 "}")).
  rewrite substring_inner. cbv zeta.
  pose proof (join_atoms_trimmed pairs Hat) as Ht. unfold isTrimmed in Ht.
  rewrite !Ht.
  destruct kvs as [| kv kvs]; [ reflexivity | ].
  assert (Hne : isEmpty (join ", " pairs) = false).
  { unfold pairs in *. cbn [map] in *. apply join_nonempty.
    inversion Hat as [| ? ? (Hx & _) _]. exact Hx. }
  rewrite Hne. unfold _splitByComma.
  rewrite (splitByCommaFrom_join pairs Hat None EmptyString eq_refl).
  unfold pairs. rewrite fold_left_map.
  apply fold_left_ext_in. intros o [k t] Hin. cbn [fst snd].
  rewrite Forall_forall in H. destruct (H _ Hin) as [Hk (_ & Htr & _)].
  cbn [fst snd] in *.
  destruct (token_facts k Hk) as ((_ & Hktr & _) & _ & _ & Hcol & _).
  change (k ++ ": " ++ t) with (k ++ String ":" (String " " t)).
  rewrite (indexOf_app ":" k _ Hcol), substring_prefix.
  replace (String.length k + 1) with (String.length (k ++ ":"))
    by (rewrite length_append_string; reflexivity).
  replace (k ++ String ":" (String " " t)) with ((k ++ ":") ++ String " " t)
    by (now rewrite string_app_assoc).
  rewrite substringFrom_skip.
  unfold isTrimmed in Hktr. rewrite Hktr.
  pose proof (trim_allSpace_app " " t eq_refl Htr) as Hsp.
  cbn [append] in Hsp. now rewrite Hsp.
Qed.

(** X27.  An inline mapping whose pairs are a key of letters and digits, a
    colon, a space and an atom is read pair by pair: each pair assigns its
    key the value [_parseValue] gives the atom, so a key written twice
    keeps its first place and its last value. *)
Lemma parseInlineObject_pairs (kvs : list (string * string)) :
  Forall (fun kv => isToken (fst kv) = true /\ isAtom (snd kv)) kvs ->
  _parseInlineObject
    (Spec.inlineMapping (map (fun kv => fst kv ++ ": " ++ snd kv) kvs))
  = fold_left (fun o kv => objSet (fst kv) (_parseValue (snd kv)) o) kvs
      emptyObject.
Proof. apply parseInlineObject_join. Qed.

Lemma parseInlineObject_pairs_witness :
  _parseInlineObject "{a: 1, b: x y, a: None}"
  = VObject ObjectPrototype [("a", VNull); ("b", VString "x y")].
Proof.
  apply (parseInlineObject_pairs [("a", "1"); ("b", "x y"); ("a", "None")]).
  repeat constructor; discriminate.
Defined.

(** *** Block sequences of pure values *)

Lemma fillDashes_sequential (dashes : list value) :
  forall a,
    (N.of_nat (List.length a + List.length dashes) <= 4294967295)%N ->
    fillDashes dashes [] (N.of_nat (List.length a)) a
    = (a ++ map Some dashes)%list.
Proof.
  induction dashes as [| d ds IH]; intros a Hb.
  - cbn. now rewrite app_nil_r.
  - cbn [fillDashes List.length skipClaimed includesIndex existsb].
    cbn [List.length] in Hb.
    assert (Hset : arraySet (N.of_nat (List.length a)) d a
                   = (a ++ [Some d])%list).
    { unfold arraySet.
      destruct (N.ltb_spec (N.of_nat (List.length a)) 4294967295)
        as [_ | E]; [ | lia ].
      rewrite Nat2N.id, Nat.ltb_irrefl, Nat.sub_diag. reflexivity. }
    rewrite Hset.
    replace (N.of_nat (List.length a) + 1)%N
      with (N.of_nat (List.length (a ++ [Some d]))).
    + rewrite IH.
      * cbn [map]. now rewrite <- app_assoc.
      * rewrite length_app. cbn [List.length]. lia.
    + rewrite length_app. cbn [List.length]. lia.
Qed.

Lemma fillHoles_Some (vs : list value) : fillHoles (map Some vs) = vs.
Proof.
  unfold fillHoles. rewrite map_map. cbn. apply map_id.
Qed.

Lemma span_app (ws t : string) :
  allSpace ws = true ->
  match t with String c _ => isSpace c = false | EmptyString => True end ->
  span isSpace (ws ++ t) = (ws, t).
Proof.
  intros Hw Ht. induction ws as [| c ws IH]; cbn [append].
  - destruct t as [| c r]; [ reflexivity | ]. cbn [span]. now rewrite Ht.
  - cbn in Hw. apply andb_true_iff in Hw. destruct Hw as [Hc Hw].
    cbn [span]. now rewrite Hc, (IH Hw).
Qed.

Lemma repeat_space (n : nat) :
  allSpace (repeatStr " " n) = true
  /\ String.length (repeatStr " " n) = n
  /\ lacks ":" (repeatStr " " n) = true
  /\ isPlain (repeatStr " " n) = true
  /\ lacks LF (repeatStr " " n) = true
  /\ includes (str1 TAB) (repeatStr " " n) = false.
Proof.
  induction n as [| n (H1 & H2 & H3 & H4 & H5 & H6)]; [ now repeat split | ].
  cbn [repeatStr append].
  change (" " ++ repeatStr " " n) with (String " " (repeatStr " " n)).
  repeat split.
  - cbn. exact H1.
  - cbn. now rewrite H2.
  - cbn. exact H3.
  - cbn. exact H4.
  - cbn. exact H5.
  - unfold str1 in *. rewrite includes_cons, H6. reflexivity.
Qed.

Lemma lacks_includes (c : ascii) (s : string) :
  lacks c s = true -> includes (String c EmptyString) s = false.
Proof.
  induction s as [| d s IH]; [ reflexivity | ]. intros H.
  apply lacks_cons in H. destruct H as [Hd Hs].
  now rewrite includes_cons, (Ascii.eqb_sym c d), Hd, IH.
Qed.

Lemma token_type (t : string) :
  isToken t = true -> isContainerType (_getValueType t) = false.
Proof.
  intros Ht. apply isToken_inv in Ht. destruct Ht as [Hn Hs].
  destruct t as [| c r]; [ now contradiction Hn | ].
  cbn in Hs. apply andb_true_iff in Hs. destruct Hs as [Hc _].
  unfold _getValueType.
  assert (H2 : String.eqb (String c r) "{}" = false
               /\ String.eqb (String c r) "[]" = false
               /\ isBracketed (String c r) = false
               /\ isBraced (String c r) = false).
  { unfold isBracketed, isBraced, startsWith. rewrite !prefix_str1.
    destruct c as [[] [] [] [] [] [] [] []]; cbn in Hc; try discriminate Hc;
      now repeat split. }
  destruct H2 as (-> & -> & -> & ->).
  repeat match goal with
         | |- context [ if ?b then _ else _ ] => destruct b
         end; reflexivity.
Qed.

Lemma token_not_comment (t : string) :
  isToken t = true -> isCommentLine t = false.
Proof.
  intros Ht. apply isToken_inv in Ht. destruct Ht as [Hn Hs].
  destruct t as [| c r]; [ now contradiction Hn | ].
  cbn in Hs. apply andb_true_iff in Hs. destruct Hs as [Hc _].
  unfold isCommentLine, startsWith. rewrite prefix_str1.
  cbn [String.prefix].
  destruct c as [[] [] [] [] [] [] [] []]; cbn in Hc; try discriminate Hc;
    reflexivity.
Qed.

(** A pure-value line under an open sequence, in the values format. *)
Lemma processLine_item (this : SimpleParser) (m : nat) (t key : string)
    (v : value) (cs done : list astNode) :
  indentType this = Some space -> indentSize this = Some (S m) ->
  isToken t = true ->
  processLine this {| p_arrayFormat := Values |} (repeatStr " " (S m) ++ t)
    {| fnode := Node key v tArray 0 (Some cs); findent := 0 |}
    [{| fnode := Root done; findent := (-1)%Z |}]
  = Ok ({| fnode := Node key v tArray 0 (Some (cs ++ [itemNode t])%list);
           findent := 0 |},
        [{| fnode := Root done; findent := (-1)%Z |}]).
Proof.
  intros Hty Hsz Ht.
  destruct (repeat_space (S m)) as (Hsp & Hlen & Hcol & _ & _ & _).
  destruct (token_facts t Ht)
    as ((Hne & Htr & _) & _ & _ & Htcol & _ & (c & r & Hs & Hc) & _).
  assert (Hspan : span isSpace (repeatStr " " (S m) ++ t)
                  = (repeatStr " " (S m), t)).
  { apply span_app; [ exact Hsp | ]. rewrite Hs. exact Hc. }
  assert (Hlevel : _getIndentLevel this (repeatStr " " (S m) ++ t) = 1).
  { unfold _getIndentLevel. rewrite Hty, Hspan, Hsz, Hlen.
    apply Nat.div_same. discriminate. }
  assert (Htrim : trim (repeatStr " " (S m) ++ t) = t)
    by (now apply trim_allSpace_app).
  assert (Hinc : includes ":" (repeatStr " " (S m) ++ t) = false).
  { apply lacks_includes. unfold lacks. rewrite forallb_app.
    unfold lacks in Hcol, Htcol. now rewrite Hcol, Htcol. }
  assert (He : isEmpty t = false) by (rewrite Hs; reflexivity).
  unfold processLine. rewrite Hlevel, Htrim, Hinc, He.
  rewrite (token_not_comment t Ht).
  cbn [popFrames findent Z.geb Z.compare Z.of_nat Pos.of_succ_nat fst snd].
  cbn. reflexivity.
Qed.

Lemma linesLoop_items (this : SimpleParser) (m : nat) (key : string) (v : value)
    (done : list astNode) (items : list string) :
  indentType this = Some space -> indentSize this = Some (S m) ->
  Forall (fun t => isToken t = true) items ->
  forall cs,
    linesLoop this {| p_arrayFormat := Values |}
      (map (fun t => repeatStr " " (S m) ++ t) items)
      {| fnode := Node key v tArray 0 (Some cs); findent := 0 |}
      [{| fnode := Root done; findent := (-1)%Z |}]
    = Ok (Root (done ++ [Node key v tArray 0
                           (Some (cs ++ map itemNode items)%list)])%list).
Proof.
  intros Hty Hsz. induction 1 as [| t items Ht _ IH]; intros cs.
  - cbn. now rewrite app_nil_r.
  - cbn [map linesLoop]. rewrite (processLine_item this m t key v cs done Hty Hsz Ht).
    rewrite IH. cbn [map]. now rewrite <- app_assoc.
Qed.

Lemma arrayLoop_items (items : list string) :
  Forall (fun t => isToken t = true) items ->
  forall st,
    arrayLoop (fun c => _astToObject c) (map itemNode items) st
    = Ok {| array := array st; explicitIndices := explicitIndices st;
            dashIndices := (dashIndices st ++ map _parseValue items)%list |}.
Proof.
  induction 1 as [| t items Ht _ IH]; intros st.
  - cbn. rewrite app_nil_r. now destruct st.
  - cbn [map arrayLoop itemNode nodeKey String.eqb Ascii.eqb Bool.eqb].
    cbn [andb]. unfold itemNode at 1.
    pose proof (token_type t Ht) as Hty.
    assert (Hm : _astToObject (Node "-" (_parseValue t) (_getValueType t) 1 None)
                 = Ok (_parseValue t)).
    { cbn [_astToObject]. destruct (_getValueType t); try reflexivity;
        discriminate Hty. }
    change (itemNode t) with (Node "-" (_parseValue t) (_getValueType t) 1 None).
    cbn [nodeKey]. change (String.eqb "-" "-") with true. cbv iota.
    rewrite Hm, IH. cbn [array explicitIndices dashIndices map].
    now rewrite <- app_assoc.
Qed.

(** A text without quotes, slashes and hashes goes to the block parser
    line by line. *)
Lemma parse_plain_lines (this : SimpleParser) (ls : list string)
    (options : parseOptions) :
  Forall (fun l => isPlain l = true /\ lacks LF l = true) ls ->
  fst (parse this (unlines ls) options)
  = match linesLoop (_detectIndentType (filter nonBlank ls) this) options
            (filter nonBlank ls) rootFrame [] with
    | Ok a => _astToObject a
    | Throw e => Throw e
    end.
Proof.
  intros Hls.
  assert (Hplain : isPlain (unlines ls) = true).
  { apply unlines_forallb; [ reflexivity | ].
    eapply Forall_impl; [ | exact Hls ]. now intros l [Hl _]. }
  assert (Hlines : _processMultilineStrings (unlines ls) = filter nonBlank ls).
  { apply processMultilineStrings_unlines.
    eapply Forall_impl; [ | exact Hls ]. intros l [Hp Hl].
    split; [ now apply plain_noQuote | exact Hl ]. }
  unfold parse, _removeComments.
  rewrite <- (string_app_nil_r (unlines ls)) at 1.
  rewrite removeCommentsFrom_plain_app by exact Hplain.
  cbn [removeCommentsFrom]. rewrite string_app_nil_r, Hlines.
  unfold _linesToAst, rootFrame.
  now destruct (linesLoop _ options (filter nonBlank ls) _ []).
Qed.

Lemma opening_line (key : string) :
  isWord key = true ->
  let line := key ++ ": []" in
  isFlatLine line = true /\ nonBlank line = true
  /\ lineNode line = Node key (VArray []) tArray 0 (Some []).
Proof.
  intros Hk. cbv zeta.
  pose proof (entryLine_facts defaultStringifyOptions (key, VArray [])
                Hk (fv_array [] (Nat.le_0_l 3) (Forall_nil _))) as H.
  cbv zeta in H. unfold entryLine in H. cbn [fst snd _objectToSimple] in H.
  cbn [List.length Nat.eqb fst] in H.
  change (key ++ ": " ++ "[]") with (key ++ ": []") in H.
  destruct H as (Hf & Hn & Htr & He).
  repeat split; try assumption.
  unfold lineNode. rewrite Htr.
  destruct (token_facts key (word_token key Hk))
    as ((_ & Hktr & _) & _ & _ & Hkcol & _).
  change (key ++ ": []") with (key ++ String ":" " []").
  rewrite (parseKeyValue_split key " []" tObject Hkcol).
  unfold isTrimmed in Hktr. rewrite Hktr. reflexivity.
Qed.

Lemma item_line (m : nat) (t : string) :
  isToken t = true ->
  let line := repeatStr " " (S m) ++ t in
  isPlain line = true /\ lacks LF line = true /\ nonBlank line = true
  /\ isEmpty (trim line) || isCommentLine (trim line) = false
  /\ span isSpace line = (repeatStr " " (S m), t)
  /\ trimEnd line = line /\ line <> EmptyString.
Proof.
  intros Ht. cbv zeta.
  destruct (repeat_space (S m)) as (Hsp & Hlen & _ & Hpl & Hlf & _).
  destruct (token_facts t Ht)
    as ((Hne & Htr & _) & Htpl & Htlf & _ & _ & (c & r & Hs & Hc) & Hlast).
  assert (Htrim : trim (repeatStr " " (S m) ++ t) = t)
    by (now apply trim_allSpace_app).
  unfold isPlain, lacks in *. rewrite !forallb_app, Hpl, Htpl, Hlf, Htlf.
  unfold nonBlank. rewrite Htrim, (token_not_comment t Ht).
  repeat split.
  - rewrite Hs. reflexivity.
  - rewrite Hs. reflexivity.
  - apply span_app; [ exact Hsp | ]. rewrite Hs. exact Hc.
  - apply trimEnd_last. rewrite last_app by exact Hne. exact Hlast.
  - cbn [repeatStr append]. discriminate.
Qed.

Lemma parse_values_lines (this : SimpleParser) (key : string) (m : nat)
    (items : list string) :
  isWord key = true ->
  Forall (fun t => isToken t = true) items ->
  (N.of_nat (List.length items) <= 4294967295)%N ->
  fst (parse this (unlines (valuesBlock key (repeatStr " " (S m)) items))
         {| p_arrayFormat := Values |})
  = Ok (VObject ObjectPrototype [(key, VArray (map _parseValue items))]).
Proof.
  intros Hk Hit Hb.
  destruct (opening_line key Hk) as (Hf & Hn & Hnode). cbv zeta in *.
  assert (Hitems : Forall (fun l => isPlain l = true /\ lacks LF l = true
                                    /\ nonBlank l = true)
                          (map (fun t => repeatStr " " (S m) ++ t) items)).
  { apply Forall_map. eapply Forall_impl; [ | exact Hit ].
    intros t Ht. now destruct (item_line m t Ht) as (H1 & H2 & H3 & _). }
  assert (Hall : Forall (fun l => isPlain l = true /\ lacks LF l = true)
                        (valuesBlock key (repeatStr " " (S m)) items)).
  { constructor.
    - apply isFlatLine_inv in Hf. now destruct Hf as (H1 & H2 & _).
    - eapply Forall_impl; [ | exact Hitems ]. now intros l (H1 & H2 & _). }
  assert (Hfilter : filter nonBlank (valuesBlock key (repeatStr " " (S m)) items)
                    = valuesBlock key (repeatStr " " (S m)) items).
  { apply forallb_filter_id. apply forallb_forall. intros l [<- | Hl].
    - exact Hn.
    - rewrite Forall_forall in Hitems. now apply Hitems. }
  rewrite (parse_plain_lines _ _ _ Hall), Hfilter.
  set (this1 := _detectIndentType _ this).
  assert (Hstyle : items <> [] ->
                   indentType this1 = Some space
                   /\ indentSize this1 = Some (S m)).
  { intros Hne. destruct items as [| t r]; [ now contradiction Hne | ].
    inversion Hit as [| ? ? Ht _]; subst.
    destruct (item_line m t Ht) as (_ & _ & _ & Hskip & Hspan & _).
    cbv zeta in Hskip, Hspan.
    unfold this1, _detectIndentType, valuesBlock. cbn [map].
    assert (Hno : noIndentedLine [key ++ ": []"]).
    { constructor; [ | constructor ]. right.
      destruct (flat_line_facts _ Hf Hn) as (_ & _ & _ & Hsp). exact Hsp. }
    assert (Hws : repeatStr " " (S m) <> EmptyString)
      by (cbn [repeatStr append]; discriminate).
    pose proof (detectLoop_first [key ++ ": []"] (repeatStr " " (S m) ++ t)
                  (map (fun t => repeatStr " " (S m) ++ t) r) this
                  (repeatStr " " (S m)) t Hno Hskip Hspan Hws) as Hd.
    cbn [app] in Hd. rewrite Hd.
    destruct (repeat_space (S m)) as (_ & Hlen & _ & _ & _ & Htab).
    rewrite Htab. cbn [indentType indentSize]. now rewrite Hlen. }
  unfold valuesBlock. cbn [linesLoop].
  pose proof (processLine_flat this1 {| p_arrayFormat := Values |}
                (key ++ ": []") [] None Hf Hn) as Hp.
  cbv zeta in Hp. rewrite Hnode in Hp. cbn in Hp.
  unfold rootFrame. rewrite Hp.
  assert (Hloop : linesLoop this1 {| p_arrayFormat := Values |}
                    (map (fun t => repeatStr " " (S m) ++ t) items)
                    {| fnode := Node key (VArray []) tArray 0 (Some []);
                       findent := 0 |}
                    [{| fnode := Root []; findent := (-1)%Z |}]
                  = Ok (Root [Node key (VArray []) tArray 0
                                (Some (map itemNode items))])).
  { destruct items as [| t r] eqn:E; [ reflexivity | ].
    destruct Hstyle as [Hty Hsz]; [ discriminate | ].
    rewrite <- E in *.
    now rewrite (linesLoop_items this1 m key (VArray []) [] items Hty Hsz Hit []). }
  rewrite Hloop. cbn [_astToObject objectLoop nodeTypeOf isContainerType].
  rewrite (arrayLoop_items items Hit emptyArrayState).
  cbn [nodeKey]. unfold finishArray, emptyArrayState.
  cbn [array explicitIndices dashIndices app].
  pose proof (fillDashes_sequential (map _parseValue items) []) as Hfill.
  cbn [List.length Nat.add N.of_nat app] in Hfill.
  rewrite Hfill by (rewrite length_map; exact Hb).
  rewrite fillHoles_Some, length_map.
  unfold emptyObject.
  rewrite objSet_word by (exact Hk || intros []).
  destruct items; reflexivity.
Qed.

Lemma unlines_trimEnd_stable (lines : list string) :
  Forall (fun l => l <> EmptyString /\ trimEnd l = l) lines ->
  trimEnd (unlines lines) = unlines lines.
Proof.
  induction 1 as [| x r [Hn Hx] Hr IH]; [ reflexivity | ].
  destruct r as [| y r]; [ exact Hx | ].
  change (unlines (x :: y :: r)) with (x ++ String LF (unlines (y :: r))).
  assert (Hy : unlines (y :: r) <> EmptyString).
  { inversion Hr as [| ? ? [Hy _] _]; subst.
    destruct r; [ exact Hy | ].
    destruct y; [ now contradiction Hy | discriminate ]. }
  assert (Ht : trimEnd (String LF (unlines (y :: r)))
               = String LF (unlines (y :: r))).
  { cbn [trimEnd]. rewrite IH.
    destruct (unlines (y :: r)); [ now contradiction Hy | ].
    now rewrite andb_false_r. }
  rewrite trimEnd_app_nonempty; rewrite Ht; [ reflexivity | discriminate ].
Qed.

(** A block whose first line does not start with whitespace and whose
    lines do not end with whitespace loses its last linefeed to [trim]. *)
Lemma trim_block (c : ascii) (x : string) (r : list string) :
  isSpace c = false ->
  Forall (fun l => l <> EmptyString /\ trimEnd l = l) (String c x :: r) ->
  trim (blockText (String c x :: r)) = unlines (String c x :: r).
Proof.
  intros Hc H. rewrite blockText_unlines by discriminate.
  unfold trim. rewrite trimStart_head.
  - rewrite trimEnd_app_allSpace by reflexivity.
    now apply unlines_trimEnd_stable.
  - destruct r; exact Hc.
Qed.

Lemma valuesLoop_scalars (level : nat) (options : stringifyOptions)
    (ind : string) (arr : list value) (flag : bool) :
  Forall plainScalar arr ->
  valuesLoop (fun x f => _objectToSimple x level options f) ind arr flag
  = (blockText (map (fun v => ind ++ fst (_objectToSimple v level options flag))
                    arr), flag).
Proof.
  induction 1 as [| v arr Hv _ IH]; [ reflexivity | ].
  cbn [valuesLoop map blockText fold_right].
  destruct (plainScalar_text v level options flag Hv) as (t & Ht & _).
  rewrite Ht, IH. cbn [fst]. now rewrite !string_app_assoc.
Qed.

Lemma roundTrip_values (this : SimpleParser) (key : string)
    (arr : list value) (m : nat) (c : bool) :
  isWord key = true ->
  3 < List.length arr ->
  (N.of_nat (List.length arr) <= 4294967295)%N ->
  Forall plainScalar arr ->
  let sopts := {| indent := S m; indentChar := " "; compact := c;
                  s_arrayFormat := Values |} in
  fst (stringify this (VObject ObjectPrototype [(key, VArray arr)]) sopts)
  = unlines (valuesBlock key (repeatStr " " (2 * S m))
               (map (fun v => fst (_objectToSimple v 2 sopts true)) arr))
  /\ roundTrip this (VObject ObjectPrototype [(key, VArray arr)]) sopts
       {| p_arrayFormat := Values |}
     = Ok (VObject ObjectPrototype [(key, VArray arr)]).
Proof.
  intros Hk Hlen Hb Harr sopts.
  set (ind := repeatStr " " (2 * S m)).
  set (items := map (fun v => fst (_objectToSimple v 2 sopts true)) arr).
  assert (Htok : Forall (fun t => isToken t = true) items).
  { unfold items. apply Forall_map. eapply Forall_impl; [ | exact Harr ].
    intros v Hv.
    destruct (plainScalar_text v 2 sopts true Hv) as (t & -> & Ht & _).
    exact Ht. }
  assert (Hval : map _parseValue items = arr).
  { unfold items. rewrite map_map. rewrite <- (map_id arr) at 2.
    apply map_ext_in. intros v Hv. rewrite Forall_forall in Harr.
    destruct (plainScalar_text v 2 sopts true (Harr v Hv))
      as (t & -> & _ & Hp & _).
    exact Hp. }
  assert (Hm : 2 * S m = S (m + S (m + 0))) by reflexivity.
  assert (Hlines : Forall (fun l => l <> EmptyString /\ trimEnd l = l)
                          (map (fun t => ind ++ t) items)).
  { apply Forall_map. eapply Forall_impl; [ | exact Htok ]. intros t Ht.
    unfold ind. rewrite Hm.
    destruct (item_line (m + S (m + 0)) t Ht) as (_ & _ & _ & _ & _ & H1 & H2).
    now split. }
  assert (Harray : _objectToSimple (VArray arr) 1 sopts true
                   = (unlines ("[]" :: map (fun t => ind ++ t) items), true)).
  { cbn [_objectToSimple]. unfold _shouldInlineArray.
    destruct (Nat.eqb_spec (List.length arr) 0) as [E | _]; [ lia | ].
    destruct (Nat.ltb_spec 3 (List.length arr)) as [_ | E]; [ | lia ].
    cbn [s_arrayFormat sopts].
    rewrite (valuesLoop_scalars 2 sopts _ arr true Harr).
    f_equal.
    change (map (fun v => _getIndentString (1 + 1) sopts
                          ++ fst (_objectToSimple v 2 sopts true)) arr)
      with (map (fun v => ind ++ fst (_objectToSimple v 2 sopts true)) arr).
    replace (map (fun v => ind ++ fst (_objectToSimple v 2 sopts true)) arr)
      with (map (fun t => ind ++ t) items)
      by (unfold items; now rewrite map_map).
    change ("[]" ++ str1 LF ++ blockText (map (fun t => ind ++ t) items))
      with (blockText ("[]" :: map (fun t => ind ++ t) items)).
    apply (trim_block "[" "]"); [ reflexivity | ].
    constructor; [ split; [ discriminate | reflexivity ] | exact Hlines ]. }
  destruct (token_facts key (word_token key Hk))
    as (_ & _ & _ & _ & _ & (kc & kr & Hks & Hkc) & Hklast).
  assert (Htext : _objectToSimple (VObject ObjectPrototype [(key, VArray arr)]) 0 sopts false
                  = (unlines (valuesBlock key ind items), true)).
  { cbn [_objectToSimple _shouldInlineObject List.length Nat.eqb Nat.ltb
           Nat.leb inlineEntriesLoop isObjectLike].
    cbn [entriesLoop]. change (0 + 1) with 1. rewrite Harray.
    unfold _getIndentString. cbn [Nat.mul repeatStr append].
    f_equal.
    change (unlines ("[]" :: map (fun t => ind ++ t) items))
      with (join (str1 LF) ("[]" :: map (fun t => ind ++ t) items)).
    assert (Hne : map (fun t => ind ++ t) items <> []).
    { unfold items. destruct arr; [ cbn in Hlen; lia | discriminate ]. }
    transitivity (trim (blockText (valuesBlock key ind items))).
    - f_equal. unfold valuesBlock.
      change (blockText ((key ++ ": []") :: map (fun t => ind ++ t) items))
        with ((key ++ ": []") ++ str1 LF
              ++ blockText (map (fun t => ind ++ t) items)).
      rewrite (blockText_unlines _ Hne).
      destruct (map (fun t => ind ++ t) items) as [| l ls];
        [ now contradiction Hne | ].
      rewrite join_cons2. unfold unlines.
      rewrite !string_app_assoc. reflexivity.
    - unfold valuesBlock. rewrite Hks.
      change (String kc kr ++ ": []") with (String kc (kr ++ ": []")).
      apply (trim_block kc); [ exact Hkc | ].
      constructor; [ | exact Hlines ].
      split; [ discriminate | ].
      apply trimEnd_last.
      change (String kc (kr ++ ": []")) with (String kc kr ++ ": []").
      rewrite last_app by discriminate. reflexivity. }
  unfold roundTrip, stringify. rewrite Htext. cbn [fst].
  split; [ reflexivity | ].
  unfold ind. rewrite Hm.
  rewrite parse_values_lines; [ now rewrite Hval | exact Hk | exact Htok | ].
  unfold items. now rewrite length_map.
Qed.

(** X28.  In the values format, the lines of letters and digits indented
    by spaces under a line [key: []] become the elements of the sequence
    of [key], in their order, each with the value [_parseValue] gives
    it. *)
Lemma parse_values_block (this : SimpleParser) (key : string) (m : nat)
    (items : list string) :
  isWord key = true ->
  Forall (fun t => isToken t = true) items ->
  (N.of_nat (List.length items) <= 4294967295)%N ->
  fst (parse this (unlines (valuesBlock key (repeatStr " " (S m)) items))
         {| p_arrayFormat := Values |})
  = Ok (VObject ObjectPrototype [(key, VArray (map _parseValue items))]).
Proof. apply parse_values_lines. Qed.

Lemma parse_values_block_witness :
  fst (parse constructor
         (unlines (valuesBlock "k" (repeatStr " " 2) ["1"; "x"; "None"]))
         {| p_arrayFormat := Values |})
  = Ok (VObject ObjectPrototype [("k", VArray (map _parseValue ["1"; "x"; "None"]))]).
Proof.
  apply (parse_values_block constructor "k" 1 ["1"; "x"; "None"]).
  - reflexivity.
  - repeat constructor.
  - cbn. lia.
Defined.

(** X29.  In the values format, with spaces as the indentation
    character, a mapping with one word key and a sequence of more than
    three plain scalars is written as the line [key: []] and one indented
    line per element, and [parse] reads that text back as the same
    mapping.  A plain scalar is [null], a natural number of at most 15
    digits, or a string that is a word other than [None], [true] and
    [false]. *)
Lemma roundTrip_values_sequence (this : SimpleParser) (key : string)
    (arr : list value) (m : nat) (c : bool) :
  isWord key = true ->
  3 < List.length arr ->
  (N.of_nat (List.length arr) <= 4294967295)%N ->
  Forall plainScalar arr ->
  let sopts := {| indent := S m; indentChar := " "; compact := c;
                  s_arrayFormat := Values |} in
  fst (stringify this (VObject ObjectPrototype [(key, VArray arr)]) sopts)
  = unlines (valuesBlock key (repeatStr " " (2 * S m))
               (map (fun v => fst (_objectToSimple v 2 sopts true)) arr))
  /\ roundTrip this (VObject ObjectPrototype [(key, VArray arr)]) sopts
       {| p_arrayFormat := Values |}
     = Ok (VObject ObjectPrototype [(key, VArray arr)]).
Proof. apply roundTrip_values. Qed.

Lemma roundTrip_values_sequence_witness :
  let arr := [VNull; VNumber (indexNumber 2); VString "x";
              VNumber (indexNumber 40)] in
  let sopts := {| indent := 2; indentChar := " "; compact := false;
                  s_arrayFormat := Values |} in
  fst (stringify constructor (VObject ObjectPrototype [("k", VArray arr)]) sopts)
  = unlines (valuesBlock "k" (repeatStr " " (2 * 2))
               (map (fun v => fst (_objectToSimple v 2 sopts true)) arr))
  /\ roundTrip constructor (VObject ObjectPrototype [("k", VArray arr)]) sopts
       {| p_arrayFormat := Values |}
     = Ok (VObject ObjectPrototype [("k", VArray arr)]).
Proof.
  apply (roundTrip_values_sequence constructor "k"
           [VNull; VNumber (indexNumber 2); VString "x";
            VNumber (indexNumber 40)] 1 false).
  - reflexivity.
  - cbn. lia.
  - cbn. lia.
  - constructor; [ apply ps_null | ].
    constructor; [ apply ps_nat; cbn; lia | ].
    constructor; [ apply ps_word; [ reflexivity | discriminate .. ] | ].
    constructor; [ apply ps_nat; cbn; lia | ].
    constructor.
Defined.
